(** * BlenderModelToSVG: depth sorting and polygon cutting

    A shallow embedding of the visibility core of [model_to_svg_full.py]
    (classes [ViewPolygon], [BSPNode], [OctreeNode], [Octree] and
    [DepthSorter]) together with the properties stated about it.

    Conventions of the embedding.
    - Python floats are modelled by exact rationals ([Q]): comparisons are
      those of the source, while sums, quotients and midpoints are exact
      where the source rounds them; rounding and NaN are outside the model.
    - Python exceptions are modelled by the error type [result]; a [while]
      loop whose termination is not syntactically evident takes a [fuel]
      argument and returns [None] when the fuel runs out.
    - Functions of the external libraries [mathutils] and [shapely] are the
      fields of the class [MathUtils]; their contracts, where a proof needs
      them, are the fields of [MathUtilsLaws].
    - Mutable node objects are modelled by a tree value together with paths
      into it: a path plays the role of the object reference.  Polygons are
      values; distinct list entries stand for distinct objects. *)

From Stdlib Require Import QArith Qabs Lqa ZArith List Lia Bool.
From Stdlib Require Import Permutation Sorted String Morphisms Setoid.
Import ListNotations.
Open Scope Q_scope.

(** ** Exceptions *)

Inductive exn : Type :=
| IndexError
| TypeError
| RecursionError
| ZeroDivisionError
| AttributeError.

Inductive result (A : Type) : Type :=
| Ok (a : A)
| Raise (e : exn).

Arguments Ok {A} a.
Arguments Raise {A} e.

Definition bind {A B : Type} (r : result A) (k : A -> result B) : result B :=
  match r with
  | Ok a => k a
  | Raise e => Raise e
  end.

Notation "x <- r ;; k" := (bind r (fun x => k))
  (at level 61, r at next level, right associativity).
Notation "' pat <- r ;; k" := (bind r (fun x => match x with pat => k end))
  (at level 61, pat pattern, r at next level, right associativity).

(** Python indexing [l[k]], negative indices counting from the end. *)
Definition list_index {A : Type} (l : list A) (k : Z) : result A :=
  let n := Z.of_nat (List.length l) in
  let k' := (if k <? 0 then k + n else k)%Z in
  if (k' <? 0)%Z then Raise IndexError
  else match nth_error l (Z.to_nat k') with
       | Some a => Ok a
       | None => Raise IndexError
       end.

(** ** Numbers and vectors *)

Definition Qltb (x y : Q) : bool := negb (Qle_bool y x).

Definition PLANE_DISTANCE_THRESHOLD : Q := 0.001.
Definition POLYGON_CULL_THRESHOLD : Q := 1e-6.
Definition POLYGON_CUT_PRECISION : Q := 1000.

Definition vec : Type := Q * Q * Q.

Definition vx (v : vec) : Q := fst (fst v).
Definition vy (v : vec) : Q := snd (fst v).
Definition vz (v : vec) : Q := snd v.

Definition vsub (a b : vec) : vec := (vx a - vx b, vy a - vy b, vz a - vz b).
Definition vadd (a b : vec) : vec := (vx a + vx b, vy a + vy b, vz a + vz b).
Definition vdiv (a : vec) (c : Q) : vec := (vx a / c, vy a / c, vz a / c).

(** [a @ b] on [mathutils.Vector]. *)
Definition dot (a b : vec) : Q := vx a * vx b + vy a * vy b + vz a * vz b.

(** ** External library functions

    [distance_point_to_plane pt plane_co plane_no], [intersect_line_plane
    line_a line_b plane_co plane_no] (which answers [None] when there is no
    intersection) and [Vector.normalized] come from [mathutils];
    [overlaps p q] stands for
    [ShapelyPolygon(p).overlaps(ShapelyPolygon(q))]. *)

Class MathUtils : Type := {
  distance_point_to_plane : vec -> vec -> vec -> Q;
  intersect_line_plane : vec -> vec -> vec -> vec -> option vec;
  normalized : vec -> vec;
  overlaps : list (Q * Q) -> list (Q * Q) -> bool
}.

(** ** ViewPolygon *)

(** The list [[xMin, xMax, yMin, yMax, zMin, zMax]]; field [bK] is entry
    [bounds[K]]. *)
Record Bounds : Type := mkBounds {
  b0 : Q; b1 : Q; b2 : Q; b3 : Q; b4 : Q; b5 : Q
}.

Definition color : Type := Q * Q * Q.

Record ViewPolygon : Type := mkViewPolygon {
  verts : list vec;
  depth : Q;
  rgb_color : color;
  stroke_color : color;
  opacity : Q;
  stroke_opacity : Q;
  normal : vec;
  marked : bool;
  bounds : option Bounds
}.

Definition set_verts (p : ViewPolygon) (vs : list vec) : ViewPolygon :=
  mkViewPolygon vs (depth p) (rgb_color p) (stroke_color p) (opacity p)
                (stroke_opacity p) (normal p) (marked p) (bounds p).

Definition set_bounds (p : ViewPolygon) (b : Bounds) : ViewPolygon :=
  mkViewPolygon (verts p) (depth p) (rgb_color p) (stroke_color p) (opacity p)
                (stroke_opacity p) (normal p) (marked p) (Some b).

Definition set_depth (p : ViewPolygon) (d : Q) : ViewPolygon :=
  mkViewPolygon (verts p) d (rgb_color p) (stroke_color p) (opacity p)
                (stroke_opacity p) (normal p) (marked p) (bounds p).

(** Python's two-argument [min] and [max]. *)
Definition py_min (a b : Q) : Q := if Qltb b a then b else a.
Definition py_max (a b : Q) : Q := if Qltb a b then b else a.

Definition bounds_step (b : Bounds) (vert : vec) : Bounds :=
  mkBounds (py_min (vx vert) (b0 b)) (py_max (vx vert) (b1 b))
           (py_min (vy vert) (b2 b)) (py_max (vy vert) (b3 b))
           (py_min (vz vert) (b4 b)) (py_max (vz vert) (b5 b)).

(** [ViewPolygon.recalculate_bounds] *)
Definition recalculate_bounds (view_polygon : ViewPolygon) : result ViewPolygon :=
  v0 <- list_index (verts view_polygon) 0 ;;
  let init := mkBounds (vx v0) (vx v0) (vy v0) (vy v0) (vz v0) (vz v0) in
  Ok (set_bounds view_polygon (fold_left bounds_step (verts view_polygon) init)).

(** [ViewPolygon(verts, depth, rgb_color, opacity, set_bounds=True)]; the
    value of [mathutils.geometry.normal(verts)] is the argument [normal]. *)
Definition view_polygon (verts : list vec) (depth : Q) (rgb_color : color)
           (opacity : Q) (normal : vec) : ViewPolygon :=
  mkViewPolygon verts depth rgb_color rgb_color opacity opacity normal false
    (match verts with
     | [] => None
     | v0 :: _ =>
         Some (fold_left bounds_step verts
                 (mkBounds (vx v0) (vx v0) (vy v0) (vy v0) (vz v0) (vz v0)))
     end).

(** The style metadata of a polygon: fill colour, stroke colour and the two
    opacities. *)
Definition style (p : ViewPolygon) : color * color * Q * Q :=
  (rgb_color p, stroke_color p, opacity p, stroke_opacity p).

(** ** DepthSorter: classification against a plane *)

Section Classification.
Context {MU : MathUtils}.

(** The three-way comparison of [vert_relative_pos], for a plane given by
    a point and a normal. *)
Definition classify (plane_point plane_normal vert : vec) : Z :=
  let distance := distance_point_to_plane vert plane_point plane_normal in
  if Qltb (Qabs distance) PLANE_DISTANCE_THRESHOLD then 0%Z
  else if Qltb 0 distance then 1%Z else (-1)%Z.

(** [DepthSorter.vert_relative_pos]: -1 behind, 0 within the threshold,
    1 in front. *)
Definition vert_relative_pos (plane_polygon : ViewPolygon) (vert : vec) : result Z :=
  plane_point <- list_index (verts plane_polygon) 0 ;;
  let distance := distance_point_to_plane vert plane_point (normal plane_polygon) in
  if Qltb (Qabs distance) PLANE_DISTANCE_THRESHOLD then Ok 0%Z
  else if Qltb 0 distance then Ok 1%Z
  else Ok (-1)%Z.

(** [DepthSorter.vert_relative_pos_bool] *)
Definition vert_relative_pos_bool (plane_polygon : ViewPolygon) (vert : vec) : result bool :=
  plane_point <- list_index (verts plane_polygon) 0 ;;
  let dir_vector := vsub vert plane_point in
  let dot_product := dot dir_vector (normal plane_polygon) in
  if Qle_bool 0 dot_product then Ok true else Ok false.

(** The [for vert in polygon_p.verts] loop of [relative_pos], on the flags
    [(all_front, all_back)]. *)
Fixpoint relative_pos_scan (plane_polygon : ViewPolygon) (vs : list vec)
         (all_front all_back : bool) : result (bool * bool) :=
  match vs with
  | [] => Ok (all_front, all_back)
  | vert :: rest =>
      vert_rel_pos <- vert_relative_pos plane_polygon vert ;;
      if (vert_rel_pos =? 1)%Z then relative_pos_scan plane_polygon rest all_front false
      else if (vert_rel_pos =? -1)%Z then relative_pos_scan plane_polygon rest false all_back
      else relative_pos_scan plane_polygon rest all_front all_back
  end.

(** [DepthSorter.relative_pos]: -1 behind the plane, 0 in collision,
    1 in front. *)
Definition relative_pos (plane_polygon polygon_p : ViewPolygon) : result Z :=
  '(all_front, all_back) <- relative_pos_scan plane_polygon (verts polygon_p) true true ;;
  if all_front then Ok 1%Z
  else if all_back then Ok (-1)%Z
  else Ok 0%Z.

(** ** DepthSorter: fragments and cutting *)

Definition coord_difference (a b : vec) : Q :=
  Qabs (vx a - vx b) + Qabs (vy a - vy b) + Qabs (vz a - vz b).

(** The loop [for i in range(0, len(verts) - 1)] of [is_fragment]. *)
Fixpoint difference_sum_from (acc : Q) (vs : list vec) : Q :=
  match vs with
  | a :: ((b :: _) as rest) => difference_sum_from (acc + coord_difference a b) rest
  | _ => acc
  end.

Definition difference_sum (vs : list vec) : Q := difference_sum_from 0 vs.

(** [DepthSorter.is_fragment] *)
Definition is_fragment (view_polygon : ViewPolygon) : bool :=
  if (List.length (verts view_polygon) <? 3)%nat then true
  else if Qltb (Qabs (difference_sum (verts view_polygon))) POLYGON_CULL_THRESHOLD then true
  else false.

(** The local variables of the vertex loop of [cut_conflicting]. *)
Record cut_state : Type := mkCut {
  currently_in_front : bool;
  front_pol_verts : list vec;
  back_pol_verts : list vec
}.

(** One iteration of [for i, vert in enumerate(verts)]; [verts_p] is the
    local [verts].  The [try] block
    fails with [TypeError] exactly when [intersect_line_plane] answers
    [None] (subscripting [None]), before anything is appended; the handler
    then appends [vert] to both rings. *)
Definition cut_step (plane_polygon : ViewPolygon) (verts_p : list vec)
           (st : cut_state) (i : nat) (vert : vec) : result cut_state :=
  in_front <- vert_relative_pos_bool plane_polygon vert ;;
  if in_front then
    if currently_in_front st then
      Ok (mkCut true (front_pol_verts st ++ [vert]) (back_pol_verts st))
    else
      next_vert <- list_index verts_p ((Z.of_nat i - 1) mod Z.of_nat (List.length verts_p)) ;;
      let intersect_dir :=
        vdiv (normalized (vsub next_vert vert)) POLYGON_CUT_PRECISION in
      plane_point <- list_index (verts plane_polygon) 0 ;;
      match intersect_line_plane vert next_vert plane_point (normal plane_polygon) with
      | Some intersect_vert =>
          Ok (mkCut true
                (front_pol_verts st ++ [vsub intersect_vert intersect_dir; vert])
                (back_pol_verts st ++ [vadd intersect_vert intersect_dir]))
      | None =>
          Ok (mkCut true (front_pol_verts st ++ [vert]) (back_pol_verts st ++ [vert]))
      end
  else
    if currently_in_front st then
      next_vert <- list_index verts_p ((Z.of_nat i - 1) mod Z.of_nat (List.length verts_p)) ;;
      let intersect_dir :=
        vdiv (normalized (vsub next_vert vert)) POLYGON_CUT_PRECISION in
      plane_point <- list_index (verts plane_polygon) 0 ;;
      match intersect_line_plane vert next_vert plane_point (normal plane_polygon) with
      | Some intersect_vert =>
          Ok (mkCut false
                (front_pol_verts st ++ [vadd intersect_vert intersect_dir])
                (back_pol_verts st ++ [vsub intersect_vert intersect_dir; vert]))
      | None =>
          Ok (mkCut false (front_pol_verts st ++ [vert]) (back_pol_verts st ++ [vert]))
      end
    else
      Ok (mkCut false (front_pol_verts st) (back_pol_verts st ++ [vert])).

(** The loop over [enumerate(verts)], from index [i] on. *)
Fixpoint cut_loop (plane_polygon : ViewPolygon) (verts_p : list vec)
         (st : cut_state) (i : nat) (todo : list vec) : result cut_state :=
  match todo with
  | [] => Ok st
  | vert :: rest =>
      st' <- cut_step plane_polygon verts_p st i vert ;;
      cut_loop plane_polygon verts_p st' (S i) rest
  end.

(** The two vertex rings built by [cut_conflicting]. *)
Definition cut_rings (plane_polygon polygon_p : ViewPolygon) : result cut_state :=
  let verts_p := verts polygon_p in
  last_vert <- list_index verts_p (-1) ;;
  currently_in_front <- vert_relative_pos_bool plane_polygon last_vert ;;
  cut_loop plane_polygon verts_p (mkCut currently_in_front [] []) 0 verts_p.

(** Culling of one result polygon: [None] for a fragment, otherwise the
    polygon with recalculated bounds. *)
Definition cull_fragment (p : ViewPolygon) : result (option ViewPolygon) :=
  if is_fragment p then Ok None
  else p' <- recalculate_bounds p ;; Ok (Some p').

(** [DepthSorter.cut_conflicting]: the pair (front fragment, back fragment).
    [polygon_q] is a deep copy of [polygon_p], so both results carry every
    attribute of the polygon that was cut except [verts] and [bounds]. *)
Definition cut_conflicting (plane_polygon polygon_p : ViewPolygon)
  : result (option ViewPolygon * option ViewPolygon) :=
  st <- cut_rings plane_polygon polygon_p ;;
  let polygon_p := set_verts polygon_p (front_pol_verts st) in
  let polygon_q := set_verts polygon_p (back_pol_verts st) in
  polygon_p' <- cull_fragment polygon_p ;;
  polygon_q' <- cull_fragment polygon_q ;;
  Ok (polygon_p', polygon_q').

(** ** DepthSorter: conflicts *)

Definition get_bounds (p : ViewPolygon) : result Bounds :=
  match bounds p with
  | Some b => Ok b
  | None => Raise TypeError
  end.

Definition proj_verts (p : ViewPolygon) : list (Q * Q) :=
  map (fun vert => (vx vert, vy vert)) (verts p).

(** [DepthSorter.in_conflict] *)
Definition in_conflict (polygon_p polygon_q : ViewPolygon) : result bool :=
  p_bounds <- get_bounds polygon_p ;;
  q_bounds <- get_bounds polygon_q ;;
  if (Qltb (b5 q_bounds) (b4 p_bounds) && Qltb (b5 q_bounds) (b5 p_bounds))
     || (Qltb (b4 p_bounds) (b4 q_bounds) && Qltb (b5 p_bounds) (b4 q_bounds))
  then Ok false
  else if (Qltb (b3 q_bounds) (b2 p_bounds) && Qltb (b3 q_bounds) (b3 p_bounds))
     || (Qltb (b2 p_bounds) (b2 q_bounds) && Qltb (b3 p_bounds) (b2 q_bounds))
  then Ok false
  else if (Qltb (b1 q_bounds) (b0 p_bounds) && Qltb (b1 q_bounds) (b1 p_bounds))
     || (Qltb (b0 p_bounds) (b0 q_bounds) && Qltb (b1 p_bounds) (b0 q_bounds))
  then Ok false
  else
    pos_p <- relative_pos polygon_q polygon_p ;;
    if negb (pos_p =? 0)%Z then Ok false
    else
      pos_q <- relative_pos polygon_p polygon_q ;;
      if negb (pos_q =? 0)%Z then Ok false
      else if negb (overlaps (proj_verts polygon_p) (proj_verts polygon_q)) then Ok false
      else Ok true.

End Classification.

(** ** DepthSorter: sorting by a heuristic *)

(** [list.sort(key = ..., reverse = True)].  Python's sort is stable, also
    under [reverse]: elements with equal keys keep their input order.  The
    model inserts each element, from the last to the first, in front of the
    first element whose key is not greater. *)
Fixpoint insert_reverse {A : Type} (key : A -> Q) (x : A) (l : list A) : list A :=
  match l with
  | [] => [x]
  | y :: l' => if Qltb (key x) (key y) then y :: insert_reverse key x l' else x :: l
  end.

Definition sort_reverse {A : Type} (key : A -> Q) (l : list A) : list A :=
  fold_right (insert_reverse key) [] l.

(** Evaluation of a fallible key on every element, as [list.sort] does
    before it compares anything. *)
Fixpoint map_result {A B : Type} (f : A -> result B) (l : list A) : result (list B) :=
  match l with
  | [] => Ok []
  | a :: l' => b <- f a ;; bs <- map_result f l' ;; Ok (b :: bs)
  end.

Definition sort_by_key (key : ViewPolygon -> result Q) (view_polygons : list ViewPolygon)
  : result (list ViewPolygon) :=
  keys <- map_result key view_polygons ;;
  Ok (map snd (sort_reverse fst (combine keys view_polygons))).

Definition key_bbmid (polygon : ViewPolygon) : result Q :=
  b <- get_bounds polygon ;; Ok ((b5 b + b4 b) / 2).
Definition key_bbmin (polygon : ViewPolygon) : result Q :=
  b <- get_bounds polygon ;; Ok (b4 b).
Definition key_bbmax (polygon : ViewPolygon) : result Q :=
  b <- get_bounds polygon ;; Ok (b5 b).
Definition key_depth (polygon : ViewPolygon) : result Q := Ok (depth polygon).

(** The body of [for polygon in view_polygons] under
    ["heuristic.weightmid"]: the mean of the vertex depths is stored in
    [polygon.depth]. *)
Definition weighted_depth (polygon : ViewPolygon) : result ViewPolygon :=
  let depth := fold_left (fun d vert => d + vz vert) (verts polygon) 0 in
  match verts polygon with
  | [] => Raise ZeroDivisionError
  | _ => Ok (set_depth polygon (depth / inject_Z (Z.of_nat (List.length (verts polygon)))))
  end.

(** [DepthSorter.depth_sort_bb_depth]; the result is the list after the
    in-place sort. *)
Definition depth_sort_bb_depth (view_polygons : list ViewPolygon)
           (sorting_heuristic : string) : result (list ViewPolygon) :=
  if String.eqb sorting_heuristic "heuristic.bbmid" then
    sort_by_key key_bbmid view_polygons
  else if String.eqb sorting_heuristic "heuristic.bbmin" then
    sort_by_key key_bbmin view_polygons
  else if String.eqb sorting_heuristic "heuristic.bbmax" then
    sort_by_key key_bbmax view_polygons
  else if String.eqb sorting_heuristic "heuristic.weightmid" then
    view_polygons' <- map_result weighted_depth view_polygons ;;
    sort_by_key key_depth view_polygons'
  else Raise TypeError.

(** ** BSPNode *)

(** A reference to a [BSPNode] object, or [None]. *)
Inductive BSPNode : Type :=
| NoneNode
| Node (front_node back_node : BSPNode) (is_leaf : bool)
       (polygon_list : list ViewPolygon).

(** [BSPNode()] *)
Definition new_node : BSPNode := Node NoneNode NoneNode true [].

(** A reference into the tree below the root: [true] follows [front_node],
    [false] follows [back_node]. *)
Definition path : Type := list bool.

Fixpoint lookup_node (root : BSPNode) (p : path) : BSPNode :=
  match p, root with
  | [], _ => root
  | d :: p', Node f b _ _ => lookup_node (if d then f else b) p'
  | _ :: _, NoneNode => NoneNode
  end.

Fixpoint update_node (root : BSPNode) (p : path) (n : BSPNode) : BSPNode :=
  match p, root with
  | [], _ => n
  | true :: p', Node f b l ps => Node (update_node f p' n) b l ps
  | false :: p', Node f b l ps => Node f (update_node b p' n) l ps
  | _ :: _, NoneNode => NoneNode
  end.

(** Python's [round(n / 2)] for a length [n]: halves round to the even
    neighbour. *)
Definition round_half (n : nat) : nat :=
  if Nat.even n then Nat.div2 n
  else if Nat.even (Nat.div2 n) then Nat.div2 n else S (Nat.div2 n).

(** [l.pop(i)] for [0 <= i]: the element and the remaining list. *)
Definition pop_at {A : Type} (l : list A) (i : nat) : result (A * list A) :=
  match nth_error l i with
  | Some a => Ok (a, firstn i l ++ skipn (S i) l)
  | None => Raise IndexError
  end.

(** [del l[i]] *)
Definition delete_at {A : Type} (l : list A) (i : nat) : list A :=
  firstn i l ++ skipn (S i) l.

Section BSP.
Context {MU : MathUtils}.

(** [child.polygon_list.append(polygon)], after [child = BSPNode()] when the
    child is still [None]. *)
Definition append_polygon (child : BSPNode) (polygon : ViewPolygon) : BSPNode :=
  match child with
  | NoneNode => Node NoneNode NoneNode true [polygon]
  | Node f b l ps => Node f b l (ps ++ [polygon])
  end.

(** The body of the splitting loop, which [depth_sort_bsp] (on the root) and
    [bsp_partition] (on a leaf) both contain; the state is the pair
    [(front_node, back_node)] of the node being split. *)
Definition split_step (part_plane : ViewPolygon) (children : BSPNode * BSPNode)
           (polygon : ViewPolygon) : result (BSPNode * BSPNode) :=
  let '(front, back) := children in
  pos <- relative_pos part_plane polygon ;;
  if (pos =? 1)%Z then Ok (append_polygon front polygon, back)
  else if (pos =? 0)%Z then
    cut_polygons <- cut_conflicting part_plane polygon ;;
    let front' := match fst cut_polygons with
                  | Some fragment => append_polygon front fragment
                  | None => front
                  end in
    let back' := match snd cut_polygons with
                 | Some fragment => append_polygon back fragment
                 | None => back
                 end in
    Ok (front', back')
  else Ok (front, append_polygon back polygon).

(** [for i in range(len(view_polygons) - 1, -1, -1)]: every iteration pops
    entry [i], so [todo] is the list from its last entry to its first and
    the list is empty afterwards. *)
Fixpoint split_loop (part_plane : ViewPolygon) (children : BSPNode * BSPNode)
         (todo : list ViewPolygon) : result (BSPNode * BSPNode) :=
  match todo with
  | [] => Ok children
  | polygon :: rest =>
      children' <- split_step part_plane children polygon ;;
      split_loop part_plane children' rest
  end.

(** The first loop of [bsp_partition] on one node: the node and whether it
    was split. *)
Definition partition_node (bsp_node : BSPNode) : result (BSPNode * bool) :=
  match bsp_node with
  | NoneNode => Raise AttributeError
  | Node f b l view_polygons =>
      if (1 <? List.length view_polygons)%nat then
        '(part_plane, rest) <- pop_at view_polygons (round_half (List.length view_polygons)) ;;
        '(f', b') <- split_loop part_plane (f, b) (rev rest) ;;
        Ok (Node f' b' false [part_plane], true)
      else Ok (bsp_node, false)
  end.

(** [for bsp_node in bsp_nodes] *)
Fixpoint partition_nodes (root : BSPNode) (changed : bool) (todo : list path)
  : result (BSPNode * bool) :=
  match todo with
  | [] => Ok (root, changed)
  | p :: rest =>
      '(node', split) <- partition_node (lookup_node root p) ;;
      partition_nodes (update_node root p node') (changed || split) rest
  end.

Definition child_paths (p : path) (node : BSPNode) : list path :=
  match node with
  | NoneNode => []
  | Node f b _ _ =>
      (match f with NoneNode => [] | _ => [p ++ [true]] end)
      ++ (match b with NoneNode => [] | _ => [p ++ [false]] end)
  end.

Definition node_is_leaf (node : BSPNode) : result bool :=
  match node with
  | NoneNode => Raise AttributeError
  | Node _ _ l _ => Ok l
  end.

(** One iteration of the second loop of [bsp_partition], at index [i]. *)
Definition relist_step (root : BSPNode) (bsp_nodes : list path) (i : nat)
  : result (list path) :=
  p <- list_index bsp_nodes (Z.of_nat i) ;;
  let node := lookup_node root p in
  leaf <- node_is_leaf node ;;
  if negb leaf then Ok (delete_at (bsp_nodes ++ child_paths p node) i)
  else Ok bsp_nodes.

(** [for i in range(len(bsp_nodes) - 1, -1, -1)] *)
Fixpoint relist_loop (root : BSPNode) (bsp_nodes : list path) (indices : list nat)
  : result (list path) :=
  match indices with
  | [] => Ok bsp_nodes
  | i :: rest =>
      bsp_nodes' <- relist_step root bsp_nodes i ;;
      relist_loop root bsp_nodes' rest
  end.

(** [DepthSorter.bsp_partition]: the tree and the list of leaf nodes after
    the call, and the returned flag. *)
Definition bsp_partition (root : BSPNode) (bsp_nodes : list path)
  : result (BSPNode * list path * bool) :=
  '(root', changed) <- partition_nodes root false bsp_nodes ;;
  bsp_nodes' <- relist_loop root' bsp_nodes (rev (seq 0 (List.length bsp_nodes))) ;;
  Ok (root', bsp_nodes', changed).

(** [while DepthSorter.bsp_partition(leaf_nodes): j += 1; if j >= cycle_limit:
    raise RecursionError].  The result carries the final value of [j]. *)
Fixpoint partition_cycles (fuel : nat) (root : BSPNode) (leaf_nodes : list path)
         (j cycle_limit : Z) : option (result (BSPNode * list path * Z)) :=
  match fuel with
  | O => None
  | S fuel' =>
      match bsp_partition root leaf_nodes with
      | Raise e => Some (Raise e)
      | Ok (root', leaf_nodes', changed) =>
          if changed then
            let j' := (j + 1)%Z in
            if (cycle_limit <=? j')%Z then Some (Raise RecursionError)
            else partition_cycles fuel' root' leaf_nodes' j' cycle_limit
          else Some (Ok (root', leaf_nodes', j))
      end
  end.

(** [DepthSorter.depth_sort_bsp] *)
Definition depth_sort_bsp (fuel : nat) (view_polygons : list ViewPolygon)
           (cycle_limit : Z) : option (result BSPNode) :=
  match view_polygons with
  | [] => Some (Ok new_node)
  | _ =>
      match pop_at view_polygons (round_half (List.length view_polygons)) with
      | Raise e => Some (Raise e)
      | Ok (root_plane, []) => Some (Ok (Node NoneNode NoneNode true [root_plane]))
      | Ok (root_plane, rest) =>
          match split_loop root_plane (NoneNode, NoneNode) (rev rest) with
          | Raise e => Some (Raise e)
          | Ok (front, back) =>
              let root := Node front back false [root_plane] in
              let leaf_nodes := child_paths [] root in
              match partition_cycles fuel root leaf_nodes 0 cycle_limit with
              | None => None
              | Some (Raise e) => Some (Raise e)
              | Some (Ok (root', _, _)) => Some (Ok root')
              end
          end
      end
  end.

(** [DepthSorter.bsp_tree_to_view_polygons]; the result is the list
    [view_polygons] after the call. *)
Fixpoint bsp_tree_to_view_polygons (root : BSPNode) (view_polygons : list ViewPolygon)
         (camera_pos : vec) : result (list ViewPolygon) :=
  match root with
  | NoneNode => Ok view_polygons
  | Node front back leaf polygon_list =>
      if leaf then
        polygon <- list_index polygon_list 0 ;;
        Ok (view_polygons ++ [polygon])
      else
        polygon <- list_index polygon_list 0 ;;
        plane_point <- list_index (verts polygon) 0 ;;
        let dir_vector := vsub plane_point camera_pos in
        if Qltb (dot dir_vector (normal polygon)) 0 then
          view_polygons1 <- bsp_tree_to_view_polygons back view_polygons camera_pos ;;
          bsp_tree_to_view_polygons front (view_polygons1 ++ [polygon]) camera_pos
        else
          view_polygons1 <- bsp_tree_to_view_polygons front view_polygons camera_pos ;;
          bsp_tree_to_view_polygons back (view_polygons1 ++ [polygon]) camera_pos
  end.

End BSP.

(** ** OctreeNode and Octree *)

(** An [OctreeNode] object.  The [parent] attribute is the position of the
    node in the tree: the parent of the node at path [p ++ [k]] is the node
    at path [p]. *)
#[local] Unset Elimination Schemes.
Inductive OctreeNode : Type :=
| ONode (node_bounds : Bounds) (node_depth : Z)
        (children : list (option OctreeNode))
        (unresolved resolved : list ViewPolygon) (nondivided : bool).
#[local] Set Elimination Schemes.

Definition node_bounds (n : OctreeNode) : Bounds :=
  match n with ONode b _ _ _ _ _ => b end.
Definition node_depth (n : OctreeNode) : Z :=
  match n with ONode _ d _ _ _ _ => d end.
Definition children (n : OctreeNode) : list (option OctreeNode) :=
  match n with ONode _ _ c _ _ _ => c end.
Definition unresolved (n : OctreeNode) : list ViewPolygon :=
  match n with ONode _ _ _ u _ _ => u end.
Definition resolved (n : OctreeNode) : list ViewPolygon :=
  match n with ONode _ _ _ _ r _ => r end.
Definition nondivided (n : OctreeNode) : bool :=
  match n with ONode _ _ _ _ _ nd => nd end.

Definition set_children (n : OctreeNode) (c : list (option OctreeNode)) : OctreeNode :=
  ONode (node_bounds n) (node_depth n) c (unresolved n) (resolved n) (nondivided n).
Definition set_unresolved (n : OctreeNode) (u : list ViewPolygon) : OctreeNode :=
  ONode (node_bounds n) (node_depth n) (children n) u (resolved n) (nondivided n).
Definition set_lists (n : OctreeNode) (u r : list ViewPolygon) : OctreeNode :=
  ONode (node_bounds n) (node_depth n) (children n) u r (nondivided n).

(** [OctreeNode(x_min, x_max, y_min, y_max, z_min, z_max, parent, depth)] *)
Definition new_octree_node (x_min x_max y_min y_max z_min z_max : Q) (depth : Z)
  : OctreeNode :=
  ONode (mkBounds x_min x_max y_min y_max z_min z_max) depth
        [None; None; None; None; None; None; None; None] [] [] true.

(** A reference to a node: the child indices from the root. *)
Definition opath : Type := list nat.

Definition update_nth {A : Type} (l : list A) (k : nat) (f : A -> A) : list A :=
  firstn k l ++ match nth_error l k with
                | Some a => f a :: skipn (S k) l
                | None => []
                end.

Fixpoint o_lookup (n : OctreeNode) (p : opath) : option OctreeNode :=
  match p with
  | [] => Some n
  | k :: p' =>
      match nth_error (children n) k with
      | Some (Some c) => o_lookup c p'
      | _ => None
      end
  end.

Fixpoint o_update (n : OctreeNode) (p : opath) (f : OctreeNode -> OctreeNode)
  : OctreeNode :=
  match p with
  | [] => f n
  | k :: p' =>
      set_children n
        (update_nth (children n) k (option_map (fun c => o_update c p' f)))
  end.

(** The [unresolved] lists met by [checked_node = checked_node.parent],
    starting at the parent of the node at [p] and ending at the root. *)
Fixpoint ancestors_unresolved (n : OctreeNode) (p : opath) : list (list ViewPolygon) :=
  match p with
  | [] => []
  | k :: p' =>
      match nth_error (children n) k with
      | Some (Some c) => ancestors_unresolved c p' ++ [unresolved n]
      | _ => []
      end
  end.

(** [OctreeNode.contains_polygon] *)
Definition contains_polygon (self : OctreeNode) (view_polygon : ViewPolygon) : result bool :=
  pb <- get_bounds view_polygon ;;
  let sb := node_bounds self in
  if Qltb (b0 pb) (b0 sb) || Qltb (b1 sb) (b1 pb)
     || Qltb (b2 pb) (b2 sb) || Qltb (b3 sb) (b3 pb)
     || Qltb (b4 pb) (b4 sb) || Qltb (b5 sb) (b5 pb)
  then Ok false else Ok true.

(** [for child in self.children: if child.contains_polygon(polygon): ...
    break]: the index of the first child that contains the polygon. *)
Fixpoint first_containing (cs : list (option OctreeNode)) (polygon : ViewPolygon)
         (k : nat) : result (option nat) :=
  match cs with
  | [] => Ok None
  | None :: _ => Raise AttributeError
  | Some child :: rest =>
      c <- contains_polygon child polygon ;;
      if c then Ok (Some k) else first_containing rest polygon (S k)
  end.

Definition append_unresolved (polygon : ViewPolygon) (n : OctreeNode) : OctreeNode :=
  set_unresolved n (unresolved n ++ [polygon]).

(** The loop [for polygon in self.unresolved] of [subdivide], which removes
    from the list it iterates: [i] is the position of the list iterator and
    [n] bounds the remaining iterations.  [self.unresolved.remove(polygon)]
    removes the entry under the iterator. *)
Fixpoint subdivide_move (n i : nat) (unres : list ViewPolygon)
         (cs : list (option OctreeNode))
  : result (list ViewPolygon * list (option OctreeNode)) :=
  match n with
  | O => Ok (unres, cs)
  | S n' =>
      match nth_error unres i with
      | None => Ok (unres, cs)
      | Some polygon =>
          found <- first_containing cs polygon 0 ;;
          match found with
          | Some k =>
              subdivide_move n' (S i) (delete_at unres i)
                (update_nth cs k (option_map (append_unresolved polygon)))
          | None => subdivide_move n' (S i) unres cs
          end
      end
  end.

(** [OctreeNode.subdivide] *)
Definition subdivide (self : OctreeNode) : result OctreeNode :=
  let b := node_bounds self in
  let x_half := (b1 b + b0 b) / 2 in
  let y_half := (b3 b + b2 b) / 2 in
  let z_half := (b5 b + b4 b) / 2 in
  let d := (node_depth self + 1)%Z in
  let cs :=
    [ Some (new_octree_node (b0 b) x_half (b2 b) y_half (b4 b) z_half d);
      Some (new_octree_node x_half (b1 b) (b2 b) y_half (b4 b) z_half d);
      Some (new_octree_node (b0 b) x_half y_half (b3 b) (b4 b) z_half d);
      Some (new_octree_node x_half (b1 b) y_half (b3 b) (b4 b) z_half d);
      Some (new_octree_node (b0 b) x_half (b2 b) y_half z_half (b5 b) d);
      Some (new_octree_node x_half (b1 b) (b2 b) y_half z_half (b5 b) d);
      Some (new_octree_node (b0 b) x_half y_half (b3 b) z_half (b5 b) d);
      Some (new_octree_node x_half (b1 b) y_half (b3 b) z_half (b5 b) d) ] in
  '(unres, cs') <- subdivide_move (List.length (unresolved self)) 0 (unresolved self) cs ;;
  Ok (ONode b (node_depth self) cs' unres (resolved self) false).

(** [OctreeNode.add_polygon]; the recursion into a child consumes fuel. *)
Fixpoint add_polygon (fuel : nat) (self : OctreeNode) (view_polygon : ViewPolygon)
  : option (result OctreeNode) :=
  match fuel with
  | O => None
  | S fuel' =>
      let descend (self : OctreeNode) : option (result OctreeNode) :=
        match first_containing (children self) view_polygon 0 with
        | Raise e => Some (Raise e)
        | Ok (Some k) =>
            match nth_error (children self) k with
            | Some (Some child) =>
                match add_polygon fuel' child view_polygon with
                | None => None
                | Some (Raise e) => Some (Raise e)
                | Some (Ok child') =>
                    Some (Ok (set_children self
                                (update_nth (children self) k (fun _ => Some child'))))
                end
            | _ => Some (Raise AttributeError)
            end
        | Ok None => Some (Ok (append_unresolved view_polygon self))
        end in
      if nondivided self then
        if (List.length (unresolved self) =? 0)%nat then
          Some (Ok (append_unresolved view_polygon self))
        else
          match subdivide self with
          | Raise e => Some (Raise e)
          | Ok self' => descend self'
          end
      else descend self
  end.

Record Octree : Type := mkOctree {
  root : OctreeNode;
  compressed : bool
}.

(** [Octree(xMin, xMax, yMin, yMax, zMin, zMax)] *)
Definition new_octree (xMin xMax yMin yMax zMin zMax : Q) : Octree :=
  mkOctree (new_octree_node xMin xMax yMin yMax zMin zMax 0) false.

(** [Octree.insert_polygon] *)
Definition insert_polygon (fuel : nat) (self : Octree) (view_polygon : ViewPolygon)
  : option (result Octree) :=
  if compressed self then Some (Raise TypeError)
  else match add_polygon fuel (root self) view_polygon with
       | None => None
       | Some (Raise e) => Some (Raise e)
       | Some (Ok root') => Some (Ok (mkOctree root' (compressed self)))
       end.

(** [for polygon in view_polygons: octree.insert_polygon(polygon)] *)
Fixpoint insert_polygons (fuel : nat) (octree : Octree) (view_polygons : list ViewPolygon)
  : option (result Octree) :=
  match view_polygons with
  | [] => Some (Ok octree)
  | polygon :: rest =>
      match insert_polygon fuel octree polygon with
      | None => None
      | Some (Raise e) => Some (Raise e)
      | Some (Ok octree') => insert_polygons fuel octree' rest
      end
  end.

(** The loop [for j, child in enumerate(nodes[i].children)] of
    [compress_tree] for the node at path [p]: the children after pruning and
    the references appended to [nodes]. *)
Fixpoint compress_children (p : opath) (j : nat) (cs : list (option OctreeNode))
  : list (option OctreeNode) * list opath :=
  match cs with
  | [] => ([], [])
  | c :: rest =>
      let '(rest', appended) := compress_children p (S j) rest in
      match c with
      | None => (None :: rest', appended)
      | Some child =>
          if (List.length (unresolved child) =? 0)%nat && nondivided child
          then (None :: rest', appended)
          else (Some child :: rest', (p ++ [j]) :: appended)
      end
  end.

(** [while i < len(nodes)] of [compress_tree] *)
Fixpoint compress_loop (fuel : nat) (root : OctreeNode) (nodes : list opath) (i : nat)
  : option (result (OctreeNode * list opath)) :=
  match fuel with
  | O => None
  | S fuel' =>
      match nth_error nodes i with
      | None => Some (Ok (root, nodes))
      | Some p =>
          match o_lookup root p with
          | None => Some (Raise AttributeError)
          | Some node =>
              let '(cs', appended) := compress_children p 0 (children node) in
              compress_loop fuel' (o_update root p (fun n => set_children n cs'))
                            (nodes ++ appended) (S i)
          end
      end
  end.

(** [Octree.compress_tree]: the octree afterwards and the returned list. *)
Definition compress_tree (fuel : nat) (self : Octree)
  : option (result (Octree * list opath)) :=
  match compress_loop fuel (root self) [[]] 0 with
  | None => None
  | Some (Raise e) => Some (Raise e)
  | Some (Ok (root', nodes)) => Some (Ok (mkOctree root' true, nodes))
  end.

Section OctreeResolve.
Context {MU : MathUtils}.

(** [while i < len(self.unresolved)] (and [while j < ...] on an ancestor):
    the first polygon of the list in conflict with [polygon]. *)
Fixpoint find_conflict (polygon : ViewPolygon) (others : list ViewPolygon)
  : result (option ViewPolygon) :=
  match others with
  | [] => Ok None
  | q :: rest =>
      c <- in_conflict polygon q ;;
      if c then Ok (Some q) else find_conflict polygon rest
  end.

(** [while checked_node is not None] *)
Fixpoint find_conflict_up (polygon : ViewPolygon) (ancestors : list (list ViewPolygon))
  : result (option ViewPolygon) :=
  match ancestors with
  | [] => Ok None
  | unres :: up =>
      c <- find_conflict polygon unres ;;
      match c with
      | Some q => Ok (Some q)
      | None => find_conflict_up polygon up
      end
  end.

Definition option_list {A : Type} (o : option A) : list A :=
  match o with Some a => [a] | None => [] end.

(** One iteration of [while len(self.unresolved) > 0] on the lists
    [(unresolved, resolved)] of the node. *)
Definition resolve_step (ancestors : list (list ViewPolygon))
           (unres res : list ViewPolygon)
  : result (list ViewPolygon * list ViewPolygon) :=
  match unres with
  | [] => Ok (unres, res)
  | polygon :: others =>
      inner <- find_conflict polygon others ;;
      match inner with
      | Some q =>
          '(pf, pb) <- cut_conflicting q polygon ;;
          Ok (others ++ option_list pf ++ option_list pb, res)
      | None =>
          outer <- find_conflict_up polygon ancestors ;;
          match outer with
          | Some q =>
              '(pf, pb) <- cut_conflicting q polygon ;;
              Ok (others ++ option_list pf ++ option_list pb, res)
          | None => Ok (others, res ++ [polygon])
          end
      end
  end.

Fixpoint resolve_loop (fuel : nat) (ancestors : list (list ViewPolygon))
         (unres res : list ViewPolygon)
  : option (result (list ViewPolygon * list ViewPolygon)) :=
  match fuel with
  | O => None
  | S fuel' =>
      match unres with
      | [] => Some (Ok (unres, res))
      | _ =>
          match resolve_step ancestors unres res with
          | Raise e => Some (Raise e)
          | Ok (unres', res') => resolve_loop fuel' ancestors unres' res'
          end
      end
  end.

(** [OctreeNode.resolve_node] on the node at path [p] of the tree. *)
Definition resolve_node (fuel : nat) (root : OctreeNode) (p : opath)
  : option (result OctreeNode) :=
  match o_lookup root p with
  | None => Some (Raise AttributeError)
  | Some self =>
      match resolve_loop fuel (ancestors_unresolved root p)
                         (unresolved self) (resolved self) with
      | None => None
      | Some (Raise e) => Some (Raise e)
      | Some (Ok (unres, res)) =>
          Some (Ok (o_update root p (fun n => set_lists n unres res)))
      end
  end.

(** [for node in nodes: node.resolve_node()] *)
Fixpoint resolve_nodes (fuel : nat) (root : OctreeNode) (nodes : list opath)
  : option (result OctreeNode) :=
  match nodes with
  | [] => Some (Ok root)
  | p :: rest =>
      match resolve_node fuel root p with
      | None => None
      | Some (Raise e) => Some (Raise e)
      | Some (Ok root') => resolve_nodes fuel root' rest
      end
  end.

Definition depth_key (root : OctreeNode) (p : opath) : Q :=
  match o_lookup root p with
  | Some n => inject_Z (node_depth n)
  | None => 0
  end.

(** [Octree.resolve_conflicts] *)
Definition resolve_conflicts (fuel : nat) (self : Octree) : option (result Octree) :=
  match compress_tree fuel self with
  | None => None
  | Some (Raise e) => Some (Raise e)
  | Some (Ok (self', nodes)) =>
      let nodes' := sort_reverse (depth_key (root self')) nodes in
      match resolve_nodes fuel (root self') nodes' with
      | None => None
      | Some (Raise e) => Some (Raise e)
      | Some (Ok root') => Some (Ok (mkOctree root' (compressed self')))
      end
  end.

End OctreeResolve.

(** ** Reference implementations in exact arithmetic

    An instance of [MathUtils] on which the functions above can be run.  Its
    fields follow the documented behaviour of the library functions, with
    rationals in place of floats: the signed distance to a plane, the
    intersection of the line through two points with a plane (none when the
    direction is parallel to the plane up to [FLT_EPSILON]), the vector
    scaled to unit length.  [exact_sqrt] is exact on squares of rationals,
    which is all the examples below use.  [rect_overlaps] is the [overlaps]
    predicate of shapely on axis-parallel rectangles: the interiors meet and
    neither rectangle contains the other. *)

Definition FLT_EPSILON : Q := 1 # 8388608.

Definition exact_sqrt (q : Q) : Q :=
  match Qnum (Qred q) with
  | Zpos n => Z.pos (Pos.sqrt n) # Pos.sqrt (Qden (Qred q))
  | _ => 0
  end.

Definition vscale (c : Q) (a : vec) : vec := (c * vx a, c * vy a, c * vz a).

Definition exact_distance_point_to_plane (pt plane_co plane_no : vec) : Q :=
  dot (vsub pt plane_co) plane_no / exact_sqrt (dot plane_no plane_no).

Definition exact_intersect_line_plane (line_a line_b plane_co plane_no : vec)
  : option vec :=
  let u := vsub line_b line_a in
  let h := vsub line_a plane_co in
  let d := dot plane_no u in
  if Qltb FLT_EPSILON (Qabs d)
  then Some (vadd line_a (vscale (- dot plane_no h / d) u))
  else None.

Definition exact_normalized (v : vec) : vec := vdiv v (exact_sqrt (dot v v)).

Definition rect_of (p : list (Q * Q)) : option (Q * Q * Q * Q) :=
  match p with
  | [] => None
  | (x, y) :: _ =>
      Some (fold_left
              (fun r pt => let '(x0, x1, y0, y1) := r in
                           (py_min (fst pt) x0, py_max (fst pt) x1,
                            py_min (snd pt) y0, py_max (snd pt) y1))
              p (x, x, y, y))
  end.

Definition rect_overlaps (p q : list (Q * Q)) : bool :=
  match rect_of p, rect_of q with
  | Some (px0, px1, py0, py1), Some (qx0, qx1, qy0, qy1) =>
      (Qltb px0 qx1 && Qltb qx0 px1 && Qltb py0 qy1 && Qltb qy0 py1)
      && negb (Qle_bool qx0 px0 && Qle_bool px1 qx1 && Qle_bool qy0 py0 && Qle_bool py1 qy1)
      && negb (Qle_bool px0 qx0 && Qle_bool qx1 px1 && Qle_bool py0 qy0 && Qle_bool qy1 py1)
  | _, _ => false
  end.

Definition exact_utils : MathUtils :=
  {| distance_point_to_plane := exact_distance_point_to_plane;
     intersect_line_plane := exact_intersect_line_plane;
     normalized := exact_normalized;
     overlaps := rect_overlaps |}.

(** ** Example polygons *)

Module Examples.

Definition grey : color := (128, 128, 128).

(** The unit square in the plane [z = 0]. *)
Definition ground : ViewPolygon :=
  view_polygon [(0, 0, 0); (1, 0, 0); (1, 1, 0); (0, 1, 0)] 0 grey 1 (0, 0, 1).

(** A triangle within half a thousandth of the plane [z = 0]. *)
Definition film : ViewPolygon :=
  view_polygon [(0, 0, 0.0005); (1, 0, -0.0005); (0, 1, 0)] 0 grey 1 (0, 0, 1).

(** A unit square in the plane [y = 0] that the plane [z = 0] cuts in
    half. *)
Definition wall : ViewPolygon :=
  view_polygon [(0, 0, -0.5); (1, 0, -0.5); (1, 0, 0.5); (0, 0, 0.5)] 0 grey 1 (0, 1, 0).

(** A triangle in the plane [y = 0] with one edge from just below the plane
    [z = 0] to a vertex on it; the edge is parallel to that plane up to
    [FLT_EPSILON]. *)
Definition sliver : ViewPolygon :=
  view_polygon [(1, 0, -1e-8); (0, 0, 0); (0, 0, 1)] 0 grey 1 (0, 1, 0).

(** A square in the plane [z = 5] and a rectangle that rises through it;
    their projections are the squares [[0,2] x [0,2]] and [[1,3] x [1,3]]. *)
Definition table : ViewPolygon :=
  view_polygon [(0, 0, 5); (2, 0, 5); (2, 2, 5); (0, 2, 5)] 5 grey 1 (0, 0, 1).

Definition ramp : ViewPolygon :=
  view_polygon [(1, 1, 4.5); (3, 1, 6); (3, 3, 6); (1, 3, 4.5)] 5.25 grey 1
               (-0.6, 0, 0.8).

(** Three axis-parallel unit squares at depths 1, 2 and 3 whose projections
    are apart. *)
Definition square (x z : Q) : ViewPolygon :=
  view_polygon [(x, 0, z); (x + 1, 0, z); (x + 1, 1, z); (x, 1, z)] z grey 1 (0, 0, 1).

Definition square1 : ViewPolygon := square 0 1.
Definition square2 : ViewPolygon := square 2 2.
Definition square3 : ViewPolygon := square 4 3.

(** Fifteen parallel unit squares, in the planes [x = 1] to [x = 15]. *)
Definition slab (c : Q) : ViewPolygon :=
  view_polygon [(c, 0, 0); (c, 1, 0); (c, 1, 1); (c, 0, 1)] 0 grey 1 (1, 0, 0).

Definition slabs : list ViewPolygon :=
  map (fun k => slab (inject_Z (Z.of_nat k))) (seq 1 15).

(** A triangle in the plane [z = 0], a triangle in the plane [x = 0] above
    it, and a triangle in the plane [y = 0] that the plane [x = 0] cuts:
    its lowest vertex lies on the plane [x = 0], half a thousandth below
    the plane [z = 0]. *)
Definition floor_tri : ViewPolygon :=
  view_polygon [(0, 0, 0); (1, 0, 0); (0, 1, 0)] 0 grey 1 (0, 0, 1).

Definition divider : ViewPolygon :=
  view_polygon [(0, 0, 5); (0, 1, 5); (0, 0, 6)] 5 grey 1 (1, 0, 0).

Definition kite : ViewPolygon :=
  view_polygon [(-3, 0, 3.9995); (0, 0, -0.0005); (3, 0, 3.9995)] 3 grey 1 (0, 1, 0).



End Examples.

(** ** Auxiliary definitions for the statements *)

(** The index [(i - 1) % len] of the vertex before vertex [i]. *)
Definition prev_index (i len : nat) : nat :=
  match i with
  | O => (len - 1)%nat
  | S k => k
  end.

Section CutSpec.
Context {MU : MathUtils}.

(** What one iteration of the vertex loop appends, for the side [side] of
    the vertex, the flag [flag] and the vertex [next_vert] before it. *)
Definition cut_appends (plane_point plane_normal : vec) (side flag : bool)
           (vert next_vert : vec) : list vec * list vec :=
  let intersect_dir := vdiv (normalized (vsub next_vert vert)) POLYGON_CUT_PRECISION in
  if Bool.eqb side flag then
    if side then ([vert], []) else ([], [vert])
  else
    match intersect_line_plane vert next_vert plane_point plane_normal with
    | None => ([vert], [vert])
    | Some intersect_vert =>
        if side
        then ([vsub intersect_vert intersect_dir; vert], [vadd intersect_vert intersect_dir])
        else ([vadd intersect_vert intersect_dir], [vsub intersect_vert intersect_dir; vert])
    end.

(** The side of a vertex of a plane given by a point and a normal: in front
    when the dot product of the offset with the normal is not negative. *)
Definition in_front_of (plane_point plane_normal vert : vec) : bool :=
  Qle_bool 0 (dot (vsub vert plane_point) plane_normal).

(** What vertex [i] of the ring [vs] adds to the front ring and to the back
    ring: it is compared with the vertex before it on the ring, which for
    the first vertex is the last one. *)
Definition ring_step (plane_point plane_normal : vec) (vs : list vec) (i : nat)
  : list vec * list vec :=
  match nth_error vs i, nth_error vs (prev_index i (List.length vs)) with
  | Some vert, Some next_vert =>
      cut_appends plane_point plane_normal
                  (in_front_of plane_point plane_normal vert)
                  (in_front_of plane_point plane_normal next_vert)
                  vert next_vert
  | _, _ => ([], [])
  end.

(** The parts of the two rings that come from the vertices [from], ...,
    [from + count - 1]. *)
Definition front_part (plane_point plane_normal : vec) (vs : list vec)
           (from count : nat) : list vec :=
  flat_map (fun i => fst (ring_step plane_point plane_normal vs i)) (seq from count).

Definition back_part (plane_point plane_normal : vec) (vs : list vec)
           (from count : nat) : list vec :=
  flat_map (fun i => snd (ring_step plane_point plane_normal vs i)) (seq from count).

(** The vertex rings of the two fragments of the ring [vs]. *)
Definition front_ring (plane_point plane_normal : vec) (vs : list vec) : list vec :=
  front_part plane_point plane_normal vs 0 (List.length vs).

Definition back_ring (plane_point plane_normal : vec) (vs : list vec) : list vec :=
  back_part plane_point plane_normal vs 0 (List.length vs).

End CutSpec.

(** The summed absolute coordinate deltas of a vertex list: for every two
    consecutive vertices the absolute differences of their x, of their y and
    of their z coordinates. *)
Definition summed_deltas (vs : list vec) : Q :=
  fold_right Qplus 0
    (map (fun ab => Qabs (vx (fst ab) - vx (snd ab))
                    + Qabs (vy (fst ab) - vy (snd ab))
                    + Qabs (vz (fst ab) - vz (snd ab)))
         (combine vs (tl vs))).

(** The bounding box of the polygon is the one computed from its vertices
    (by the constructor with [set_bounds] or by [recalculate_bounds]). *)
Definition bounds_computed (p : ViewPolygon) : Prop :=
  match verts p with
  | [] => False
  | v0 :: _ =>
      bounds p = Some (fold_left bounds_step (verts p)
                         (mkBounds (vx v0) (vx v0) (vy v0) (vy v0) (vz v0) (vz v0)))
  end.






(** The test of [in_conflict] for no overlap on one axis. *)
Definition axis_apart (p_min p_max q_min q_max : Q) : bool :=
  (Qltb q_max p_min && Qltb q_max p_max) || (Qltb p_min q_min && Qltb p_max q_min).

(** Minimum below maximum on every axis. *)
Definition box_ordered (b : Bounds) : Prop :=
  b0 b <= b1 b /\ b2 b <= b3 b /\ b4 b <= b5 b.


(** ** The keys of the sorting heuristics *)

(** The mean of the vertex depths, which ["heuristic.weightmid"] stores in
    [polygon.depth]. *)
Definition mean_depth (p : ViewPolygon) : Q :=
  fold_left (fun d vert => d + vz vert) (verts p) 0
  / inject_Z (Z.of_nat (List.length (verts p))).

(** The scalar by which [depth_sort_bb_depth] compares, per heuristic. *)
Definition heuristic_key (sorting_heuristic : string) (p : ViewPolygon) : Q :=
  let b := match bounds p with
           | Some b => b
           | None => mkBounds 0 0 0 0 0 0
           end in
  if String.eqb sorting_heuristic "heuristic.bbmid" then (b5 b + b4 b) / 2
  else if String.eqb sorting_heuristic "heuristic.bbmin" then b4 b
  else if String.eqb sorting_heuristic "heuristic.bbmax" then b5 b
  else mean_depth p.

(** The list that is sorted: under ["heuristic.weightmid"] every polygon
    first receives its mean depth. *)
Definition sort_input (sorting_heuristic : string) (l : list ViewPolygon)
  : list ViewPolygon :=
  if String.eqb sorting_heuristic "heuristic.weightmid"
  then map (fun p => set_depth p (mean_depth p)) l
  else l.

Definition heuristics : list string :=
  ["heuristic.bbmin"; "heuristic.bbmid"; "heuristic.bbmax"; "heuristic.weightmid"]%string.

(** ** Auxiliary definitions for the BSP statements *)

Definition is_node (n : BSPNode) : Prop :=
  match n with NoneNode => False | Node _ _ _ _ => True end.

Definition node_polys (n : BSPNode) : list ViewPolygon :=
  match n with NoneNode => [] | Node _ _ _ ps => ps end.

(** The node is not a leaf. *)
Definition nonleaf (n : BSPNode) : Prop :=
  match n with NoneNode => False | Node _ _ l _ => l = false end.

(** The node holds more than one polygon. *)
Definition crowded (n : BSPNode) : Prop := (1 < List.length (node_polys n))%nat.

(** The number of nodes that have been subdivided. *)
Fixpoint subdivided_nodes (n : BSPNode) : nat :=
  match n with
  | NoneNode => O
  | Node f b l _ => ((if l then 0 else 1) + subdivided_nodes f + subdivided_nodes b)%nat
  end.

(** Every node holds exactly one polygon. *)
Fixpoint single_polygons (n : BSPNode) : Prop :=
  match n with
  | NoneNode => True
  | Node f b _ ps => List.length ps = 1%nat /\ single_polygons f /\ single_polygons b
  end.

(** The back-to-front order of the painter's algorithm, in the words of the
    specification: at a leaf the polygon of the leaf; at an internal node,
    with the viewpoint in front of the plane of the node's polygon (the dot
    product of first vertex minus viewpoint with the normal is negative),
    the back subtree, the polygon, the front subtree, and otherwise the
    front subtree, the polygon, the back subtree. *)
Fixpoint painter_order (root : BSPNode) (viewpoint : vec) : list ViewPolygon :=
  match root with
  | NoneNode => []
  | Node front back leaf ps =>
      match ps with
      | [] => []
      | polygon :: _ =>
          if leaf then [polygon]
          else
            let first := hd (0, 0, 0) (verts polygon) in
            if Qltb (dot (vsub first viewpoint) (normal polygon)) 0
            then painter_order back viewpoint ++ [polygon] ++ painter_order front viewpoint
            else painter_order front viewpoint ++ [polygon] ++ painter_order back viewpoint
      end
  end.

Section TreeInvariant.
(** [G] is what is known of every polygon in the tree, [C plane k q] what is
    known of a polygon [q] handed to the front ([k = 1]) or back ([k = -1])
    child of a node split by [plane]. *)
Variable G : ViewPolygon -> Prop.
Variable C : ViewPolygon -> Z -> ViewPolygon -> Prop.

Definition child_ok (plane : ViewPolygon) (k : Z) (child : BSPNode) : Prop :=
  Forall (C plane k) (node_polys child).

(** A child as the splitting loop creates it. *)
Definition fresh_child (plane : ViewPolygon) (k : Z) (child : BSPNode) : Prop :=
  child = NoneNode \/
  exists ps, child = Node NoneNode NoneNode true ps /\ ps <> [] /\
             Forall G ps /\ Forall (C plane k) ps.

(** The invariant of the tree under construction: no node is empty, a leaf
    has no children, a subdivided node keeps exactly its splitting polygon
    and its children hold what the split handed them. *)
Fixpoint tree_inv (n : BSPNode) : Prop :=
  match n with
  | NoneNode => True
  | Node f b leaf ps =>
      ps <> [] /\ Forall G ps /\
      (if leaf then f = NoneNode /\ b = NoneNode
       else exists plane, ps = [plane] /\ child_ok plane 1 f /\ child_ok plane (-1) b) /\
      tree_inv f /\ tree_inv b
  end.

End TreeInvariant.

Section Separation.
Context {MU : MathUtils}.

(** Every polygon in the leaves below [n] has classification [k] against
    [plane]. *)
Fixpoint leaves_classified (plane : ViewPolygon) (k : Z) (n : BSPNode) : Prop :=
  match n with
  | NoneNode => True
  | Node f b leaf ps =>
      (if leaf then Forall (fun q => relative_pos plane q = Ok k) ps else True) /\
      leaves_classified plane k f /\ leaves_classified plane k b
  end.

(** Every leaf polygon is Front of each ancestor whose front child lies on
    its path and Behind each ancestor whose back child lies on its path. *)
Fixpoint ancestors_separate (n : BSPNode) : Prop :=
  match n with
  | NoneNode => True
  | Node f b leaf ps =>
      (if leaf then True
       else forall plane, In plane ps ->
                          leaves_classified plane 1 f /\ leaves_classified plane (-1) b) /\
      ancestors_separate f /\ ancestors_separate b
  end.

(** The polygons of a node are Front of the polygon of the parent when the
    node is the front child, Behind when it is the back child. *)
Fixpoint parents_separate (n : BSPNode) : Prop :=
  match n with
  | NoneNode => True
  | Node f b leaf ps =>
      (if leaf then True
       else forall plane, In plane ps ->
                          Forall (fun q => relative_pos plane q = Ok 1%Z) (node_polys f) /\
                          Forall (fun q => relative_pos plane q = Ok (-1)%Z) (node_polys b)) /\
      parents_separate f /\ parents_separate b
  end.

End Separation.

(** ** Contracts of the library functions

    In exact arithmetic: for a unit normal the signed distance is the dot
    product of the offset with the normal; an intersection point lies on the
    plane; there is no intersection point only for a direction that is
    parallel to the plane up to a tolerance below the distance threshold;
    [normalized] scales by a non-negative factor. *)
Class MathUtilsLaws (MU : MathUtils) : Prop := {
  distance_unit_normal : forall pt co no,
    dot no no == 1 -> distance_point_to_plane pt co no == dot (vsub pt co) no;
  intersect_on_plane : forall a b co no x,
    intersect_line_plane a b co no = Some x -> dot (vsub x co) no == 0;
  intersect_none_parallel : forall a b co no,
    dot no no == 1 -> intersect_line_plane a b co no = None ->
    Qabs (dot (vsub b a) no) < PLANE_DISTANCE_THRESHOLD;
  normalized_scales : forall v, exists c,
    0 <= c /\ vx (normalized v) == c * vx v /\
    vy (normalized v) == c * vy v /\ vz (normalized v) == c * vz v
}.

(** A polygon as the mesh conversion delivers it: it has vertices and its
    normal has unit length. *)
Definition well_formed (p : ViewPolygon) : Prop :=
  verts p <> [] /\ dot (normal p) (normal p) == 1.

(** Two nodes agree on their own attributes [is_leaf] and [polygon_list]. *)
Definition same_top (a b : BSPNode) : Prop :=
  match a, b with
  | NoneNode, NoneNode => True
  | Node _ _ l ps, Node _ _ l' ps' => l = l' /\ ps = ps'
  | _, _ => False
  end.

(** The flag [is_leaf] of the node at a path. *)
Definition leaf_flag (root : BSPNode) (p : path) : bool :=
  match lookup_node root p with
  | Node _ _ l _ => l
  | NoneNode => true
  end.

(** The list of leaf nodes after the second loop of [bsp_partition]: the
    entries that are still leaves, then the children of the others, those of
    the last entry first. *)
Definition relisted (root : BSPNode) (bsp_nodes : list path) : list path :=
  filter (leaf_flag root) bsp_nodes
  ++ flat_map (fun p => child_paths p (lookup_node root p))
              (rev (filter (fun p => negb (leaf_flag root p)) bsp_nodes)).

(** The invariant of the loop [while bsp_partition(leaf_nodes)]: the tree
    satisfies [tree_inv], every entry of the list refers to a node, and
    every node with more than one polygon is in the list. *)
Definition build_inv (G : ViewPolygon -> Prop)
           (C : ViewPolygon -> Z -> ViewPolygon -> Prop)
           (root : BSPNode) (leaf_nodes : list path) : Prop :=
  tree_inv G C root /\
  (forall p, In p leaf_nodes -> is_node (lookup_node root p)) /\
  (forall q, crowded (lookup_node root q) -> In q leaf_nodes).


(** A polygon has at least one vertex. *)
Definition has_verts (p : ViewPolygon) : Prop := verts p <> [].


(** ** Auxiliary definitions for the octree statements *)

(** The number of nodes of the tree below (and including) a node. *)
Fixpoint tree_size (n : OctreeNode) : nat :=
  match n with
  | ONode _ _ cs _ _ _ =>
      S (list_sum (map (fun c => match c with
                                 | Some ch => tree_size ch
                                 | None => O
                                 end) cs))
  end.

(** All polygons held in the tree: the two lists of the node, then those of
    the children. *)
Fixpoint all_polys (n : OctreeNode) : list ViewPolygon :=
  match n with
  | ONode _ _ cs u r _ =>
      u ++ r ++ flat_map (fun c => match c with
                                   | Some ch => all_polys ch
                                   | None => []
                                   end) cs
  end.

(** The polygons on the [resolved] lists of the tree. *)
Fixpoint all_resolved (n : OctreeNode) : list ViewPolygon :=
  match n with
  | ONode _ _ cs _ r _ =>
      r ++ flat_map (fun c => match c with
                              | Some ch => all_resolved ch
                              | None => []
                              end) cs
  end.

(** The state of an octree during insertion: nothing is resolved yet and a
    node that was never subdivided has no children. *)
Fixpoint oct_wf (n : OctreeNode) : Prop :=
  match n with
  | ONode _ _ cs _ r nd =>
      r = [] /\ (nd = true -> Forall (fun c => c = None) cs) /\
      (fix all (l : list (option OctreeNode)) : Prop :=
         match l with
         | [] => True
         | None :: l' => all l'
         | Some ch :: l' => oct_wf ch /\ all l'
         end) cs
  end.

(** Every [unresolved] list of the tree is empty. *)
Definition all_unresolved_empty (root : OctreeNode) : Prop :=
  forall q n, o_lookup root q = Some n -> unresolved n = [].


(** The polygons held below a list of children. *)
Definition children_polys (cs : list (option OctreeNode)) : list ViewPolygon :=
  flat_map (fun c => match c with
                     | Some ch => all_polys ch
                     | None => []
                     end) cs.

(** [oct_wf] on every child of a list. *)
Definition children_wf (cs : list (option OctreeNode)) : Prop :=
  Forall (fun c => match c with Some ch => oct_wf ch | None => True end) cs.


(** [q] lies strictly below [p]. *)
Definition proper_ext (p q : opath) : Prop := exists s, s <> [] /\ q = p ++ s.

Definition size_opt (c : option OctreeNode) : nat :=
  match c with Some ch => tree_size ch | None => O end.

(** The size of the subtree at a path. *)
Definition size_at (root : OctreeNode) (p : opath) : nat :=
  size_opt (o_lookup root p).


(** What [compress_tree] leaves of a child: an empty leaf that was never
    subdivided is dropped. *)
Definition prune_child (c : option OctreeNode) : option OctreeNode :=
  match c with
  | None => None
  | Some child =>
      if (List.length (unresolved child) =? 0)%nat && nondivided child
      then None else Some child
  end.

(** The references to the children that are kept, child [j] first. *)
Fixpoint kept_paths (p : opath) (j : nat) (cs : list (option OctreeNode)) : list opath :=
  match cs with
  | [] => []
  | c :: rest =>
      match c with Some _ => [p ++ [j]] | None => [] end ++ kept_paths p (S j) rest
  end.

(** The invariant of the loop of [compress_tree]: the listed references are
    distinct and refer to nodes, none lies strictly below a reference that
    is still to be visited, and every node of the tree is listed or lies
    strictly below one that is still to be visited. *)
Definition compress_inv (root : OctreeNode) (nodes : list opath) (i : nat) : Prop :=
  NoDup nodes /\ (i <= List.length nodes)%nat /\
  (forall q, In q nodes -> exists n, o_lookup root q = Some n) /\
  (forall q p, In q nodes -> In p (skipn i nodes) -> ~ proper_ext p q) /\
  (forall q n, o_lookup root q = Some n ->
               In q nodes \/ exists p, In p (skipn i nodes) /\ proper_ext p q) /\
  oct_wf root.


Section NoOverlap.
Context {MU : MathUtils}.

(** The 2D projections of two polygons do not overlap. *)
Definition projections_apart (p q : ViewPolygon) : Prop :=
  overlaps (proj_verts p) (proj_verts q) = false /\
  overlaps (proj_verts q) (proj_verts p) = false.

(** No two polygons of the list have overlapping 2D projections. *)
Fixpoint no_two_overlap (l : list ViewPolygon) : Prop :=
  match l with
  | [] => True
  | p :: rest => Forall (projections_apart p) rest /\ no_two_overlap rest
  end.

End NoOverlap.


(** ** Further functions of the source

    The functions below are not part of the statements above; they are the
    remaining pure functions of [ViewPolygon], [ViewPortClipping], [Octree]
    and [DepthSorter]. *)

(** [Octree.get_z_max_bound] *)
Definition get_z_max_bound (view_polygons : list ViewPolygon) : Q :=
  fold_left
    (fun z_max polygon =>
       fold_left (fun z_max vert => if Qltb z_max (vz vert) then vz vert else z_max)
                 (verts polygon) z_max)
    view_polygons 0
  + 1.

(** The box is the tight axis-parallel box around the vertices: it contains
    every vertex and each of its six faces passes through a vertex. *)
Definition tight_box (b : Bounds) (vs : list vec) : Prop :=
  (forall v, In v vs ->
             b0 b <= vx v /\ vx v <= b1 b /\
             b2 b <= vy v /\ vy v <= b3 b /\
             b4 b <= vz v /\ vz v <= b5 b) /\
  (exists v, In v vs /\ vx v = b0 b) /\ (exists v, In v vs /\ vx v = b1 b) /\
  (exists v, In v vs /\ vy v = b2 b) /\ (exists v, In v vs /\ vy v = b3 b) /\
  (exists v, In v vs /\ vz v = b4 b) /\ (exists v, In v vs /\ vz v = b5 b).

(** ** ViewPortClipping *)

(** [ViewPortClipping.is_inside] *)
Definition is_inside (x0 y0 x1 y1 pos_x pos_y : Q) : bool :=
  if Qltb pos_x x0 || Qltb x1 pos_x || Qltb pos_y y0 || Qltb y1 pos_y
  then false else true.

(** Python's division of floats. *)
Definition py_div (a b : Q) : result Q :=
  if Qeq_bool b 0 then Raise ZeroDivisionError else Ok (a / b).

(** [ViewPortClipping.intersect_on_x] *)
Definition intersect_on_x (x_val : Q) (vert0 vert1 : vec) : result vec :=
  k_y <- py_div (vy vert1 - vy vert0) (vx vert1 - vx vert0) ;;
  k_depth <- py_div (vz vert1 - vz vert0) (vx vert1 - vx vert0) ;;
  Ok (x_val,
      vy vert0 + (x_val - vx vert0) * k_y,
      vz vert0 + (x_val - vx vert0) * k_depth).

(** [ViewPortClipping.intersect_on_y] *)
Definition intersect_on_y (y_val : Q) (vert0 vert1 : vec) : result vec :=
  k_x <- py_div (vx vert1 - vx vert0) (vy vert1 - vy vert0) ;;
  k_depth <- py_div (vz vert1 - vz vert0) (vy vert1 - vy vert0) ;;
  Ok (vx vert0 + (y_val - vy vert0) * k_x,
      y_val,
      vz vert0 + (y_val - vy vert0) * k_depth).

(** [ViewPortClipping.intersect_on_z] *)
Definition intersect_on_z (z_val : Q) (vert0 vert1 : vec) : result vec :=
  k_x <- py_div (vx vert1 - vx vert0) (vz vert1 - vz vert0) ;;
  k_y <- py_div (vy vert1 - vy vert0) (vz vert1 - vz vert0) ;;
  Ok (vx vert0 + (z_val - vz vert0) * k_x,
      vy vert0 + (z_val - vz vert0) * k_y,
      z_val).

(** One clipping loop [for index, vert in enumerate(verts_2d)] of
    [clip_to_boundary] and of [newell_half], from position [index] on.  The
    loops differ in the coordinate [coord] they compare, in the comparison
    [inside] with the clipping value ([c >= min_x], [c <= max_x], ...) and
    in the intersection function; the opposite strict comparison of the
    source ([c < min_x], [c > max_x], ...) is [negb (inside c)]. *)
Fixpoint clip_loop (inside : Q -> bool) (coord : vec -> Q)
         (intersect : vec -> vec -> result vec) (verts_2d : list vec)
         (index : nat) (todo : list vec) (clipped_verts_2d : list vec)
  : result (list vec) :=
  match todo with
  | [] => Ok clipped_verts_2d
  | vert :: rest =>
      next_vert <- list_index verts_2d
                     ((Z.of_nat index + 1) mod Z.of_nat (List.length verts_2d)) ;;
      let c0 := coord vert in
      let c1 := coord next_vert in
      if inside c0 && inside c1 then
        clip_loop inside coord intersect verts_2d (S index) rest
                  (clipped_verts_2d ++ [next_vert])
      else if negb (inside c0) && inside c1 then
        cut <- intersect vert next_vert ;;
        clip_loop inside coord intersect verts_2d (S index) rest
                  (clipped_verts_2d ++ [cut; next_vert])
      else if inside c0 && negb (inside c1) then
        cut <- intersect vert next_vert ;;
        clip_loop inside coord intersect verts_2d (S index) rest
                  (clipped_verts_2d ++ [cut])
      else
        clip_loop inside coord intersect verts_2d (S index) rest clipped_verts_2d
  end.

Definition clip_pass (inside : Q -> bool) (coord : vec -> Q)
           (intersect : vec -> vec -> result vec) (verts_2d : list vec)
  : result (list vec) :=
  clip_loop inside coord intersect verts_2d 0 verts_2d [].

(** [ViewPortClipping.clip_to_boundary] *)
Definition clip_to_boundary (min_x min_y max_x max_y : Q) (verts_2d : list vec)
  : result (option (list vec)) :=
  verts_2d <- clip_pass (fun c => Qle_bool min_x c) vx (intersect_on_x min_x) verts_2d ;;
  verts_2d <- clip_pass (fun c => Qle_bool min_y c) vy (intersect_on_y min_y) verts_2d ;;
  verts_2d <- clip_pass (fun c => Qle_bool c max_x) vx (intersect_on_x max_x) verts_2d ;;
  clipped_verts_2d <-
    clip_pass (fun c => Qle_bool c max_y) vy (intersect_on_y max_y) verts_2d ;;
  if (List.length clipped_verts_2d <? 3)%nat then Ok None
  else Ok (Some clipped_verts_2d).

(** [ViewPortClipping.clip_2d_polygon]; [res_x] and [res_y] are
    [context.region.width] and [context.region.height]. *)
Definition clip_2d_polygon (res_x res_y : Q) (verts_2d : list vec)
  : result (option (list vec)) :=
  let all_visible :=
    fold_left (fun all_visible vert =>
                 if negb (is_inside 0 0 res_x res_y (vx vert) (vy vert))
                 then false else all_visible)
              verts_2d true in
  if all_visible then Ok (Some verts_2d)
  else clip_to_boundary 0 0 res_x res_y verts_2d.

(** ** DepthSorter: the remaining position tests *)

Definition vneg (a : vec) : vec := (- vx a, - vy a, - vz a).

Definition set_normal (p : ViewPolygon) (n : vec) : ViewPolygon :=
  mkViewPolygon (verts p) (depth p) (rgb_color p) (stroke_color p) (opacity p)
                (stroke_opacity p) n (marked p) (bounds p).

Definition set_marked (p : ViewPolygon) (m : bool) : ViewPolygon :=
  mkViewPolygon (verts p) (depth p) (rgb_color p) (stroke_color p) (opacity p)
                (stroke_opacity p) (normal p) m (bounds p).

(** The body of [for polygon in view_polygons] of [correct_normals];
    [polygon.normal.negate()] negates the normal in place. *)
Definition correct_normal (viewpoint_pos : vec) (polygon : ViewPolygon)
  : result ViewPolygon :=
  plane_point <- list_index (verts polygon) 0 ;;
  let dir_vector := vsub viewpoint_pos plane_point in
  if Qltb 0 (dot dir_vector (normal polygon))
  then Ok (set_normal polygon (vneg (normal polygon)))
  else Ok polygon.

(** [DepthSorter.correct_normals]: the list after the loop. *)
Definition correct_normals (view_polygons : list ViewPolygon) (viewpoint_pos : vec)
  : result (list ViewPolygon) :=
  map_result (correct_normal viewpoint_pos) view_polygons.

Section PositionTests.
Context {MU : MathUtils}.

(** [DepthSorter.relative_pos_bool]; its loop is the loop of
    [relative_pos]. *)
Definition relative_pos_bool (plane_polygon polygon_p : ViewPolygon) : result bool :=
  '(all_front, all_back) <- relative_pos_scan plane_polygon (verts polygon_p) true true ;;
  if all_front then Ok true
  else if all_back then Ok false
  else Raise TypeError.

(** [DepthSorter.p_behind_q]; the handler catches [TypeError] only. *)
Definition p_behind_q (polygon_p polygon_q : ViewPolygon) : result bool :=
  match relative_pos_bool polygon_q polygon_p with
  | Ok r => if r then Ok false else Ok true
  | Raise TypeError =>
      r <- relative_pos_bool polygon_p polygon_q ;;
      if r then Ok true else Ok false
  | Raise e => Raise e
  end.

(** [DepthSorter.p_obscures_q] *)
Definition p_obscures_q (polygon_p polygon_q : ViewPolygon) : result bool :=
  p_bounds <- get_bounds polygon_p ;;
  q_bounds <- get_bounds polygon_q ;;
  if (Qltb (b3 q_bounds) (b2 p_bounds) && Qltb (b3 q_bounds) (b3 p_bounds))
     || (Qltb (b2 p_bounds) (b2 q_bounds) && Qltb (b3 p_bounds) (b2 q_bounds))
  then Ok false
  else if (Qltb (b1 q_bounds) (b0 p_bounds) && Qltb (b1 q_bounds) (b1 p_bounds))
     || (Qltb (b0 p_bounds) (b0 q_bounds) && Qltb (b1 p_bounds) (b0 q_bounds))
  then Ok false
  else
    pos_p <- relative_pos polygon_q polygon_p ;;
    if (pos_p =? -1)%Z then Ok false
    else
      pos_q <- relative_pos polygon_p polygon_q ;;
      if (pos_q =? 1)%Z then Ok false
      else if negb (overlaps (proj_verts polygon_p) (proj_verts polygon_q)) then Ok false
      else Ok true.

End PositionTests.

(** ** Octree: the remaining methods and their invariants *)

(** The loop [while i < len(nodes)] of [get_resolved_polygons]; the inner
    loops append the [resolved] list of [nodes[i]] to [polygons] and the
    children that are not [None] to [nodes]. *)
Fixpoint get_resolved_loop (fuel : nat) (root : OctreeNode) (nodes : list opath) (i : nat)
         (polygons : list ViewPolygon) : option (result (list ViewPolygon)) :=
  match fuel with
  | O => None
  | S fuel' =>
      match nth_error nodes i with
      | None => Some (Ok polygons)
      | Some p =>
          match o_lookup root p with
          | None => Some (Raise AttributeError)
          | Some node =>
              get_resolved_loop fuel' root (nodes ++ kept_paths p 0 (children node))
                                (S i) (polygons ++ resolved node)
          end
      end
  end.

(** [Octree.get_resolved_polygons] *)
Definition get_resolved_polygons (fuel : nat) (self : Octree)
  : option (result (list ViewPolygon)) :=
  get_resolved_loop fuel (root self) [[]] 0 [].

(** Every polygon on the [unresolved] list of the node fits inside the box
    of the node. *)
Definition stored_inside (n : OctreeNode) : Prop :=
  Forall (fun x => contains_polygon n x = Ok true) (unresolved n).

(** [stored_inside] for every node strictly below [n]. *)
Fixpoint sub_inside (n : OctreeNode) : Prop :=
  match n with
  | ONode _ _ cs _ _ _ =>
      (fix all (l : list (option OctreeNode)) : Prop :=
         match l with
         | [] => True
         | None :: l' => all l'
         | Some ch :: l' => (stored_inside ch /\ sub_inside ch) /\ all l'
         end) cs
  end.

Definition children_inside (cs : list (option OctreeNode)) : Prop :=
  Forall (fun c => match c with
                   | Some ch => stored_inside ch /\ sub_inside ch
                   | None => True
                   end) cs.

(** The box [inner] lies within the box [outer]. *)
Definition box_within (inner outer : Bounds) : Prop :=
  b0 outer <= b0 inner /\ b1 inner <= b1 outer /\
  b2 outer <= b2 inner /\ b3 inner <= b3 outer /\
  b4 outer <= b4 inner /\ b5 inner <= b5 outer.

(** The polygons on the [resolved] lists below a reference. *)
Definition resolved_below (root : OctreeNode) (p : opath) : list ViewPolygon :=
  match o_lookup root p with
  | Some n => all_resolved n
  | None => []
  end.

(** [x] carries every attribute of [y] except the vertices and the bounding
    box: what a fragment keeps of the polygon it was cut from. *)
Definition fragment_of (x y : ViewPolygon) : Prop :=
  depth x = depth y /\ style x = style y /\ normal x = normal y /\ marked x = marked y.

(** ** BSP: the polygons of a tree *)

(** All polygons held in the nodes of a BSP tree. *)
Fixpoint tree_polys (n : BSPNode) : list ViewPolygon :=
  match n with
  | NoneNode => []
  | Node f b _ ps => ps ++ tree_polys f ++ tree_polys b
  end.

(** ** DepthSorter: Newell's algorithm *)

(** The loop [for j, polygon in enumerate(view_polygons)] of
    [newell_insert_fragments], for one fragment: the fragment goes in front
    of the first polygon that is not marked and has a smaller [bounds[5]];
    when the loop ends without a [break] nothing is inserted. *)
Fixpoint insert_fragment (fragment : ViewPolygon) (view_polygons : list ViewPolygon)
  : result (list ViewPolygon) :=
  match view_polygons with
  | [] => Ok []
  | polygon :: rest =>
      if marked polygon then
        rest' <- insert_fragment fragment rest ;; Ok (polygon :: rest')
      else
        fragment_bounds <- get_bounds fragment ;;
        polygon_bounds <- get_bounds polygon ;;
        if Qltb (b5 polygon_bounds) (b5 fragment_bounds)
        then Ok (fragment :: polygon :: rest)
        else rest' <- insert_fragment fragment rest ;; Ok (polygon :: rest')
  end.

(** The body of [for fragment in fragments]. *)
Definition insert_if_fragment (fragment : option ViewPolygon)
           (view_polygons : list ViewPolygon) : result (list ViewPolygon) :=
  match fragment with
  | None => Ok view_polygons
  | Some f => insert_fragment (set_marked f false) view_polygons
  end.

(** [DepthSorter.newell_insert_fragments]: the list afterwards. *)
Definition newell_insert_fragments (view_polygons : list ViewPolygon)
           (fragments : option (option ViewPolygon * option ViewPolygon))
  : result (list ViewPolygon) :=
  match fragments with
  | None => Ok view_polygons
  | Some (fragment_a, fragment_b) =>
      view_polygons <- insert_if_fragment fragment_a view_polygons ;;
      insert_if_fragment fragment_b view_polygons
  end.

(** [DepthSorter.newell_half] *)
Definition newell_half (view_polygon : ViewPolygon) : result (ViewPolygon * ViewPolygon) :=
  b <- get_bounds view_polygon ;;
  let x_len := b1 b - b0 b in
  let y_len := b3 b - b2 b in
  let z_len := b5 b - b4 b in
  '(verts_a, verts_b) <-
    (if Qltb x_len z_len && Qltb y_len z_len then
       let z_mid := b4 b + z_len / 2 in
       new_a <- clip_pass (fun c => Qle_bool c z_mid) vz (intersect_on_z z_mid)
                          (verts view_polygon) ;;
       new_b <- clip_pass (fun c => Qle_bool z_mid c) vz (intersect_on_z z_mid)
                          (verts view_polygon) ;;
       Ok (new_a, new_b)
     else if Qltb x_len y_len then
       let y_mid := b2 b + y_len / 2 in
       new_a <- clip_pass (fun c => Qle_bool c y_mid) vy (intersect_on_y y_mid)
                          (verts view_polygon) ;;
       new_b <- clip_pass (fun c => Qle_bool y_mid c) vy (intersect_on_y y_mid)
                          (verts view_polygon) ;;
       Ok (new_a, new_b)
     else
       let x_mid := b0 b + x_len / 2 in
       new_a <- clip_pass (fun c => Qle_bool c x_mid) vx (intersect_on_x x_mid)
                          (verts view_polygon) ;;
       new_b <- clip_pass (fun c => Qle_bool x_mid c) vx (intersect_on_x x_mid)
                          (verts view_polygon) ;;
       Ok (new_a, new_b)) ;;
  fragment_a <- recalculate_bounds (set_verts view_polygon verts_a) ;;
  fragment_b <- recalculate_bounds (set_verts view_polygon verts_b) ;;
  Ok (fragment_a, fragment_b).

Section Newell.
Context {MU : MathUtils}.

(** The three-way choice that splits [polygon_p] or [polygon_q] and inserts
    the fragments; [i] is the index of the inner loop, so that [polygon_q]
    is [view_polygons[i + 1]]. *)
Definition newell_split (polygon_p polygon_q : ViewPolygon)
           (view_polygons : list ViewPolygon) (i : nat) : result (list ViewPolygon) :=
  pos_p <- relative_pos polygon_q polygon_p ;;
  if (pos_p =? 0)%Z then
    fragments <- cut_conflicting polygon_q polygon_p ;;
    newell_insert_fragments (delete_at view_polygons 0) (Some fragments)
  else
    pos_q <- relative_pos polygon_p polygon_q ;;
    if (pos_q =? 0)%Z then
      fragments <- cut_conflicting polygon_p polygon_q ;;
      newell_insert_fragments (delete_at view_polygons (S i)) (Some fragments)
    else
      '(fragment_a, fragment_b) <- newell_half polygon_p ;;
      newell_insert_fragments (delete_at view_polygons 0)
                              (Some (Some fragment_a, Some fragment_b)).

(** The loop [for i, polygon_q in enumerate(view_polygons[1:])] from index
    [i] on; [rest] is what is left of the copy [view_polygons[1:]].  The
    answer is [None] when the loop leaves [get_new_p] at [False], otherwise
    the list after the change that ended the loop. *)
Fixpoint newell_scan (polygon_p : ViewPolygon) (view_polygons : list ViewPolygon)
         (i : nat) (rest : list ViewPolygon) : result (option (list ViewPolygon)) :=
  match rest with
  | [] => Ok None
  | polygon_q :: rest' =>
      p_bounds <- get_bounds polygon_p ;;
      q_bounds <- get_bounds polygon_q ;;
      if Qltb (b4 p_bounds) (b5 q_bounds) then
        obscures <- p_obscures_q polygon_p polygon_q ;;
        if negb obscures then newell_scan polygon_p view_polygons (S i) rest'
        else if marked polygon_q then
          l <- newell_split polygon_p polygon_q view_polygons i ;; Ok (Some l)
        else
          obscured <- p_obscures_q polygon_q polygon_p ;;
          if negb obscured then
            Ok (Some (set_marked polygon_q true :: delete_at view_polygons (S i)))
          else
            l <- newell_split polygon_p polygon_q view_polygons i ;; Ok (Some l)
      else if marked polygon_q then newell_scan polygon_p view_polygons (S i) rest'
      else Ok None
  end.

(** [while len(view_polygons) > 0] *)
Fixpoint newell_loop (fuel : nat) (view_polygons sorted_polygons : list ViewPolygon)
  : option (result (list ViewPolygon)) :=
  match fuel with
  | O => None
  | S fuel' =>
      match view_polygons with
      | [] => Some (Ok sorted_polygons)
      | polygon_p :: rest =>
          match newell_scan polygon_p view_polygons 0 rest with
          | Raise e => Some (Raise e)
          | Ok (Some view_polygons') => newell_loop fuel' view_polygons' sorted_polygons
          | Ok None => newell_loop fuel' rest (sorted_polygons ++ [polygon_p])
          end
      end
  end.

(** [DepthSorter.depth_sort_newell] *)
Definition depth_sort_newell (fuel : nat) (view_polygons : list ViewPolygon)
  : option (result (list ViewPolygon)) :=
  match sort_by_key key_bbmax view_polygons with
  | Raise e => Some (Raise e)
  | Ok view_polygons => newell_loop fuel view_polygons []
  end.

End Newell.
(** A polygon in front of which [newell_insert_fragments] does not put a
    fragment with the bounding box [fb]: it is marked, or its [bounds[5]] is
    not smaller than that of the fragment. *)
Definition passed_over (fb : Bounds) (polygon : ViewPolygon) : Prop :=
  marked polygon = true \/
  exists pb, bounds polygon = Some pb /\ b5 fb <= b5 pb.

(** ** Octree: the boxes of the nodes *)


(** [child] is one level below [parent], its box lies within the box of
    [parent] and is half as long on every axis. *)
Definition octant_of (child parent : OctreeNode) : Prop :=
  node_depth child = (node_depth parent + 1)%Z /\
  box_within (node_bounds child) (node_bounds parent) /\
  (b1 (node_bounds child) - b0 (node_bounds child)) * 2
  == b1 (node_bounds parent) - b0 (node_bounds parent) /\
  (b3 (node_bounds child) - b2 (node_bounds child)) * 2
  == b3 (node_bounds parent) - b2 (node_bounds parent) /\
  (b5 (node_bounds child) - b4 (node_bounds child)) * 2
  == b5 (node_bounds parent) - b4 (node_bounds parent).

(** The invariant of the boxes: minimum below maximum on every axis, and
    every child an octant of its parent. *)
Fixpoint octants (n : OctreeNode) : Prop :=
  match n with
  | ONode b d cs _ _ _ =>
      box_ordered b /\
      (fix all (l : list (option OctreeNode)) : Prop :=
         match l with
         | [] => True
         | None :: l' => all l'
         | Some ch :: l' =>
             ((node_depth ch = (d + 1)%Z /\
               box_within (node_bounds ch) b /\
               (b1 (node_bounds ch) - b0 (node_bounds ch)) * 2 == b1 b - b0 b /\
               (b3 (node_bounds ch) - b2 (node_bounds ch)) * 2 == b3 b - b2 b /\
               (b5 (node_bounds ch) - b4 (node_bounds ch)) * 2 == b5 b - b4 b) /\
              octants ch) /\ all l'
         end) cs
  end.

Definition children_octants (parent : OctreeNode) (cs : list (option OctreeNode)) : Prop :=
  Forall (fun c => match c with
                   | Some ch => octant_of ch parent /\ octants ch
                   | None => True
                   end) cs.

(** ** Octree: when insertion returns *)





(** ** Tactics *)

(** Permutations of concatenations of the same lists: the head of the left
    side is looked for on the right side by rotating it. *)
Ltac perm_rotate n :=
  lazymatch n with
  | O => fail "no permutation found"
  | S ?n' =>
      first [ apply Permutation_refl
            | apply Permutation_app_head
            | eapply Permutation_trans;
              [| apply Permutation_app_comm]; rewrite <- ?app_assoc; perm_rotate n' ]
  end.

Ltac perm_app :=
  rewrite <- ?app_assoc; repeat (perm_rotate constr:(12%nat)).

(** * Properties *)

(** ** Arithmetic helpers *)

Lemma Qltb_lt (x y : Q) : Qltb x y = true <-> x < y.
Proof.
  unfold Qltb. rewrite negb_true_iff. split.
  - intros H. apply Qnot_le_lt. intros Hle.
    apply Qle_bool_iff in Hle. congruence.
  - intros H. destruct (Qle_bool y x) eqn:E; [|reflexivity].
    apply Qle_bool_iff in E. exfalso. apply (Qlt_not_le _ _ H E).
Qed.

Lemma Qltb_ge (x y : Q) : Qltb x y = false <-> y <= x.
Proof.
  unfold Qltb. rewrite negb_false_iff. apply Qle_bool_iff.
Qed.

Lemma list_index_0 {A : Type} (a : A) (l : list A) : list_index (a :: l) 0 = Ok a.
Proof. reflexivity. Qed.

Lemma list_index_0_inv {A : Type} (l : list A) (a : A) :
  list_index l 0 = Ok a -> exists l', l = a :: l'.
Proof.
  destruct l as [|b l']; unfold list_index; simpl; [discriminate|].
  intros H. inversion H. eauto.
Qed.

Section ClassificationFacts.
Context {MU : MathUtils}.

Lemma vert_relative_pos_classify (Q0 : ViewPolygon) (p0 : vec) (rest : list vec) (v : vec) :
  verts Q0 = p0 :: rest ->
  vert_relative_pos Q0 v = Ok (classify p0 (normal Q0) v).
Proof.
  intros Hv. unfold vert_relative_pos, classify. rewrite Hv, list_index_0. simpl.
  destruct (Qltb _ PLANE_DISTANCE_THRESHOLD); [reflexivity|].
  destruct (Qltb 0 _); reflexivity.
Qed.

Lemma classify_range (p0 n v : vec) :
  classify p0 n v = 0%Z \/ classify p0 n v = 1%Z \/ classify p0 n v = (-1)%Z.
Proof.
  unfold classify. destruct (Qltb _ PLANE_DISTANCE_THRESHOLD); [auto|].
  destruct (Qltb 0 _); auto.
Qed.

Lemma relative_pos_scan_classify (Q0 : ViewPolygon) (p0 : vec) (rest : list vec)
      (vs : list vec) (all_front all_back : bool) :
  verts Q0 = p0 :: rest ->
  relative_pos_scan Q0 vs all_front all_back =
  Ok (all_front && forallb (fun v => negb (classify p0 (normal Q0) v =? -1)%Z) vs,
      all_back && forallb (fun v => negb (classify p0 (normal Q0) v =? 1)%Z) vs).
Proof.
  intros Hv. revert all_front all_back.
  induction vs as [|v vs IH]; intros af ab; simpl.
  - now rewrite !andb_true_r.
  - rewrite (vert_relative_pos_classify Q0 p0 rest v Hv). simpl.
    destruct (classify_range p0 (normal Q0) v) as [E|[E|E]]; rewrite E; simpl;
      rewrite IH; try reflexivity.
    + now rewrite andb_false_r.
    + now rewrite andb_false_r.
Qed.

Lemma relative_pos_classify (Q0 P : ViewPolygon) (p0 : vec) (rest : list vec) :
  verts Q0 = p0 :: rest ->
  relative_pos Q0 P =
  Ok (if forallb (fun v => negb (classify p0 (normal Q0) v =? -1)%Z) (verts P) then 1%Z
      else if forallb (fun v => negb (classify p0 (normal Q0) v =? 1)%Z) (verts P)
           then (-1)%Z else 0%Z).
Proof.
  intros Hv. unfold relative_pos.
  rewrite (relative_pos_scan_classify Q0 p0 rest _ _ _ Hv). simpl.
  destruct (forallb _ (verts P)); [reflexivity|].
  destruct (forallb _ (verts P)); reflexivity.
Qed.

End ClassificationFacts.

Section ClassificationTheorems.
Context {MU : MathUtils}.

Lemma classify_on (p0 n v : vec) :
  classify p0 n v = 0%Z <->
  Qabs (distance_point_to_plane v p0 n) < PLANE_DISTANCE_THRESHOLD.
Proof.
  unfold classify. rewrite <- Qltb_lt.
  destruct (Qltb (Qabs _) _); [tauto|].
  destruct (Qltb 0 _); split; intros H; discriminate.
Qed.

Lemma classify_front (p0 n v : vec) :
  classify p0 n v = 1%Z <->
  ~ Qabs (distance_point_to_plane v p0 n) < PLANE_DISTANCE_THRESHOLD /\
  0 < distance_point_to_plane v p0 n.
Proof.
  unfold classify. rewrite <- !Qltb_lt.
  destruct (Qltb (Qabs _) _).
  - split; [discriminate|]. intros [H _]. now destruct H.
  - destruct (Qltb 0 _); split; try discriminate; try tauto.
    intros _. split; [discriminate|reflexivity].
Qed.

Lemma classify_behind (p0 n v : vec) :
  classify p0 n v = (-1)%Z <->
  ~ Qabs (distance_point_to_plane v p0 n) < PLANE_DISTANCE_THRESHOLD /\
  distance_point_to_plane v p0 n < 0.
Proof.
  unfold classify.
  destruct (Qltb (Qabs _) _) eqn:Ea.
  - apply Qltb_lt in Ea. split; [discriminate|]. intros [H _]. now destruct H.
  - apply Qltb_ge in Ea.
    destruct (Qltb 0 _) eqn:Ep.
    + apply Qltb_lt in Ep. split; [discriminate|]. intros [_ H]. lra.
    + apply Qltb_ge in Ep. split; [|reflexivity]. intros _. split.
      * intros H. lra.
      * assert (Hne : ~ distance_point_to_plane v p0 n == 0).
        { intros E. rewrite E in Ea. unfold PLANE_DISTANCE_THRESHOLD in Ea.
          simpl in Ea. revert Ea. unfold Qle. simpl. lia. }
        lra.
Qed.

Lemma forallb_not_behind (p0 n : vec) (vs : list vec) :
  forallb (fun v => negb (classify p0 n v =? -1)%Z) vs = true <->
  Forall (fun v => classify p0 n v <> (-1)%Z) vs.
Proof.
  rewrite forallb_forall, Forall_forall. split; intros H v Hv.
  - specialize (H v Hv). rewrite negb_true_iff in H. now apply Z.eqb_neq.
  - rewrite negb_true_iff. apply Z.eqb_neq. now apply H.
Qed.

Lemma forallb_not_front (p0 n : vec) (vs : list vec) :
  forallb (fun v => negb (classify p0 n v =? 1)%Z) vs = true <->
  Forall (fun v => classify p0 n v <> 1%Z) vs.
Proof.
  rewrite forallb_forall, Forall_forall. split; intros H v Hv.
  - specialize (H v Hv). rewrite negb_true_iff in H. now apply Z.eqb_neq.
  - rewrite negb_true_iff. apply Z.eqb_neq. now apply H.
Qed.

Lemma not_Forall_Exists (p0 n : vec) (k : Z) (vs : list vec) :
  ~ Forall (fun v => classify p0 n v <> k) vs <->
  Exists (fun v => classify p0 n v = k) vs.
Proof.
  induction vs as [|v vs IH].
  - split; [intros H; destruct H; constructor | intros H; inversion H].
  - split.
    + intros H. destruct (Z.eq_dec (classify p0 n v) k) as [E|E].
      * now left.
      * right. apply IH. intros HF. apply H. now constructor.
    + intros H HF. inversion HF; subst. inversion H; subst; [contradiction|].
      apply IH in H1. contradiction.
Qed.

(** C3.  For a plane polygon [Q0] with first vertex [p0]: a vertex is On
    exactly when the absolute distance to the plane is below 0.001, and is
    otherwise Front or Behind by the sign of the distance; [relative_pos]
    answers Front (1) when no vertex is Behind, Behind (-1) when no vertex is
    Front and some vertex is Behind, Straddling (0) otherwise; a polygon with
    all vertices On is Front. *)
Theorem relative_pos_classification (Q0 P : ViewPolygon) (p0 : vec) (rest : list vec) :
  verts Q0 = p0 :: rest ->
  let d := fun v => distance_point_to_plane v p0 (normal Q0) in
  let pos := vert_relative_pos Q0 in
  (forall v,
      (pos v = Ok 0%Z <-> Qabs (d v) < PLANE_DISTANCE_THRESHOLD) /\
      (pos v = Ok 1%Z <-> ~ Qabs (d v) < PLANE_DISTANCE_THRESHOLD /\ 0 < d v) /\
      (pos v = Ok (-1)%Z <-> ~ Qabs (d v) < PLANE_DISTANCE_THRESHOLD /\ d v < 0)) /\
  (relative_pos Q0 P = Ok 1%Z <->
     Forall (fun v => pos v <> Ok (-1)%Z) (verts P)) /\
  (relative_pos Q0 P = Ok (-1)%Z <->
     Forall (fun v => pos v <> Ok 1%Z) (verts P) /\
     Exists (fun v => pos v = Ok (-1)%Z) (verts P)) /\
  (relative_pos Q0 P = Ok 0%Z <->
     Exists (fun v => pos v = Ok 1%Z) (verts P) /\
     Exists (fun v => pos v = Ok (-1)%Z) (verts P)) /\
  (Forall (fun v => pos v = Ok 0%Z) (verts P) -> relative_pos Q0 P = Ok 1%Z).
Proof.
  intros Hv d pos.
  assert (Hpos : forall v, pos v = Ok (classify p0 (normal Q0) v)).
  { intros v. apply (vert_relative_pos_classify Q0 p0 rest v Hv). }
  assert (Hinj : forall v k, pos v = Ok k <-> classify p0 (normal Q0) v = k).
  { intros v k. rewrite Hpos. split; [intros H; now inversion H | now intros ->]. }
  assert (HF : forall k vs, Forall (fun v => pos v <> Ok k) vs <->
                            Forall (fun v => classify p0 (normal Q0) v <> k) vs).
  { intros k vs. rewrite !Forall_forall. split; intros H v Hin E; apply (H v Hin);
      now apply Hinj. }
  assert (HE : forall k vs, Exists (fun v => pos v = Ok k) vs <->
                            Exists (fun v => classify p0 (normal Q0) v = k) vs).
  { intros k vs. rewrite !Exists_exists. split; intros [v [Hin E]]; exists v;
      split; auto; now apply Hinj. }
  rewrite (relative_pos_classify Q0 P p0 rest Hv).
  rewrite !HF, !HE, <- !not_Forall_Exists, <- forallb_not_behind, <- forallb_not_front.
  set (fb := forallb (fun v => negb (classify p0 (normal Q0) v =? -1)%Z) (verts P)).
  set (ff := forallb (fun v => negb (classify p0 (normal Q0) v =? 1)%Z) (verts P)).
  split; [|split; [|split; [|split; [|]]]].
  - intros v. rewrite !Hinj. split; [apply classify_on|].
    split; [apply classify_front | apply classify_behind].
  - destruct fb; [tauto|]. destruct ff; split; intros H; discriminate.
  - destruct fb, ff; split; try discriminate; intuition congruence.
  - destruct fb, ff; split; try discriminate; intuition congruence.
  - intros H.
    assert (E : fb = true).
    { apply forallb_not_behind. rewrite Forall_forall in *. intros v Hin.
      specialize (H v Hin). apply Hinj in H. rewrite H. discriminate. }
    now rewrite E.
Qed.

End ClassificationTheorems.

(** Witness for C3: the triangle [film] has all its vertices within the
    threshold of the plane of [ground] and is classified Front. *)
Lemma relative_pos_classification_witness :
  verts Examples.ground = (0, 0, 0) :: [(1, 0, 0); (1, 1, 0); (0, 1, 0)] /\
  relative_pos (MU := exact_utils) Examples.ground Examples.film = Ok 1%Z.
Proof.
  split; [reflexivity|].
  destruct (relative_pos_classification (MU := exact_utils)
              Examples.ground Examples.film (0, 0, 0) _ eq_refl)
    as (_ & _ & _ & _ & H).
  apply H. repeat constructor.
Defined.

(** ** Facts on list indexing *)

Lemma list_index_nth {A : Type} (l : list A) (k : nat) (a : A) :
  nth_error l k = Some a -> list_index l (Z.of_nat k) = Ok a.
Proof.
  intros H. unfold list_index.
  assert (E : (Z.of_nat k <? 0)%Z = false) by (apply Z.ltb_ge; lia).
  rewrite E, E, Nat2Z.id, H. reflexivity.
Qed.

Lemma list_index_prev {A : Type} (l : list A) (i : nat) :
  (i < List.length l)%nat ->
  exists a, list_index l ((Z.of_nat i - 1) mod Z.of_nat (List.length l)) = Ok a /\
            nth_error l (prev_index i (List.length l)) = Some a.
Proof.
  intros Hi.
  assert (Hk : ((Z.of_nat i - 1) mod Z.of_nat (List.length l) =
                Z.of_nat (prev_index i (List.length l)))%Z).
  { destruct i as [|k]; simpl prev_index.
    - symmetry. apply (Z.mod_unique _ _ (-1)%Z); lia.
    - replace (Z.of_nat (S k) - 1)%Z with (Z.of_nat k) by lia.
      apply Z.mod_small. lia. }
  rewrite Hk.
  destruct (nth_error l (prev_index i (List.length l))) as [a|] eqn:E.
  - exists a. split; [now apply list_index_nth|reflexivity].
  - apply nth_error_None in E. destruct i; simpl in E; lia.
Qed.

Lemma list_index_last {A : Type} (l : list A) :
  l <> [] ->
  exists a, list_index l (-1) = Ok a /\
            nth_error l (List.length l - 1) = Some a.
Proof.
  intros Hl.
  assert (Hn : (0 < List.length l)%nat) by (destruct l; simpl; [congruence|lia]).
  unfold list_index.
  replace (-1 <? 0)%Z with true by reflexivity.
  assert (E : (-1 + Z.of_nat (List.length l) <? 0)%Z = false) by (apply Z.ltb_ge; lia).
  rewrite E.
  replace (Z.to_nat (-1 + Z.of_nat (List.length l))) with (List.length l - 1)%nat by lia.
  destruct (nth_error l (List.length l - 1)) as [a|] eqn:Ea.
  - eauto.
  - apply nth_error_None in Ea. lia.
Qed.

Section CutFacts.
Context {MU : MathUtils}.

(** The side of a vertex as [vert_relative_pos_bool] computes it. *)
Lemma vert_relative_pos_bool_side (plane : ViewPolygon) (p0 : vec) (rest : list vec) (v : vec) :
  verts plane = p0 :: rest ->
  vert_relative_pos_bool plane v = Ok (Qle_bool 0 (dot (vsub v p0) (normal plane))).
Proof.
  intros Hv. unfold vert_relative_pos_bool. rewrite Hv, list_index_0. simpl.
  destruct (Qle_bool 0 _); reflexivity.
Qed.

Lemma cut_step_appends (plane : ViewPolygon) (p0 : vec) (rest : list vec)
      (vs : list vec) (st : cut_state) (i : nat) (vert next_vert : vec) :
  verts plane = p0 :: rest ->
  (i < List.length vs)%nat ->
  nth_error vs (prev_index i (List.length vs)) = Some next_vert ->
  let side := Qle_bool 0 (dot (vsub vert p0) (normal plane)) in
  let app := cut_appends p0 (normal plane) side (currently_in_front st) vert next_vert in
  cut_step plane vs st i vert =
  Ok (mkCut side (front_pol_verts st ++ fst app) (back_pol_verts st ++ snd app)).
Proof.
  intros Hv Hi Hn side app. unfold cut_step.
  rewrite (vert_relative_pos_bool_side plane p0 rest vert Hv). simpl bind.
  fold side.
  destruct (list_index_prev vs i Hi) as [a [Ha Ha']].
  rewrite Hn in Ha'. inversion Ha'; subst a. clear Ha'.
  subst app. unfold cut_appends.
  destruct side, (currently_in_front st); simpl; rewrite ?app_nil_r; try reflexivity.
  - rewrite Ha, Hv, list_index_0. simpl.
    destruct (intersect_line_plane _ _ _ _); reflexivity.
  - rewrite Ha, Hv, list_index_0. simpl.
    destruct (intersect_line_plane _ _ _ _); reflexivity.
Qed.

End CutFacts.

Section CutLoop.
Context {MU : MathUtils}.
Variable plane : ViewPolygon.
Variable p0 : vec.
Variable rest0 : list vec.
Hypothesis Hplane : verts plane = p0 :: rest0.

(** The side test of [vert_relative_pos_bool] against [plane]. *)
Let side (v : vec) : bool := Qle_bool 0 (dot (vsub v p0) (normal plane)).

Lemma skipn_cons_nth {A : Type} (l : list A) (i : nat) (a : A) (r : list A) :
  skipn i l = a :: r ->
  nth_error l i = Some a /\ skipn (S i) l = r /\ (i < List.length l)%nat.
Proof.
  revert i. induction l as [|x l IH]; intros i H.
  - destruct i; discriminate.
  - destruct i as [|i]; simpl in *.
    + inversion H. repeat split; auto. lia.
    + destruct (IH i H) as (H1 & H2 & H3). repeat split; auto. lia.
Qed.

(** Loop rule for the vertex loop of [cut_conflicting]: a property of the
    local state that every iteration preserves holds when the loop ends,
    and the loop does end without an exception. *)
Lemma cut_loop_inv (P : nat -> cut_state -> Prop) (vs : list vec) :
  (forall i st vert next_vert,
      nth_error vs i = Some vert ->
      nth_error vs (prev_index i (List.length vs)) = Some next_vert ->
      P i st ->
      let app := cut_appends p0 (normal plane) (side vert) (currently_in_front st)
                             vert next_vert in
      P (S i) (mkCut (side vert) (front_pol_verts st ++ fst app)
                     (back_pol_verts st ++ snd app))) ->
  forall todo i st,
    (i <= List.length vs)%nat ->
    skipn i vs = todo -> P i st ->
    exists st', cut_loop plane vs st i todo = Ok st' /\ P (List.length vs) st'.
Proof.
  intros Hstep todo. induction todo as [|v todo IH]; intros i st Hle Hskip HP.
  - exists st. split; [reflexivity|].
    apply (f_equal (@List.length vec)) in Hskip. rewrite length_skipn in Hskip.
    simpl in Hskip. replace (List.length vs) with i by lia. exact HP.
  - destruct (skipn_cons_nth vs i v todo Hskip) as (Hn & Hs & Hi).
    destruct (list_index_prev vs i Hi) as [nv [_ Hnv]].
    simpl. rewrite (cut_step_appends plane p0 rest0 vs st i v nv Hplane Hi Hnv).
    simpl. apply IH; [lia|exact Hs|].
    apply (Hstep i st v nv Hn Hnv HP).
Qed.

(** The same rule for the whole of [cut_rings]: the flag starts as the side
    of the last vertex. *)
Lemma cut_rings_inv (P : nat -> cut_state -> Prop) (p : ViewPolygon) :
  verts p <> [] ->
  (forall last, nth_error (verts p) (List.length (verts p) - 1) = Some last ->
                P O (mkCut (side last) [] [])) ->
  (forall i st vert next_vert,
      nth_error (verts p) i = Some vert ->
      nth_error (verts p) (prev_index i (List.length (verts p))) = Some next_vert ->
      P i st ->
      let app := cut_appends p0 (normal plane) (side vert) (currently_in_front st)
                             vert next_vert in
      P (S i) (mkCut (side vert) (front_pol_verts st ++ fst app)
                     (back_pol_verts st ++ snd app))) ->
  exists st, cut_rings plane p = Ok st /\ P (List.length (verts p)) st.
Proof.
  intros Hne Hinit Hstep. unfold cut_rings.
  destruct (list_index_last (verts p) Hne) as [last [Hl Hl']].
  rewrite Hl. simpl.
  rewrite (vert_relative_pos_bool_side plane p0 rest0 last Hplane). simpl.
  apply (cut_loop_inv P (verts p) Hstep); [lia|reflexivity|].
  now apply Hinit.
Qed.

End CutLoop.

Section CutTheorems.
Context {MU : MathUtils}.

Lemma coord_difference_nonneg (a b : vec) : 0 <= coord_difference a b.
Proof.
  unfold coord_difference.
  pose proof (Qabs_nonneg (vx a - vx b)). pose proof (Qabs_nonneg (vy a - vy b)).
  pose proof (Qabs_nonneg (vz a - vz b)). lra.
Qed.

Lemma difference_sum_from_ge (vs : list vec) (acc : Q) :
  acc <= difference_sum_from acc vs.
Proof.
  revert acc. induction vs as [|a vs IH]; intros acc; simpl; [lra|].
  destruct vs as [|b vs]; [lra|].
  pose proof (IH (acc + coord_difference a b)).
  pose proof (coord_difference_nonneg a b). lra.
Qed.

Lemma difference_sum_nonneg (vs : list vec) : 0 <= difference_sum vs.
Proof. apply difference_sum_from_ge. Qed.

(** [is_fragment] in the words of its docstring: too few vertices, or a
    sum of coordinate differences below the cull threshold. *)
Lemma is_fragment_iff (q : ViewPolygon) :
  is_fragment q = true <->
  (List.length (verts q) < 3)%nat \/ difference_sum (verts q) < POLYGON_CULL_THRESHOLD.
Proof.
  unfold is_fragment.
  destruct (List.length (verts q) <? 3)%nat eqn:El.
  - apply Nat.ltb_lt in El. tauto.
  - apply Nat.ltb_ge in El.
    pose proof (Qabs_pos _ (difference_sum_nonneg (verts q))) as HA.
    destruct (Qltb (Qabs (difference_sum (verts q))) POLYGON_CULL_THRESHOLD) eqn:Ed.
    + apply Qltb_lt in Ed. rewrite HA in Ed. tauto.
    + apply Qltb_ge in Ed. rewrite HA in Ed. split; [discriminate|].
      intros [H|H]; [lia|]. exfalso. apply (Qlt_not_le _ _ H Ed).
Qed.

Lemma cull_fragment_spec (q : ViewPolygon) :
  exists o, cull_fragment q = Ok o /\
            (o = None <-> is_fragment q = true) /\
            (forall q', o = Some q' ->
                        verts q' = verts q /\ style q' = style q /\
                        normal q' = normal q /\ (3 <= List.length (verts q'))%nat).
Proof.
  unfold cull_fragment. destruct (is_fragment q) eqn:E.
  - exists None. split; [reflexivity|]. split; [tauto|]. intros q' H. discriminate.
  - assert (Hlen : (3 <= List.length (verts q))%nat).
    { unfold is_fragment in E.
      destruct (List.length (verts q) <? 3)%nat eqn:El; [discriminate|].
      now apply Nat.ltb_ge in El. }
    unfold recalculate_bounds.
    destruct (verts q) as [|v0 vs] eqn:Ev; [simpl in Hlen; lia|].
    rewrite list_index_0. simpl.
    eexists. split; [reflexivity|]. split.
    + split; intros H; discriminate.
    + intros q' H. inversion H; subst q'. simpl. rewrite Ev. simpl. auto.
Qed.

(** [cut_conflicting] in terms of the two rings. *)
Lemma cut_conflicting_spec (plane p : ViewPolygon) (st : cut_state) :
  cut_rings plane p = Ok st ->
  exists f b,
    cut_conflicting plane p = Ok (f, b) /\
    (f = None <-> is_fragment (set_verts p (front_pol_verts st)) = true) /\
    (b = None <-> is_fragment (set_verts p (back_pol_verts st)) = true) /\
    (forall q, f = Some q ->
               verts q = front_pol_verts st /\ style q = style p /\
               normal q = normal p /\ (3 <= List.length (verts q))%nat) /\
    (forall q, b = Some q ->
               verts q = back_pol_verts st /\ style q = style p /\
               normal q = normal p /\ (3 <= List.length (verts q))%nat).
Proof.
  intros Hst. unfold cut_conflicting. rewrite Hst. simpl.
  destruct (cull_fragment_spec (set_verts p (front_pol_verts st))) as (f & Hf & Hfn & Hfs).
  destruct (cull_fragment_spec
              (set_verts (set_verts p (front_pol_verts st)) (back_pol_verts st)))
    as (b & Hb & Hbn & Hbs).
  rewrite Hf. simpl. rewrite Hb. simpl.
  exists f, b. split; [reflexivity|]. split; [exact Hfn|]. split; [exact Hbn|].
  split; intros q Hq.
  - destruct (Hfs q Hq) as (H1 & H2 & H3 & H4). auto.
  - destruct (Hbs q Hq) as (H1 & H2 & H3 & H4). auto.
Qed.

Lemma cut_rings_total (plane p : ViewPolygon) :
  verts plane <> [] -> verts p <> [] -> exists st, cut_rings plane p = Ok st.
Proof.
  intros Hplane Hp. destruct (verts plane) as [|p0 rest] eqn:E; [congruence|].
  destruct (cut_rings_inv plane p0 rest E (fun _ _ => True) p Hp) as [st [Hst _]]; auto.
  eauto.
Qed.

Lemma difference_sum_from_deltas (vs : list vec) :
  forall acc, difference_sum_from acc vs == acc + summed_deltas vs.
Proof.
  induction vs as [|a vs IH]; intros acc.
  - cbn. ring.
  - destruct vs as [|b vs].
    + cbn. ring.
    + change (difference_sum_from acc (a :: b :: vs))
        with (difference_sum_from (acc + coord_difference a b) (b :: vs)).
      rewrite IH. unfold summed_deltas, coord_difference.
      cbn [tl combine map fold_right fst snd]. ring.
Qed.

Lemma difference_sum_deltas (vs : list vec) : difference_sum vs == summed_deltas vs.
Proof. unfold difference_sum. rewrite difference_sum_from_deltas. ring. Qed.

Lemma seq_split_at (i len : nat) :
  (i < len)%nat -> seq 0 len = seq 0 i ++ i :: seq (S i) (len - S i).
Proof.
  intros Hi. replace len with (i + S (len - S i))%nat at 1 by lia.
  rewrite seq_app. reflexivity.
Qed.

(** The two rings that the vertex loop of [cut_conflicting] builds, in
    closed form: the loop ends without an exception, and vertex [i] adds
    what [ring_step] says. *)
Lemma cut_rings_closed_form (plane p : ViewPolygon) (p0 : vec) (rest : list vec) :
  verts plane = p0 :: rest -> verts p <> [] ->
  exists st,
    cut_rings plane p = Ok st /\
    front_pol_verts st = front_ring p0 (normal plane) (verts p) /\
    back_pol_verts st = back_ring p0 (normal plane) (verts p).
Proof.
  intros Hplane Hp.
  destruct (cut_rings_inv plane p0 rest Hplane
              (fun i st =>
                 (forall nv, nth_error (verts p) (prev_index i (List.length (verts p)))
                             = Some nv ->
                             currently_in_front st = in_front_of p0 (normal plane) nv) /\
                 front_pol_verts st = front_part p0 (normal plane) (verts p) 0 i /\
                 back_pol_verts st = back_part p0 (normal plane) (verts p) 0 i)
              p Hp) as [st [Hst (_ & Hf & Hb)]].
  - intros last Hlast. cbn [currently_in_front front_pol_verts back_pol_verts].
    split; [|split; reflexivity].
    intros nv Hnv. cbn [prev_index] in Hnv. rewrite Hlast in Hnv.
    now injection Hnv as <-.
  - intros i st vert next_vert Hn Hnv (Hflag & Hf & Hb) app.
    cbn [currently_in_front front_pol_verts back_pol_verts].
    assert (Hstep : ring_step p0 (normal plane) (verts p) i = app).
    { unfold ring_step. rewrite Hn, Hnv. subst app. rewrite (Hflag next_vert Hnv).
      reflexivity. }
    split; [|split].
    + intros nv Hi. cbn [prev_index] in Hi. rewrite Hn in Hi. now injection Hi as <-.
    + unfold front_part in *. rewrite seq_S, flat_map_app, <- Hf. cbn [flat_map Nat.add].
      now rewrite Hstep, app_nil_r.
    + unfold back_part in *. rewrite seq_S, flat_map_app, <- Hb. cbn [flat_map Nat.add].
      now rewrite Hstep, app_nil_r.
  - exists st. split; [exact Hst|]. split; assumption.
Qed.

(** Every vertex of the ring is on the front ring or on the back ring. *)
Lemma rings_hold_vertices (p0 n : vec) (vs : list vec) (v : vec) :
  In v vs -> In v (front_ring p0 n vs) \/ In v (back_ring p0 n vs).
Proof.
  intros Hin. apply In_nth_error in Hin. destruct Hin as [i Hi].
  assert (Hlt : (i < List.length vs)%nat) by (apply nth_error_Some; congruence).
  destruct (list_index_prev vs i Hlt) as [a [_ Ha]].
  assert (Hstep : In v (fst (ring_step p0 n vs i)) \/ In v (snd (ring_step p0 n vs i))).
  { unfold ring_step. rewrite Hi, Ha. unfold cut_appends.
    destruct (Bool.eqb _ _); [destruct (in_front_of p0 n v); cbn; auto|].
    destruct (intersect_line_plane v a p0 n); [|cbn; auto].
    destruct (in_front_of p0 n v); cbn; auto. }
  assert (Hseq : In i (seq 0 (List.length vs))) by (apply in_seq; lia).
  unfold front_ring, back_ring, front_part, back_part.
  destruct Hstep as [H|H]; [left|right]; apply in_flat_map; exists i; auto.
Qed.

(** C4.  [cut_conflicting] returns [None] in place of a fragment exactly
    when the vertex ring of that fragment has fewer than 3 vertices or its
    summed absolute coordinate deltas are below 1e-6, and every fragment it
    does return has the vertices of its ring and the fill colour, stroke
    colour and opacities of the polygon that was cut.  The two rings are
    those of [front_ring] and [back_ring]: every vertex of the polygon goes
    to the ring of its side, with the cut points of the edges that change
    side, so every vertex of the polygon is on one of the rings. *)
Theorem cut_conflicting_fragments (plane p : ViewPolygon) (p0 : vec) (rest : list vec) :
  verts plane = p0 :: rest -> verts p <> [] ->
  let front := front_ring p0 (normal plane) (verts p) in
  let back := back_ring p0 (normal plane) (verts p) in
  exists st f b,
    cut_rings plane p = Ok st /\
    front_pol_verts st = front /\ back_pol_verts st = back /\
    (forall v, In v (verts p) -> In v front \/ In v back) /\
    cut_conflicting plane p = Ok (f, b) /\
    (f = None <-> (List.length front < 3)%nat \/ summed_deltas front < 1e-6) /\
    (b = None <-> (List.length back < 3)%nat \/ summed_deltas back < 1e-6) /\
    (forall q, f = Some q -> verts q = front /\ style q = style p) /\
    (forall q, b = Some q -> verts q = back /\ style q = style p).
Proof.
  intros Hplane Hp front back.
  destruct (cut_rings_closed_form plane p p0 rest Hplane Hp) as (st & Hst & Hfr & Hbk).
  destruct (cut_conflicting_spec plane p st Hst) as (f & b & Hc & Hf & Hb & Hfs & Hbs).
  exists st, f, b. split; [exact Hst|]. split; [exact Hfr|]. split; [exact Hbk|].
  split; [intros v Hv; now apply rings_hold_vertices|].
  split; [exact Hc|].
  rewrite Hf, Hb, !is_fragment_iff. cbn [verts set_verts].
  rewrite !difference_sum_deltas, Hfr, Hbk. fold front back.
  split; [reflexivity|]. split; [reflexivity|].
  split; intros q Hq.
  - destruct (Hfs q Hq) as (H1 & H2 & _). rewrite H1. auto.
  - destruct (Hbs q Hq) as (H1 & H2 & _). rewrite H1. auto.
Qed.

(** C8.  When the edge between vertex [i] of the cut polygon and the vertex
    before it changes side and [intersect_line_plane] yields no point for
    it, [cut_conflicting] raises nothing: it returns a pair of results, and
    the vertex is appended, without a cut point, to the front ring and to
    the back ring, between what the vertices before it and the vertices
    after it add; the fragments returned have these rings as vertices. *)
Theorem cut_conflicting_parallel_edge (plane p : ViewPolygon) (p0 : vec) (rest : list vec)
        (i : nat) (vert next_vert : vec) (side : bool) :
  verts plane = p0 :: rest ->
  nth_error (verts p) i = Some vert ->
  nth_error (verts p) (prev_index i (List.length (verts p))) = Some next_vert ->
  vert_relative_pos_bool plane vert = Ok side ->
  vert_relative_pos_bool plane next_vert = Ok (negb side) ->
  intersect_line_plane vert next_vert p0 (normal plane) = None ->
  let n := List.length (verts p) in
  exists st f b,
    cut_rings plane p = Ok st /\
    cut_conflicting plane p = Ok (f, b) /\
    front_pol_verts st =
      front_part p0 (normal plane) (verts p) 0 i ++ [vert]
      ++ front_part p0 (normal plane) (verts p) (S i) (n - S i) /\
    back_pol_verts st =
      back_part p0 (normal plane) (verts p) 0 i ++ [vert]
      ++ back_part p0 (normal plane) (verts p) (S i) (n - S i) /\
    (forall q, f = Some q -> verts q = front_pol_verts st) /\
    (forall q, b = Some q -> verts q = back_pol_verts st).
Proof.
  intros Hplane Hn Hnv Hside Hnext Hnone n.
  assert (Hp : verts p <> []) by (intros E; rewrite E in Hn; destruct i; discriminate).
  assert (Hi : (i < n)%nat) by (apply nth_error_Some; congruence).
  destruct (cut_rings_closed_form plane p p0 rest Hplane Hp) as (st & Hst & Hfr & Hbk).
  destruct (cut_conflicting_spec plane p st Hst) as (f & b & Hc & _ & _ & Hfs & Hbs).
  rewrite (vert_relative_pos_bool_side plane p0 rest vert Hplane) in Hside.
  rewrite (vert_relative_pos_bool_side plane p0 rest next_vert Hplane) in Hnext.
  injection Hside as Hside. injection Hnext as Hnext.
  assert (Hstep : ring_step p0 (normal plane) (verts p) i = ([vert], [vert])).
  { unfold ring_step. rewrite Hn, Hnv. unfold in_front_of, cut_appends.
    rewrite Hside, Hnext, Hnone. now destruct side. }
  exists st, f, b. split; [exact Hst|]. split; [exact Hc|].
  split; [|split].
  - rewrite Hfr. unfold front_ring, front_part. fold n.
    rewrite (seq_split_at i n Hi), flat_map_app. cbn [flat_map].
    now rewrite Hstep.
  - rewrite Hbk. unfold back_ring, back_part. fold n.
    rewrite (seq_split_at i n Hi), flat_map_app. cbn [flat_map].
    now rewrite Hstep.
  - split; intros q Hq.
    + now destruct (Hfs q Hq) as (H1 & _).
    + now destruct (Hbs q Hq) as (H1 & _).
Qed.


End CutTheorems.

(** Witness for C4: the plane of [ground] cuts [wall] into two fragments. *)
Lemma cut_conflicting_fragments_witness :
  verts Examples.ground = (0, 0, 0) :: [(1, 0, 0); (1, 1, 0); (0, 1, 0)] /\
  verts Examples.wall <> [] /\
  exists qf qb,
    cut_conflicting (MU := exact_utils) Examples.ground Examples.wall
    = Ok (Some qf, Some qb) /\
    style qf = style Examples.wall /\ style qb = style Examples.wall.
Proof.
  split; [reflexivity|]. split; [discriminate|].
  destruct (cut_conflicting_fragments (MU := exact_utils) Examples.ground Examples.wall
              (0, 0, 0) _ eq_refl)
    as (st & f & b & _ & _ & _ & _ & Hc & Hf & Hb & Hfs & Hbs); [discriminate|].
  destruct f as [qf|].
  2:{ exfalso. destruct (proj1 Hf eq_refl) as [H|H]; vm_compute in H; [lia|discriminate]. }
  destruct b as [qb|].
  2:{ exfalso. destruct (proj1 Hb eq_refl) as [H|H]; vm_compute in H; [lia|discriminate]. }
  exists qf, qb. split; [exact Hc|].
  split; [exact (proj2 (Hfs qf eq_refl))|exact (proj2 (Hbs qb eq_refl))].
Defined.

(** Witness for C8: the second vertex of [sliver] lies on the plane of
    [ground], the vertex before it just behind, and the edge between them
    has no intersection point; the vertex is on both fragments. *)
Lemma cut_conflicting_parallel_edge_witness :
  verts Examples.ground = (0, 0, 0) :: [(1, 0, 0); (1, 1, 0); (0, 1, 0)] /\
  intersect_line_plane (MathUtils := exact_utils)
    (0, 0, 0) (1, 0, -1e-8) (0, 0, 0) (normal Examples.ground) = None /\
  exists qf qb,
    cut_conflicting (MU := exact_utils) Examples.ground Examples.sliver
    = Ok (Some qf, Some qb) /\
    In (0, 0, 0) (verts qf) /\ In (0, 0, 0) (verts qb).
Proof.
  split; [reflexivity|]. split; [reflexivity|].
  destruct (cut_conflicting_parallel_edge (MU := exact_utils)
              Examples.ground Examples.sliver (0, 0, 0) _ 1%nat (0, 0, 0) (1, 0, -1e-8) true
              eq_refl eq_refl eq_refl eq_refl eq_refl eq_refl)
    as (st & f & b & _ & Hc & Hfr & Hbk & Hfs & Hbs).
  destruct f as [qf|]; [|vm_compute in Hc; discriminate].
  destruct b as [qb|]; [|vm_compute in Hc; discriminate].
  exists qf, qb. split; [exact Hc|].
  rewrite (Hfs qf eq_refl), (Hbs qb eq_refl), Hfr, Hbk.
  split; apply in_or_app; right; left; reflexivity.
Defined.


(** ** Bounding boxes and conflicts *)

Lemma py_min_le_l (a b : Q) : py_min a b <= a.
Proof.
  unfold py_min. destruct (Qltb b a) eqn:E.
  - apply Qltb_lt in E. lra.
  - lra.
Qed.

Lemma py_max_ge_l (a b : Q) : a <= py_max a b.
Proof.
  unfold py_max. destruct (Qltb a b) eqn:E.
  - apply Qltb_lt in E. lra.
  - lra.
Qed.

Lemma bounds_fold_ordered (vs : list vec) (b : Bounds) :
  box_ordered b -> box_ordered (fold_left bounds_step vs b).
Proof.
  revert b. induction vs as [|v vs IH]; intros b Hb; simpl; [exact Hb|].
  apply IH. unfold box_ordered, bounds_step. simpl.
  pose proof (py_min_le_l (vx v) (b0 b)). pose proof (py_max_ge_l (vx v) (b1 b)).
  pose proof (py_min_le_l (vy v) (b2 b)). pose proof (py_max_ge_l (vy v) (b3 b)).
  pose proof (py_min_le_l (vz v) (b4 b)). pose proof (py_max_ge_l (vz v) (b5 b)).
  repeat split; lra.
Qed.

Lemma bounds_computed_ordered (p : ViewPolygon) (b : Bounds) :
  bounds_computed p -> bounds p = Some b -> box_ordered b.
Proof.
  unfold bounds_computed. destruct (verts p) as [|v0 vs]; [tauto|].
  intros H Hb. rewrite H in Hb. inversion Hb; subst b.
  apply bounds_fold_ordered. repeat split; apply Qle_refl.
Qed.

Lemma axis_apart_false (p_min p_max q_min q_max : Q) :
  p_min <= p_max -> q_min <= q_max ->
  (axis_apart p_min p_max q_min q_max = false <-> p_min <= q_max /\ q_min <= p_max).
Proof.
  intros Hp Hq. unfold axis_apart.
  destruct (Qltb q_max p_min) eqn:E1, (Qltb q_max p_max) eqn:E2,
           (Qltb p_min q_min) eqn:E3, (Qltb p_max q_min) eqn:E4; simpl;
    repeat match goal with
           | H : Qltb _ _ = true |- _ => apply Qltb_lt in H
           | H : Qltb _ _ = false |- _ => apply Qltb_ge in H
           end;
    split; intros H; try discriminate; try reflexivity; try lra.
Qed.

Section ConflictTheorems.
Context {MU : MathUtils}.

Lemma relative_pos_total (plane p : ViewPolygon) :
  verts plane <> [] ->
  exists k, relative_pos plane p = Ok k /\ (k = 1 \/ k = 0 \/ k = -1)%Z.
Proof.
  intros H. destruct (verts plane) as [|p0 rest] eqn:E; [congruence|].
  rewrite (relative_pos_classify plane p p0 rest E).
  eexists. split; [reflexivity|].
  destruct (forallb _ (verts p)); [auto|]. destruct (forallb _ (verts p)); auto.
Qed.


End ConflictTheorems.



(** ** Sorting *)

Section SortFacts.
Context {A : Type}.
Variable key : A -> Q.

Lemma insert_reverse_perm (x : A) (l : list A) :
  Permutation (x :: l) (insert_reverse key x l).
Proof.
  induction l as [|y l IH]; simpl; [reflexivity|].
  destruct (Qltb (key x) (key y)); [|reflexivity].
  rewrite perm_swap. now apply perm_skip.
Qed.

Lemma sort_reverse_perm (l : list A) : Permutation l (sort_reverse key l).
Proof.
  induction l as [|x l IH]; simpl; [reflexivity|].
  rewrite <- insert_reverse_perm. now apply perm_skip.
Qed.

Lemma insert_reverse_sorted (x : A) (l : list A) :
  StronglySorted (fun a b => key b <= key a) l ->
  StronglySorted (fun a b => key b <= key a) (insert_reverse key x l).
Proof.
  induction l as [|y l IH]; intros Hs; simpl.
  - constructor; constructor.
  - inversion Hs as [|? ? Hs' Hall]; subst.
    destruct (Qltb (key x) (key y)) eqn:E.
    + apply Qltb_lt in E. constructor; [now apply IH|].
      rewrite Forall_forall in *. intros z Hz.
      apply (Permutation_in _ (Permutation_sym (insert_reverse_perm x l))) in Hz.
      destruct Hz as [->|Hz]; [lra|now apply Hall].
    + apply Qltb_ge in E. constructor; [exact Hs|].
      constructor; [exact E|].
      rewrite Forall_forall in *. intros z Hz. specialize (Hall z Hz). lra.
Qed.

Lemma sort_reverse_sorted (l : list A) :
  StronglySorted (fun a b => key b <= key a) (sort_reverse key l).
Proof.
  induction l as [|x l IH]; simpl; [constructor|].
  now apply insert_reverse_sorted.
Qed.

Lemma insert_reverse_stable (k : Q) (x : A) (l : list A) :
  filter (fun a => Qeq_bool (key a) k) (insert_reverse key x l) =
  filter (fun a => Qeq_bool (key a) k) (x :: l).
Proof.
  induction l as [|y l IH]; [reflexivity|].
  simpl insert_reverse. destruct (Qltb (key x) (key y)) eqn:E; [|reflexivity].
  apply Qltb_lt in E. simpl in *.
  destruct (Qeq_bool (key x) k) eqn:Ex, (Qeq_bool (key y) k) eqn:Ey;
    rewrite IH; try reflexivity.
  apply Qeq_bool_iff in Ex, Ey. lra.
Qed.

Lemma sort_reverse_stable (k : Q) (l : list A) :
  filter (fun a => Qeq_bool (key a) k) (sort_reverse key l) =
  filter (fun a => Qeq_bool (key a) k) l.
Proof.
  induction l as [|x l IH]; [reflexivity|].
  simpl sort_reverse. rewrite insert_reverse_stable. simpl. now rewrite IH.
Qed.

Lemma insert_reverse_decorated (x : A) (l : list A) :
  insert_reverse fst (key x, x) (map (fun a => (key a, a)) l) =
  map (fun a => (key a, a)) (insert_reverse key x l).
Proof.
  induction l as [|y l IH]; [reflexivity|]. simpl.
  destruct (Qltb (key x) (key y)); [|reflexivity].
  simpl. now rewrite IH.
Qed.

Lemma sort_reverse_decorated (l : list A) :
  map snd (sort_reverse fst (map (fun a => (key a, a)) l)) = sort_reverse key l.
Proof.
  assert (H : sort_reverse fst (map (fun a => (key a, a)) l) =
              map (fun a => (key a, a)) (sort_reverse key l)).
  { induction l as [|x l IH]; [reflexivity|]. simpl. rewrite IH.
    apply insert_reverse_decorated. }
  rewrite H, map_map. simpl. apply map_id.
Qed.

End SortFacts.

Lemma insert_reverse_ext {A : Type} (key key' : A -> Q) (x : A) (l : list A) :
  key x = key' x -> (forall a, In a l -> key a = key' a) ->
  insert_reverse key x l = insert_reverse key' x l.
Proof.
  intros Hx. induction l as [|y l IH]; intros Hl; [reflexivity|]. simpl.
  rewrite Hx, (Hl y (or_introl eq_refl)).
  destruct (Qltb (key' x) (key' y)); [|reflexivity].
  f_equal. apply IH. intros a Ha. apply Hl. now right.
Qed.

Lemma sort_reverse_ext {A : Type} (key key' : A -> Q) (l : list A) :
  (forall a, In a l -> key a = key' a) ->
  sort_reverse key l = sort_reverse key' l.
Proof.
  induction l as [|x l IH]; intros Hl; [reflexivity|]. simpl.
  rewrite IH by (intros a Ha; apply Hl; now right).
  apply insert_reverse_ext.
  - apply Hl. now left.
  - intros a Ha. apply Hl. right.
    apply (Permutation_in _ (Permutation_sym (sort_reverse_perm key' l))). exact Ha.
Qed.

Lemma map_result_total {A B : Type} (f : A -> result B) (g : A -> B) (l : list A) :
  Forall (fun a => f a = Ok (g a)) l -> map_result f l = Ok (map g l).
Proof.
  induction 1 as [|a l Ha _ IH]; [reflexivity|].
  simpl. rewrite Ha. simpl. rewrite IH. reflexivity.
Qed.

Lemma combine_map_self {A B : Type} (g : A -> B) (l : list A) :
  combine (map g l) l = map (fun a => (g a, a)) l.
Proof. induction l as [|a l IH]; [reflexivity|]. simpl. now rewrite IH. Qed.

Lemma sort_by_key_total (key : ViewPolygon -> result Q) (K : ViewPolygon -> Q)
      (l : list ViewPolygon) :
  Forall (fun p => key p = Ok (K p)) l ->
  sort_by_key key l = Ok (sort_reverse K l).
Proof.
  intros H. unfold sort_by_key. rewrite (map_result_total key K l H). simpl.
  now rewrite combine_map_self, sort_reverse_decorated.
Qed.

Lemma bounds_computed_inv (p : ViewPolygon) :
  bounds_computed p -> verts p <> [] /\ exists b, bounds p = Some b.
Proof.
  unfold bounds_computed. destruct (verts p); [tauto|].
  intros H. split; [discriminate|eauto].
Qed.

(** C9.  On a list of polygons with computed bounds, [depth_sort_bb_depth]
    with any of the four heuristics returns the polygons in descending order
    of the heuristic's key, and polygons with equal keys keep their input
    order; with the closest-vertex heuristic ("heuristic.bbmin"), three
    axis-parallel unit squares at depths 1, 2 and 3 come out as depth 3,
    depth 2, depth 1, in whatever order they go in. *)
Theorem depth_sort_bb_depth_descending :
  (forall (l : list ViewPolygon) (h : string),
      Forall bounds_computed l -> In h heuristics ->
      exists l',
        depth_sort_bb_depth l h = Ok l' /\
        Permutation (sort_input h l) l' /\
        StronglySorted (fun a b => heuristic_key h b <= heuristic_key h a) l' /\
        (forall k, filter (fun p => Qeq_bool (heuristic_key h p) k) l' =
                   filter (fun p => Qeq_bool (heuristic_key h p) k) (sort_input h l))) /\
  (forall l,
      In l [[Examples.square1; Examples.square2; Examples.square3];
            [Examples.square1; Examples.square3; Examples.square2];
            [Examples.square2; Examples.square1; Examples.square3];
            [Examples.square2; Examples.square3; Examples.square1];
            [Examples.square3; Examples.square1; Examples.square2];
            [Examples.square3; Examples.square2; Examples.square1]] ->
      depth_sort_bb_depth l "heuristic.bbmin" =
      Ok [Examples.square3; Examples.square2; Examples.square1]).
Proof.
  split.
  - intros l h Hl Hh.
    assert (Hbb : forall key K,
               (forall p b, bounds p = Some b -> key p = Ok (K p)) ->
               sort_by_key key l = Ok (sort_reverse K l)).
    { intros key K HK. apply sort_by_key_total.
      rewrite Forall_forall in *. intros p Hp.
      destruct (bounds_computed_inv p (Hl p Hp)) as [_ [b Hb]]. eauto. }
    assert (Hgen : depth_sort_bb_depth l h =
                   Ok (sort_reverse (heuristic_key h) (sort_input h l))).
    { simpl in Hh. destruct Hh as [<-|[<-|[<-|[<-|[]]]]].
      - apply Hbb. intros p b Hb. unfold key_bbmin, heuristic_key, get_bounds.
        rewrite Hb. reflexivity.
      - apply Hbb. intros p b Hb. unfold key_bbmid, heuristic_key, get_bounds.
        rewrite Hb. reflexivity.
      - apply Hbb. intros p b Hb. unfold key_bbmax, heuristic_key, get_bounds.
        rewrite Hb. reflexivity.
      - unfold depth_sort_bb_depth, sort_input. simpl String.eqb. cbv iota.
        rewrite (map_result_total weighted_depth
                   (fun p => set_depth p (mean_depth p)) l).
        + simpl bind.
          rewrite (sort_by_key_total key_depth depth) by (apply Forall_forall; reflexivity).
          f_equal. apply sort_reverse_ext. intros p Hp.
          apply in_map_iff in Hp. destruct Hp as [p' [<- _]]. reflexivity.
        + rewrite Forall_forall in *. intros p Hp.
          destruct (bounds_computed_inv p (Hl p Hp)) as [Hv _].
          unfold weighted_depth, mean_depth. destruct (verts p); [congruence|reflexivity]. }
    exists (sort_reverse (heuristic_key h) (sort_input h l)).
    split; [exact Hgen|]. split; [apply sort_reverse_perm|].
    split; [apply sort_reverse_sorted|]. intros k. apply sort_reverse_stable.
  - intros l Hl. simpl in Hl.
    repeat (destruct Hl as [<-|Hl]; [vm_compute; reflexivity|]). destruct Hl.
Qed.

(** Witness for C9: the three squares, already in ascending depth, under the
    centre heuristic. *)
Lemma depth_sort_bb_depth_descending_witness :
  Forall bounds_computed [Examples.square1; Examples.square2; Examples.square3] /\
  In "heuristic.bbmid"%string heuristics /\
  exists l',
    depth_sort_bb_depth [Examples.square1; Examples.square2; Examples.square3]
                        "heuristic.bbmid" = Ok l' /\
    StronglySorted (fun a b => heuristic_key "heuristic.bbmid" b <=
                               heuristic_key "heuristic.bbmid" a) l'.
Proof.
  assert (H1 : Forall bounds_computed
                 [Examples.square1; Examples.square2; Examples.square3]).
  { repeat constructor. }
  assert (H2 : In "heuristic.bbmid"%string heuristics).
  { simpl. auto. }
  split; [exact H1|]. split; [exact H2|].
  destruct depth_sort_bb_depth_descending as [H _].
  destruct (H _ _ H1 H2) as (l' & Hs & _ & Hsorted & _).
  exists l'. split; assumption.
Defined.

(** ** BSP traversal *)

Section Traversal.
Context {MU : MathUtils}.

(** On a tree in which every node holds a polygon with vertices, the
    traversal raises nothing and appends the painter's order. *)
Lemma traversal_painter_order_inv (G : ViewPolygon -> Prop)
      (C : ViewPolygon -> Z -> ViewPolygon -> Prop) (root : BSPNode) :
  (forall q, G q -> verts q <> []) ->
  tree_inv G C root ->
  forall view_polygons camera_pos,
    bsp_tree_to_view_polygons root view_polygons camera_pos =
    Ok (view_polygons ++ painter_order root camera_pos).
Proof.
  intros HG. induction root as [|f IHf b IHb leaf ps]; intros Hinv acc cam.
  - simpl. now rewrite app_nil_r.
  - simpl in Hinv. destruct Hinv as (Hne & HGps & _ & Hf & Hb).
    destruct ps as [|polygon ps]; [congruence|].
    simpl. rewrite ?list_index_0. simpl.
    destruct leaf; [reflexivity|].
    inversion HGps as [|? ? Hpol _]; subst.
    apply HG in Hpol. destruct (verts polygon) as [|first vs] eqn:Ev; [congruence|].
    rewrite ?list_index_0. simpl.
    destruct (Qltb _ 0).
    + rewrite (IHb Hb). simpl. rewrite (IHf Hf). now rewrite <- !app_assoc.
    + rewrite (IHf Hf). simpl. rewrite (IHb Hb). now rewrite <- !app_assoc.
Qed.

End Traversal.

(** ** Paths into the BSP tree *)

Lemma round_half_lt (n : nat) : (0 < n)%nat -> (round_half n < n)%nat.
Proof.
  intros Hn. unfold round_half.
  pose proof (Nat.div2_odd n) as Hd. rewrite <- Nat.negb_even in Hd.
  destruct (Nat.even n) eqn:E; simpl in Hd; [lia|].
  destruct (Nat.even (Nat.div2 n)) eqn:E2; [lia|].
  destruct (Nat.div2 n) as [|k]; [discriminate|]. lia.
Qed.

Lemma pop_at_ok {A : Type} (l : list A) (i : nat) :
  (i < List.length l)%nat ->
  exists a rest, pop_at l i = Ok (a, rest) /\ In a l /\ incl rest l /\
                 S (List.length rest) = List.length l.
Proof.
  intros Hi. unfold pop_at.
  destruct (nth_error l i) as [a|] eqn:E; [|apply nth_error_None in E; lia].
  exists a, (firstn i l ++ skipn (S i) l).
  split; [reflexivity|]. split; [eapply nth_error_In; eauto|]. split.
  - intros x Hx. apply in_app_or in Hx. destruct Hx as [Hx|Hx].
    + rewrite <- (firstn_skipn i l). apply in_or_app. now left.
    + rewrite <- (firstn_skipn (S i) l). apply in_or_app. now right.
  - rewrite length_app, length_firstn, length_skipn. lia.
Qed.

Lemma lookup_none (p : path) : lookup_node NoneNode p = NoneNode.
Proof. destruct p; reflexivity. Qed.

Lemma update_lookup_id (root : BSPNode) (p : path) :
  update_node root p (lookup_node root p) = root.
Proof.
  revert root. induction p as [|d p IH]; intros root; [now destruct root|].
  destruct root as [|f b l ps]; destruct d; simpl; try reflexivity; now rewrite IH.
Qed.

Lemma lookup_update_ext (root : BSPNode) (p s : path) (n' : BSPNode) :
  is_node (lookup_node root p) ->
  lookup_node (update_node root p n') (p ++ s) = lookup_node n' s.
Proof.
  revert root. induction p as [|d p IH]; intros root Hn; [now destruct root|].
  destruct root as [|f b l ps]; [destruct Hn|].
  destruct d; simpl in *; now apply IH.
Qed.

Lemma lookup_update_same (root : BSPNode) (p : path) (n' : BSPNode) :
  is_node (lookup_node root p) ->
  lookup_node (update_node root p n') p = n'.
Proof.
  intros Hn. rewrite <- (app_nil_r p) at 2.
  rewrite lookup_update_ext by exact Hn. now destruct n'.
Qed.

Lemma same_top_refl (n : BSPNode) : same_top n n.
Proof. destruct n; simpl; auto. Qed.

Lemma lookup_update_top (root : BSPNode) (p q : path) (n' : BSPNode) :
  (forall s, q <> p ++ s) ->
  same_top (lookup_node (update_node root p n') q) (lookup_node root q).
Proof.
  revert root p. induction q as [|d q IH]; intros root p Hq.
  - destruct p as [|d' p]; [exfalso; now apply (Hq [])|].
    destruct root as [|f b l ps]; destruct d'; simpl; auto.
  - destruct p as [|d' p]; [exfalso; now apply (Hq (d :: q))|].
    destruct root as [|f b l ps]; destruct d, d'; simpl; try exact I;
      try apply same_top_refl;
      apply IH; intros s Hs; apply (Hq s); simpl; now rewrite Hs.
Qed.

Lemma prefix_cases (p q : path) :
  (exists s, q = p ++ s) \/ (forall s, q <> p ++ s).
Proof.
  revert q. induction p as [|d p IH]; intros q; [left; now exists q|].
  destruct q as [|d' q]; [right; intros s; discriminate|].
  destruct (Bool.bool_dec d d') as [->|Hd].
  - destruct (IH q) as [[s ->]|Hn]; [left; now exists s|].
    right. intros s Hs. inversion Hs. now apply (Hn s).
  - right. intros s Hs. inversion Hs. congruence.
Qed.

Lemma same_top_is_node (a b : BSPNode) : same_top a b -> is_node b -> is_node a.
Proof. destruct a, b; simpl; tauto. Qed.

Lemma same_top_polys (a b : BSPNode) : same_top a b -> node_polys a = node_polys b.
Proof. destruct a, b; simpl; intuition congruence. Qed.

Lemma same_top_nonleaf (a b : BSPNode) : same_top a b -> nonleaf b -> nonleaf a.
Proof. destruct a, b; simpl; intuition congruence. Qed.

(** ** The list of leaf nodes *)

Lemma firstn_S_nth {A : Type} (l : list A) (k : nat) (x : A) :
  nth_error l k = Some x -> firstn (S k) l = firstn k l ++ [x].
Proof.
  revert k. induction l as [|a l IH]; intros k H; [destruct k; discriminate|].
  destruct k as [|k]; simpl in *.
  - now inversion H.
  - now rewrite (IH k H).
Qed.

Lemma nth_error_firstn_app {A : Type} (l ext : list A) (k : nat) (x : A) :
  nth_error l k = Some x -> nth_error (firstn k l ++ x :: ext) k = Some x.
Proof.
  intros H.
  assert (Hk : List.length (firstn k l) = k).
  { rewrite length_firstn. apply Nat.min_l.
    apply Nat.lt_le_incl, nth_error_Some. congruence. }
  rewrite nth_error_app2 by lia. rewrite Hk, Nat.sub_diag. reflexivity.
Qed.

Lemma delete_at_middle {A : Type} (a b : list A) (x : A) :
  delete_at (a ++ x :: b) (List.length a) = a ++ b.
Proof.
  induction a as [|y a IH]; [reflexivity|].
  unfold delete_at in *. simpl. simpl in IH. now rewrite IH.
Qed.

Section Relist.
Context {MU : MathUtils}.

Lemma relist_loop_closed (root : BSPNode) (bsp_nodes : list path) :
  (forall p, In p bsp_nodes -> is_node (lookup_node root p)) ->
  forall k ext,
    (k <= List.length bsp_nodes)%nat ->
    relist_loop root (firstn k bsp_nodes ++ ext) (rev (seq 0 k)) =
    Ok (filter (leaf_flag root) (firstn k bsp_nodes) ++ ext
        ++ flat_map (fun p => child_paths p (lookup_node root p))
             (rev (filter (fun p => negb (leaf_flag root p)) (firstn k bsp_nodes)))).
Proof.
  intros Hvalid. induction k as [|k IH]; intros ext Hk.
  - simpl. now rewrite app_nil_r.
  - destruct (nth_error bsp_nodes k) as [x|] eqn:Ex;
      [|apply nth_error_None in Ex; lia].
    rewrite (firstn_S_nth _ _ _ Ex), seq_S, rev_app_distr.
    cbn [rev app Nat.add relist_loop]. unfold relist_step.
    rewrite <- app_assoc. cbn [app].
    rewrite (list_index_nth _ k x (nth_error_firstn_app bsp_nodes ext k x Ex)).
    cbn [bind].
    assert (Hx : is_node (lookup_node root x)).
    { apply Hvalid. eapply nth_error_In; eauto. }
    assert (Hlen : List.length (firstn k bsp_nodes) = k).
    { rewrite length_firstn. apply Nat.min_l. lia. }
    destruct (lookup_node root x) as [|f b l ps] eqn:En; [destruct Hx|].
    assert (Hlf : leaf_flag root x = l) by (unfold leaf_flag; now rewrite En).
    rewrite !filter_app. cbn [filter]. rewrite Hlf.
    destruct l; cbn [node_is_leaf bind negb].
    + rewrite (IH (x :: ext)) by lia. rewrite app_nil_r, <- !app_assoc. reflexivity.
    + replace (delete_at ((firstn k bsp_nodes ++ x :: ext) ++ child_paths x (Node f b false ps)) k)
        with (firstn k bsp_nodes ++ (ext ++ child_paths x (Node f b false ps))).
      2:{ symmetry. rewrite <- app_assoc. cbn [app].
          pose proof (delete_at_middle (firstn k bsp_nodes)
                        (ext ++ child_paths x (Node f b false ps)) x) as HD.
          rewrite Hlen in HD. exact HD. }
      rewrite (IH (ext ++ child_paths x (Node f b false ps))) by lia.
      rewrite app_nil_r, rev_app_distr. cbn [rev flat_map app].
      rewrite En, <- !app_assoc. reflexivity.
Qed.

Lemma relist_loop_relisted (root : BSPNode) (bsp_nodes : list path) :
  (forall p, In p bsp_nodes -> is_node (lookup_node root p)) ->
  relist_loop root bsp_nodes (rev (seq 0 (List.length bsp_nodes))) =
  Ok (relisted root bsp_nodes).
Proof.
  intros Hvalid.
  pose proof (relist_loop_closed root bsp_nodes Hvalid (List.length bsp_nodes) []
                                 (Nat.le_refl _)) as H.
  rewrite firstn_all, app_nil_r in H. exact H.
Qed.

End Relist.

(** ** The invariant of the BSP construction *)

Section BuildInvariant.
Context {MU : MathUtils}.
Variable G : ViewPolygon -> Prop.
Variable C : ViewPolygon -> Z -> ViewPolygon -> Prop.
Hypothesis G_verts : forall q, G q -> verts q <> [].
Hypothesis G_cut : forall plane p f b q,
    G plane -> G p -> cut_conflicting plane p = Ok (f, b) ->
    f = Some q \/ b = Some q -> G q.
Hypothesis C_front : forall plane q,
    G plane -> G q -> relative_pos plane q = Ok 1%Z -> C plane 1 q.
Hypothesis C_back : forall plane q,
    G plane -> G q -> relative_pos plane q = Ok (-1)%Z -> C plane (-1) q.
Hypothesis C_cut : forall plane p f b,
    G plane -> G p -> relative_pos plane p = Ok 0%Z ->
    cut_conflicting plane p = Ok (f, b) ->
    (forall q, f = Some q -> C plane 1 q) /\ (forall q, b = Some q -> C plane (-1) q).

Lemma cut_conflicting_total (plane p : ViewPolygon) :
  verts plane <> [] -> verts p <> [] -> exists f b, cut_conflicting plane p = Ok (f, b).
Proof.
  intros Hplane Hp. destruct (cut_rings_total plane p Hplane Hp) as [st Hst].
  destruct (cut_conflicting_spec plane p st Hst) as (f & b & Hc & _). eauto.
Qed.

Lemma append_polygon_fresh (plane : ViewPolygon) (k : Z) (c : BSPNode) (q : ViewPolygon) :
  fresh_child G C plane k c -> G q -> C plane k q ->
  fresh_child G C plane k (append_polygon c q).
Proof.
  intros [->|(ps & -> & Hne & HG & HC)] Hq HCq; right; simpl.
  - exists [q]. repeat split; auto. discriminate.
  - exists (ps ++ [q]). repeat split.
    + intros E. apply app_eq_nil in E. destruct E; discriminate.
    + apply Forall_app. auto.
    + apply Forall_app. auto.
Qed.

Lemma split_step_ok (plane : ViewPolygon) (f b : BSPNode) (q : ViewPolygon) :
  G plane -> G q ->
  fresh_child G C plane 1 f -> fresh_child G C plane (-1) b ->
  exists f' b', split_step plane (f, b) q = Ok (f', b') /\
                fresh_child G C plane 1 f' /\ fresh_child G C plane (-1) b'.
Proof.
  intros Hplane Hq Hf Hb. unfold split_step.
  destruct (relative_pos_total plane q (G_verts plane Hplane)) as (k & Hk & Hk').
  rewrite Hk. simpl bind.
  destruct Hk' as [->|[->| ->]]; simpl.
  - exists (append_polygon f q), b. split; [reflexivity|]. split; [|exact Hb].
    apply append_polygon_fresh; auto.
  - destruct (cut_conflicting_total plane q (G_verts _ Hplane) (G_verts _ Hq))
      as (cf & cb & Hc).
    rewrite Hc. simpl.
    destruct (C_cut plane q cf cb Hplane Hq Hk Hc) as [HCf HCb].
    eexists _, _. split; [reflexivity|]. split.
    + destruct cf as [qf|]; [|exact Hf].
      apply append_polygon_fresh; auto. apply (G_cut plane q (Some qf) cb); auto.
    + destruct cb as [qb|]; [|exact Hb].
      apply append_polygon_fresh; auto. apply (G_cut plane q cf (Some qb)); auto.
  - exists f, (append_polygon b q). split; [reflexivity|]. split; [exact Hf|].
    apply append_polygon_fresh; auto.
Qed.

Lemma split_loop_ok (plane : ViewPolygon) (todo : list ViewPolygon) :
  G plane -> Forall G todo ->
  forall f b,
    fresh_child G C plane 1 f -> fresh_child G C plane (-1) b ->
    exists f' b', split_loop plane (f, b) todo = Ok (f', b') /\
                  fresh_child G C plane 1 f' /\ fresh_child G C plane (-1) b'.
Proof.
  intros Hplane. induction 1 as [|q todo Hq _ IH]; intros f b Hf Hb; cbn [split_loop].
  - eauto.
  - destruct (split_step_ok plane f b q Hplane Hq Hf Hb) as (f1 & b1 & Hs & Hf1 & Hb1).
    rewrite Hs. cbn [bind]. now apply IH.
Qed.

Lemma fresh_child_inv (plane : ViewPolygon) (k : Z) (c : BSPNode) :
  fresh_child G C plane k c -> tree_inv G C c /\ child_ok C plane k c.
Proof.
  intros [->|(ps & -> & Hne & HG & HC)]; simpl.
  - split; [exact I|constructor].
  - split; [|exact HC]. repeat split; auto.
Qed.

Lemma fresh_child_lookup (plane : ViewPolygon) (k : Z) (c : BSPNode) (s : path) :
  fresh_child G C plane k c -> crowded (lookup_node c s) -> s = [].
Proof.
  intros [->|(ps & -> & _)] Hc.
  - rewrite lookup_none in Hc. unfold crowded in Hc. simpl in Hc. lia.
  - destruct s as [|d s]; [reflexivity|].
    simpl in Hc. destruct d; rewrite lookup_none in Hc; unfold crowded in Hc;
      simpl in Hc; lia.
Qed.

Lemma lookup_cons (f b : BSPNode) (l : bool) (ps : list ViewPolygon) (d : bool) (p : path) :
  lookup_node (Node f b l ps) (d :: p) = lookup_node (if d then f else b) p.
Proof. reflexivity. Qed.

(** What [partition_node] does to a node of a tree that satisfies the
    invariant. *)
Lemma partition_node_ok (n : BSPNode) :
  tree_inv G C n -> is_node n ->
  exists n' c,
    partition_node n = Ok (n', c) /\
    tree_inv G C n' /\ is_node n' /\
    incl (node_polys n') (node_polys n) /\
    ~ crowded n' /\
    (c = false -> n' = n) /\
    (c = true -> nonleaf n' /\
                 (forall d s, crowded (lookup_node n' (d :: s)) -> s = []) /\
                 (forall d s, lookup_node n (d :: s) = NoneNode)).
Proof.
  intros Hinv Hn. destruct n as [|f b l ps]; [destruct Hn|].
  simpl in Hinv. destruct Hinv as (Hne & HG & Hl & Hf & Hb).
  unfold partition_node.
  destruct (1 <? List.length ps)%nat eqn:Elen.
  - apply Nat.ltb_lt in Elen.
    assert (Hleaf : f = NoneNode /\ b = NoneNode).
    { destruct l; [exact Hl|]. destruct Hl as (plane & -> & _). simpl in Elen. lia. }
    destruct Hleaf as [-> ->].
    destruct (pop_at_ok ps (round_half (List.length ps))) as (plane & rest & Hpop & Hin & Hincl & _).
    { apply round_half_lt. lia. }
    rewrite Hpop. cbn [bind].
    rewrite Forall_forall in HG.
    assert (Hplane : G plane) by auto.
    assert (Hrest : Forall G (rev rest)).
    { apply Forall_forall. intros q Hq. apply in_rev in Hq. auto. }
    destruct (split_loop_ok plane (rev rest) Hplane Hrest NoneNode NoneNode)
      as (f' & b' & Hs & Hf' & Hb'); [now left|now left|].
    rewrite Hs. cbn [bind].
    destruct (fresh_child_inv plane 1 f' Hf') as [Hf1 Hf2].
    destruct (fresh_child_inv plane (-1) b' Hb') as [Hb1 Hb2].
    exists (Node f' b' false [plane]), true. split; [reflexivity|].
    split; [|split; [exact I|split; [|split; [|split]]]].
    + simpl. repeat split; auto; [discriminate|]. exists plane. auto.
    + intros q [<-|[]]. exact Hin.
    + unfold crowded. simpl. lia.
    + discriminate.
    + intros _. split; [reflexivity|]. split.
      * intros d s Hc. rewrite lookup_cons in Hc. destruct d.
        -- apply (fresh_child_lookup plane 1 f' s Hf' Hc).
        -- apply (fresh_child_lookup plane (-1) b' s Hb' Hc).
      * intros d s. rewrite lookup_cons. destruct d; apply lookup_none.
  - apply Nat.ltb_ge in Elen.
    exists (Node f b l ps), false. split; [reflexivity|].
    split; [simpl; auto|]. split; [exact I|]. split; [apply incl_refl|].
    split; [unfold crowded; simpl; lia|]. split; [reflexivity|discriminate].
Qed.

Lemma update_node_polys (n : BSPNode) (d : bool) (p : path) (n' : BSPNode) :
  node_polys (update_node n (d :: p) n') = node_polys n.
Proof. destruct n, d; reflexivity. Qed.

(** Replacing a node by one that keeps (a part of) its polygons and
    satisfies the invariant preserves the invariant of the tree. *)
Lemma tree_inv_update (root : BSPNode) (p : path) (n' : BSPNode) :
  tree_inv G C root -> is_node (lookup_node root p) ->
  tree_inv G C n' -> incl (node_polys n') (node_polys (lookup_node root p)) ->
  tree_inv G C (update_node root p n').
Proof.
  revert root. induction p as [|d p IH]; intros root Hinv Hn Hn' Hincl.
  - now destruct root.
  - destruct root as [|f b l ps]; [destruct d; destruct Hn|].
    simpl in Hinv. destruct Hinv as (Hne & HG & Hl & Hf & Hb).
    assert (Hl' : l = false).
    { destruct l; [|reflexivity]. destruct Hl as [-> ->].
      rewrite lookup_cons in Hn. destruct d; rewrite lookup_none in Hn; destruct Hn. }
    subst l. destruct Hl as (plane & -> & Hcf & Hcb).
    assert (Hsub : forall c k, child_ok C plane k c ->
                               is_node (lookup_node c p) ->
                               incl (node_polys n') (node_polys (lookup_node c p)) ->
                               child_ok C plane k (update_node c p n')).
    { intros c k Hc Hcn Hci. unfold child_ok in *.
      destruct p as [|d' p'].
      - assert (E : update_node c [] n' = n') by now destruct c.
        rewrite E. rewrite Forall_forall in *. intros q Hq.
        apply Hc. apply Hci in Hq. now destruct c.
      - now rewrite update_node_polys. }
    rewrite lookup_cons in Hn, Hincl.
    destruct d; simpl.
    + repeat split; auto. exists plane. auto.
    + repeat split; auto. exists plane. auto.
Qed.

Lemma lookup_app (root : BSPNode) (p s : path) :
  lookup_node root (p ++ s) = lookup_node (lookup_node root p) s.
Proof.
  revert root. induction p as [|d p IH]; intros root; [now destruct root|].
  destruct root as [|f b l ps].
  - simpl app. now rewrite !lookup_none.
  - simpl app. rewrite !lookup_cons. apply IH.
Qed.

Lemma tree_inv_lookup (root : BSPNode) (p : path) :
  tree_inv G C root -> tree_inv G C (lookup_node root p).
Proof.
  revert root. induction p as [|d p IH]; intros root Hinv; [now destruct root|].
  destruct root as [|f b l ps]; [now rewrite lookup_none|].
  rewrite lookup_cons. simpl in Hinv. destruct Hinv as (_ & _ & _ & Hf & Hb).
  destruct d; now apply IH.
Qed.

(** The first loop of [bsp_partition].  [todo0] is the whole list of leaf
    nodes, [todo] what is left of it.  Every crowded node is still to be
    visited or is a child made in this pass. *)
Lemma partition_nodes_ok (todo0 : list path) (todo : list path) :
  forall root changed,
    incl todo todo0 ->
    tree_inv G C root ->
    (forall p, In p todo0 -> is_node (lookup_node root p)) ->
    (forall q, crowded (lookup_node root q) ->
               In q todo \/
               exists p d, q = p ++ [d] /\ In p todo0 /\ nonleaf (lookup_node root p)) ->
    exists root' changed',
      partition_nodes root changed todo = Ok (root', changed') /\
      tree_inv G C root' /\
      (forall p, In p todo0 -> is_node (lookup_node root' p)) /\
      (forall q, crowded (lookup_node root' q) ->
                 exists p d, q = p ++ [d] /\ In p todo0 /\ nonleaf (lookup_node root' p)) /\
      (changed' = false ->
       changed = false /\ root' = root /\
       forall p, In p todo -> ~ crowded (lookup_node root p)) /\
      (changed = true -> changed' = true).
Proof.
  induction todo as [|p todo IH]; intros root changed Hincl Hinv Hvalid HJ.
  - exists root, changed. split; [reflexivity|]. split; [exact Hinv|].
    split; [exact Hvalid|]. split; [|split; [|auto]].
    + intros q Hq. destruct (HJ q Hq) as [[]|H]. exact H.
    + intros ->. split; [reflexivity|]. split; [reflexivity|]. intros p [].
  - assert (Hp0 : In p todo0) by (apply Hincl; now left).
    assert (Hn : is_node (lookup_node root p)) by auto.
    destruct (partition_node_ok (lookup_node root p) (tree_inv_lookup root p Hinv) Hn)
      as (n' & c & Hpart & Hinv' & Hn' & Hpolys & Hnc & Hfalse & Htrue).
    cbn [partition_nodes]. rewrite Hpart. cbn [bind].
    assert (Hstep : exists root1,
               root1 = update_node root p n' /\
               tree_inv G C root1 /\
               (forall p1, In p1 todo0 -> is_node (lookup_node root1 p1)) /\
               (forall q, crowded (lookup_node root1 q) ->
                          In q todo \/
                          exists p1 d, q = p1 ++ [d] /\ In p1 todo0 /\
                                       nonleaf (lookup_node root1 p1)) /\
               (c = false -> root1 = root)).
    { exists (update_node root p n'). split; [reflexivity|].
      split; [now apply tree_inv_update|].
      destruct c.
      - destruct (Htrue eq_refl) as (Hnl & Hfresh & Hleaf).
        assert (Hnl1 : forall p1, nonleaf (lookup_node root p1) ->
                                  nonleaf (lookup_node (update_node root p n') p1)).
        { intros p1 H1. destruct (prefix_cases p p1) as [[s ->]|Hne].
          - rewrite lookup_update_ext by exact Hn.
            destruct s as [|d s]; [now destruct n'|].
            rewrite lookup_app, Hleaf in H1. destruct H1.
          - eapply same_top_nonleaf; [apply lookup_update_top; exact Hne|exact H1]. }
        split; [|split; [|discriminate]].
        + intros p1 Hp1. destruct (prefix_cases p p1) as [[s ->]|Hne].
          * rewrite lookup_update_ext by exact Hn.
            destruct s as [|d s]; [now destruct n'|].
            specialize (Hvalid _ Hp1). rewrite lookup_app, Hleaf in Hvalid.
            destruct Hvalid.
          * eapply same_top_is_node; [apply lookup_update_top; exact Hne|auto].
        + intros q Hq. destruct (prefix_cases p q) as [[s ->]|Hne].
          * rewrite lookup_update_ext in Hq by exact Hn.
            destruct s as [|d s].
            -- exfalso. apply Hnc. now destruct n'.
            -- rewrite (Hfresh d s Hq). right. exists p, d.
               split; [reflexivity|]. split; [exact Hp0|].
               now rewrite lookup_update_same.
          * assert (Hq' : crowded (lookup_node root q)).
            { unfold crowded in *.
              now rewrite <- (same_top_polys _ _ (lookup_update_top root p q n' Hne)). }
            destruct (HJ q Hq') as [[->|Hin]|(p1 & d & -> & Hp1 & Hnl1')].
            -- exfalso. apply (Hne []). now rewrite app_nil_r.
            -- now left.
            -- right. exists p1, d. auto.
      - rewrite (Hfalse eq_refl), update_lookup_id.
        split; [exact Hvalid|]. split; [|reflexivity].
        intros q Hq. destruct (HJ q Hq) as [[->|Hin]|H]; [|now left|now right].
        exfalso. apply Hnc. now rewrite (Hfalse eq_refl). }
    destruct Hstep as (root1 & -> & Hinv1 & Hvalid1 & HJ1 & Hsame).
    destruct (IH (update_node root p n') (changed || c)%bool) as
        (root' & changed' & Hrun & Hinv2 & Hvalid2 & HJ2 & Hunch & Hch); auto.
    { intros q Hq. apply Hincl. now right. }
    exists root', changed'. split; [exact Hrun|]. split; [exact Hinv2|].
    split; [exact Hvalid2|]. split; [exact HJ2|]. split.
    + intros E. destruct (Hunch E) as (E1 & -> & Hnocrowd).
      apply orb_false_iff in E1. destruct E1 as [-> ->]. split; [reflexivity|].
      rewrite (Hsame eq_refl) in *. split; [reflexivity|].
      intros p1 [<-|Hp1]; [|now apply Hnocrowd].
      now rewrite <- (Hfalse eq_refl).
    + intros ->. now apply Hch.
Qed.

Lemma child_paths_in (p : path) (n : BSPNode) (d : bool) :
  is_node (lookup_node n [d]) -> In (p ++ [d]) (child_paths p n).
Proof.
  destruct n as [|f b l ps]; [destruct d; intros []|].
  rewrite lookup_cons. unfold child_paths.
  destruct d, f, b; simpl; intros H; auto; destruct H.
Qed.

Lemma child_paths_valid (p q : path) (n : BSPNode) :
  In q (child_paths p n) -> exists d, q = p ++ [d] /\ is_node (lookup_node n [d]).
Proof.
  destruct n as [|f b l ps]; [intros []|].
  unfold child_paths. intros H. apply in_app_or in H. destruct H as [H|H].
  - destruct f; [destruct H|]. destruct H as [<-|[]]. exists true. split; [reflexivity|exact I].
  - destruct b; [destruct H|]. destruct H as [<-|[]]. exists false. split; [reflexivity|exact I].
Qed.

Lemma crowded_is_node (n : BSPNode) : crowded n -> is_node n.
Proof. destruct n; unfold crowded; simpl; [lia|auto]. Qed.

(** One call of [bsp_partition] on a state that satisfies the invariant. *)
Lemma bsp_partition_ok (root : BSPNode) (leaf_nodes : list path) :
  build_inv G C root leaf_nodes ->
  exists root' leaf_nodes' changed,
    bsp_partition root leaf_nodes = Ok (root', leaf_nodes', changed) /\
    build_inv G C root' leaf_nodes' /\
    (changed = false -> root' = root /\ forall q, ~ crowded (lookup_node root q)).
Proof.
  intros (Hinv & Hvalid & HF).
  destruct (partition_nodes_ok leaf_nodes leaf_nodes root false (incl_refl _) Hinv Hvalid)
    as (root' & changed & Hrun & Hinv' & Hvalid' & HJ & Hunch & _).
  { intros q Hq. left. now apply HF. }
  unfold bsp_partition. rewrite Hrun. cbn [bind].
  rewrite (relist_loop_relisted root' leaf_nodes Hvalid'). cbn [bind].
  exists root', (relisted root' leaf_nodes), changed.
  split; [reflexivity|]. split; [split; [exact Hinv'|split]|].
  - intros p Hp. unfold relisted in Hp. apply in_app_or in Hp. destruct Hp as [Hp|Hp].
    + apply filter_In in Hp. now apply Hvalid'.
    + apply in_flat_map in Hp. destruct Hp as (p0 & _ & Hp).
      apply child_paths_valid in Hp. destruct Hp as (d & -> & Hd).
      now rewrite lookup_app.
  - intros q Hq. destruct (HJ q Hq) as (p & d & -> & Hp & Hnl).
    unfold relisted. apply in_or_app. right. apply in_flat_map.
    exists p. split.
    + apply -> in_rev. apply filter_In. split; [exact Hp|].
      unfold leaf_flag. destruct (lookup_node root' p); [destruct Hnl|].
      simpl in Hnl. now rewrite Hnl.
    + apply child_paths_in. rewrite <- lookup_app. now apply crowded_is_node.
  - intros E. destruct (Hunch E) as (_ & -> & Hnc). split; [reflexivity|].
    intros q Hq. apply (Hnc q); auto.
Qed.

(** The loop of [depth_sort_bsp] ends within [cycle_limit] passes: it
    raises [RecursionError] or returns a tree without crowded nodes. *)
Lemma partition_cycles_ok (cycle_limit : Z) (fuel : nat) :
  forall root leaf_nodes j,
    build_inv G C root leaf_nodes ->
    (Z.to_nat (cycle_limit - j) < fuel)%nat ->
    partition_cycles fuel root leaf_nodes j cycle_limit = Some (Raise RecursionError) \/
    exists root' leaf_nodes' j',
      partition_cycles fuel root leaf_nodes j cycle_limit = Some (Ok (root', leaf_nodes', j')) /\
      tree_inv G C root' /\ (forall q, ~ crowded (lookup_node root' q)) /\
      (j' = j \/ j < j' < cycle_limit)%Z.
Proof.
  induction fuel as [|fuel IH]; intros root leaf_nodes j Hinv Hfuel; [lia|].
  destruct (bsp_partition_ok root leaf_nodes Hinv)
    as (root' & leaf_nodes' & changed & Hrun & Hinv' & Hunch).
  cbn [partition_cycles]. rewrite Hrun.
  destruct changed.
  - destruct (cycle_limit <=? j + 1)%Z eqn:E; [now left|].
    apply Z.leb_gt in E.
    destruct (IH root' leaf_nodes' (j + 1)%Z Hinv') as [H|(r & l & j' & H & H1 & H2 & H3)];
      [lia|now left|].
    right. exists r, l, j'. split; [exact H|]. split; [exact H1|]. split; [exact H2|]. lia.
  - right. destruct (Hunch eq_refl) as [-> Hnc].
    exists root, leaf_nodes', j. split; [reflexivity|].
    split; [apply Hinv|]. split; [exact Hnc|]. now left.
Qed.

Lemma no_crowded_single (root : BSPNode) :
  tree_inv G C root -> (forall q, ~ crowded (lookup_node root q)) -> single_polygons root.
Proof.
  induction root as [|f IHf b IHb l ps]; intros Hinv Hnc; [exact I|].
  simpl in Hinv. destruct Hinv as (Hne & _ & _ & Hf & Hb). simpl. split; [|split].
  - specialize (Hnc []). unfold crowded in Hnc. simpl in Hnc.
    destruct ps as [|q [|q' ps]]; simpl in *; [congruence|reflexivity|lia].
  - apply IHf; [exact Hf|]. intros q. apply (Hnc (true :: q)).
  - apply IHb; [exact Hb|]. intros q. apply (Hnc (false :: q)).
Qed.

(** [depth_sort_bsp] on polygons that satisfy [G]: with fuel beyond the
    cycle limit it answers, with [RecursionError] or with a tree that
    satisfies the invariant and holds one polygon in every node. *)
Lemma depth_sort_bsp_ok (fuel : nat) (view_polygons : list ViewPolygon) (cycle_limit : Z) :
  Forall G view_polygons -> view_polygons <> [] ->
  (Z.to_nat cycle_limit < fuel)%nat ->
  depth_sort_bsp fuel view_polygons cycle_limit = Some (Raise RecursionError) \/
  exists root,
    depth_sort_bsp fuel view_polygons cycle_limit = Some (Ok root) /\
    tree_inv G C root /\ single_polygons root.
Proof.
  intros HG Hne Hfuel. unfold depth_sort_bsp.
  destruct view_polygons as [|p0 ps0] eqn:Evp; [congruence|]. rewrite <- Evp in *.
  destruct (pop_at_ok view_polygons (round_half (List.length view_polygons)))
    as (plane & rest & Hpop & Hin & Hincl & _).
  { apply round_half_lt. rewrite Evp. simpl. lia. }
  rewrite Hpop. rewrite Forall_forall in HG.
  assert (Hplane : G plane) by auto.
  destruct rest as [|r rest].
  - right. eexists. split; [reflexivity|]. simpl. repeat split; auto; discriminate.
  - assert (Hrest : Forall G (rev (r :: rest))).
    { apply Forall_forall. intros q Hq. apply in_rev in Hq. auto. }
    destruct (split_loop_ok plane (rev (r :: rest)) Hplane Hrest NoneNode NoneNode)
      as (f & b & Hs & Hf & Hb); [now left|now left|].
    rewrite Hs.
    destruct (fresh_child_inv plane 1 f Hf) as [Hf1 Hf2].
    destruct (fresh_child_inv plane (-1) b Hb) as [Hb1 Hb2].
    assert (Hinv : build_inv G C (Node f b false [plane])
                             (child_paths [] (Node f b false [plane]))).
    { split; [|split].
      - simpl. repeat split; auto; [discriminate|]. exists plane. auto.
      - intros p Hp. apply child_paths_valid in Hp. destruct Hp as (d & -> & Hd).
        exact Hd.
      - intros q Hq. destruct q as [|d s].
        + unfold crowded in Hq. simpl in Hq. lia.
        + assert (Es : s = []).
          { rewrite lookup_cons in Hq. destruct d.
            - apply (fresh_child_lookup plane 1 f s Hf Hq).
            - apply (fresh_child_lookup plane (-1) b s Hb Hq). }
          subst s. apply (child_paths_in [] _ d). now apply crowded_is_node. }
    destruct (partition_cycles_ok cycle_limit fuel _ _ 0%Z Hinv)
      as [H|(root' & l & j' & H & H1 & H2 & _)].
    + rewrite Z.sub_0_r. exact Hfuel.
    + left. now rewrite H.
    + right. exists root'. rewrite H. split; [reflexivity|].
      split; [exact H1|]. now apply no_crowded_single.
Qed.

End BuildInvariant.

(** ** The BSP tree of polygons with vertices *)

Section BuildBasic.
Context {MU : MathUtils}.

Lemma cut_conflicting_inv (plane p : ViewPolygon) (f b : option ViewPolygon) :
  cut_conflicting plane p = Ok (f, b) ->
  exists st,
    cut_rings plane p = Ok st /\
    (forall q, f = Some q ->
               verts q = front_pol_verts st /\ style q = style p /\
               normal q = normal p /\ (3 <= List.length (verts q))%nat) /\
    (forall q, b = Some q ->
               verts q = back_pol_verts st /\ style q = style p /\
               normal q = normal p /\ (3 <= List.length (verts q))%nat).
Proof.
  intros Hc. destruct (cut_rings plane p) as [st|e] eqn:Est.
  - destruct (cut_conflicting_spec plane p st Est) as (f' & b' & Hc' & _ & _ & Hf & Hb).
    rewrite Hc in Hc'. inversion Hc'; subst f' b'. eauto.
  - unfold cut_conflicting in Hc. rewrite Est in Hc. discriminate.
Qed.

Lemma has_verts_cut (plane p : ViewPolygon) (f b : option ViewPolygon) (q : ViewPolygon) :
  cut_conflicting plane p = Ok (f, b) -> f = Some q \/ b = Some q -> has_verts q.
Proof.
  intros Hc Hq. destruct (cut_conflicting_inv plane p f b Hc) as (st & _ & Hf & Hb).
  assert (Hlen : (3 <= List.length (verts q))%nat).
  { destruct Hq as [Hq|Hq]; [apply (Hf q Hq)|apply (Hb q Hq)]. }
  unfold has_verts. destruct (verts q); [simpl in Hlen; lia|discriminate].
Qed.

(** The builder on polygons with vertices: with fuel beyond the cycle limit
    it raises [RecursionError] or returns a tree in which every node holds
    exactly one polygon, and that polygon has vertices. *)
Lemma depth_sort_bsp_basic (fuel : nat) (view_polygons : list ViewPolygon) (cycle_limit : Z) :
  Forall has_verts view_polygons -> view_polygons <> [] ->
  (Z.to_nat cycle_limit < fuel)%nat ->
  depth_sort_bsp fuel view_polygons cycle_limit = Some (Raise RecursionError) \/
  exists root,
    depth_sort_bsp fuel view_polygons cycle_limit = Some (Ok root) /\
    tree_inv has_verts (fun _ _ _ => True) root /\ single_polygons root.
Proof.
  apply depth_sort_bsp_ok; auto.
  intros plane p f b q _ _. apply has_verts_cut.
Qed.

(** On a tree that the builder returns for a non-empty list of polygons
    with vertices, the traversal yields the painter's order of the
    specification, for every viewpoint. *)
Lemma bsp_traversal_painter_order (fuel : nat) (view_polygons : list ViewPolygon)
      (cycle_limit : Z) (root : BSPNode) (camera_pos : vec) :
  Forall has_verts view_polygons -> view_polygons <> [] ->
  (Z.to_nat cycle_limit < fuel)%nat ->
  depth_sort_bsp fuel view_polygons cycle_limit = Some (Ok root) ->
  single_polygons root /\
  bsp_tree_to_view_polygons root [] camera_pos = Ok (painter_order root camera_pos).
Proof.
  intros Hv Hne Hfuel Hrun.
  destruct (depth_sort_bsp_basic fuel view_polygons cycle_limit Hv Hne Hfuel)
    as [H|(root' & H & Hinv & Hsingle)]; [congruence|].
  rewrite Hrun in H. inversion H; subst root'. split; [exact Hsingle|].
  apply (traversal_painter_order_inv has_verts (fun _ _ _ => True) root); auto.
Qed.

(** C1, at the empty polygon list.  [depth_sort_bsp] returns a root that
    is a leaf without a polygon, and the traversal of that tree raises
    [IndexError] instead of appending nothing. *)
Theorem bsp_traversal_empty_tree (fuel : nat) (cycle_limit : Z) (camera_pos : vec) :
  depth_sort_bsp fuel [] cycle_limit = Some (Ok new_node) /\
  painter_order new_node camera_pos = [] /\
  bsp_tree_to_view_polygons new_node [] camera_pos = Raise IndexError.
Proof. repeat split. Qed.

(** C5, as amended.  The counter [j] counts the calls of [bsp_partition]
    that changed the tree, one per pass over all leaf nodes: after such a
    call the loop raises [RecursionError] as soon as [j + 1] reaches
    [cycle_limit] and goes on with [j + 1] otherwise, and after a call that
    changed nothing it ends.  On polygons with vertices [depth_sort_bsp]
    therefore always answers within [cycle_limit] passes: it raises
    [RecursionError] or returns a finished tree. *)
Theorem depth_sort_bsp_cycle_limit :
  (forall fuel root leaf_nodes j cycle_limit root' leaf_nodes',
      bsp_partition root leaf_nodes = Ok (root', leaf_nodes', true) ->
      ((cycle_limit <= j + 1)%Z ->
       partition_cycles (S fuel) root leaf_nodes j cycle_limit =
       Some (Raise RecursionError)) /\
      ((j + 1 < cycle_limit)%Z ->
       partition_cycles (S fuel) root leaf_nodes j cycle_limit =
       partition_cycles fuel root' leaf_nodes' (j + 1) cycle_limit)) /\
  (forall fuel root leaf_nodes j cycle_limit root' leaf_nodes',
      bsp_partition root leaf_nodes = Ok (root', leaf_nodes', false) ->
      partition_cycles (S fuel) root leaf_nodes j cycle_limit =
      Some (Ok (root', leaf_nodes', j))) /\
  (forall fuel view_polygons cycle_limit,
      Forall has_verts view_polygons ->
      (Z.to_nat cycle_limit < fuel)%nat ->
      depth_sort_bsp fuel view_polygons cycle_limit = Some (Raise RecursionError) \/
      exists root,
        depth_sort_bsp fuel view_polygons cycle_limit = Some (Ok root) /\
        (view_polygons <> [] -> single_polygons root)).
Proof.
  split; [|split].
  - intros fuel root leaf_nodes j cycle_limit root' leaf_nodes' Hrun.
    cbn [partition_cycles]. rewrite Hrun. split; intros H.
    + apply Z.leb_le in H. now rewrite H.
    + apply Z.leb_gt in H. now rewrite H.
  - intros fuel root leaf_nodes j cycle_limit root' leaf_nodes' Hrun.
    cbn [partition_cycles]. now rewrite Hrun.
  - intros fuel view_polygons cycle_limit Hv Hfuel.
    destruct view_polygons as [|p ps] eqn:E.
    + right. exists new_node. split; [reflexivity|congruence].
    + rewrite <- E in *.
      assert (Hne : view_polygons <> []) by (rewrite E; discriminate).
      destruct (depth_sort_bsp_basic fuel view_polygons cycle_limit Hv Hne Hfuel)
        as [H|(root & H & _ & Hs)]; [now left|].
      right. exists root. split; [exact H|]. now intros _.
Qed.

End BuildBasic.

(** Counterexample to C5 as stated: with the limit 5, the fifteen parallel
    squares are built into a tree without [RecursionError], although ten
    nodes, the root and nine others, have been subdivided. *)
Lemma depth_sort_bsp_cycle_limit_counterexample :
  ~ (forall (fuel : nat) (view_polygons : list ViewPolygon) (cycle_limit : Z)
            (root : BSPNode),
        depth_sort_bsp (MU := exact_utils) fuel view_polygons cycle_limit = Some (Ok root) ->
        (Z.of_nat (subdivided_nodes root) - 1 <= cycle_limit)%Z).
Proof.
  intros H.
  destruct (depth_sort_bsp (MU := exact_utils) 6 Examples.slabs 5) as [[root|e]|] eqn:E;
    try (vm_compute in E; discriminate).
  specialize (H 6%nat Examples.slabs 5%Z root E).
  revert H. vm_compute in E. inversion E. vm_compute. intros H. now apply H.
Qed.

(** Witness for C5: the fifteen squares, with the limit 5 and with the
    limit 3. *)
Lemma depth_sort_bsp_cycle_limit_witness :
  Forall has_verts Examples.slabs /\
  (exists root, depth_sort_bsp (MU := exact_utils) 6 Examples.slabs 5 = Some (Ok root) /\
                single_polygons root) /\
  depth_sort_bsp (MU := exact_utils) 4 Examples.slabs 3 = Some (Raise RecursionError).
Proof.
  assert (Hv : Forall has_verts Examples.slabs).
  { repeat constructor; discriminate. }
  split; [exact Hv|].
  destruct (depth_sort_bsp_cycle_limit (MU := exact_utils)) as (_ & _ & H).
  split.
  - destruct (H 6%nat Examples.slabs 5%Z Hv) as [E|(root & E & Hs)].
    + simpl. lia.
    + vm_compute in E. discriminate.
    + exists root. split; [exact E|]. apply Hs. discriminate.
  - destruct (H 4%nat Examples.slabs 3%Z Hv) as [E|(root & E & _)].
    + simpl. lia.
    + exact E.
    + vm_compute in E. discriminate.
Defined.

(** ** Cutting and classification *)

Lemma dot_vsub (a b n : vec) : dot (vsub a b) n == dot a n - dot b n.
Proof.
  destruct a as [[ax ay] az], b as [[bx by'] bz], n as [[nx ny] nz].
  unfold dot, vsub, vx, vy, vz. simpl. ring.
Qed.

Lemma dot_vadd (a b n : vec) : dot (vadd a b) n == dot a n + dot b n.
Proof.
  destruct a as [[ax ay] az], b as [[bx by'] bz], n as [[nx ny] nz].
  unfold dot, vadd, vx, vy, vz. simpl. ring.
Qed.

Lemma dot_vdiv (a n : vec) (c : Q) : dot (vdiv a c) n == dot a n / c.
Proof.
  destruct a as [[ax ay] az], n as [[nx ny] nz].
  unfold dot, vdiv, vx, vy, vz, Qdiv. simpl. ring.
Qed.

Lemma dot_scaled (a u n : vec) (c : Q) :
  vx a == c * vx u -> vy a == c * vy u -> vz a == c * vz u ->
  dot a n == c * dot u n.
Proof.
  intros Hx Hy Hz. unfold dot. rewrite Hx, Hy, Hz. ring.
Qed.

Section CutClassified.
Context {MU : MathUtils} {laws : MathUtilsLaws MU}.
Variable plane : ViewPolygon.
Variable p0 : vec.
Variable rest0 : list vec.
Hypothesis Hplane : verts plane = p0 :: rest0.
Hypothesis Hunit : dot (normal plane) (normal plane) == 1.

(** The offset of a vertex along the normal of the plane. *)
Let s (v : vec) : Q := dot (vsub v p0) (normal plane).

Lemma s_vadd (x d : vec) : s (vadd x d) == s x + dot d (normal plane).
Proof. unfold s. rewrite !dot_vsub, dot_vadd. ring. Qed.

Lemma s_vsub (x d : vec) : s (vsub x d) == s x - dot d (normal plane).
Proof. unfold s. rewrite !dot_vsub. ring. Qed.

Lemma s_difference (a b : vec) : dot (vsub a b) (normal plane) == s a - s b.
Proof. unfold s. rewrite !dot_vsub. ring. Qed.

(** The nudge along the cut edge, measured along the normal: a
    non-negative multiple of the difference of the offsets. *)
Lemma nudge_offset (vert next_vert : vec) :
  exists c, 0 <= c /\
            dot (vdiv (normalized (vsub next_vert vert)) POLYGON_CUT_PRECISION)
                (normal plane) == c * (s next_vert - s vert).
Proof.
  destruct (normalized_scales (vsub next_vert vert)) as (c & Hc & Hx & Hy & Hz).
  exists (c / POLYGON_CUT_PRECISION). split.
  - unfold POLYGON_CUT_PRECISION.
    apply Qle_shift_div_l; [reflexivity|]. lra.
  - rewrite dot_vdiv, (dot_scaled _ _ _ c Hx Hy Hz), s_difference.
    unfold POLYGON_CUT_PRECISION, Qdiv. ring.
Qed.

Lemma classify_offset (v : vec) :
  distance_point_to_plane v p0 (normal plane) == s v.
Proof. apply distance_unit_normal. exact Hunit. Qed.

Lemma classify_not_behind (v : vec) :
  - PLANE_DISTANCE_THRESHOLD < s v -> classify p0 (normal plane) v <> (-1)%Z.
Proof.
  intros H E. apply classify_behind in E. destruct E as [E1 E2].
  rewrite classify_offset in E1, E2. apply E1.
  apply Qabs_Qlt_condition. unfold PLANE_DISTANCE_THRESHOLD in *. split; lra.
Qed.

Lemma classify_not_front (v : vec) :
  s v < PLANE_DISTANCE_THRESHOLD -> classify p0 (normal plane) v <> 1%Z.
Proof.
  intros H E. apply classify_front in E. destruct E as [E1 E2].
  rewrite classify_offset in E1, E2. apply E1.
  apply Qabs_Qlt_condition. unfold PLANE_DISTANCE_THRESHOLD in *. split; lra.
Qed.

Lemma classify_behind_offset (v : vec) :
  classify p0 (normal plane) v = (-1)%Z -> s v < 0.
Proof.
  intros E. apply classify_behind in E. destruct E as [_ E].
  now rewrite classify_offset in E.
Qed.

(** The rings of a cut: front ring vertices are not Behind, back ring
    vertices are not Front, and the back ring has every vertex of the
    polygon that lies behind the plane. *)
Lemma cut_rings_sides (p : ViewPolygon) :
  verts p <> [] ->
  exists st,
    cut_rings plane p = Ok st /\
    Forall (fun v => - PLANE_DISTANCE_THRESHOLD < s v) (front_pol_verts st) /\
    Forall (fun v => s v < PLANE_DISTANCE_THRESHOLD) (back_pol_verts st) /\
    (forall v, In v (verts p) -> s v < 0 -> In v (back_pol_verts st)).
Proof.
  intros Hp.
  destruct (cut_rings_inv plane p0 rest0 Hplane
              (fun i st =>
                 (forall nv, nth_error (verts p) (prev_index i (List.length (verts p))) = Some nv ->
                             currently_in_front st = Qle_bool 0 (s nv)) /\
                 Forall (fun v => - PLANE_DISTANCE_THRESHOLD < s v) (front_pol_verts st) /\
                 Forall (fun v => s v < PLANE_DISTANCE_THRESHOLD) (back_pol_verts st) /\
                 (forall k v, (k < i)%nat -> nth_error (verts p) k = Some v -> s v < 0 ->
                              In v (back_pol_verts st)))
              p Hp) as [st [Hst HP]].
  - intros last Hlast. simpl. split; [|split; [constructor|split; [constructor|]]].
    + intros nv Hnv. rewrite Hlast in Hnv. now inversion Hnv.
    + intros k v Hk. lia.
  - intros i st vert next_vert Hn Hnv (Hflag & Hfront & Hback & Hmem) app.
    fold (s vert) in app |- *.
    assert (Hthr : 0 < PLANE_DISTANCE_THRESHOLD) by reflexivity.
    specialize (Hflag next_vert Hnv).
    assert (Happ : Forall (fun v => - PLANE_DISTANCE_THRESHOLD < s v) (fst app) /\
                   Forall (fun v => s v < PLANE_DISTANCE_THRESHOLD) (snd app) /\
                   (s vert < 0 -> In vert (snd app))).
    { subst app. unfold cut_appends. rewrite Hflag.
      destruct (nudge_offset vert next_vert) as (c & Hc & Hdir).
      destruct (Qle_bool 0 (s vert)) eqn:Ev, (Qle_bool 0 (s next_vert)) eqn:En; simpl.
      - apply Qle_bool_iff in Ev.
        (split; [|split]); [repeat constructor; lra|constructor|intros H; lra].
      - apply Qle_bool_iff in Ev.
        assert (Hnlt : s next_vert < 0).
        { apply Qnot_le_lt. intros H. apply Qle_bool_iff in H. congruence. }
        destruct (intersect_line_plane vert next_vert p0 (normal plane)) as [x|] eqn:Ex;
          cbn [fst snd].
        + apply intersect_on_plane in Ex. fold (s x) in Ex.
          assert (Hprod : c * (s next_vert - s vert) <= 0).
          { assert (H0 : 0 <= c * (s vert - s next_vert)) by (apply Qmult_le_0_compat; lra).
            lra. }
          (split; [|split]);
            [repeat constructor; rewrite ?s_vadd, ?s_vsub, ?Hdir, ?Ex; lra
            |repeat constructor; rewrite ?s_vadd, ?s_vsub, ?Hdir, ?Ex; lra
            |intros H; lra].
        + apply (intersect_none_parallel _ _ _ _ Hunit) in Ex.
          rewrite s_difference in Ex. apply Qabs_Qlt_condition in Ex.
          (split; [|split]);
            [repeat constructor; lra|repeat constructor; lra|intros _; simpl; auto].
      - apply Qle_bool_iff in En.
        assert (Hvlt : s vert < 0).
        { apply Qnot_le_lt. intros H. apply Qle_bool_iff in H. congruence. }
        destruct (intersect_line_plane vert next_vert p0 (normal plane)) as [x|] eqn:Ex;
          cbn [fst snd].
        + apply intersect_on_plane in Ex. fold (s x) in Ex.
          assert (Hprod : 0 <= c * (s next_vert - s vert)).
          { apply Qmult_le_0_compat; lra. }
          (split; [|split]);
            [repeat constructor; rewrite ?s_vadd, ?s_vsub, ?Hdir, ?Ex; lra
            |repeat constructor; rewrite ?s_vadd, ?s_vsub, ?Hdir, ?Ex; lra
            |intros _; simpl; auto].
        + apply (intersect_none_parallel _ _ _ _ Hunit) in Ex.
          rewrite s_difference in Ex. apply Qabs_Qlt_condition in Ex.
          (split; [|split]);
            [repeat constructor; lra|repeat constructor; lra|intros _; simpl; auto].
      - assert (Hvlt : s vert < 0).
        { apply Qnot_le_lt. intros H. apply Qle_bool_iff in H. congruence. }
        (split; [|split]);
          [constructor|repeat constructor; lra|intros _; simpl; auto]. }
    destruct Happ as (Hf & Hb & Hm). simpl. split; [|split; [|split]].
    + intros nv Hnv'. rewrite Hn in Hnv'. now inversion Hnv'.
    + apply Forall_app. auto.
    + apply Forall_app. auto.
    + intros k v Hk Hkv Hs. apply in_or_app.
      assert (Hcase : (k < i)%nat \/ k = i) by lia.
      destruct Hcase as [Hlt | ->].
      * left. eapply Hmem; eauto.
      * right. rewrite Hn in Hkv. inversion Hkv; subst v. auto.
  - destruct HP as (_ & Hf & Hb & Hm).
    exists st. split; [exact Hst|]. split; [exact Hf|]. split; [exact Hb|].
    intros v Hin Hs. apply In_nth_error in Hin. destruct Hin as [k Hk].
    apply (Hm k v); auto. apply nth_error_Some. congruence.
Qed.

(** The fragments of a Straddling polygon: the front fragment is Front of
    the cutting plane, the back fragment Behind. *)
Lemma cut_fragments_classified (p : ViewPolygon) (f b : option ViewPolygon) :
  verts p <> [] ->
  relative_pos plane p = Ok 0%Z ->
  cut_conflicting plane p = Ok (f, b) ->
  (forall q, f = Some q -> relative_pos plane q = Ok 1%Z) /\
  (forall q, b = Some q -> relative_pos plane q = Ok (-1)%Z).
Proof.
  intros Hp Hpos Hc.
  destruct (cut_rings_sides p Hp) as (st & Hst & Hfront & Hback & Hmem).
  destruct (cut_conflicting_inv plane p f b Hc) as (st' & Hst' & Hf & Hb).
  rewrite Hst in Hst'. inversion Hst'; subst st'. clear Hst'.
  split; intros q Hq.
  - destruct (Hf q Hq) as (Hv & _).
    rewrite (relative_pos_classify plane q p0 rest0 Hplane), Hv.
    assert (E : forallb (fun v => negb (classify p0 (normal plane) v =? -1)%Z)
                        (front_pol_verts st) = true).
    { apply forallb_not_behind. rewrite Forall_forall in *. intros v Hin.
      apply classify_not_behind. now apply Hfront. }
    now rewrite E.
  - destruct (Hb q Hq) as (Hv & _).
    rewrite (relative_pos_classify plane q p0 rest0 Hplane), Hv.
    rewrite (relative_pos_classify plane p p0 rest0 Hplane) in Hpos.
    assert (Hex : Exists (fun v => classify p0 (normal plane) v = (-1)%Z) (verts p)).
    { apply not_Forall_Exists. intros HF. apply forallb_not_behind in HF.
      rewrite HF in Hpos. discriminate. }
    apply Exists_exists in Hex. destruct Hex as (v & Hin & Hcl).
    assert (E1 : forallb (fun v => negb (classify p0 (normal plane) v =? -1)%Z)
                         (back_pol_verts st) = false).
    { destruct (forallb _ (back_pol_verts st)) eqn:E; [|reflexivity].
      apply forallb_not_behind in E. rewrite Forall_forall in E.
      exfalso. apply (E v); [|exact Hcl].
      apply Hmem; [exact Hin|]. now apply classify_behind_offset. }
    assert (E2 : forallb (fun v => negb (classify p0 (normal plane) v =? 1)%Z)
                         (back_pol_verts st) = true).
    { apply forallb_not_front. rewrite Forall_forall in *. intros w Hw.
      apply classify_not_front. now apply Hback. }
    now rewrite E1, E2.
Qed.

End CutClassified.

(** ** The BSP tree of well-formed polygons *)

Section BuildClassified.
Context {MU : MathUtils} {laws : MathUtilsLaws MU}.

Lemma well_formed_cut (plane p : ViewPolygon) (f b : option ViewPolygon) (q : ViewPolygon) :
  well_formed p -> cut_conflicting plane p = Ok (f, b) ->
  f = Some q \/ b = Some q -> well_formed q.
Proof.
  intros [_ Hunit] Hc Hq.
  destruct (cut_conflicting_inv plane p f b Hc) as (st & _ & Hf & Hb).
  assert (H : normal q = normal p /\ (3 <= List.length (verts q))%nat).
  { destruct Hq as [Hq|Hq]; [destruct (Hf q Hq)|destruct (Hb q Hq)]; tauto. }
  destruct H as [Hn Hlen]. split.
  - destruct (verts q); [simpl in Hlen; lia|discriminate].
  - now rewrite Hn.
Qed.

Lemma depth_sort_bsp_classified (fuel : nat) (view_polygons : list ViewPolygon)
      (cycle_limit : Z) :
  Forall well_formed view_polygons -> view_polygons <> [] ->
  (Z.to_nat cycle_limit < fuel)%nat ->
  depth_sort_bsp fuel view_polygons cycle_limit = Some (Raise RecursionError) \/
  exists root,
    depth_sort_bsp fuel view_polygons cycle_limit = Some (Ok root) /\
    tree_inv well_formed (fun plane k q => relative_pos plane q = Ok k) root /\
    single_polygons root.
Proof.
  apply depth_sort_bsp_ok; auto.
  - intros q [H _]. exact H.
  - intros plane p f b q _ Hp. now apply well_formed_cut.
  - intros plane p f b [Hv Hunit] [Hp _] Hpos Hc.
    destruct (verts plane) as [|p0 rest0] eqn:E; [congruence|].
    apply (cut_fragments_classified plane p0 rest0 E Hunit p f b Hp Hpos Hc).
Qed.

Lemma tree_inv_parents_separate (G : ViewPolygon -> Prop) (root : BSPNode) :
  tree_inv G (fun plane k q => relative_pos plane q = Ok k) root ->
  parents_separate root.
Proof.
  induction root as [|f IHf b IHb l ps]; intros Hinv; [exact I|].
  simpl in Hinv. destruct Hinv as (_ & _ & Hl & Hf & Hb). simpl.
  split; [|split; auto].
  destruct l; [exact I|]. destruct Hl as (plane & -> & Hcf & Hcb).
  intros plane' [<-|[]]. split; assumption.
Qed.

(** C2, as amended.  On well-formed polygons (with vertices and a unit
    normal) and with the library contracts, every tree that [depth_sort_bsp]
    returns separates parents from children: the polygons of a node are
    Front of the splitting polygon of the node's parent when the node is the
    front child and Behind when it is the back child.  Nothing is said of
    more distant ancestors. *)
Theorem bsp_children_separated (fuel : nat) (view_polygons : list ViewPolygon)
        (cycle_limit : Z) (root : BSPNode) :
  Forall well_formed view_polygons ->
  (Z.to_nat cycle_limit < fuel)%nat ->
  depth_sort_bsp fuel view_polygons cycle_limit = Some (Ok root) ->
  parents_separate root.
Proof.
  intros Hwf Hfuel Hrun.
  destruct view_polygons as [|p ps] eqn:E.
  - inversion Hrun. simpl. auto.
  - rewrite <- E in *.
    assert (Hne : view_polygons <> []) by (rewrite E; discriminate).
    destruct (depth_sort_bsp_classified fuel view_polygons cycle_limit Hwf Hne Hfuel)
      as [H|(root' & H & Hinv & _)]; [congruence|].
    rewrite Hrun in H. inversion H; subst root'.
    now apply (tree_inv_parents_separate well_formed).
Qed.

Lemma leaves_classified_lookup (plane : ViewPolygon) (k : Z) (n : BSPNode) (p : path)
      (f b : BSPNode) (ps : list ViewPolygon) :
  leaves_classified plane k n -> lookup_node n p = Node f b true ps ->
  Forall (fun q => relative_pos plane q = Ok k) ps.
Proof.
  revert n. induction p as [|d p IH]; intros n Hn Hl.
  - destruct n; [discriminate|]. simpl in Hl. inversion Hl; subst.
    simpl in Hn. apply Hn.
  - destruct n as [|f' b' l' ps']; [rewrite lookup_none in Hl; discriminate|].
    rewrite lookup_cons in Hl. simpl in Hn. destruct Hn as (_ & Hf & Hb).
    destruct d; [apply (IH f' Hf Hl)|apply (IH b' Hb Hl)].
Qed.

End BuildClassified.

(** ** The reference implementations satisfy the contracts *)

Lemma exact_sqrt_one (q : Q) : q == 1 -> exact_sqrt q = 1.
Proof.
  intros H. unfold exact_sqrt. rewrite (Qred_complete q 1 H). reflexivity.
Qed.

Lemma exact_sqrt_nonneg (q : Q) : 0 <= exact_sqrt q.
Proof.
  unfold exact_sqrt. destruct (Qnum (Qred q)); unfold Qle; simpl; lia.
Qed.

Lemma dot_comm (a b : vec) : dot a b == dot b a.
Proof.
  destruct a as [[ax ay] az], b as [[bx by'] bz].
  unfold dot, vx, vy, vz. simpl. ring.
Qed.

Lemma dot_vscale (c : Q) (a n : vec) : dot (vscale c a) n == c * dot a n.
Proof.
  destruct a as [[ax ay] az], n as [[nx ny] nz].
  unfold dot, vscale, vx, vy, vz. simpl. ring.
Qed.

Lemma exact_utils_laws : MathUtilsLaws exact_utils.
Proof.
  constructor.
  - intros pt co no H.
    change (exact_distance_point_to_plane pt co no == dot (vsub pt co) no).
    unfold exact_distance_point_to_plane.
    rewrite (exact_sqrt_one _ H). unfold Qdiv. change (/ 1) with 1. ring.
  - intros a b co no x.
    change (exact_intersect_line_plane a b co no = Some x -> dot (vsub x co) no == 0).
    unfold exact_intersect_line_plane.
    destruct (Qltb FLT_EPSILON (Qabs (dot no (vsub b a)))) eqn:E; [|discriminate].
    intros Hx. inversion Hx; subst x. clear Hx.
    apply Qltb_lt in E.
    assert (Hd : ~ dot no (vsub b a) == 0).
    { intros H0. rewrite H0 in E. revert E. unfold FLT_EPSILON. discriminate. }
    rewrite dot_vsub, dot_vadd, dot_vscale, (dot_comm (vsub b a) no).
    rewrite (dot_comm no (vsub a co)), dot_vsub.
    field. exact Hd.
  - intros a b co no _.
    change (exact_intersect_line_plane a b co no = None ->
            Qabs (dot (vsub b a) no) < PLANE_DISTANCE_THRESHOLD).
    unfold exact_intersect_line_plane.
    destruct (Qltb FLT_EPSILON (Qabs (dot no (vsub b a)))) eqn:E; [discriminate|].
    intros _. apply Qltb_ge in E. rewrite (dot_comm (vsub b a) no).
    eapply Qle_lt_trans; [exact E|reflexivity].
  - intros v. exists (/ exact_sqrt (dot v v)). split.
    + apply Qinv_le_0_compat, exact_sqrt_nonneg.
    + change (normalized v) with (exact_normalized v).
      destruct v as [[x y] z]. unfold exact_normalized, vdiv, vx, vy, vz, Qdiv.
      cbn [fst snd]. repeat split; ring.
Qed.

(** Counterexample to C2 as stated: [floor_tri] becomes the root, [divider]
    its front child, and the front fragment of [kite] cut by [divider] ends
    in a leaf; that fragment is Straddling against [floor_tri], because the
    cut point next to the lowest vertex of [kite] is moved a thousandth
    along the edge, below the plane [z = -0.001]. *)
Lemma bsp_children_separated_counterexample :
  ~ (forall (fuel : nat) (view_polygons : list ViewPolygon) (cycle_limit : Z)
            (root : BSPNode),
        Forall well_formed view_polygons ->
        depth_sort_bsp (MU := exact_utils) fuel view_polygons cycle_limit = Some (Ok root) ->
        ancestors_separate (MU := exact_utils) root).
Proof.
  intros H.
  assert (Hwf : Forall well_formed [Examples.divider; Examples.kite; Examples.floor_tri]).
  { repeat constructor; discriminate. }
  destruct (depth_sort_bsp (MU := exact_utils) 501
              [Examples.divider; Examples.kite; Examples.floor_tri] 500)
    as [[root|e]|] eqn:E; try (vm_compute in E; discriminate).
  specialize (H _ _ _ root Hwf E).
  assert (Hroot : exists f b fragment,
             root = Node f b false [Examples.floor_tri] /\
             lookup_node f [true] = Node NoneNode NoneNode true [fragment] /\
             relative_pos (MU := exact_utils) Examples.floor_tri fragment = Ok 0%Z).
  { vm_compute in E. inversion E. do 3 eexists.
    split; [reflexivity|]. split; [reflexivity|]. vm_compute. reflexivity. }
  destruct Hroot as (f & b & fragment & -> & Hleaf & Hpos).
  simpl in H. destruct H as (H & _).
  destruct (H Examples.floor_tri (or_introl eq_refl)) as [Hf _].
  pose proof (leaves_classified_lookup (MU := exact_utils) _ _ _ _ _ _ _ Hf Hleaf) as HF.
  inversion HF as [|? ? Hq _]; subst. rewrite Hpos in Hq. discriminate.
Qed.

(** Witness for C2: the same three polygons. *)
Lemma bsp_children_separated_witness :
  Forall well_formed [Examples.divider; Examples.kite; Examples.floor_tri] /\
  exists root,
    depth_sort_bsp (MU := exact_utils) 501
      [Examples.divider; Examples.kite; Examples.floor_tri] 500 = Some (Ok root) /\
    parents_separate (MU := exact_utils) root.
Proof.
  assert (Hwf : Forall well_formed [Examples.divider; Examples.kite; Examples.floor_tri]).
  { repeat constructor; discriminate. }
  split; [exact Hwf|].
  destruct (depth_sort_bsp (MU := exact_utils) 501
              [Examples.divider; Examples.kite; Examples.floor_tri] 500)
    as [[root|e]|] eqn:E; try (vm_compute in E; discriminate).
  exists root. split; [reflexivity|].
  apply (bsp_children_separated (MU := exact_utils) (laws := exact_utils_laws)
           501 _ 500 root Hwf); [simpl; lia|exact E].
Defined.

(** ** Octree: structure *)

Lemma OctreeNode_induction (P : OctreeNode -> Prop) :
  (forall b d cs u r nd,
      Forall (fun c => match c with Some ch => P ch | None => True end) cs ->
      P (ONode b d cs u r nd)) ->
  forall n, P n.
Proof.
  intros H. fix IH 1. intros [b d cs u r nd]. apply H.
  induction cs as [|c cs IHcs]; constructor.
  - destruct c as [ch|]; [apply IH|exact I].
  - exact IHcs.
Qed.

Lemma oct_wf_unfold (b : Bounds) (d : Z) (cs : list (option OctreeNode))
      (u r : list ViewPolygon) (nd : bool) :
  oct_wf (ONode b d cs u r nd) <->
  r = [] /\ (nd = true -> Forall (fun c => c = None) cs) /\ children_wf cs.
Proof.
  simpl. unfold children_wf.
  assert (H : forall l,
             (fix all (l : list (option OctreeNode)) : Prop :=
                match l with
                | [] => True
                | None :: l' => all l'
                | Some ch :: l' => oct_wf ch /\ all l'
                end) l <->
             Forall (fun c => match c with Some ch => oct_wf ch | None => True end) l).
  { induction l as [|c l IH]; [split; auto|].
    destruct c as [ch|]; rewrite IH; split.
    - intros [H1 H2]. now constructor.
    - intros H. inversion H. auto.
    - intros H. now constructor.
    - intros H. now inversion H. }
  rewrite H. tauto.
Qed.

Lemma all_polys_unfold (n : OctreeNode) :
  all_polys n = unresolved n ++ resolved n ++ children_polys (children n).
Proof. destruct n. reflexivity. Qed.

Lemma children_polys_app (a b : list (option OctreeNode)) :
  children_polys (a ++ b) = children_polys a ++ children_polys b.
Proof. unfold children_polys. apply flat_map_app. Qed.

Lemma children_polys_cons (c : option OctreeNode) (l : list (option OctreeNode)) :
  children_polys (c :: l) =
  match c with Some ch => all_polys ch | None => [] end ++ children_polys l.
Proof. reflexivity. Qed.

Lemma children_polys_none (cs : list (option OctreeNode)) :
  Forall (fun c => c = None) cs -> children_polys cs = [].
Proof.
  induction 1 as [|c cs Hc _ IH]; [reflexivity|].
  subst c. exact IH.
Qed.

Lemma nth_error_split_at {A : Type} (l : list A) (k : nat) (a : A) :
  nth_error l k = Some a -> l = firstn k l ++ a :: skipn (S k) l.
Proof.
  revert k. induction l as [|x l IH]; intros k H; [destruct k; discriminate|].
  destruct k as [|k]; simpl in *.
  - now inversion H.
  - f_equal. now apply IH.
Qed.

Lemma update_nth_at {A : Type} (l : list A) (k : nat) (a : A) (f : A -> A) :
  nth_error l k = Some a ->
  update_nth l k f = firstn k l ++ f a :: skipn (S k) l.
Proof. intros H. unfold update_nth. now rewrite H. Qed.

Lemma children_polys_update (cs : list (option OctreeNode)) (k : nat)
      (c c' : OctreeNode) (extra : list ViewPolygon) :
  nth_error cs k = Some (Some c) ->
  Permutation (all_polys c') (extra ++ all_polys c) ->
  Permutation (children_polys (update_nth cs k (fun _ => Some c')))
              (extra ++ children_polys cs).
Proof.
  intros Hk Hperm. rewrite (update_nth_at cs k (Some c) _ Hk).
  rewrite (nth_error_split_at cs k (Some c) Hk) at 3.
  rewrite !children_polys_app, !children_polys_cons.
  rewrite Hperm, <- !app_assoc.
  apply Permutation_app_swap_app.
Qed.

Lemma children_wf_update (cs : list (option OctreeNode)) (k : nat) (c' : OctreeNode)
      (f : option OctreeNode -> option OctreeNode) :
  children_wf cs -> (forall c, nth_error cs k = Some c -> f c = Some c') ->
  oct_wf c' -> children_wf (update_nth cs k f).
Proof.
  intros Hwf Hf Hc'. unfold update_nth.
  destruct (nth_error cs k) as [c|] eqn:E.
  - unfold children_wf in *. apply Forall_app. split.
    + rewrite <- (firstn_skipn k cs) in Hwf. now apply Forall_app in Hwf.
    + constructor.
      * rewrite (Hf c eq_refl). exact Hc'.
      * rewrite <- (firstn_skipn (S k) cs) in Hwf. now apply Forall_app in Hwf.
  - rewrite app_nil_r. unfold children_wf in *.
    rewrite <- (firstn_skipn k cs) in Hwf. now apply Forall_app in Hwf.
Qed.

Lemma first_containing_some (cs : list (option OctreeNode)) (vp : ViewPolygon) :
  forall k0 k, first_containing cs vp k0 = Ok (Some k) ->
               exists child, (k0 <= k)%nat /\ nth_error cs (k - k0) = Some (Some child).
Proof.
  induction cs as [|c cs IH]; intros k0 k H; [discriminate|].
  simpl in H. destruct c as [child|]; [|discriminate].
  destruct (contains_polygon child vp) as [[|]|e]; simpl in H; try discriminate.
  - inversion H; subst. exists child. rewrite Nat.sub_diag. auto.
  - destruct (IH (S k0) k H) as (ch & Hle & Hn). exists ch. split; [lia|].
    replace (k - k0)%nat with (S (k - S k0)) by lia. exact Hn.
Qed.

(** ** Octree: insertion keeps every polygon *)

Lemma children_polys_update_with (cs : list (option OctreeNode)) (k : nat)
      (c c' : OctreeNode) (f : option OctreeNode -> option OctreeNode)
      (extra : list ViewPolygon) :
  nth_error cs k = Some (Some c) -> f (Some c) = Some c' ->
  Permutation (all_polys c') (extra ++ all_polys c) ->
  Permutation (children_polys (update_nth cs k f)) (extra ++ children_polys cs).
Proof.
  intros Hk Hf Hperm. rewrite (update_nth_at cs k (Some c) _ Hk), Hf.
  rewrite (nth_error_split_at cs k (Some c) Hk) at 3.
  rewrite !children_polys_app, !children_polys_cons.
  rewrite Hperm, <- !app_assoc.
  apply Permutation_app_swap_app.
Qed.

Lemma append_unresolved_polys (vp : ViewPolygon) (n : OctreeNode) :
  Permutation (all_polys (append_unresolved vp n)) ([vp] ++ all_polys n).
Proof.
  destruct n as [b d cs u r nd]. unfold append_unresolved, set_unresolved. simpl.
  rewrite <- app_assoc. simpl.
  apply Permutation_sym, Permutation_middle.
Qed.

Lemma append_unresolved_wf (vp : ViewPolygon) (n : OctreeNode) :
  oct_wf n -> oct_wf (append_unresolved vp n).
Proof.
  destruct n as [b d cs u r nd]. unfold append_unresolved, set_unresolved.
  cbn [node_bounds node_depth children unresolved resolved nondivided].
  now rewrite !oct_wf_unfold.
Qed.

Lemma subdivide_move_perm (n : nat) :
  forall i unres cs unres' cs',
    subdivide_move n i unres cs = Ok (unres', cs') ->
    children_wf cs ->
    Permutation (unres' ++ children_polys cs') (unres ++ children_polys cs) /\
    children_wf cs'.
Proof.
  induction n as [|n IH]; intros i unres cs unres' cs' H Hwf.
  - inversion H; subst. auto.
  - cbn [subdivide_move] in H.
    destruct (nth_error unres i) as [polygon|] eqn:Ei; [|inversion H; subst; auto].
    destruct (first_containing cs polygon 0) as [[k|]|e] eqn:Ef; cbn [bind] in H;
      [| now apply IH in H | discriminate].
    destruct (first_containing_some cs polygon 0 k Ef) as (child & _ & Hk).
    rewrite Nat.sub_0_r in Hk.
    apply IH in H.
    + destruct H as [Hperm Hwf']. split; [|exact Hwf'].
      rewrite Hperm.
      rewrite (children_polys_update_with cs k child (append_unresolved polygon child)
                 _ [polygon] Hk eq_refl (append_unresolved_polys polygon child)).
      rewrite (nth_error_split_at unres i polygon Ei) at 2.
      unfold delete_at. rewrite <- !app_assoc. cbn [app].
      apply Permutation_app_head. apply Permutation_sym, Permutation_middle.
    + apply (children_wf_update cs k (append_unresolved polygon child)); auto.
      * intros c Hc. rewrite Hk in Hc. inversion Hc. reflexivity.
      * apply append_unresolved_wf. unfold children_wf in Hwf.
        rewrite Forall_forall in Hwf.
        apply (Hwf (Some child)). eapply nth_error_In; eauto.
Qed.

Lemma new_octree_node_wf (x0 x1 y0 y1 z0 z1 : Q) (d : Z) :
  oct_wf (new_octree_node x0 x1 y0 y1 z0 z1 d) /\
  all_polys (new_octree_node x0 x1 y0 y1 z0 z1 d) = [].
Proof.
  split; [|reflexivity]. unfold new_octree_node. apply oct_wf_unfold.
  split; [reflexivity|]. split; [intros _|]; repeat constructor.
Qed.

Lemma subdivide_perm (self self' : OctreeNode) :
  subdivide self = Ok self' -> oct_wf self -> nondivided self = true ->
  oct_wf self' /\ Permutation (all_polys self') (all_polys self).
Proof.
  intros H Hwf Hnd. unfold subdivide in H.
  match type of H with
  | context [subdivide_move ?n ?i ?u ?cs] =>
      destruct (subdivide_move n i u cs) as [[unres cs']|e] eqn:E;
      cbn [bind] in H; [|discriminate];
      apply subdivide_move_perm in E
  end.
  - destruct E as [Hperm Hwf']. inversion H; subst self'. clear H.
    destruct self as [b d cs u r nd]. simpl in Hnd. subst nd.
    apply oct_wf_unfold in Hwf. destruct Hwf as (-> & Hnone & _).
    cbn [node_bounds node_depth children unresolved resolved nondivided] in *.
    split.
    + apply oct_wf_unfold. split; [reflexivity|]. split; [discriminate|exact Hwf'].
    + simpl. fold (children_polys cs'). fold (children_polys cs).
      rewrite (children_polys_none cs (Hnone eq_refl)), app_nil_r.
      rewrite Hperm. unfold children_polys. simpl. now rewrite app_nil_r.
  - repeat constructor; apply new_octree_node_wf.
Qed.

Lemma add_polygon_perm (fuel : nat) :
  forall self vp self',
    add_polygon fuel self vp = Some (Ok self') -> oct_wf self ->
    oct_wf self' /\ Permutation (all_polys self') ([vp] ++ all_polys self).
Proof.
  induction fuel as [|fuel IH]; intros self vp self' H Hwf; [discriminate|].
  assert (Hdescend : forall node,
             oct_wf node ->
             match first_containing (children node) vp 0 with
             | Raise e => Some (Raise e)
             | Ok (Some k) =>
                 match nth_error (children node) k with
                 | Some (Some child) =>
                     match add_polygon fuel child vp with
                     | None => None
                     | Some (Raise e) => Some (Raise e)
                     | Some (Ok child') =>
                         Some (Ok (set_children node
                                     (update_nth (children node) k (fun _ => Some child'))))
                     end
                 | _ => Some (Raise AttributeError)
                 end
             | Ok None => Some (Ok (append_unresolved vp node))
             end = Some (Ok self') ->
             oct_wf self' /\ Permutation (all_polys self') ([vp] ++ all_polys node)).
  { intros node Hnode Hd.
    destruct (first_containing (children node) vp 0) as [[k|]|e] eqn:Ef; [| |discriminate].
    - destruct (nth_error (children node) k) as [[child|]|] eqn:Ek; try discriminate.
      destruct (add_polygon fuel child vp) as [[child'|e]|] eqn:Ea; try discriminate.
      inversion Hd; subst self'. clear Hd.
      destruct node as [b d cs u r nd].
      cbn [children] in *. apply oct_wf_unfold in Hnode.
      destruct Hnode as (-> & Hnone & Hcwf).
      assert (Hchild : oct_wf child).
      { unfold children_wf in Hcwf. rewrite Forall_forall in Hcwf.
        apply (Hcwf (Some child)). eapply nth_error_In; eauto. }
      destruct (IH child vp child' Ea Hchild) as [Hwf' Hperm].
      unfold set_children.
      cbn [node_bounds node_depth children unresolved resolved nondivided].
      split.
      + apply oct_wf_unfold. split; [reflexivity|]. split.
        * intros ->. specialize (Hnone eq_refl). rewrite Forall_forall in Hnone.
          assert (Hin : In (Some child) cs) by (eapply nth_error_In; eauto).
          apply Hnone in Hin. discriminate.
        * apply (children_wf_update cs k child'); auto.
      + simpl. fold (children_polys cs).
        fold (children_polys (update_nth cs k (fun _ => Some child'))).
        rewrite (children_polys_update cs k child child' [vp] Ek Hperm).
        simpl. apply Permutation_sym, Permutation_middle.
    - inversion Hd; subst self'. split.
      + now apply append_unresolved_wf.
      + apply append_unresolved_polys. }
  cbn [add_polygon] in H.
  destruct (nondivided self) eqn:End.
  - destruct (List.length (unresolved self) =? 0)%nat.
    + inversion H; subst self'. split.
      * now apply append_unresolved_wf.
      * apply append_unresolved_polys.
    + destruct (subdivide self) as [self1|e] eqn:Es; [|discriminate].
      destruct (subdivide_perm self self1 Es Hwf End) as [Hwf1 Hperm1].
      destruct (Hdescend self1 Hwf1 H) as [Hwf' Hperm]. split; [exact Hwf'|].
      rewrite Hperm. now rewrite Hperm1.
  - now apply Hdescend.
Qed.

Lemma insert_polygons_perm (fuel : nat) (polys : list ViewPolygon) :
  forall octree octree',
    insert_polygons fuel octree polys = Some (Ok octree') ->
    oct_wf (root octree) ->
    oct_wf (root octree') /\
    Permutation (all_polys (root octree')) (polys ++ all_polys (root octree)).
Proof.
  induction polys as [|vp polys IH]; intros octree octree' H Hwf.
  - inversion H; subst. auto.
  - cbn [insert_polygons] in H. unfold insert_polygon in H.
    destruct (compressed octree); [discriminate|].
    destruct (add_polygon fuel (root octree) vp) as [[root1|e]|] eqn:Ea; try discriminate.
    destruct (add_polygon_perm fuel _ _ _ Ea Hwf) as [Hwf1 Hperm1].
    destruct (IH _ _ H Hwf1) as [Hwf' Hperm]. split; [exact Hwf'|].
    rewrite Hperm. cbn [root]. rewrite Hperm1. simpl.
    apply Permutation_sym, Permutation_middle.
Qed.

(** ** Octree: paths *)

Lemma nth_error_update_nth_same {A : Type} (l : list A) (k : nat) (f : A -> A) :
  nth_error (update_nth l k f) k = option_map f (nth_error l k).
Proof.
  unfold update_nth. destruct (nth_error l k) as [a|] eqn:E.
  - assert (Hk : List.length (firstn k l) = k).
    { rewrite length_firstn. apply Nat.min_l.
      apply Nat.lt_le_incl, nth_error_Some. congruence. }
    rewrite nth_error_app2 by lia. rewrite Hk, Nat.sub_diag. reflexivity.
  - rewrite app_nil_r. apply nth_error_None in E.
    rewrite firstn_all2 by lia. simpl. now apply nth_error_None.
Qed.

Lemma nth_error_update_nth_other {A : Type} (l : list A) (k k' : nat) (f : A -> A) :
  k' <> k -> nth_error (update_nth l k f) k' = nth_error l k'.
Proof.
  intros Hne. unfold update_nth. destruct (nth_error l k) as [a|] eqn:E.
  - rewrite (nth_error_split_at l k a E) at 3.
    assert (Hk : List.length (firstn k l) = k).
    { rewrite length_firstn. apply Nat.min_l.
      apply Nat.lt_le_incl, nth_error_Some. congruence. }
    destruct (Nat.lt_ge_cases k' k) as [Hlt|Hge].
    + rewrite !nth_error_app1 by lia. reflexivity.
    + rewrite !nth_error_app2 by lia. rewrite Hk.
      destruct (k' - k)%nat as [|m] eqn:Em; [lia|reflexivity].
  - rewrite app_nil_r. apply nth_error_None in E. now rewrite firstn_all2 by lia.
Qed.

Lemma o_lookup_app (root : OctreeNode) (p s : opath) :
  o_lookup root (p ++ s) =
  match o_lookup root p with Some n => o_lookup n s | None => None end.
Proof.
  revert root. induction p as [|k p IH]; intros root; [reflexivity|].
  simpl. destruct (nth_error (children root) k) as [[c|]|]; auto.
Qed.

Lemma o_lookup_update_ext (root : OctreeNode) (p s : opath) (f : OctreeNode -> OctreeNode) :
  o_lookup (o_update root p f) (p ++ s) =
  match o_lookup root p with Some n => o_lookup (f n) s | None => None end.
Proof.
  revert root. induction p as [|k p IH]; intros root; [reflexivity|].
  simpl. destruct root as [b d cs u r nd]. unfold set_children.
  cbn [children]. rewrite nth_error_update_nth_same.
  destruct (nth_error cs k) as [[c|]|]; simpl; auto.
Qed.

Lemma o_lookup_update_same (root : OctreeNode) (p : opath) (f : OctreeNode -> OctreeNode) :
  o_lookup (o_update root p f) p = option_map f (o_lookup root p).
Proof.
  rewrite <- (app_nil_r p) at 2. rewrite o_lookup_update_ext.
  now destruct (o_lookup root p).
Qed.

Lemma o_lookup_update_above (root : OctreeNode) (q s : opath) (f : OctreeNode -> OctreeNode) :
  s <> [] ->
  o_lookup (o_update root (q ++ s) f) q =
  option_map (fun n => o_update n s f) (o_lookup root q).
Proof.
  intros Hs. revert root. induction q as [|k q IH]; intros root.
  - simpl. reflexivity.
  - simpl. destruct root as [b d cs u r nd]. unfold set_children.
    cbn [children]. rewrite nth_error_update_nth_same.
    destruct (nth_error cs k) as [[c|]|]; simpl; auto.
Qed.

Lemma o_lookup_update_apart (root : OctreeNode) (p q : opath) (f : OctreeNode -> OctreeNode) :
  (forall s, q <> p ++ s) -> (forall s, p <> q ++ s) ->
  o_lookup (o_update root p f) q = o_lookup root q.
Proof.
  revert root q. induction p as [|k p IH]; intros root q Hq Hp.
  - exfalso. now apply (Hq q).
  - destruct q as [|k' q]; [exfalso; now apply (Hp (k :: p))|].
    simpl. destruct root as [b d cs u r nd]. unfold set_children. cbn [children].
    destruct (Nat.eq_dec k' k) as [->|Hne].
    + rewrite nth_error_update_nth_same.
      destruct (nth_error cs k) as [[c|]|]; simpl; auto.
      apply IH; intros s Hs; [apply (Hq s)|apply (Hp s)]; simpl; now rewrite Hs.
    + now rewrite nth_error_update_nth_other.
Qed.

Lemma opath_cases (p q : opath) :
  (exists s, q = p ++ s) \/ (exists s, s <> [] /\ p = q ++ s) \/
  ((forall s, q <> p ++ s) /\ (forall s, p <> q ++ s)).
Proof.
  revert q. induction p as [|k p IH]; intros q; [left; now exists q|].
  destruct q as [|k' q].
  - right. left. exists (k :: p). split; [discriminate|reflexivity].
  - destruct (Nat.eq_dec k k') as [->|Hne].
    + destruct (IH q) as [[s ->]|[[s [Hs ->]]|[H1 H2]]].
      * left. now exists s.
      * right. left. now exists s.
      * right. right. split; intros s Hs; inversion Hs; [now apply (H1 s)|now apply (H2 s)].
    + right. right. split; intros s Hs; inversion Hs; congruence.
Qed.

Lemma oct_wf_lookup (root : OctreeNode) (p : opath) (n : OctreeNode) :
  oct_wf root -> o_lookup root p = Some n -> oct_wf n.
Proof.
  revert root. induction p as [|k p IH]; intros root Hwf H.
  - inversion H. now subst.
  - simpl in H. destruct (nth_error (children root) k) as [[c|]|] eqn:E; try discriminate.
    apply (IH c); [|exact H].
    destruct root as [b d cs u r nd]. apply oct_wf_unfold in Hwf.
    destruct Hwf as (_ & _ & Hc). unfold children_wf in Hc. rewrite Forall_forall in Hc.
    apply (Hc (Some c)). eapply nth_error_In; eauto.
Qed.

Lemma children_wf_update_nth (cs : list (option OctreeNode)) (k : nat)
      (f : option OctreeNode -> option OctreeNode) :
  children_wf cs ->
  (forall c, nth_error cs k = Some (Some c) ->
             match f (Some c) with Some c' => oct_wf c' | None => True end) ->
  f None = None ->
  children_wf (update_nth cs k f).
Proof.
  intros Hwf Hf Hnone. unfold update_nth.
  destruct (nth_error cs k) as [c|] eqn:E.
  - unfold children_wf in *. apply Forall_app. split.
    + rewrite <- (firstn_skipn k cs) in Hwf. now apply Forall_app in Hwf.
    + constructor.
      * destruct c as [c|]; [now apply Hf|now rewrite Hnone].
      * rewrite <- (firstn_skipn (S k) cs) in Hwf. now apply Forall_app in Hwf.
  - rewrite app_nil_r. unfold children_wf in *.
    rewrite <- (firstn_skipn k cs) in Hwf. now apply Forall_app in Hwf.
Qed.

Lemma update_nth_all_none (cs : list (option OctreeNode)) (k : nat)
      (f : option OctreeNode -> option OctreeNode) :
  Forall (fun c => c = None) cs -> f None = None ->
  Forall (fun c => c = None) (update_nth cs k f).
Proof.
  intros H Hf. unfold update_nth. destruct (nth_error cs k) as [c|] eqn:E.
  - apply Forall_app. split.
    + rewrite <- (firstn_skipn k cs) in H. now apply Forall_app in H.
    + constructor.
      * rewrite Forall_forall in H. rewrite (H c (nth_error_In _ _ E)). exact Hf.
      * rewrite <- (firstn_skipn (S k) cs) in H. now apply Forall_app in H.
  - rewrite app_nil_r. rewrite <- (firstn_skipn k cs) in H. now apply Forall_app in H.
Qed.

(** Updating a node by a function that keeps [oct_wf] keeps [oct_wf] of the
    tree. *)
Lemma oct_wf_update (p : opath) (f : OctreeNode -> OctreeNode) :
  (forall n, oct_wf n -> oct_wf (f n)) ->
  forall root, oct_wf root -> oct_wf (o_update root p f).
Proof.
  intros Hf. induction p as [|k p IH]; intros root Hwf; [now apply Hf|].
  cbn [o_update]. destruct root as [b d cs u r nd]. unfold set_children.
  cbn [node_bounds node_depth children unresolved resolved nondivided].
  apply oct_wf_unfold in Hwf. destruct Hwf as (Hr & Hnone & Hc).
  apply (proj2 (oct_wf_unfold _ _ _ _ _ _)). split; [exact Hr|]. split.
  - intros Hnd. apply update_nth_all_none; auto.
  - apply children_wf_update_nth; auto.
    intros c Hk. cbn [option_map]. apply IH.
    unfold children_wf in Hc. rewrite Forall_forall in Hc.
    apply (Hc (Some c)). eapply nth_error_In; eauto.
Qed.

(** Updating a node by a function that keeps its polygons, up to their
    order, keeps those of the tree. *)
Lemma all_polys_update (p : opath) (f : OctreeNode -> OctreeNode) :
  forall root,
    (forall n, o_lookup root p = Some n -> Permutation (all_polys (f n)) (all_polys n)) ->
    Permutation (all_polys (o_update root p f)) (all_polys root).
Proof.
  induction p as [|k p IH]; intros root Hf; [now apply Hf|].
  cbn [o_update]. destruct root as [b d cs u r nd]. unfold set_children.
  cbn [node_bounds node_depth children unresolved resolved nondivided].
  cbn [o_lookup children] in Hf. rewrite !all_polys_unfold.
  cbn [children unresolved resolved].
  do 2 apply Permutation_app_head.
  destruct (nth_error cs k) as [[c|]|] eqn:E.
  - apply (children_polys_update_with cs k c (o_update c p f) _ [] E eq_refl).
    cbn [app]. apply IH. exact Hf.
  - rewrite (update_nth_at cs k None _ E). cbn [option_map].
    now rewrite <- (nth_error_split_at cs k None E).
  - unfold update_nth. rewrite E, app_nil_r. apply nth_error_None in E.
    now rewrite firstn_all2 by lia.
Qed.

(** ** Octree: compression *)

Lemma compress_children_spec (p : opath) (cs : list (option OctreeNode)) :
  forall j, compress_children p j cs =
            (map prune_child cs, kept_paths p j (map prune_child cs)).
Proof.
  induction cs as [|c cs IH]; intros j; [reflexivity|].
  cbn [compress_children]. rewrite (IH (S j)).
  destruct c as [child|]; [|reflexivity].
  cbn [map prune_child kept_paths].
  destruct ((List.length (unresolved child) =? 0)%nat && nondivided child); reflexivity.
Qed.

Lemma kept_paths_in (p : opath) (cs : list (option OctreeNode)) :
  forall j q,
    In q (kept_paths p j cs) <->
    exists k c, q = p ++ [(j + k)%nat] /\ nth_error cs k = Some (Some c).
Proof.
  induction cs as [|c cs IH]; intros j q.
  - split; [intros []|]. intros (k & c & _ & H). destruct k; discriminate.
  - cbn [kept_paths]. rewrite in_app_iff, IH. split.
    + intros [H|(k & c' & -> & Hk)].
      * destruct c as [ch|]; [|destruct H]. destruct H as [<-|[]].
        exists 0%nat, ch. rewrite Nat.add_0_r. auto.
      * exists (S k), c'. split; [|exact Hk]. f_equal. f_equal. lia.
    + intros (k & c' & -> & Hk). destruct k as [|k].
      * left. simpl in Hk. inversion Hk; subst c. rewrite Nat.add_0_r. now left.
      * right. exists k, c'. split; [|exact Hk]. f_equal. f_equal. lia.
Qed.

Lemma kept_paths_NoDup (p : opath) (cs : list (option OctreeNode)) :
  forall j, NoDup (kept_paths p j cs).
Proof.
  induction cs as [|c cs IH]; intros j; [constructor|].
  cbn [kept_paths]. destruct c as [ch|]; [|apply IH].
  simpl. constructor; [|apply IH].
  intros H. apply kept_paths_in in H. destruct H as (k & c & E & _).
  apply app_inv_head in E. inversion E. lia.
Qed.

Lemma kept_paths_sum (p : opath) (g : opath -> nat) (cs : list (option OctreeNode)) :
  forall j,
    (forall k c, nth_error cs k = Some (Some c) -> g (p ++ [(j + k)%nat]) = tree_size c) ->
    list_sum (map g (kept_paths p j cs)) = list_sum (map size_opt cs).
Proof.
  induction cs as [|c cs IH]; intros j Hg; [reflexivity|].
  cbn [kept_paths]. rewrite map_app, list_sum_app.
  assert (E : list_sum (map g (kept_paths p (S j) cs)) = list_sum (map size_opt cs)).
  { apply IH. intros k c' Hk. rewrite <- (Hg (S k) c' Hk). f_equal. f_equal. f_equal. lia. }
  change (map size_opt (c :: cs)) with (size_opt c :: map size_opt cs).
  change (list_sum (size_opt c :: map size_opt cs))
    with (size_opt c + list_sum (map size_opt cs))%nat.
  f_equal; [|exact E]. destruct c as [ch|]; [|reflexivity]. simpl.
  pose proof (Hg 0%nat ch eq_refl) as H0. rewrite Nat.add_0_r in H0.
  rewrite H0. lia.
Qed.

Lemma prune_child_kept (cs : list (option OctreeNode)) (k : nat) (c : OctreeNode) :
  nth_error (map prune_child cs) k = Some (Some c) -> nth_error cs k = Some (Some c).
Proof.
  rewrite nth_error_map. destruct (nth_error cs k) as [[ch|]|]; simpl; try discriminate.
  destruct ((List.length (unresolved ch) =? 0)%nat && nondivided ch); [discriminate|auto].
Qed.

Lemma prune_child_size (cs : list (option OctreeNode)) :
  (list_sum (map size_opt (map prune_child cs)) <= list_sum (map size_opt cs))%nat.
Proof.
  induction cs as [|c cs IH]; [reflexivity|]. simpl.
  destruct c as [ch|]; simpl; [|exact IH].
  destruct ((List.length (unresolved ch) =? 0)%nat && nondivided ch); simpl; lia.
Qed.

Lemma prune_child_polys (cs : list (option OctreeNode)) :
  children_wf cs ->
  children_polys (map prune_child cs) = children_polys cs /\
  children_wf (map prune_child cs) /\
  (Forall (fun c => c = None) cs -> Forall (fun c => c = None) (map prune_child cs)).
Proof.
  induction 1 as [|c cs Hc Hcs IH].
  - repeat split; auto; constructor.
  - destruct IH as (IH1 & IH2 & IH3). cbn [map]. rewrite !children_polys_cons, IH1.
    destruct c as [ch|]; cbn [prune_child].
    + destruct ((List.length (unresolved ch) =? 0)%nat && nondivided ch) eqn:E.
      * apply andb_true_iff in E. destruct E as [Eu End].
        apply Nat.eqb_eq in Eu.
        destruct ch as [b d cs' u r nd]. cbn [unresolved nondivided] in *.
        apply oct_wf_unfold in Hc. destruct Hc as (-> & Hnone & _).
        destruct u; [|discriminate].
        split; [|split].
        -- rewrite all_polys_unfold. cbn [unresolved resolved children].
           now rewrite (children_polys_none cs' (Hnone End)).
        -- constructor; auto.
        -- intros H. inversion H. discriminate.
      * split; [reflexivity|]. split; [constructor; auto|].
        intros H. inversion H. discriminate.
    + split; [reflexivity|]. split; [constructor; auto|].
      intros H. inversion H. constructor; auto.
Qed.

Lemma skipn_nth_cons {A : Type} (l : list A) (i : nat) (a : A) :
  nth_error l i = Some a -> skipn i l = a :: skipn (S i) l.
Proof.
  revert i. induction l as [|x l IH]; intros i H; [destruct i; discriminate|].
  destruct i as [|i]; simpl in *; [now inversion H|now apply IH].
Qed.

Lemma oct_wf_update_at (p : opath) (f : OctreeNode -> OctreeNode) :
  forall root,
    oct_wf root ->
    (forall n, o_lookup root p = Some n -> oct_wf (f n)) ->
    oct_wf (o_update root p f).
Proof.
  induction p as [|k p IH]; intros root Hwf Hf; [now apply Hf|].
  cbn [o_update]. destruct root as [b d cs u r nd]. unfold set_children.
  cbn [node_bounds node_depth children unresolved resolved nondivided].
  cbn [o_lookup children] in Hf.
  apply oct_wf_unfold in Hwf. destruct Hwf as (Hr & Hnone & Hc).
  apply (proj2 (oct_wf_unfold _ _ _ _ _ _)). split; [exact Hr|]. split.
  - intros Hnd. apply update_nth_all_none; auto.
  - apply children_wf_update_nth; auto.
    intros c Hk. cbn [option_map]. apply IH.
    + unfold children_wf in Hc. rewrite Forall_forall in Hc.
      apply (Hc (Some c)). eapply nth_error_In; eauto.
    + intros n Hn. apply Hf. now rewrite Hk.
Qed.

Lemma tree_size_children (n : OctreeNode) :
  tree_size n = S (list_sum (map size_opt (children n))).
Proof. destruct n; reflexivity. Qed.

Lemma proper_ext_snoc (p' p : opath) (k : nat) :
  proper_ext p' (p ++ [k]) -> p' = p \/ proper_ext p' p.
Proof.
  intros (s & Hs & E). destruct (exists_last Hs) as (s0 & x & ->).
  rewrite app_assoc in E. apply app_inj_tail in E. destruct E as [E _].
  destruct s0 as [|y s0].
  - left. now rewrite app_nil_r in E.
  - right. exists (y :: s0). split; [discriminate|exact E].
Qed.

Lemma NoDup_nth_skipn {A : Type} (l : list A) :
  forall i a, NoDup l -> nth_error l i = Some a -> ~ In a (skipn (S i) l).
Proof.
  induction l as [|x l IH]; intros i a Hnd Hi; [destruct i; discriminate|].
  inversion Hnd; subst. destruct i as [|i].
  - simpl in Hi. inversion Hi; subst. assumption.
  - change (skipn (S (S i)) (x :: l)) with (skipn (S i) l). now apply IH.
Qed.

Lemma in_skipn {A : Type} (l : list A) (i : nat) (a : A) :
  In a (skipn i l) -> In a l.
Proof.
  intros H. rewrite <- (firstn_skipn i l). apply in_or_app. now right.
Qed.

(** One iteration of the loop of [compress_tree]. *)
Lemma compress_step (root : OctreeNode) (nodes : list opath) (i : nat)
      (p : opath) (node : OctreeNode) :
  compress_inv root nodes i ->
  nth_error nodes i = Some p ->
  o_lookup root p = Some node ->
  let cs' := map prune_child (children node) in
  let root' := o_update root p (fun n => set_children n cs') in
  let nodes' := nodes ++ kept_paths p 0 cs' in
  compress_inv root' nodes' (S i) /\
  Permutation (all_polys root') (all_polys root) /\
  (list_sum (map (size_at root') (skipn (S i) nodes'))
   < list_sum (map (size_at root) (skipn i nodes)))%nat.
Proof.
  intros (Hnd & Hi & Hval & HG & HA & Hwf) Hp Hnode cs' root' nodes'.
  assert (Hsk : skipn i nodes = p :: skipn (S i) nodes) by now apply skipn_nth_cons.
  assert (Hlt : (i < List.length nodes)%nat) by (apply nth_error_Some; congruence).
  assert (Hpin : In p nodes) by (eapply nth_error_In; eauto).
  assert (Hppend : In p (skipn i nodes)) by (rewrite Hsk; now left).
  assert (Hsk' : skipn (S i) nodes' = skipn (S i) nodes ++ kept_paths p 0 cs').
  { unfold nodes'. rewrite skipn_app.
    replace (S i - List.length nodes)%nat with 0%nat by lia. reflexivity. }
  assert (Hpend : forall q, In q (skipn (S i) nodes) -> In q (skipn i nodes))
    by (intros q Hq; rewrite Hsk; now right).
  assert (Hnodewf : oct_wf node) by (eapply oct_wf_lookup; eauto).
  assert (Hkept : forall q, In q (kept_paths p 0 cs') ->
                            exists k c, q = p ++ [k] /\ nth_error cs' k = Some (Some c)).
  { intros q Hq. apply kept_paths_in in Hq. destruct Hq as (k & c & -> & Hk).
    exists k, c. now split. }
  assert (Hkept' : forall k c, nth_error cs' k = Some (Some c) ->
                               In (p ++ [k]) (kept_paths p 0 cs')).
  { intros k c Hk. apply kept_paths_in. exists k, c. now split. }
  assert (Hbelow : forall k s n,
             o_lookup root' (p ++ k :: s) = Some n ->
             exists c, nth_error cs' k = Some (Some c) /\ o_lookup c s = Some n).
  { intros k s n H. unfold root' in H. rewrite o_lookup_update_ext, Hnode in H.
    cbn [o_lookup] in H. unfold set_children in H. cbn [children] in H.
    destruct (nth_error cs' k) as [[c|]|]; try discriminate. eauto. }
  assert (Hchild : forall k c, nth_error cs' k = Some (Some c) ->
                               o_lookup root' (p ++ [k]) = Some c).
  { intros k c Hk. unfold root'. rewrite o_lookup_update_ext, Hnode.
    cbn [o_lookup]. unfold set_children. cbn [children]. now rewrite Hk. }
  assert (Hsame : forall q, ~ proper_ext p q ->
                            ((exists n, o_lookup root' q = Some n) <->
                             (exists n, o_lookup root q = Some n))).
  { intros q Hq. destruct (opath_cases p q) as [(s & ->) | [(s & Hs & E) | (H1 & H2)]].
    - destruct s as [|k s].
      + rewrite app_nil_r. unfold root'. rewrite o_lookup_update_same, Hnode.
        cbn [option_map]. split; eauto.
      + exfalso. apply Hq. exists (k :: s). split; [discriminate|reflexivity].
    - pose proof (o_lookup_update_above root q s (fun n => set_children n cs') Hs) as Hab.
      rewrite <- E in Hab. unfold root'. rewrite Hab.
      destruct (o_lookup root q); cbn [option_map]; split; eauto.
    - unfold root'. rewrite o_lookup_update_apart by assumption. reflexivity. }
  assert (Hapart : forall q, In q (skipn (S i) nodes) ->
                             (forall s, q <> p ++ s) /\ (forall s, p <> q ++ s)).
  { intros q Hq. split; intros s E.
    - destruct s as [|k s].
      + rewrite app_nil_r in E. subst q. exact (NoDup_nth_skipn nodes i p Hnd Hp Hq).
      + apply (HG q p (in_skipn _ _ _ Hq) Hppend).
        exists (k :: s). split; [discriminate|exact E].
    - destruct s as [|k s].
      + rewrite app_nil_r in E. subst q. exact (NoDup_nth_skipn nodes i p Hnd Hp Hq).
      + apply (HG p q Hpin (Hpend q Hq)).
        exists (k :: s). split; [discriminate|exact E]. }
  split; [|split].
  - unfold compress_inv. split; [|split; [|split; [|split; [|split]]]].
    + apply NoDup_app; [exact Hnd|apply kept_paths_NoDup|].
      intros q Hq Hq'. destruct (Hkept q Hq') as (k & c & -> & _).
      apply (HG _ p Hq Hppend). exists [k]. split; [discriminate|reflexivity].
    + unfold nodes'. rewrite length_app. lia.
    + intros q Hq. apply in_app_or in Hq. destruct Hq as [Hq|Hq].
      * apply Hsame; [exact (HG q p Hq Hppend)|]. now apply Hval.
      * destruct (Hkept q Hq) as (k & c & -> & Hk). exists c. now apply Hchild.
    + intros q p' Hq Hp'. rewrite Hsk' in Hp'.
      apply in_app_or in Hq. apply in_app_or in Hp'.
      destruct Hp' as [Hp'|Hp']; destruct Hq as [Hq|Hq].
      * apply HG; auto.
      * destruct (Hkept q Hq) as (k & c & -> & _). intros Hext.
        apply proper_ext_snoc in Hext. destruct Hext as [->|Hext].
        -- exact (NoDup_nth_skipn nodes i p Hnd Hp Hp').
        -- exact (HG p p' Hpin (Hpend p' Hp') Hext).
      * destruct (Hkept p' Hp') as (k & c & -> & _). intros (s & Hs & E).
        apply (HG q p Hq Hppend). exists ([k] ++ s). split.
        -- discriminate.
        -- now rewrite app_assoc.
      * destruct (Hkept p' Hp') as (k & c & -> & _).
        destruct (Hkept q Hq) as (k' & c' & -> & _). intros (s & Hs & E).
        rewrite <- app_assoc in E. apply app_inv_head in E.
        destruct s; [congruence|discriminate].
    + intros q n Hq. rewrite Hsk'. unfold nodes'.
      destruct (opath_cases p q) as [(s & ->) | [(s & Hs & E) | (H1 & H2)]].
      * destruct s as [|k s].
        -- left. rewrite app_nil_r. apply in_or_app. now left.
        -- destruct (Hbelow k s n Hq) as (c & Hk & _).
           destruct s as [|k' s].
           ++ left. apply in_or_app. right. eapply Hkept'; eauto.
           ++ right. exists (p ++ [k]). split.
              ** apply in_or_app. right. eapply Hkept'; eauto.
              ** exists (k' :: s). split; [discriminate|].
                 now rewrite <- app_assoc.
      * assert (Hne : ~ proper_ext p q).
        { intros (t & Ht & E'). rewrite E' in E at 1.
          rewrite <- app_assoc in E.
          rewrite <- (app_nil_r p) in E at 1. apply app_inv_head in E.
          symmetry in E. apply app_eq_nil in E. destruct E; contradiction. }
        destruct (proj1 (Hsame q Hne) (ex_intro _ n Hq)) as [n0 Hn0].
        destruct (HA q n0 Hn0) as [Hin|(p0 & Hp0 & Hext)].
        -- left. apply in_or_app. now left.
        -- rewrite Hsk in Hp0. destruct Hp0 as [<-|Hp0]; [contradiction|].
           right. exists p0. split; [apply in_or_app; now left|exact Hext].
      * assert (Hne : ~ proper_ext p q) by (intros (t & _ & E'); exact (H1 t E')).
        destruct (proj1 (Hsame q Hne) (ex_intro _ n Hq)) as [n0 Hn0].
        destruct (HA q n0 Hn0) as [Hin|(p0 & Hp0 & Hext)].
        -- left. apply in_or_app. now left.
        -- rewrite Hsk in Hp0. destruct Hp0 as [<-|Hp0]; [contradiction|].
           right. exists p0. split; [apply in_or_app; now left|exact Hext].
    + apply oct_wf_update_at; [exact Hwf|]. intros n Hn.
      rewrite Hnode in Hn. inversion Hn; subst n.
      destruct node as [b d cs u r nd]. unfold set_children.
      cbn [node_bounds node_depth children unresolved resolved nondivided] in *.
      apply oct_wf_unfold in Hnodewf. destruct Hnodewf as (Hr & Hnone & Hc).
      apply (proj2 (oct_wf_unfold _ _ _ _ _ _)).
      destruct (prune_child_polys cs Hc) as (_ & Hc' & Hnone').
      split; [exact Hr|]. split; [|exact Hc']. intros E. apply Hnone'. now apply Hnone.
  - apply all_polys_update. intros n Hn. rewrite Hnode in Hn. inversion Hn; subst n.
    destruct node as [b d cs u r nd]. unfold set_children.
    cbn [node_bounds node_depth children unresolved resolved nondivided] in *.
    apply oct_wf_unfold in Hnodewf. destruct Hnodewf as (Hr & Hnone & Hc).
    rewrite !all_polys_unfold. cbn [children unresolved resolved].
    unfold cs'. cbn [children].
    now rewrite (proj1 (prune_child_polys cs Hc)).
  - rewrite Hsk, Hsk', map_app, list_sum_app.
    change (map (size_at root) (p :: skipn (S i) nodes))
      with (size_at root p :: map (size_at root) (skipn (S i) nodes)).
    change (list_sum (size_at root p :: map (size_at root) (skipn (S i) nodes)))
      with (size_at root p + list_sum (map (size_at root) (skipn (S i) nodes)))%nat.
    rewrite (map_ext_in (size_at root') (size_at root) (skipn (S i) nodes)).
    2:{ intros q Hq. unfold size_at, root'. destruct (Hapart q Hq) as [H1 H2].
        now rewrite o_lookup_update_apart. }
    rewrite (kept_paths_sum p (size_at root') cs' 0).
    2:{ intros k c Hk. unfold size_at. cbn [Nat.add]. now rewrite (Hchild k c Hk). }
    pose proof (prune_child_size (children node)) as Hle. fold cs' in Hle.
    unfold size_at at 2. rewrite Hnode. cbn [size_opt].
    rewrite (tree_size_children node). lia.
Qed.

(** The loop of [compress_tree] ends, keeps the polygons of the tree and
    lists every node that is left. *)
Lemma compress_loop_ok :
  forall fuel root nodes i,
    compress_inv root nodes i ->
    (list_sum (map (size_at root) (skipn i nodes)) < fuel)%nat ->
    exists root' nodes',
      compress_loop fuel root nodes i = Some (Ok (root', nodes')) /\
      compress_inv root' nodes' (List.length nodes') /\
      Permutation (all_polys root') (all_polys root).
Proof.
  induction fuel as [|fuel IH]; intros root nodes i Hinv Hfuel; [lia|].
  cbn [compress_loop]. destruct (nth_error nodes i) as [p|] eqn:Hp.
  - destruct Hinv as (Hnd & Hi & Hval & HG & HA & Hwf).
    destruct (Hval p (nth_error_In _ _ Hp)) as [node Hnode]. rewrite Hnode.
    rewrite compress_children_spec.
    destruct (compress_step root nodes i p node
                (conj Hnd (conj Hi (conj Hval (conj HG (conj HA Hwf))))) Hp Hnode)
      as (Hinv' & Hperm & Hdec).
    destruct (IH _ _ _ Hinv' ltac:(lia)) as (root' & nodes' & Hrun & Hinv'' & Hperm').
    exists root', nodes'. split; [exact Hrun|]. split; [exact Hinv''|].
    now rewrite Hperm'.
  - exists root, nodes. split; [reflexivity|]. split; [|reflexivity].
    apply nth_error_None in Hp. pose proof Hinv as (_ & Hi & _).
    replace (List.length nodes) with i by lia. exact Hinv.
Qed.

(** ** Octree: resolving without conflicts *)

Section ResolveQuiet.
Context {MU : MathUtils}.

Lemma in_conflict_no_overlap (p q : ViewPolygon) :
  bounds_computed p -> bounds_computed q ->
  overlaps (proj_verts p) (proj_verts q) = false ->
  in_conflict p q = Ok false.
Proof.
  unfold bounds_computed. intros Hp Hq Hov.
  destruct (verts p) as [|p0 prest] eqn:Evp; [contradiction|].
  destruct (verts q) as [|q0 qrest] eqn:Evq; [contradiction|].
  assert (Hvp : verts p <> []) by congruence.
  assert (Hvq : verts q <> []) by congruence.
  unfold in_conflict, get_bounds. rewrite Hp, Hq. cbn [bind].
  destruct (_ || _); [reflexivity|].
  destruct (_ || _); [reflexivity|].
  destruct (_ || _); [reflexivity|].
  destruct (relative_pos_total q p Hvq) as (k & -> & _). cbn [bind].
  destruct (negb (k =? 0)%Z); [reflexivity|].
  destruct (relative_pos_total p q Hvp) as (k' & -> & _). cbn [bind].
  destruct (negb (k' =? 0)%Z); [reflexivity|].
  rewrite Hov. reflexivity.
Qed.

Lemma find_conflict_none (polygon : ViewPolygon) (others : list ViewPolygon) :
  Forall (fun q => in_conflict polygon q = Ok false) others ->
  find_conflict polygon others = Ok None.
Proof.
  induction 1 as [|q others Hq _ IH]; [reflexivity|].
  cbn [find_conflict]. rewrite Hq. cbn [bind]. exact IH.
Qed.

Lemma find_conflict_up_none (polygon : ViewPolygon) (ancestors : list (list ViewPolygon)) :
  Forall (fun q => in_conflict polygon q = Ok false) (List.concat ancestors) ->
  find_conflict_up polygon ancestors = Ok None.
Proof.
  induction ancestors as [|unres up IH]; intros H; [reflexivity|].
  cbn [List.concat] in H. apply Forall_app in H. destruct H as [H1 H2].
  cbn [find_conflict_up]. rewrite (find_conflict_none _ _ H1). cbn [bind].
  now apply IH.
Qed.

Lemma projections_apart_sym (p q : ViewPolygon) :
  projections_apart p q -> projections_apart q p.
Proof. unfold projections_apart. tauto. Qed.

Lemma no_two_overlap_perm (l l' : list ViewPolygon) :
  Permutation l l' -> no_two_overlap l -> no_two_overlap l'.
Proof.
  induction 1 as [|x l l' Hperm IH|x y l|l l' l'' _ IH1 _ IH2]; cbn [no_two_overlap].
  - auto.
  - intros [H1 H2]. split; [|auto]. eapply Permutation_Forall; eauto.
  - intros (H1 & H2 & H3). inversion H1; subst.
    split; [|split; auto]. constructor; [|assumption].
    now apply projections_apart_sym.
  - auto.
Qed.

Lemma no_two_overlap_app_l (l1 l2 : list ViewPolygon) :
  no_two_overlap (l1 ++ l2) -> no_two_overlap l1.
Proof.
  induction l1 as [|x l1 IH]; cbn [no_two_overlap app]; [auto|].
  intros [H1 H2]. apply Forall_app in H1. split; [tauto|auto].
Qed.

(** Without a conflict the loop of [resolve_node] moves every polygon from
    [unresolved] to [resolved], in order. *)
Lemma resolve_loop_quiet :
  forall fuel ancestors unres res,
    (List.length unres < fuel)%nat ->
    Forall bounds_computed (unres ++ List.concat ancestors) ->
    no_two_overlap (unres ++ List.concat ancestors) ->
    resolve_loop fuel ancestors unres res = Some (Ok ([], res ++ unres)).
Proof.
  induction fuel as [|fuel IH]; intros ancestors unres res Hfuel Hb Hn; [lia|].
  cbn [resolve_loop]. destruct unres as [|polygon others].
  - now rewrite app_nil_r.
  - cbn [app] in Hb, Hn. inversion Hb as [|? ? Hbp Hbo]; subst.
    cbn [no_two_overlap] in Hn. destruct Hn as [Hap Hn].
    assert (Hquiet : Forall (fun q => in_conflict polygon q = Ok false)
                            (others ++ List.concat ancestors)).
    { rewrite Forall_forall in *. intros q Hq.
      apply in_conflict_no_overlap; auto. exact (proj1 (Hap q Hq)). }
    apply Forall_app in Hquiet. destruct Hquiet as [Hq1 Hq2].
    cbn [resolve_step]. rewrite (find_conflict_none _ _ Hq1). cbn [bind].
    rewrite (find_conflict_up_none _ _ Hq2). cbn [bind].
    cbn [List.length] in Hfuel.
    rewrite (IH ancestors others (res ++ [polygon]) ltac:(lia) Hbo Hn).
    now rewrite <- app_assoc.
Qed.

End ResolveQuiet.

(** The polygons of the tree contain the [unresolved] list of a node and
    those of its ancestors. *)
Lemma lookup_polys_split (p : opath) :
  forall root n,
    o_lookup root p = Some n ->
    exists rest,
      Permutation (all_polys root)
                  ((unresolved n ++ List.concat (ancestors_unresolved root p)) ++ rest).
Proof.
  induction p as [|k p IH]; intros root n H.
  - cbn [o_lookup] in H. inversion H; subst n. destruct root as [b d cs u r nd].
    exists (r ++ children_polys cs). rewrite all_polys_unfold.
    cbn [ancestors_unresolved List.concat unresolved]. now rewrite app_nil_r.
  - cbn [o_lookup] in H. cbn [ancestors_unresolved].
    destruct (nth_error (children root) k) as [[c|]|] eqn:E; try discriminate.
    destruct (IH c n H) as [rest Hperm].
    destruct root as [b d cs u r nd]. cbn [children unresolved] in *.
    exists (rest ++ r ++ children_polys (firstn k cs) ++ children_polys (skipn (S k) cs)).
    rewrite all_polys_unfold. cbn [unresolved resolved children].
    rewrite (nth_error_split_at cs k (Some c) E) at 1.
    rewrite children_polys_app, children_polys_cons.
    rewrite concat_app. cbn [List.concat]. rewrite app_nil_r.
    rewrite Hperm.
    perm_app.
Qed.

(** The nodes of a tree after an update that keeps the children of the
    updated node: the same paths refer to nodes, and only the node at [p]
    has other lists. *)
Lemma lookup_after_update (root : OctreeNode) (p q : opath)
      (f : OctreeNode -> OctreeNode) :
  (forall n, children (f n) = children n) ->
  match o_lookup (o_update root p f) q, o_lookup root q with
  | Some n1, Some n => (q = p /\ n1 = f n) \/ (q <> p /\ unresolved n1 = unresolved n)
  | None, None => True
  | _, _ => False
  end.
Proof.
  intros Hf. destruct (opath_cases p q) as [(s & ->) | [(s & Hs & E) | (H1 & H2)]].
  - destruct s as [|k s].
    + rewrite app_nil_r, o_lookup_update_same.
      destruct (o_lookup root p); cbn [option_map]; auto.
    + rewrite o_lookup_update_ext, o_lookup_app.
      destruct (o_lookup root p) as [n|]; [|exact I].
      cbn [o_lookup]. rewrite Hf.
      destruct (nth_error (children n) k) as [[c|]|]; try exact I.
      destruct (o_lookup c s); [|exact I]. right. split; [|reflexivity].
      intros E. rewrite <- (app_nil_r p) in E at 2. apply app_inv_head in E. discriminate.
  - subst p. rewrite o_lookup_update_above by exact Hs.
    destruct (o_lookup root q) as [n|]; cbn [option_map]; [|exact I].
    right. split.
    + intros E. rewrite <- (app_nil_r q) in E at 1. apply app_inv_head in E.
      symmetry in E. contradiction.
    + destruct s as [|k s]; [contradiction|]. cbn [o_update]. destruct n. reflexivity.
  - rewrite o_lookup_update_apart by assumption.
    destruct (o_lookup root q) as [n|]; [|exact I].
    right. split; [|reflexivity]. intros ->. apply (H1 []). now rewrite app_nil_r.
Qed.

Section ResolveNodes.
Context {MU : MathUtils}.

(** Without a conflict [resolve_node] moves the [unresolved] list of the
    node to the end of its [resolved] list. *)
Lemma resolve_node_quiet (fuel : nat) (root : OctreeNode) (p : opath) (n : OctreeNode) :
  o_lookup root p = Some n ->
  Forall bounds_computed (all_polys root) ->
  no_two_overlap (all_polys root) ->
  (List.length (all_polys root) < fuel)%nat ->
  resolve_node fuel root p =
  Some (Ok (o_update root p
              (fun n' => set_lists n' [] (resolved n ++ unresolved n)))).
Proof.
  intros Hn Hb Ho Hfuel. unfold resolve_node. rewrite Hn.
  destruct (lookup_polys_split p root n Hn) as [rest Hperm].
  rewrite resolve_loop_quiet; [reflexivity| | |].
  - apply Permutation_length in Hperm. rewrite !length_app in Hperm. lia.
  - apply (Permutation_Forall Hperm) in Hb. now apply Forall_app in Hb.
  - apply (no_two_overlap_perm _ _ Hperm) in Ho. now apply no_two_overlap_app_l in Ho.
Qed.

(** Without a conflict the loop over the nodes ends; it keeps the polygons
    of the tree and empties the [unresolved] list of every listed node. *)
Lemma resolve_nodes_quiet (fuel : nat) :
  forall todo root,
    (forall q, In q todo -> exists n, o_lookup root q = Some n) ->
    Forall bounds_computed (all_polys root) ->
    no_two_overlap (all_polys root) ->
    (List.length (all_polys root) < fuel)%nat ->
    exists root',
      resolve_nodes fuel root todo = Some (Ok root') /\
      Permutation (all_polys root') (all_polys root) /\
      forall q,
        match o_lookup root' q, o_lookup root q with
        | Some n1, Some n => In q todo \/ unresolved n = [] -> unresolved n1 = []
        | None, None => True
        | _, _ => False
        end.
Proof.
  induction todo as [|p todo IH]; intros root Hval Hb Ho Hfuel.
  - exists root. split; [reflexivity|]. split; [reflexivity|].
    intros q. destruct (o_lookup root q); [|exact I]. intros [[]|H]; exact H.
  - destruct (Hval p (or_introl eq_refl)) as [n Hn].
    cbn [resolve_nodes]. rewrite (resolve_node_quiet fuel root p n Hn Hb Ho Hfuel).
    set (f := fun n' : OctreeNode => set_lists n' [] (resolved n ++ unresolved n)).
    set (root1 := o_update root p f).
    assert (Hf : forall m, children (f m) = children m) by (intros m; reflexivity).
    assert (Hperm : Permutation (all_polys root1) (all_polys root)).
    { apply all_polys_update. intros m Hm. rewrite Hn in Hm. inversion Hm; subst m.
      unfold f, set_lists. rewrite !all_polys_unfold.
      cbn [unresolved resolved children app]. perm_app. }
    destruct (IH root1) as (root' & Hrun & Hperm' & Hres).
    + intros q Hq. destruct (Hval q (or_intror Hq)) as [m Hm].
      pose proof (lookup_after_update root p q f Hf) as H. fold root1 in H.
      rewrite Hm in H. destruct (o_lookup root1 q); [eauto|contradiction].
    + exact (Permutation_Forall (Permutation_sym Hperm) Hb).
    + exact (no_two_overlap_perm _ _ (Permutation_sym Hperm) Ho).
    + now rewrite (Permutation_length Hperm).
    + exists root'. split; [exact Hrun|]. split; [now rewrite Hperm'|].
      intros q. specialize (Hres q).
      pose proof (lookup_after_update root p q f Hf) as H. fold root1 in H.
      destruct (o_lookup root' q) as [n'|]; destruct (o_lookup root1 q) as [n1|];
        destruct (o_lookup root q) as [m|]; try contradiction; try exact I.
      intros Hq. apply Hres.
      destruct H as [[-> ->]|[Hne Hu]]; [right; reflexivity|].
      rewrite Hu. destruct Hq as [[E|Hq]|Hq]; [congruence|now left|now right].
Qed.

End ResolveNodes.

Lemma flat_map_ext_in {A B : Type} (f g : A -> list B) (l : list A) :
  (forall a, In a l -> f a = g a) -> flat_map f l = flat_map g l.
Proof.
  induction l as [|a l IH]; intros H; [reflexivity|].
  cbn [flat_map]. rewrite (H a (or_introl eq_refl)), IH; [reflexivity|].
  intros b Hb. apply H. now right.
Qed.

(** When every [unresolved] list is empty the polygons of the tree are those
    on the [resolved] lists. *)
Lemma all_polys_resolved :
  forall root, all_unresolved_empty root -> all_polys root = all_resolved root.
Proof.
  intros root. pattern root. apply OctreeNode_induction. clear root.
  intros b d cs u r nd IH Hu.
  assert (E : u = []) by exact (Hu [] _ eq_refl). subst u.
  cbn [all_polys all_resolved app]. f_equal.
  apply flat_map_ext_in. intros [ch|] Hin; [|reflexivity].
  rewrite Forall_forall in IH. apply (IH (Some ch) Hin).
  destruct (In_nth_error _ _ Hin) as [k Hk].
  intros q m Hq. apply (Hu (k :: q) m). cbn [o_lookup children]. now rewrite Hk.
Qed.

(** A polygon among the resolved polygons of the tree is on the [resolved]
    list of a node. *)
Lemma all_resolved_in (x : ViewPolygon) :
  forall root,
    In x (all_resolved root) ->
    exists q n, o_lookup root q = Some n /\ In x (resolved n).
Proof.
  intros root. pattern root. apply OctreeNode_induction. clear root.
  intros b d cs u r nd IH Hin.
  cbn [all_resolved] in Hin. apply in_app_or in Hin. destruct Hin as [Hin|Hin].
  - exists [], (ONode b d cs u r nd). split; [reflexivity|exact Hin].
  - apply in_flat_map in Hin. destruct Hin as ([ch|] & Hc & Hx); [|destruct Hx].
    rewrite Forall_forall in IH. destruct (IH (Some ch) Hc Hx) as (q & m & Hq & Hm).
    destruct (In_nth_error _ _ Hc) as [k Hk].
    exists (k :: q), m. split; [|exact Hm]. cbn [o_lookup children]. now rewrite Hk.
Qed.

Lemma compress_inv_start (root : OctreeNode) :
  oct_wf root -> compress_inv root [[]] 0.
Proof.
  intros Hwf. unfold compress_inv. split; [|split; [|split; [|split; [|split]]]].
  - constructor; [intros []|constructor].
  - cbn [List.length]. lia.
  - intros q [<-|[]]. exists root. reflexivity.
  - intros q p [<-|[]] Hp. cbn [skipn] in Hp. destruct Hp as [<-|[]].
    intros (s & Hs & E). cbn [app] in E. congruence.
  - intros q n _. destruct q as [|k q]; [left; now left|].
    right. exists []. split; [now left|].
    exists (k :: q). split; [discriminate|reflexivity].
  - exact Hwf.
Qed.

(** C7.  An octree is built from a list of polygons with computed bounding
    boxes of which no two have overlapping 2D projections.  Then
    [resolve_conflicts], given enough fuel for its loops, ends without an
    error and without a cut: afterwards the [unresolved] list of every node
    is empty, the polygons on the [resolved] lists are exactly the inserted
    polygons, each as it was inserted (vertices, bounds and style are fields
    of the polygon), and so every inserted polygon is on the [resolved]
    list of some node. *)
Theorem resolve_conflicts_no_cuts {MU : MathUtils}
        (xMin xMax yMin yMax zMin zMax : Q) (polys : list ViewPolygon)
        (fuel0 fuel : nat) (octree : Octree) :
  Forall bounds_computed polys ->
  no_two_overlap polys ->
  insert_polygons fuel0 (new_octree xMin xMax yMin yMax zMin zMax) polys
  = Some (Ok octree) ->
  (tree_size (root octree) + List.length polys < fuel)%nat ->
  exists octree',
    resolve_conflicts fuel octree = Some (Ok octree') /\
    all_unresolved_empty (root octree') /\
    Permutation (all_resolved (root octree')) polys /\
    (forall p, In p polys ->
               exists q n, o_lookup (root octree') q = Some n /\ In p (resolved n)).
Proof.
  intros Hb Ho Hins Hfuel.
  destruct (new_octree_node_wf xMin xMax yMin yMax zMin zMax 0) as [Hwf0 Hp0].
  destruct (insert_polygons_perm fuel0 polys _ octree Hins Hwf0) as [Hwf Hperm].
  cbn [root new_octree] in Hperm. rewrite Hp0, app_nil_r in Hperm.
  destruct (compress_loop_ok fuel (root octree) [[]] 0 (compress_inv_start _ Hwf))
    as (root1 & nodes & Hrun & Hinv & Hperm1).
  { change (tree_size (root octree) + 0 < fuel)%nat. lia. }
  assert (Hall1 : Permutation polys (all_polys root1)).
  { symmetry. now rewrite Hperm1. }
  unfold resolve_conflicts, compress_tree. rewrite Hrun. cbn [root compressed].
  set (nodes' := sort_reverse (depth_key root1) nodes).
  assert (Hsorted : Permutation nodes nodes') by apply sort_reverse_perm.
  destruct Hinv as (_ & _ & Hval & _ & HA & _).
  destruct (resolve_nodes_quiet fuel nodes' root1) as (root' & Hres & Hperm' & Hall).
  - intros q Hq. apply Hval. exact (Permutation_in _ (Permutation_sym Hsorted) Hq).
  - exact (Permutation_Forall Hall1 Hb).
  - exact (no_two_overlap_perm _ _ Hall1 Ho).
  - rewrite <- (Permutation_length Hall1). lia.
  - rewrite Hres. exists (mkOctree root' true). split; [reflexivity|].
    cbn [root].
    assert (Hempty : all_unresolved_empty root').
    { intros q n Hq. specialize (Hall q). rewrite Hq in Hall.
      destruct (o_lookup root1 q) as [m|] eqn:Em; [|contradiction].
      apply Hall. left. destruct (HA q m Em) as [Hin|(p0 & Hp0' & _)].
      - exact (Permutation_in _ Hsorted Hin).
      - rewrite skipn_all in Hp0'. destruct Hp0'. }
    assert (Hfinal : Permutation (all_resolved root') polys).
    { rewrite <- (all_polys_resolved root' Hempty). rewrite Hperm'. now symmetry. }
    split; [exact Hempty|]. split; [exact Hfinal|].
    intros p Hp. apply all_resolved_in.
    exact (Permutation_in _ (Permutation_sym Hfinal) Hp).
Qed.

Lemma resolve_conflicts_no_cuts_witness :
  Forall bounds_computed [Examples.square1; Examples.square2; Examples.square3] /\
  no_two_overlap (MU := exact_utils)
    [Examples.square1; Examples.square2; Examples.square3] /\
  exists octree octree',
    insert_polygons 10 (new_octree 0 8 0 8 0 4)
      [Examples.square1; Examples.square2; Examples.square3] = Some (Ok octree) /\
    resolve_conflicts (MU := exact_utils) 40 octree = Some (Ok octree') /\
    all_unresolved_empty (root octree') /\
    Permutation (all_resolved (root octree'))
                [Examples.square1; Examples.square2; Examples.square3].
Proof.
  assert (Hb : Forall bounds_computed
                 [Examples.square1; Examples.square2; Examples.square3]).
  { repeat constructor. }
  assert (Ho : no_two_overlap (MU := exact_utils)
                 [Examples.square1; Examples.square2; Examples.square3]).
  { cbn [no_two_overlap]. repeat (split || constructor). }
  split; [exact Hb|]. split; [exact Ho|].
  destruct (insert_polygons 10 (new_octree 0 8 0 8 0 4)
              [Examples.square1; Examples.square2; Examples.square3])
    as [[octree|e]|] eqn:E; try (vm_compute in E; discriminate).
  exists octree.
  destruct (resolve_conflicts_no_cuts (MU := exact_utils) 0 8 0 8 0 4 _ 10 40 octree
              Hb Ho E) as (octree' & H1 & H2 & H3 & _).
  { vm_compute in E. injection E as <-. vm_compute. lia. }
  exists octree'. auto.
Defined.

(** * Further properties *)

(** ** Bounding boxes *)

Lemma py_min_cases (a b : Q) :
  (py_min a b = a /\ a <= b) \/ (py_min a b = b /\ b <= a).
Proof.
  unfold py_min. destruct (Qltb b a) eqn:E.
  - right. split; [reflexivity|]. apply Qltb_lt in E. now apply Qlt_le_weak.
  - left. split; [reflexivity|]. now apply Qltb_ge in E.
Qed.

Lemma py_max_cases (a b : Q) :
  (py_max a b = a /\ b <= a) \/ (py_max a b = b /\ a <= b).
Proof.
  unfold py_max. destruct (Qltb a b) eqn:E.
  - right. split; [reflexivity|]. apply Qltb_lt in E. now apply Qlt_le_weak.
  - left. split; [reflexivity|]. now apply Qltb_ge in E.
Qed.

(** The running minimum of a coordinate [f] over a list: it is below the
    start value and every element, and it is the start value or the
    coordinate of an element. *)
Lemma fold_min_spec {A : Type} (f : A -> Q) (l : list A) :
  forall m,
    let r := fold_left (fun m v => py_min (f v) m) l m in
    r <= m /\ (forall v, In v l -> r <= f v) /\ (r = m \/ exists v, In v l /\ f v = r).
Proof.
  induction l as [|a l IH]; intros m; cbn [fold_left].
  - split; [apply Qle_refl|]. split; [intros v []|now left].
  - destruct (IH (py_min (f a) m)) as (H1 & H2 & H3).
    destruct (py_min_cases (f a) m) as [[E Hle]|[E Hle]]; rewrite E in *.
    + split; [eapply Qle_trans; eauto|]. split.
      * intros v [<-|Hv]; auto.
      * right. destruct H3 as [H3|(v & Hv & H3)].
        -- exists a. split; [now left|now symmetry].
        -- exists v. split; [now right|assumption].
    + split; [assumption|]. split.
      * intros v [<-|Hv]; [eapply Qle_trans; eauto|auto].
      * destruct H3 as [H3|(v & Hv & H3)]; [now left|].
        right. exists v. split; [now right|assumption].
Qed.

Lemma fold_max_spec {A : Type} (f : A -> Q) (l : list A) :
  forall m,
    let r := fold_left (fun m v => py_max (f v) m) l m in
    m <= r /\ (forall v, In v l -> f v <= r) /\ (r = m \/ exists v, In v l /\ f v = r).
Proof.
  induction l as [|a l IH]; intros m; cbn [fold_left].
  - split; [apply Qle_refl|]. split; [intros v []|now left].
  - destruct (IH (py_max (f a) m)) as (H1 & H2 & H3).
    destruct (py_max_cases (f a) m) as [[E Hle]|[E Hle]]; rewrite E in *.
    + split; [eapply Qle_trans; eauto|]. split.
      * intros v [<-|Hv]; auto.
      * right. destruct H3 as [H3|(v & Hv & H3)].
        -- exists a. split; [now left|now symmetry].
        -- exists v. split; [now right|assumption].
    + split; [assumption|]. split.
      * intros v [<-|Hv]; [eapply Qle_trans; eauto|auto].
      * destruct H3 as [H3|(v & Hv & H3)]; [now left|].
        right. exists v. split; [now right|assumption].
Qed.

Lemma fold_bounds_step_fields (l : list vec) :
  forall b,
    let r := fold_left bounds_step l b in
    b0 r = fold_left (fun m v => py_min (vx v) m) l (b0 b) /\
    b1 r = fold_left (fun m v => py_max (vx v) m) l (b1 b) /\
    b2 r = fold_left (fun m v => py_min (vy v) m) l (b2 b) /\
    b3 r = fold_left (fun m v => py_max (vy v) m) l (b3 b) /\
    b4 r = fold_left (fun m v => py_min (vz v) m) l (b4 b) /\
    b5 r = fold_left (fun m v => py_max (vz v) m) l (b5 b).
Proof.
  induction l as [|a l IH]; intros b; cbn [fold_left].
  - repeat split.
  - apply (IH (bounds_step b a)).
Qed.

Lemma fold_bounds_tight (v0 : vec) (rest : list vec) :
  tight_box (fold_left bounds_step (v0 :: rest)
               (mkBounds (vx v0) (vx v0) (vy v0) (vy v0) (vz v0) (vz v0)))
            (v0 :: rest).
Proof.
  set (l := v0 :: rest).
  set (init := mkBounds (vx v0) (vx v0) (vy v0) (vy v0) (vz v0) (vz v0)).
  destruct (fold_bounds_step_fields l init) as (E0 & E1 & E2 & E3 & E4 & E5).
  destruct (fold_min_spec vx l (b0 init)) as (_ & L0 & A0).
  destruct (fold_max_spec vx l (b1 init)) as (_ & L1 & A1).
  destruct (fold_min_spec vy l (b2 init)) as (_ & L2 & A2).
  destruct (fold_max_spec vy l (b3 init)) as (_ & L3 & A3).
  destruct (fold_min_spec vz l (b4 init)) as (_ & L4 & A4).
  destruct (fold_max_spec vz l (b5 init)) as (_ & L5 & A5).
  rewrite <- E0 in L0, A0. rewrite <- E1 in L1, A1. rewrite <- E2 in L2, A2.
  rewrite <- E3 in L3, A3. rewrite <- E4 in L4, A4. rewrite <- E5 in L5, A5.
  assert (Hin : In v0 l) by now left.
  unfold tight_box. split; [intros v Hv; repeat split; auto|].
  cbn [b0 b1 b2 b3 b4 b5 init] in A0, A1, A2, A3, A4, A5.
  repeat split.
  - destruct A0 as [A|A]; [exists v0; split; [exact Hin|now symmetry]|exact A].
  - destruct A1 as [A|A]; [exists v0; split; [exact Hin|now symmetry]|exact A].
  - destruct A2 as [A|A]; [exists v0; split; [exact Hin|now symmetry]|exact A].
  - destruct A3 as [A|A]; [exists v0; split; [exact Hin|now symmetry]|exact A].
  - destruct A4 as [A|A]; [exists v0; split; [exact Hin|now symmetry]|exact A].
  - destruct A5 as [A|A]; [exists v0; split; [exact Hin|now symmetry]|exact A].
Qed.

(** X1.  [recalculate_bounds] raises [IndexError] on a polygon without
    vertices; otherwise it stores the tight axis-parallel box around the
    vertices and leaves every other attribute as it was.  The constructor
    with [set_bounds=True] computes the same box. *)
Theorem recalculate_bounds_tight (p : ViewPolygon) :
  (verts p = [] -> recalculate_bounds p = Raise IndexError) /\
  (verts p <> [] ->
   exists b, recalculate_bounds p = Ok (set_bounds p b) /\ tight_box b (verts p)) /\
  (forall d c o n b,
      bounds (view_polygon (verts p) d c o n) = Some b -> tight_box b (verts p)).
Proof.
  unfold recalculate_bounds. destruct (verts p) as [|v0 rest] eqn:E.
  - split; [reflexivity|]. split; [congruence|]. intros d c o n b H. discriminate.
  - split; [discriminate|]. split.
    + intros _. eexists. split; [reflexivity|]. apply fold_bounds_tight.
    + intros d c o n b H. cbn [view_polygon bounds] in H. inversion H; subst b.
      apply fold_bounds_tight.
Qed.

Lemma recalculate_bounds_tight_witness :
  exists b, recalculate_bounds Examples.ramp = Ok (set_bounds Examples.ramp b) /\
            tight_box b (verts Examples.ramp).
Proof.
  apply (recalculate_bounds_tight Examples.ramp). discriminate.
Defined.

(** ** The depth of the octree *)

Lemma fold_z_max_spec (vs : list vec) :
  forall z,
    let r := fold_left (fun z_max vert => if Qltb z_max (vz vert) then vz vert else z_max)
                       vs z in
    z <= r /\ forall v, In v vs -> vz v <= r.
Proof.
  induction vs as [|a vs IH]; intros z; cbn [fold_left].
  - split; [apply Qle_refl|intros v []].
  - destruct (IH (if Qltb z (vz a) then vz a else z)) as [H1 H2].
    destruct (Qltb z (vz a)) eqn:E.
    + apply Qltb_lt in E. split; [lra|]. intros v [<-|Hv]; auto.
    + apply Qltb_ge in E. split; [exact H1|]. intros v [<-|Hv]; [lra|auto].
Qed.

(** X2.  [get_z_max_bound] is at least 1 and no vertex of a polygon of the
    list lies deeper: a box from depth 0 to this bound holds every vertex
    that is not in front of depth 0. *)
Theorem get_z_max_bound_above (view_polygons : list ViewPolygon) :
  1 <= get_z_max_bound view_polygons /\
  forall polygon vert,
    In polygon view_polygons -> In vert (verts polygon) ->
    vz vert <= get_z_max_bound view_polygons.
Proof.
  unfold get_z_max_bound.
  assert (H : forall l z,
             let r := fold_left
                        (fun z_max polygon =>
                           fold_left (fun z_max vert =>
                                        if Qltb z_max (vz vert) then vz vert else z_max)
                                     (verts polygon) z_max) l z in
             z <= r /\ forall polygon vert, In polygon l -> In vert (verts polygon) ->
                                            vz vert <= r).
  { induction l as [|p l IH]; intros z; cbn [fold_left].
    - split; [apply Qle_refl|intros ? ? []].
    - destruct (fold_z_max_spec (verts p) z) as [H1 H2].
      match goal with |- context [fold_left _ l ?z'] => destruct (IH z') as [H3 H4] end.
      split; [lra|]. intros polygon vert [<-|Hp] Hv.
      + specialize (H2 vert Hv). lra.
      + eauto. }
  destruct (H view_polygons 0) as [H1 H2]. split; [lra|].
  intros polygon vert Hp Hv. specialize (H2 polygon vert Hp Hv). lra.
Qed.

(** ** Clipping to the viewport *)

Lemma list_index_in_range {A : Type} (l : list A) (k : Z) :
  (0 <= k < Z.of_nat (List.length l))%Z ->
  exists a, list_index l k = Ok a /\ In a l.
Proof.
  intros Hk. unfold list_index.
  replace (k <? 0)%Z with false by (symmetry; apply Z.ltb_ge; lia).
  replace (k <? 0)%Z with false by (symmetry; apply Z.ltb_ge; lia).
  destruct (nth_error l (Z.to_nat k)) as [a|] eqn:E.
  - exists a. split; [reflexivity|]. eapply nth_error_In; eauto.
  - apply nth_error_None in E. lia.
Qed.

Lemma py_div_ok (a b : Q) : ~ b == 0 -> py_div a b = Ok (a / b).
Proof.
  intros H. unfold py_div. destruct (Qeq_bool b 0) eqn:E; [|reflexivity].
  apply Qeq_bool_iff in E. contradiction.
Qed.

Section ClipLoop.
Variable inside : Q -> bool.
Variable coord : vec -> Q.
Variable intersect : vec -> vec -> result vec.

(** [P] holds of the vertices before the loop. *)
Variable P : vec -> Prop.

Hypothesis intersect_inside :
  forall v0 v1,
    P v0 -> P v1 -> inside (coord v0) <> inside (coord v1) ->
    exists cut, intersect v0 v1 = Ok cut /\ P cut /\ inside (coord cut) = true.

(** The loop ends without an error, and every vertex it appends satisfies
    [P] and the comparison of the loop. *)
Lemma clip_loop_inside (verts_2d : list vec) :
  Forall P verts_2d ->
  forall todo index clipped,
    (index + List.length todo = List.length verts_2d)%nat ->
    Forall P todo ->
    Forall (fun v => P v /\ inside (coord v) = true) clipped ->
    exists out,
      clip_loop inside coord intersect verts_2d index todo clipped = Ok out /\
      Forall (fun v => P v /\ inside (coord v) = true) out.
Proof.
  intros HP. induction todo as [|vert rest IH]; intros index clipped Hlen Htodo Hc.
  - exists clipped. split; [reflexivity|exact Hc].
  - cbn [clip_loop]. cbn [List.length] in Hlen.
    destruct (list_index_in_range verts_2d
                ((Z.of_nat index + 1) mod Z.of_nat (List.length verts_2d)))
      as (next_vert & -> & Hin).
    { apply Z.mod_pos_bound. lia. }
    cbn [bind]. inversion Htodo as [|? ? HPv HPrest]; subst.
    assert (HPn : P next_vert) by (rewrite Forall_forall in HP; auto).
    destruct (inside (coord vert)) eqn:E0; destruct (inside (coord next_vert)) eqn:E1;
      cbn [andb negb].
    + apply IH; [lia|assumption|]. apply Forall_app. split; [exact Hc|].
      repeat constructor; assumption.
    + destruct (intersect_inside vert next_vert HPv HPn) as (cut & -> & HPc & Hic);
        [congruence|].
      cbn [bind]. apply IH; [lia|assumption|]. apply Forall_app. split; [exact Hc|].
      repeat constructor; assumption.
    + destruct (intersect_inside vert next_vert HPv HPn) as (cut & -> & HPc & Hic);
        [congruence|].
      cbn [bind]. apply IH; [lia|assumption|]. apply Forall_app. split; [exact Hc|].
      repeat constructor; assumption.
    + apply IH; [lia|assumption|exact Hc].
Qed.

Lemma clip_pass_inside (verts_2d : list vec) :
  Forall P verts_2d ->
  exists out,
    clip_pass inside coord intersect verts_2d = Ok out /\
    Forall (fun v => P v /\ inside (coord v) = true) out.
Proof.
  intros HP. unfold clip_pass. apply clip_loop_inside; auto.
Qed.

End ClipLoop.

Lemma sides_of_min (m c0 c1 : Q) :
  Qle_bool m c0 <> Qle_bool m c1 ->
  ((c0 <= m /\ m <= c1) \/ (c1 <= m /\ m <= c0)) /\ ~ c1 - c0 == 0.
Proof.
  intros H. destruct (Qle_bool m c0) eqn:E0; destruct (Qle_bool m c1) eqn:E1;
    try congruence.
  - apply Qle_bool_iff in E0. assert (H1 : c1 < m) by (apply Qltb_lt; unfold Qltb; now rewrite E1).
    split; [right; split; lra|lra].
  - apply Qle_bool_iff in E1. assert (H0 : c0 < m) by (apply Qltb_lt; unfold Qltb; now rewrite E0).
    split; [left; split; lra|lra].
Qed.

Lemma sides_of_max (m c0 c1 : Q) :
  Qle_bool c0 m <> Qle_bool c1 m ->
  ((c0 <= m /\ m <= c1) \/ (c1 <= m /\ m <= c0)) /\ ~ c1 - c0 == 0 /\
  (c0 <= m \/ c1 <= m).
Proof.
  intros H. destruct (Qle_bool c0 m) eqn:E0; destruct (Qle_bool c1 m) eqn:E1;
    try congruence.
  - apply Qle_bool_iff in E0. assert (H1 : m < c1) by (apply Qltb_lt; unfold Qltb; now rewrite E1).
    split; [left; split; lra|]. split; [lra|now left].
  - apply Qle_bool_iff in E1. assert (H0 : m < c0) by (apply Qltb_lt; unfold Qltb; now rewrite E0).
    split; [right; split; lra|]. split; [lra|now right].
Qed.

Lemma Qle_bool_refl (x : Q) : Qle_bool x x = true.
Proof. apply Qle_bool_iff. apply Qle_refl. Qed.

(** The four clipping loops of [clip_to_boundary] end without an error: an
    edge is intersected with a boundary line only when its end points lie
    on different sides of the line, so the divisor is not zero. *)
Lemma clip_to_boundary_returns (min_x min_y max_x max_y : Q) (verts_2d : list vec) :
  exists r,
    clip_to_boundary min_x min_y max_x max_y verts_2d = Ok r /\
    match r with
    | Some clipped => (3 <= List.length clipped)%nat
    | None => True
    end.
Proof.
  unfold clip_to_boundary.
  assert (Hall : forall l : list vec, Forall (fun _ => True) l).
  { intros l. rewrite Forall_forall. auto. }
  assert (Hx : forall m v0 v1, ~ vx v1 - vx v0 == 0 ->
                               exists cut, intersect_on_x m v0 v1 = Ok cut /\ vx cut = m).
  { intros m v0 v1 Hd. unfold intersect_on_x. rewrite !py_div_ok by exact Hd.
    cbn [bind]. eexists. split; reflexivity. }
  assert (Hy : forall m v0 v1, ~ vy v1 - vy v0 == 0 ->
                               exists cut, intersect_on_y m v0 v1 = Ok cut /\ vy cut = m).
  { intros m v0 v1 Hd. unfold intersect_on_y. rewrite !py_div_ok by exact Hd.
    cbn [bind]. eexists. split; reflexivity. }
  (* clips using min_x *)
  destruct (clip_pass_inside (fun c => Qle_bool min_x c) vx (intersect_on_x min_x)
              (fun _ => True)) with (verts_2d := verts_2d) as (l1 & -> & _);
    [|apply Hall|].
  { intros v0 v1 _ _ Hne. destruct (sides_of_min _ _ _ Hne) as [_ Hd].
    destruct (Hx min_x v0 v1 Hd) as (cut & Hc & E). exists cut.
    split; [exact Hc|]. split; [exact I|]. rewrite E. apply Qle_bool_refl. }
  cbn [bind].
  (* clips using min_y *)
  destruct (clip_pass_inside (fun c => Qle_bool min_y c) vy (intersect_on_y min_y)
              (fun _ => True)) with (verts_2d := l1) as (l2 & -> & _);
    [|apply Hall|].
  { intros v0 v1 _ _ Hne. destruct (sides_of_min _ _ _ Hne) as [_ Hd].
    destruct (Hy min_y v0 v1 Hd) as (cut & Hc & E). exists cut.
    split; [exact Hc|]. split; [exact I|]. rewrite E. apply Qle_bool_refl. }
  cbn [bind].
  (* clips using max_x *)
  destruct (clip_pass_inside (fun c => Qle_bool c max_x) vx (intersect_on_x max_x)
              (fun _ => True)) with (verts_2d := l2) as (l3 & -> & _);
    [|apply Hall|].
  { intros v0 v1 _ _ Hne. destruct (sides_of_max _ _ _ Hne) as (_ & Hd & _).
    destruct (Hx max_x v0 v1 Hd) as (cut & Hc & E). exists cut.
    split; [exact Hc|]. split; [exact I|]. rewrite E. apply Qle_bool_refl. }
  cbn [bind].
  (* clips using max_y *)
  destruct (clip_pass_inside (fun c => Qle_bool c max_y) vy (intersect_on_y max_y)
              (fun _ => True)) with (verts_2d := l3) as (l4 & -> & _);
    [|apply Hall|].
  { intros v0 v1 _ _ Hne. destruct (sides_of_max _ _ _ Hne) as (_ & Hd & _).
    destruct (Hy max_y v0 v1 Hd) as (cut & Hc & E). exists cut.
    split; [exact Hc|]. split; [exact I|]. rewrite E. apply Qle_bool_refl. }
  cbn [bind].
  destruct (List.length l4 <? 3)%nat eqn:Elen.
  - exists None. split; [reflexivity|exact I].
  - exists (Some l4). split; [reflexivity|]. now apply Nat.ltb_ge in Elen.
Qed.

(** X3.  [clip_to_boundary] never raises an error, whatever the vertices and
    the boundary: no division by zero in [intersect_on_x] or
    [intersect_on_y] and no index out of range.  It returns [None] or a
    polygon of at least three vertices; a list without vertices gives
    [None]. *)
Theorem clip_to_boundary_no_error (min_x min_y max_x max_y : Q) (verts_2d : list vec) :
  (exists r,
      clip_to_boundary min_x min_y max_x max_y verts_2d = Ok r /\
      match r with
      | Some clipped => (3 <= List.length clipped)%nat
      | None => True
      end) /\
  clip_to_boundary min_x min_y max_x max_y [] = Ok None.
Proof.
  split; [|reflexivity].
  destruct (clip_to_boundary_returns min_x min_y max_x max_y verts_2d) as (r & Hr & H).
  exists r. split; [exact Hr|]. destruct r as [clipped|]; [|exact I]. exact H.
Qed.

Lemma all_visible_forallb (res_x res_y : Q) (verts_2d : list vec) :
  forall acc,
    fold_left (fun all_visible vert =>
                 if negb (is_inside 0 0 res_x res_y (vx vert) (vy vert))
                 then false else all_visible)
              verts_2d acc
    = acc && forallb (fun vert => is_inside 0 0 res_x res_y (vx vert) (vy vert)) verts_2d.
Proof.
  induction verts_2d as [|v l IH]; intros acc; cbn [fold_left forallb].
  - now rewrite andb_true_r.
  - rewrite IH. destruct (is_inside 0 0 res_x res_y (vx v) (vy v)); cbn [negb andb].
    + reflexivity.
    + now rewrite andb_false_r.
Qed.

(** X4.  [clip_2d_polygon] never raises an error.  A list of vertices
    that all lie inside the viewport is returned as it is, whatever its
    length; any other list is clipped, and the result is [None] or a
    polygon of at least three vertices. *)
Theorem clip_2d_polygon_visible (res_x res_y : Q) (verts_2d : list vec) :
  exists r,
    clip_2d_polygon res_x res_y verts_2d = Ok r /\
    (Forall (fun v => is_inside 0 0 res_x res_y (vx v) (vy v) = true) verts_2d ->
     r = Some verts_2d) /\
    (~ Forall (fun v => is_inside 0 0 res_x res_y (vx v) (vy v) = true) verts_2d ->
     clip_to_boundary 0 0 res_x res_y verts_2d = Ok r /\
     match r with Some clipped => (3 <= List.length clipped)%nat | None => True end).
Proof.
  unfold clip_2d_polygon. rewrite all_visible_forallb. cbn [andb].
  destruct (forallb _ verts_2d) eqn:E.
  - rewrite forallb_forall in E. exists (Some verts_2d). split; [reflexivity|].
    split; [reflexivity|].
    intros H. exfalso. apply H. now apply Forall_forall.
  - destruct (clip_to_boundary_returns 0 0 res_x res_y verts_2d) as (r & Hr & Hlen).
    exists r. split; [exact Hr|]. split.
    + intros H. rewrite Forall_forall in H. apply forallb_forall in H. congruence.
    + intros _. split; [exact Hr|exact Hlen].
Qed.

(** ** Position tests *)

Section PositionFacts.
Context {MU : MathUtils}.

Lemma relative_pos_bool_relative_pos (plane p : ViewPolygon) :
  relative_pos_bool plane p =
  match relative_pos plane p with
  | Ok k => if (k =? 1)%Z then Ok true
            else if (k =? -1)%Z then Ok false
            else Raise TypeError
  | Raise e => Raise e
  end.
Proof.
  unfold relative_pos_bool, relative_pos.
  destruct (relative_pos_scan plane (verts p) true true) as [[f b]|e]; [|reflexivity].
  cbn [bind]. destruct f; [reflexivity|]. destruct b; reflexivity.
Qed.

(** X5.  For polygons with vertices, [p_behind_q] raises [TypeError] exactly
    when each of the two polygons is in collision (0) with the plane of the
    other, and it raises nothing else; it answers [True] exactly when [p] is
    behind the plane of [q], or [p] is in collision with the plane of [q]
    and [q] is in front of the plane of [p]. *)
Theorem p_behind_q_cases (p q : ViewPolygon) :
  verts p <> [] -> verts q <> [] ->
  exists kp kq,
    relative_pos q p = Ok kp /\ relative_pos p q = Ok kq /\
    (p_behind_q p q = Raise TypeError <-> kp = 0%Z /\ kq = 0%Z) /\
    (p_behind_q p q = Ok true <-> kp = (-1)%Z \/ (kp = 0%Z /\ kq = 1%Z)) /\
    (p_behind_q p q = Ok false <-> kp = 1%Z \/ (kp = 0%Z /\ kq = (-1)%Z)).
Proof.
  intros Hp Hq.
  destruct (relative_pos_total q p Hq) as (kp & Ekp & Hkp).
  destruct (relative_pos_total p q Hp) as (kq & Ekq & Hkq).
  exists kp, kq. split; [exact Ekp|]. split; [exact Ekq|].
  unfold p_behind_q. rewrite !relative_pos_bool_relative_pos, Ekp, Ekq.
  destruct Hkp as [-> | [-> | ->]]; destruct Hkq as [-> | [-> | ->]]; cbn;
    intuition (try discriminate; try congruence).
Qed.

(** X6.  Whenever [in_conflict] answers [True] for a pair of polygons,
    [p_obscures_q] answers [True] for the same pair: a conflict found by the
    octree is an obscuring pair for Newell's algorithm. *)
Theorem in_conflict_obscures (p q : ViewPolygon) :
  in_conflict p q = Ok true -> p_obscures_q p q = Ok true.
Proof.
  unfold in_conflict, p_obscures_q.
  destruct (get_bounds p) as [bp|e]; [|discriminate].
  destruct (get_bounds q) as [bq|e]; [|discriminate]. cbn [bind].
  destruct (_ || _); [discriminate|].
  destruct (_ || _); [discriminate|].
  destruct (_ || _); [discriminate|].
  destruct (relative_pos q p) as [kp|e]; [|discriminate]. cbn [bind].
  destruct (kp =? 0)%Z eqn:Ekp; cbn [negb]; [|discriminate].
  apply Z.eqb_eq in Ekp. subst kp.
  destruct (relative_pos p q) as [kq|e]; [|discriminate]. cbn [bind].
  destruct (kq =? 0)%Z eqn:Ekq; cbn [negb]; [|discriminate].
  apply Z.eqb_eq in Ekq. subst kq.
  cbn [Z.eqb]. destruct (negb _); [discriminate|reflexivity].
Qed.

Lemma axis_apart_sym (p_min p_max q_min q_max : Q) :
  p_min <= p_max -> q_min <= q_max ->
  axis_apart p_min p_max q_min q_max = axis_apart q_min q_max p_min p_max.
Proof.
  intros Hp Hq.
  destruct (axis_apart p_min p_max q_min q_max) eqn:E1;
    destruct (axis_apart q_min q_max p_min p_max) eqn:E2; try reflexivity.
  - apply (axis_apart_false _ _ _ _ Hq Hp) in E2.
    assert (E : axis_apart p_min p_max q_min q_max = false)
      by (apply (axis_apart_false _ _ _ _ Hp Hq); tauto).
    congruence.
  - apply (axis_apart_false _ _ _ _ Hp Hq) in E1.
    assert (E : axis_apart q_min q_max p_min p_max = false)
      by (apply (axis_apart_false _ _ _ _ Hq Hp); tauto).
    congruence.
Qed.

(** X7.  On polygons with computed bounding boxes, and an overlap test of
    the geometry library that does not depend on the order of its two
    polygons, [in_conflict] does not depend on the order of its arguments
    either. *)
Theorem in_conflict_symmetric (p q : ViewPolygon) :
  bounds_computed p -> bounds_computed q ->
  overlaps (proj_verts p) (proj_verts q) = overlaps (proj_verts q) (proj_verts p) ->
  in_conflict p q = in_conflict q p.
Proof.
  intros Hp Hq Hov.
  assert (Hvp : verts p <> []).
  { unfold bounds_computed in Hp. destruct (verts p); [contradiction|discriminate]. }
  assert (Hvq : verts q <> []).
  { unfold bounds_computed in Hq. destruct (verts q); [contradiction|discriminate]. }
  destruct (bounds p) as [bp|] eqn:Ebp.
  2:{ unfold bounds_computed in Hp. rewrite Ebp in Hp.
      destruct (verts p); [contradiction|discriminate]. }
  destruct (bounds q) as [bq|] eqn:Ebq.
  2:{ unfold bounds_computed in Hq. rewrite Ebq in Hq.
      destruct (verts q); [contradiction|discriminate]. }
  destruct (bounds_computed_ordered p bp Hp Ebp) as (Hpx & Hpy & Hpz).
  destruct (bounds_computed_ordered q bq Hq Ebq) as (Hqx & Hqy & Hqz).
  unfold in_conflict, get_bounds. rewrite Ebp, Ebq. cbn [bind].
  fold (axis_apart (b4 bp) (b5 bp) (b4 bq) (b5 bq)).
  fold (axis_apart (b2 bp) (b3 bp) (b2 bq) (b3 bq)).
  fold (axis_apart (b0 bp) (b1 bp) (b0 bq) (b1 bq)).
  fold (axis_apart (b4 bq) (b5 bq) (b4 bp) (b5 bp)).
  fold (axis_apart (b2 bq) (b3 bq) (b2 bp) (b3 bp)).
  fold (axis_apart (b0 bq) (b1 bq) (b0 bp) (b1 bp)).
  rewrite (axis_apart_sym (b4 bp) (b5 bp) (b4 bq) (b5 bq) Hpz Hqz).
  rewrite (axis_apart_sym (b2 bp) (b3 bp) (b2 bq) (b3 bq) Hpy Hqy).
  rewrite (axis_apart_sym (b0 bp) (b1 bp) (b0 bq) (b1 bq) Hpx Hqx).
  destruct (axis_apart (b4 bq) (b5 bq) (b4 bp) (b5 bp)); [reflexivity|].
  destruct (axis_apart (b2 bq) (b3 bq) (b2 bp) (b3 bp)); [reflexivity|].
  destruct (axis_apart (b0 bq) (b1 bq) (b0 bp) (b1 bp)); [reflexivity|].
  destruct (relative_pos_total q p Hvq) as (kp & -> & _).
  destruct (relative_pos_total p q Hvp) as (kq & -> & _). cbn [bind].
  rewrite Hov.
  destruct (kp =? 0)%Z, (kq =? 0)%Z; cbn [negb]; reflexivity.
Qed.

End PositionFacts.

Lemma p_behind_q_cases_witness :
  exists kp kq,
    relative_pos (MU := exact_utils) Examples.ramp Examples.table = Ok kp /\
    relative_pos (MU := exact_utils) Examples.table Examples.ramp = Ok kq /\
    (p_behind_q (MU := exact_utils) Examples.table Examples.ramp = Raise TypeError
     <-> kp = 0%Z /\ kq = 0%Z).
Proof.
  destruct (p_behind_q_cases (MU := exact_utils) Examples.table Examples.ramp)
    as (kp & kq & H1 & H2 & H3 & _); [discriminate|discriminate|].
  exists kp, kq. auto.
Defined.

Lemma in_conflict_obscures_witness :
  p_obscures_q (MU := exact_utils) Examples.table Examples.ramp = Ok true.
Proof.
  apply (in_conflict_obscures (MU := exact_utils)). vm_compute. reflexivity.
Defined.

Lemma in_conflict_symmetric_witness :
  in_conflict (MU := exact_utils) Examples.table Examples.ramp =
  in_conflict (MU := exact_utils) Examples.ramp Examples.table.
Proof.
  apply (in_conflict_symmetric (MU := exact_utils)).
  - repeat constructor.
  - repeat constructor.
  - vm_compute. reflexivity.
Defined.

(** ** Normals *)

Lemma dot_vneg (a n : vec) : dot a (vneg n) == - dot a n.
Proof. unfold dot, vneg. cbn [vx vy vz fst snd]. ring. Qed.

Lemma map_result_Forall2 {A B : Type} (f : A -> result B) (l : list A) :
  forall l', map_result f l = Ok l' -> Forall2 (fun a b => f a = Ok b) l l'.
Proof.
  induction l as [|a l IH]; intros l' H; cbn [map_result] in H.
  - inversion H. constructor.
  - destruct (f a) as [b|e] eqn:Ea; [|discriminate]. cbn [bind] in H.
    destruct (map_result f l) as [bs|e] eqn:El; [|discriminate]. cbn [bind] in H.
    inversion H; subst l'. constructor; auto.
Qed.

Lemma map_result_defined {A B : Type} (f : A -> result B) (l : list A) :
  Forall (fun a => exists b, f a = Ok b) l -> exists l', map_result f l = Ok l'.
Proof.
  induction 1 as [|a l [b Hb] _ [bs IH]]; cbn [map_result].
  - eexists. reflexivity.
  - rewrite Hb, IH. cbn [bind]. eexists. reflexivity.
Qed.

Lemma correct_normal_spec (viewpoint_pos : vec) (p p' : ViewPolygon) :
  correct_normal viewpoint_pos p = Ok p' ->
  exists v0 rest,
    verts p = v0 :: rest /\
    p' = set_normal p (normal p') /\
    (normal p' = normal p \/ normal p' = vneg (normal p)) /\
    dot (vsub viewpoint_pos v0) (normal p') <= 0 /\
    correct_normal viewpoint_pos p' = Ok p'.
Proof.
  intros H. assert (H' := H). unfold correct_normal in H.
  destruct (verts p) as [|v0 rest] eqn:Ev; [discriminate|].
  change (list_index (v0 :: rest) 0) with (Ok (A := vec) v0) in H. cbn [bind] in H.
  exists v0, rest. split; [reflexivity|].
  destruct (Qltb 0 (dot (vsub viewpoint_pos v0) (normal p))) eqn:E;
    inversion H; subst p'; clear H.
  - apply Qltb_lt in E. pose proof (dot_vneg (vsub viewpoint_pos v0) (normal p)) as Hd.
    cbn [set_normal normal verts]. split; [reflexivity|].
    split; [now right|]. split; [lra|].
    unfold correct_normal. cbn [set_normal normal verts]. rewrite Ev.
    change (list_index (v0 :: rest) 0) with (Ok (A := vec) v0). cbn [bind].
    replace (Qltb 0 (dot (vsub viewpoint_pos v0) (vneg (normal p)))) with false;
      [reflexivity|].
    symmetry. apply Qltb_ge. lra.
  - split; [now destruct p|]. split; [now left|].
    split; [now apply Qltb_ge in E|exact H'].
Qed.

(** X8.  [correct_normals] succeeds on a list of polygons that all have
    vertices.  It changes nothing but normals, and a normal only by
    negating it; afterwards no normal points to the side of the viewpoint
    (the dot product of the direction from the first vertex to the viewpoint
    with the normal is at most 0), and a second run changes nothing. *)
Theorem correct_normals_spec (view_polygons : list ViewPolygon) (viewpoint_pos : vec) :
  Forall has_verts view_polygons ->
  exists corrected,
    correct_normals view_polygons viewpoint_pos = Ok corrected /\
    Forall2 (fun p p' =>
               p' = set_normal p (normal p') /\
               (normal p' = normal p \/ normal p' = vneg (normal p)) /\
               forall v0 rest, verts p' = v0 :: rest ->
                               dot (vsub viewpoint_pos v0) (normal p') <= 0)
            view_polygons corrected /\
    correct_normals corrected viewpoint_pos = Ok corrected.
Proof.
  intros Hv. unfold correct_normals.
  destruct (map_result_defined (correct_normal viewpoint_pos) view_polygons)
    as [corrected Hc].
  { eapply Forall_impl; [|exact Hv]. intros p Hp. unfold has_verts in Hp.
    unfold correct_normal. destruct (verts p) as [|v0 rest]; [contradiction|].
    change (list_index (v0 :: rest) 0) with (Ok (A := vec) v0). cbn [bind].
    destruct (Qltb _ _); eexists; reflexivity. }
  exists corrected. split; [exact Hc|].
  apply map_result_Forall2 in Hc. clear Hv.
  induction Hc as [|p p' l l' Hp _ [IH1 IH2]].
  - split; [constructor|reflexivity].
  - destruct (correct_normal_spec _ _ _ Hp) as (v0 & rest & Ev & Eset & Hn & Hd & Hagain).
    split.
    + constructor; [|exact IH1]. split; [exact Eset|]. split; [exact Hn|].
      intros v0' rest' Ev'. rewrite Eset in Ev'. cbn [set_normal verts] in Ev'.
      rewrite Ev in Ev'. inversion Ev'; subst. exact Hd.
    + cbn [map_result]. rewrite Hagain, IH2. reflexivity.
Qed.

Lemma correct_normals_spec_witness :
  exists corrected,
    correct_normals [Examples.ground; Examples.wall] (0, 0, 5) = Ok corrected /\
    correct_normals corrected (0, 0, 5) = Ok corrected.
Proof.
  destruct (correct_normals_spec [Examples.ground; Examples.wall] (0, 0, 5))
    as (corrected & H1 & _ & H2).
  - repeat constructor; discriminate.
  - exists corrected. split; assumption.
Defined.

(** ** Octree: polygons are stored in a box that contains them *)

Lemma sub_inside_unfold (b : Bounds) (d : Z) (cs : list (option OctreeNode))
      (u r : list ViewPolygon) (nd : bool) :
  sub_inside (ONode b d cs u r nd) <-> children_inside cs.
Proof.
  simpl. unfold children_inside.
  induction cs as [|c cs IH]; [split; auto|].
  destruct c as [ch|]; rewrite IH; split.
  - intros [H1 H2]. now constructor.
  - intros H. inversion H. auto.
  - intros H. now constructor.
  - intros H. now inversion H.
Qed.

Lemma contains_polygon_bounds (n n' : OctreeNode) (x : ViewPolygon) :
  node_bounds n' = node_bounds n -> contains_polygon n' x = contains_polygon n x.
Proof. intros H. unfold contains_polygon. now rewrite H. Qed.

Lemma contains_polygon_within (n : OctreeNode) (x : ViewPolygon) :
  contains_polygon n x = Ok true <->
  exists bx, bounds x = Some bx /\ box_within bx (node_bounds n).
Proof.
  unfold contains_polygon, get_bounds, box_within.
  destruct (bounds x) as [bx|]; cbn [bind].
  - set (sb := node_bounds n). split.
    + intros H. exists bx. split; [reflexivity|].
      destruct (_ || _) eqn:E in H; [discriminate|].
      repeat (apply orb_false_iff in E; destruct E as [E ?]).
      repeat match goal with
             | H : Qltb _ _ = false |- _ => apply Qltb_ge in H
             end.
      tauto.
    + intros (bx' & Hb & H0 & H1 & H2 & H3 & H4 & H5). inversion Hb; subst bx'.
      apply Qltb_ge in H0, H1, H2, H3, H4, H5.
      now rewrite H0, H1, H2, H3, H4, H5.
  - split; [discriminate|]. intros (bx & H & _). discriminate.
Qed.

Lemma stored_inside_append (x : ViewPolygon) (n : OctreeNode) :
  contains_polygon n x = Ok true -> stored_inside n ->
  stored_inside (append_unresolved x n).
Proof.
  intros Hx Hn. destruct n as [b d cs u r nd].
  unfold stored_inside, append_unresolved, set_unresolved in *.
  cbn [node_bounds node_depth children unresolved resolved nondivided] in *.
  apply Forall_app. split; [exact Hn|]. constructor; [exact Hx|constructor].
Qed.

Lemma sub_inside_append (x : ViewPolygon) (n : OctreeNode) :
  sub_inside n -> sub_inside (append_unresolved x n).
Proof.
  destruct n as [b d cs u r nd]. unfold append_unresolved, set_unresolved.
  cbn [node_bounds node_depth children unresolved resolved nondivided].
  now rewrite !sub_inside_unfold.
Qed.

Lemma first_containing_contains (cs : list (option OctreeNode)) (vp : ViewPolygon) :
  forall k0 k, first_containing cs vp k0 = Ok (Some k) ->
               exists child, nth_error cs (k - k0) = Some (Some child) /\
                             contains_polygon child vp = Ok true.
Proof.
  induction cs as [|c cs IH]; intros k0 k H; [discriminate|].
  cbn [first_containing] in H. destruct c as [child|]; [|discriminate].
  destruct (contains_polygon child vp) as [[|]|e] eqn:Ec; cbn [bind] in H;
    try discriminate.
  - inversion H; subst. exists child. rewrite Nat.sub_diag. auto.
  - destruct (first_containing_some cs vp (S k0) k H) as (_ & Hle & _).
    destruct (IH (S k0) k H) as (ch & Hn & Hc). exists ch. split; [|exact Hc].
    replace (k - k0)%nat with (S (k - S k0)) by lia. exact Hn.
Qed.

Lemma children_inside_update (cs : list (option OctreeNode)) (k : nat)
      (c c' : OctreeNode) (f : option OctreeNode -> option OctreeNode) :
  children_inside cs -> nth_error cs k = Some (Some c) -> f (Some c) = Some c' ->
  stored_inside c' -> sub_inside c' ->
  children_inside (update_nth cs k f).
Proof.
  intros Hcs Hk Hf H1 H2. rewrite (update_nth_at cs k (Some c) f Hk), Hf.
  unfold children_inside in *.
  rewrite (nth_error_split_at cs k (Some c) Hk) in Hcs.
  apply Forall_app in Hcs. destruct Hcs as [Ha Hb]. inversion Hb; subst.
  apply Forall_app. split; [exact Ha|]. constructor; [split; assumption|assumption].
Qed.

Lemma children_inside_nth (cs : list (option OctreeNode)) (k : nat) (c : OctreeNode) :
  children_inside cs -> nth_error cs k = Some (Some c) -> stored_inside c /\ sub_inside c.
Proof.
  intros Hcs Hk. unfold children_inside in Hcs. rewrite Forall_forall in Hcs.
  apply (Hcs (Some c)). eapply nth_error_In; eauto.
Qed.

Lemma subdivide_move_inside (n : nat) :
  forall i unres cs unres' cs',
    subdivide_move n i unres cs = Ok (unres', cs') ->
    children_inside cs ->
    children_inside cs' /\ incl unres' unres.
Proof.
  induction n as [|n IH]; intros i unres cs unres' cs' H Hcs.
  - inversion H; subst. split; [assumption|apply incl_refl].
  - cbn [subdivide_move] in H.
    destruct (nth_error unres i) as [polygon|] eqn:Ei;
      [|inversion H; subst; split; [assumption|apply incl_refl]].
    destruct (first_containing cs polygon 0) as [[k|]|e] eqn:Ef; cbn [bind] in H;
      [| now apply IH in H | discriminate].
    destruct (first_containing_contains cs polygon 0 k Ef) as (child & Hk & Hc).
    rewrite Nat.sub_0_r in Hk.
    destruct (children_inside_nth cs k child Hcs Hk) as [Hs Hsub].
    apply IH in H.
    + destruct H as [Hcs' Hincl]. split; [exact Hcs'|].
      intros x Hx. apply Hincl in Hx. unfold delete_at in Hx.
      rewrite <- (firstn_skipn i unres). apply in_app_or in Hx. apply in_or_app.
      destruct Hx as [Hx|Hx]; [now left|right].
      change (skipn (S i) unres) with (skipn (1 + i) unres) in Hx.
      rewrite <- skipn_skipn in Hx. eapply in_skipn; eauto.
    + apply (children_inside_update cs k child (append_unresolved polygon child));
        auto.
      * now apply stored_inside_append.
      * now apply sub_inside_append.
Qed.

Lemma new_octree_node_inside (x0 x1 y0 y1 z0 z1 : Q) (d : Z) :
  stored_inside (new_octree_node x0 x1 y0 y1 z0 z1 d) /\
  sub_inside (new_octree_node x0 x1 y0 y1 z0 z1 d).
Proof.
  split; [constructor|]. unfold new_octree_node. apply sub_inside_unfold.
  repeat constructor.
Qed.

Lemma subdivide_inside (self self' : OctreeNode) :
  subdivide self = Ok self' ->
  node_bounds self' = node_bounds self /\ sub_inside self' /\
  incl (unresolved self') (unresolved self).
Proof.
  intros H. unfold subdivide in H.
  match type of H with
  | context [subdivide_move ?n ?i ?u ?cs] =>
      destruct (subdivide_move n i u cs) as [[unres cs']|e] eqn:E;
      cbn [bind] in H; [|discriminate];
      apply subdivide_move_inside in E
  end.
  - destruct E as [Hcs' Hincl]. inversion H; subst self'. clear H.
    cbn [node_bounds unresolved]. split; [reflexivity|].
    split; [now apply sub_inside_unfold|exact Hincl].
  - repeat constructor; apply new_octree_node_inside.
Qed.

Lemma add_polygon_inside (fuel : nat) :
  forall self vp self',
    add_polygon fuel self vp = Some (Ok self') -> sub_inside self ->
    sub_inside self' /\ node_bounds self' = node_bounds self /\
    (stored_inside self -> contains_polygon self vp = Ok true -> stored_inside self').
Proof.
  induction fuel as [|fuel IH]; intros self vp self' H Hsub; [discriminate|].
  assert (Happend : forall node,
             sub_inside node ->
             sub_inside (append_unresolved vp node) /\
             node_bounds (append_unresolved vp node) = node_bounds node /\
             (stored_inside node -> contains_polygon node vp = Ok true ->
              stored_inside (append_unresolved vp node))).
  { intros node Hn. split; [now apply sub_inside_append|].
    split; [now destruct node|]. intros Hs Hc. now apply stored_inside_append. }
  assert (Hdescend : forall node,
             sub_inside node ->
             match first_containing (children node) vp 0 with
             | Raise e => Some (Raise e)
             | Ok (Some k) =>
                 match nth_error (children node) k with
                 | Some (Some child) =>
                     match add_polygon fuel child vp with
                     | None => None
                     | Some (Raise e) => Some (Raise e)
                     | Some (Ok child') =>
                         Some (Ok (set_children node
                                     (update_nth (children node) k (fun _ => Some child'))))
                     end
                 | _ => Some (Raise AttributeError)
                 end
             | Ok None => Some (Ok (append_unresolved vp node))
             end = Some (Ok self') ->
             sub_inside self' /\ node_bounds self' = node_bounds node /\
             (stored_inside node -> contains_polygon node vp = Ok true ->
              stored_inside self')).
  { intros node Hnode Hd.
    destruct (first_containing (children node) vp 0) as [[k|]|e] eqn:Ef; [| |discriminate].
    - destruct (first_containing_contains _ _ _ _ Ef) as (child & Hk & Hc).
      rewrite Nat.sub_0_r in Hk. rewrite Hk in Hd.
      destruct (add_polygon fuel child vp) as [[child'|e]|] eqn:Ea; try discriminate.
      inversion Hd; subst self'. clear Hd.
      destruct node as [b d cs u r nd]. cbn [children] in *.
      apply sub_inside_unfold in Hnode.
      destruct (children_inside_nth cs k child Hnode Hk) as [Hs Hsubc].
      destruct (IH child vp child' Ea Hsubc) as (Hsub' & Hb' & Hst').
      unfold set_children.
      cbn [node_bounds node_depth children unresolved resolved nondivided].
      split; [|split; [reflexivity|]].
      + apply sub_inside_unfold.
        apply (children_inside_update cs k child child'); auto.
      + intros Hst _. exact Hst.
    - inversion Hd; subst self'. now apply Happend. }
  cbn [add_polygon] in H.
  destruct (nondivided self) eqn:End.
  - destruct (List.length (unresolved self) =? 0)%nat.
    + inversion H; subst self'. now apply Happend.
    + destruct (subdivide self) as [self1|e] eqn:Es; [|discriminate].
      destruct (subdivide_inside self self1 Es) as (Hb1 & Hsub1 & Hincl).
      destruct (Hdescend self1 Hsub1 H) as (Hsub' & Hb' & Hst').
      split; [exact Hsub'|]. split; [congruence|].
      intros Hst Hc. apply Hst'.
      * unfold stored_inside in *. rewrite Forall_forall in *. intros x Hx.
        rewrite (contains_polygon_bounds self self1 x Hb1). apply Hst. now apply Hincl.
      * now rewrite (contains_polygon_bounds self self1 vp Hb1).
  - now apply Hdescend.
Qed.

Lemma insert_polygons_inside (fuel : nat) (polys : list ViewPolygon) :
  forall octree octree',
    insert_polygons fuel octree polys = Some (Ok octree') ->
    sub_inside (root octree) -> sub_inside (root octree').
Proof.
  induction polys as [|vp polys IH]; intros octree octree' H Hsub.
  - inversion H; subst. assumption.
  - cbn [insert_polygons] in H. unfold insert_polygon in H.
    destruct (compressed octree); [discriminate|].
    destruct (add_polygon fuel (root octree) vp) as [[root1|e]|] eqn:Ea; try discriminate.
    apply (IH _ _ H). cbn [root].
    exact (proj1 (add_polygon_inside fuel _ _ _ Ea Hsub)).
Qed.

Lemma sub_inside_lookup (q : opath) :
  forall root n,
    sub_inside root -> q <> [] -> o_lookup root q = Some n ->
    stored_inside n /\ sub_inside n.
Proof.
  induction q as [|k q IH]; intros root n Hsub Hne H; [congruence|].
  cbn [o_lookup] in H. destruct root as [b d cs u r nd]. cbn [children] in H.
  apply sub_inside_unfold in Hsub.
  destruct (nth_error cs k) as [[c|]|] eqn:Ek; try discriminate.
  destruct (children_inside_nth cs k c Hsub Ek) as [Hs Hsubc].
  destruct q as [|k' q'].
  - cbn [o_lookup] in H. inversion H; subst n. auto.
  - apply (IH c n Hsubc); [discriminate|exact H].
Qed.

(** X9.  In an octree built by insertion, every polygon on the list of a
    node other than the root has a bounding box, and the box lies within the
    box of the node: a polygon is never handed to a child that does not
    contain it. *)
Theorem octree_stores_inside (xMin xMax yMin yMax zMin zMax : Q)
        (polys : list ViewPolygon) (fuel : nat) (octree : Octree)
        (q : opath) (n : OctreeNode) (x : ViewPolygon) :
  insert_polygons fuel (new_octree xMin xMax yMin yMax zMin zMax) polys
  = Some (Ok octree) ->
  q <> [] -> o_lookup (root octree) q = Some n -> In x (unresolved n) ->
  exists bx, bounds x = Some bx /\ box_within bx (node_bounds n).
Proof.
  intros Hins Hq Hn Hx.
  assert (Hsub : sub_inside (root octree)).
  { apply (insert_polygons_inside fuel polys _ _ Hins).
    apply new_octree_node_inside. }
  destruct (sub_inside_lookup q _ n Hsub Hq Hn) as [Hs _].
  unfold stored_inside in Hs. rewrite Forall_forall in Hs.
  apply contains_polygon_within. now apply Hs.
Qed.

Lemma octree_stores_inside_witness :
  exists octree n,
    insert_polygons 10 (new_octree 0 8 0 8 0 4)
      [Examples.square1; Examples.square2; Examples.square3] = Some (Ok octree) /\
    o_lookup (root octree) [0; 0]%nat = Some n /\
    In Examples.square1 (unresolved n) /\
    exists bx, bounds Examples.square1 = Some bx /\ box_within bx (node_bounds n).
Proof.
  destruct (insert_polygons 10 (new_octree 0 8 0 8 0 4)
              [Examples.square1; Examples.square2; Examples.square3])
    as [[octree|e]|] eqn:E; try (vm_compute in E; discriminate).
  destruct (o_lookup (root octree) [0; 0]%nat) as [n|] eqn:En.
  2:{ exfalso. vm_compute in E. injection E as <-. vm_compute in En. discriminate. }
  assert (Hin : In Examples.square1 (unresolved n)).
  { vm_compute in E. injection E as <-. vm_compute in En. injection En as <-.
    vm_compute. left. reflexivity. }
  exists octree, n. split; [reflexivity|]. split; [exact En|]. split; [exact Hin|].
  apply (octree_stores_inside 0 8 0 8 0 4 _ 10 octree [0; 0]%nat n Examples.square1 E);
    [discriminate|exact En|exact Hin].
Defined.

(** ** Octree: insertion, compression and the list of resolved polygons *)



(** The resolved polygons below the children that are listed are those
    below the children. *)
Lemma kept_paths_resolved (root : OctreeNode) (p : opath)
      (cs : list (option OctreeNode)) :
  forall j,
    (forall k c, nth_error cs k = Some (Some c) ->
                 o_lookup root (p ++ [(j + k)%nat]) = Some c) ->
    flat_map (resolved_below root) (kept_paths p j cs) =
    flat_map (fun c => match c with Some ch => all_resolved ch | None => [] end) cs.
Proof.
  induction cs as [|c cs IH]; intros j Hl; [reflexivity|].
  cbn [kept_paths]. rewrite flat_map_app.
  assert (E : flat_map (resolved_below root) (kept_paths p (S j) cs) =
              flat_map (fun c => match c with
                                 | Some ch => all_resolved ch
                                 | None => []
                                 end) cs).
  { apply IH. intros k c' Hk. rewrite <- (Hl (S k) c' Hk). f_equal. f_equal. f_equal. lia. }
  change (flat_map (fun c0 => match c0 with
                              | Some ch => all_resolved ch
                              | None => []
                              end) (c :: cs))
    with (match c with Some ch => all_resolved ch | None => [] end
          ++ flat_map (fun c0 => match c0 with
                                 | Some ch => all_resolved ch
                                 | None => []
                                 end) cs).
  f_equal; [|exact E]. destruct c as [ch|]; [|reflexivity].
  change (flat_map (resolved_below root) [p ++ [j]])
    with (resolved_below root (p ++ [j]) ++ []).
  unfold resolved_below. pose proof (Hl 0%nat ch eq_refl) as H0.
  rewrite Nat.add_0_r in H0. rewrite H0. apply app_nil_r.
Qed.

Lemma lookup_child (root : OctreeNode) (p : opath) (node c : OctreeNode) (k : nat) :
  o_lookup root p = Some node -> nth_error (children node) k = Some (Some c) ->
  o_lookup root (p ++ [k]) = Some c.
Proof.
  intros Hp Hk. rewrite o_lookup_app, Hp. cbn [o_lookup]. now rewrite Hk.
Qed.

Lemma all_resolved_unfold (n : OctreeNode) :
  all_resolved n =
  resolved n ++ flat_map (fun c => match c with
                                   | Some ch => all_resolved ch
                                   | None => []
                                   end) (children n).
Proof. destruct n. reflexivity. Qed.

(** The loop of [get_resolved_polygons]: with the references still to be
    visited referring to nodes, and fuel for the subtrees below them, it
    ends with the collected polygons and the resolved polygons below those
    references. *)
Lemma get_resolved_loop_ok :
  forall fuel root nodes i polygons,
    (i <= List.length nodes)%nat ->
    (forall p, In p (skipn i nodes) -> exists n, o_lookup root p = Some n) ->
    (list_sum (map (size_at root) (skipn i nodes)) < fuel)%nat ->
    exists l,
      get_resolved_loop fuel root nodes i polygons = Some (Ok l) /\
      Permutation l (polygons ++ flat_map (resolved_below root) (skipn i nodes)).
Proof.
  induction fuel as [|fuel IH]; intros root nodes i polygons Hi Hval Hfuel; [lia|].
  cbn [get_resolved_loop]. destruct (nth_error nodes i) as [p|] eqn:Hp.
  - assert (Hsk : skipn i nodes = p :: skipn (S i) nodes) by now apply skipn_nth_cons.
    assert (Hlt : (i < List.length nodes)%nat) by (apply nth_error_Some; congruence).
    destruct (Hval p) as [node Hnode]; [rewrite Hsk; now left|]. rewrite Hnode.
    set (K := kept_paths p 0 (children node)).
    assert (Hsk' : skipn (S i) (nodes ++ K) = skipn (S i) nodes ++ K).
    { rewrite skipn_app.
      replace (S i - List.length nodes)%nat with 0%nat by lia. reflexivity. }
    assert (Hchild : forall k c, nth_error (children node) k = Some (Some c) ->
                                 o_lookup root (p ++ [(0 + k)%nat]) = Some c).
    { intros k c Hk. cbn [Nat.add]. eapply lookup_child; eauto. }
    destruct (IH root (nodes ++ K) (S i) (polygons ++ resolved node)) as (l & Hrun & Hperm).
    + rewrite length_app. lia.
    + intros q Hq. rewrite Hsk' in Hq. apply in_app_or in Hq. destruct Hq as [Hq|Hq].
      * apply Hval. rewrite Hsk. now right.
      * apply kept_paths_in in Hq. destruct Hq as (k & c & -> & Hk).
        exists c. now apply Hchild.
    + rewrite Hsk', map_app, list_sum_app. unfold K.
      rewrite (kept_paths_sum p (size_at root) (children node) 0).
      2:{ intros k c Hk. unfold size_at. now rewrite (Hchild k c Hk). }
      rewrite Hsk in Hfuel.
      change (map (size_at root) (p :: skipn (S i) nodes))
        with (size_at root p :: map (size_at root) (skipn (S i) nodes)) in Hfuel.
      change (list_sum (size_at root p :: map (size_at root) (skipn (S i) nodes)))
        with (size_at root p + list_sum (map (size_at root) (skipn (S i) nodes)))%nat
        in Hfuel.
      unfold size_at at 1 in Hfuel. rewrite Hnode in Hfuel. cbn [size_opt] in Hfuel.
      rewrite (tree_size_children node) in Hfuel. lia.
    + exists l. split; [exact Hrun|]. rewrite Hperm, Hsk, Hsk'.
      cbn [flat_map]. rewrite flat_map_app.
      unfold K. rewrite (kept_paths_resolved root p (children node) 0 Hchild).
      unfold resolved_below at 2. rewrite Hnode, (all_resolved_unfold node).
      perm_app.
  - exists polygons. split; [reflexivity|].
    apply nth_error_None in Hp. rewrite skipn_all2 by lia. cbn [flat_map].
    now rewrite app_nil_r.
Qed.

(** X11.  With fuel above the number of nodes, [get_resolved_polygons]
    returns without an error, and the list it returns holds exactly the
    polygons on the [resolved] lists of the nodes of the tree, each as often
    as it is listed there. *)
Theorem get_resolved_polygons_all (fuel : nat) (self : Octree) :
  (tree_size (root self) < fuel)%nat ->
  exists l,
    get_resolved_polygons fuel self = Some (Ok l) /\
    Permutation l (all_resolved (root self)).
Proof.
  intros Hfuel. unfold get_resolved_polygons.
  destruct (get_resolved_loop_ok fuel (root self) [[]] 0 []) as (l & Hrun & Hperm).
  - cbn [List.length]. lia.
  - intros p [<-|[]]. eexists. reflexivity.
  - change (tree_size (root self) + 0 < fuel)%nat. lia.
  - exists l. split; [exact Hrun|]. rewrite Hperm.
    cbn [skipn flat_map app]. unfold resolved_below. cbn [o_lookup].
    now rewrite app_nil_r.
Qed.

Lemma get_resolved_polygons_all_witness :
  exists l,
    get_resolved_polygons 3
      (mkOctree
         (ONode (mkBounds 0 8 0 8 0 4) 0
                [None; Some (ONode (mkBounds 4 8 0 4 0 2) 1 []
                                   [] [Examples.square2; Examples.square3] true)]
                [] [Examples.square1] false)
         true)
    = Some (Ok l) /\
    Permutation l [Examples.square1; Examples.square2; Examples.square3].
Proof.
  apply (get_resolved_polygons_all 3
           (mkOctree
              (ONode (mkBounds 0 8 0 8 0 4) 0
                     [None; Some (ONode (mkBounds 4 8 0 4 0 2) 1 []
                                        [] [Examples.square2; Examples.square3] true)]
                     [] [Examples.square1] false)
              true)).
  vm_compute. lia.
Defined.

Lemma list_sum_update_nth_le (cs : list (option OctreeNode)) (k : nat)
      (g : option OctreeNode -> option OctreeNode) :
  (forall c, nth_error cs k = Some c -> (size_opt (g c) <= size_opt c)%nat) ->
  (list_sum (map size_opt (update_nth cs k g)) <= list_sum (map size_opt cs))%nat.
Proof.
  intros Hg. destruct (nth_error cs k) as [c|] eqn:E.
  - rewrite (update_nth_at cs k c g E).
    rewrite (nth_error_split_at cs k c E) at 3.
    rewrite !map_app, !list_sum_app.
    change (map size_opt (g c :: skipn (S k) cs))
      with (size_opt (g c) :: map size_opt (skipn (S k) cs)).
    change (map size_opt (c :: skipn (S k) cs))
      with (size_opt c :: map size_opt (skipn (S k) cs)).
    change (list_sum (size_opt (g c) :: map size_opt (skipn (S k) cs)))
      with (size_opt (g c) + list_sum (map size_opt (skipn (S k) cs)))%nat.
    change (list_sum (size_opt c :: map size_opt (skipn (S k) cs)))
      with (size_opt c + list_sum (map size_opt (skipn (S k) cs)))%nat.
    specialize (Hg c eq_refl). lia.
  - unfold update_nth. rewrite E, app_nil_r. apply nth_error_None in E.
    rewrite firstn_all2 by lia. lia.
Qed.

(** An update that does not let the updated node grow does not let the tree
    grow. *)
Lemma tree_size_update_le (p : opath) (f : OctreeNode -> OctreeNode) :
  forall root,
    (forall n, o_lookup root p = Some n -> (tree_size (f n) <= tree_size n)%nat) ->
    (tree_size (o_update root p f) <= tree_size root)%nat.
Proof.
  induction p as [|k p IH]; intros root Hf; [now apply Hf|].
  cbn [o_update]. rewrite !tree_size_children. unfold set_children at 1.
  cbn [children]. apply le_n_S. apply list_sum_update_nth_le.
  intros c Hc. destruct c as [ch|]; cbn [option_map size_opt]; [|lia].
  apply IH. intros n Hn. apply Hf. cbn [o_lookup]. now rewrite Hc.
Qed.

Lemma compress_loop_size :
  forall fuel root nodes i root' nodes',
    compress_loop fuel root nodes i = Some (Ok (root', nodes')) ->
    (tree_size root' <= tree_size root)%nat.
Proof.
  induction fuel as [|fuel IH]; intros root nodes i root' nodes' H; [discriminate|].
  cbn [compress_loop] in H. destruct (nth_error nodes i) as [p|]; [|now inversion H].
  destruct (o_lookup root p) as [node|] eqn:Hnode; [|discriminate].
  rewrite compress_children_spec in H. apply IH in H.
  eapply Nat.le_trans; [exact H|]. apply tree_size_update_le.
  intros n Hn. rewrite Hnode in Hn. inversion Hn; subst n.
  rewrite !tree_size_children. unfold set_children. cbn [children].
  apply le_n_S. apply prune_child_size.
Qed.

Section ResolveSize.
Context {MU : MathUtils}.

Lemma resolve_nodes_size (fuel : nat) :
  forall todo root root',
    resolve_nodes fuel root todo = Some (Ok root') ->
    (tree_size root' <= tree_size root)%nat.
Proof.
  induction todo as [|p todo IH]; intros root root' H.
  - inversion H. lia.
  - cbn [resolve_nodes] in H.
    destruct (resolve_node fuel root p) as [[root1|e]|] eqn:E; try discriminate.
    apply IH in H. eapply Nat.le_trans; [exact H|].
    unfold resolve_node in E. destruct (o_lookup root p) as [self|]; [|discriminate].
    destruct (resolve_loop fuel _ _ _) as [[[unres res]|e]|]; try discriminate.
    inversion E; subst root1. apply tree_size_update_le.
    intros n _. rewrite !tree_size_children. unfold set_lists. cbn [children]. lia.
Qed.

End ResolveSize.

(** X12.  On an octree built by insertion, and with fuel above the number
    of its nodes, [compress_tree] returns without an error.  It removes no
    polygon from the tree, marks the tree as compressed, so that a later
    [insert_polygon] raises [TypeError], and returns a list in which every
    node that is left in the tree occurs exactly once, the root first. *)
Theorem compress_tree_lists_nodes (xMin xMax yMin yMax zMin zMax : Q)
        (polys : list ViewPolygon) (fuel0 fuel : nat) (octree : Octree) :
  insert_polygons fuel0 (new_octree xMin xMax yMin yMax zMin zMax) polys
  = Some (Ok octree) ->
  (tree_size (root octree) < fuel)%nat ->
  exists octree' nodes,
    compress_tree fuel octree = Some (Ok (octree', nodes)) /\
    Permutation (all_polys (root octree')) polys /\
    (forall fuel' vp, insert_polygon fuel' octree' vp = Some (Raise TypeError)) /\
    NoDup nodes /\ hd_error nodes = Some [] /\
    (forall q, In q nodes <-> exists n, o_lookup (root octree') q = Some n).
Proof.
  intros Hins Hfuel.
  destruct (new_octree_node_wf xMin xMax yMin yMax zMin zMax 0) as [Hwf0 Hp0].
  destruct (insert_polygons_perm fuel0 polys _ octree Hins Hwf0) as [Hwf Hperm].
  cbn [root new_octree] in Hperm. rewrite Hp0, app_nil_r in Hperm.
  destruct (compress_loop_ok fuel (root octree) [[]] 0 (compress_inv_start _ Hwf))
    as (root1 & nodes & Hrun & Hinv & Hperm1).
  { change (tree_size (root octree) + 0 < fuel)%nat. lia. }
  exists (mkOctree root1 true), nodes. unfold compress_tree. rewrite Hrun.
  split; [reflexivity|]. cbn [root].
  split; [now rewrite Hperm1|]. split; [reflexivity|].
  destruct Hinv as (Hnd & _ & Hval & _ & HA & _).
  split; [exact Hnd|]. split.
  - assert (Hhd : forall fuel root nodes i root' nodes',
               compress_loop fuel root nodes i = Some (Ok (root', nodes')) ->
               hd_error nodes' = hd_error nodes \/ nodes = []).
    { clear. induction fuel as [|fuel IH]; intros root nodes i root' nodes' H;
        [discriminate|].
      cbn [compress_loop] in H. destruct (nth_error nodes i) as [p|];
        [|inversion H; now left].
      destruct (o_lookup root p) as [node|]; [|discriminate].
      destruct (compress_children p 0 (children node)) as [cs' appended].
      apply IH in H. destruct nodes as [|q nodes]; [now right|].
      left. destruct H as [H|H]; [exact H|discriminate]. }
    destruct (Hhd _ _ _ _ _ _ Hrun) as [H|H]; [exact H|discriminate].
  - intros q. split; [apply Hval|]. intros [n Hn].
    destruct (HA q n Hn) as [Hin|(p0 & Hp0' & _)]; [exact Hin|].
    rewrite skipn_all in Hp0'. destruct Hp0'.
Qed.

Lemma compress_tree_lists_nodes_witness :
  exists octree octree' nodes,
    insert_polygons 10 (new_octree 0 8 0 8 0 4)
      [Examples.square1; Examples.square2; Examples.square3] = Some (Ok octree) /\
    compress_tree 40 octree = Some (Ok (octree', nodes)) /\
    NoDup nodes /\
    (forall q, In q nodes <-> exists n, o_lookup (root octree') q = Some n).
Proof.
  destruct (insert_polygons 10 (new_octree 0 8 0 8 0 4)
              [Examples.square1; Examples.square2; Examples.square3])
    as [[octree|e]|] eqn:E; try (vm_compute in E; discriminate).
  exists octree.
  destruct (compress_tree_lists_nodes 0 8 0 8 0 4 _ 10 40 octree E)
    as (octree' & nodes & H1 & _ & _ & H2 & _ & H3).
  { vm_compute in E. injection E as <-. vm_compute. lia. }
  exists octree', nodes. auto.
Defined.

Section Pipeline.
Context {MU : MathUtils}.

Lemma resolve_conflicts_quiet_run
      (xMin xMax yMin yMax zMin zMax : Q) (polys : list ViewPolygon)
      (fuel0 fuel : nat) (octree : Octree) :
  Forall bounds_computed polys ->
  no_two_overlap polys ->
  insert_polygons fuel0 (new_octree xMin xMax yMin yMax zMin zMax) polys
  = Some (Ok octree) ->
  (tree_size (root octree) + List.length polys < fuel)%nat ->
  exists octree',
    resolve_conflicts fuel octree = Some (Ok octree') /\
    all_unresolved_empty (root octree') /\
    Permutation (all_resolved (root octree')) polys /\
    (tree_size (root octree') <= tree_size (root octree))%nat.
Proof.
  intros Hb Ho Hins Hfuel.
  destruct (new_octree_node_wf xMin xMax yMin yMax zMin zMax 0) as [Hwf0 Hp0].
  destruct (insert_polygons_perm fuel0 polys _ octree Hins Hwf0) as [Hwf Hperm].
  cbn [root new_octree] in Hperm. rewrite Hp0, app_nil_r in Hperm.
  destruct (compress_loop_ok fuel (root octree) [[]] 0 (compress_inv_start _ Hwf))
    as (root1 & nodes & Hrun & Hinv & Hperm1).
  { change (tree_size (root octree) + 0 < fuel)%nat. lia. }
  assert (Hall1 : Permutation polys (all_polys root1)).
  { symmetry. now rewrite Hperm1. }
  pose proof (compress_loop_size _ _ _ _ _ _ Hrun) as Hsize1.
  unfold resolve_conflicts, compress_tree. rewrite Hrun. cbn [root compressed].
  set (nodes' := sort_reverse (depth_key root1) nodes).
  assert (Hsorted : Permutation nodes nodes') by apply sort_reverse_perm.
  destruct Hinv as (_ & _ & Hval & _ & HA & _).
  destruct (resolve_nodes_quiet fuel nodes' root1) as (root' & Hres & Hperm' & Hall).
  - intros q Hq. apply Hval. exact (Permutation_in _ (Permutation_sym Hsorted) Hq).
  - exact (Permutation_Forall Hall1 Hb).
  - exact (no_two_overlap_perm _ _ Hall1 Ho).
  - rewrite <- (Permutation_length Hall1). lia.
  - pose proof (resolve_nodes_size _ _ _ _ Hres) as Hsize2.
    rewrite Hres. exists (mkOctree root' true). split; [reflexivity|].
    cbn [root].
    assert (Hempty : all_unresolved_empty root').
    { intros q n Hq. specialize (Hall q). rewrite Hq in Hall.
      destruct (o_lookup root1 q) as [m|] eqn:Em; [|contradiction].
      apply Hall. left. destruct (HA q m Em) as [Hin|(p0 & Hp0' & _)].
      - exact (Permutation_in _ Hsorted Hin).
      - rewrite skipn_all in Hp0'. destruct Hp0'. }
    split; [exact Hempty|]. split; [|lia].
    rewrite <- (all_polys_resolved root' Hempty). rewrite Hperm'. now symmetry.
Qed.

(** X13.  The octree path of the export, for polygons with computed
    bounding boxes of which no two have overlapping 2D projections: after
    the polygons are inserted into a new octree, [resolve_conflicts]
    followed by [get_resolved_polygons] returns, without an error, exactly
    the inserted polygons, each once and as it was inserted. *)
Theorem octree_pipeline_no_overlap
        (xMin xMax yMin yMax zMin zMax : Q) (polys : list ViewPolygon)
        (fuel0 fuel : nat) (octree : Octree) :
  Forall bounds_computed polys ->
  no_two_overlap polys ->
  insert_polygons fuel0 (new_octree xMin xMax yMin yMax zMin zMax) polys
  = Some (Ok octree) ->
  (tree_size (root octree) + List.length polys < fuel)%nat ->
  exists octree' view_polygons,
    resolve_conflicts fuel octree = Some (Ok octree') /\
    get_resolved_polygons fuel octree' = Some (Ok view_polygons) /\
    Permutation view_polygons polys.
Proof.
  intros Hb Ho Hins Hfuel.
  destruct (resolve_conflicts_quiet_run _ _ _ _ _ _ _ _ _ _ Hb Ho Hins Hfuel)
    as (octree' & Hrun & _ & Hperm & Hsize).
  destruct (get_resolved_loop_ok fuel (root octree') [[]] 0 []) as (l & Hget & Hl).
  - cbn [List.length]. lia.
  - intros p [<-|[]]. eexists. reflexivity.
  - change (tree_size (root octree') + 0 < fuel)%nat. lia.
  - exists octree', l. split; [exact Hrun|]. split; [exact Hget|].
    rewrite Hl. cbn [skipn flat_map app]. unfold resolved_below. cbn [o_lookup].
    now rewrite app_nil_r.
Qed.

End Pipeline.

Lemma octree_pipeline_no_overlap_witness :
  exists octree octree' view_polygons,
    insert_polygons 10 (new_octree 0 8 0 8 0 4)
      [Examples.square1; Examples.square2; Examples.square3] = Some (Ok octree) /\
    resolve_conflicts (MU := exact_utils) 40 octree = Some (Ok octree') /\
    get_resolved_polygons 40 octree' = Some (Ok view_polygons) /\
    Permutation view_polygons [Examples.square1; Examples.square2; Examples.square3].
Proof.
  assert (Hb : Forall bounds_computed
                 [Examples.square1; Examples.square2; Examples.square3]).
  { repeat constructor. }
  assert (Ho : no_two_overlap (MU := exact_utils)
                 [Examples.square1; Examples.square2; Examples.square3]).
  { cbn [no_two_overlap]. repeat (split || constructor). }
  destruct (insert_polygons 10 (new_octree 0 8 0 8 0 4)
              [Examples.square1; Examples.square2; Examples.square3])
    as [[octree|e]|] eqn:E; try (vm_compute in E; discriminate).
  exists octree.
  destruct (octree_pipeline_no_overlap (MU := exact_utils) 0 8 0 8 0 4 _ 10 40 octree
              Hb Ho E) as (octree' & l & H1 & H2 & H3).
  { vm_compute in E. injection E as <-. vm_compute. lia. }
  exists octree', l. auto.
Defined.

(** ** Cutting a polygon that the plane does not cross *)

Section CutOneSide.
Context {MU : MathUtils}.

Lemma cut_loop_one_side (plane : ViewPolygon) (verts_p : list vec) (side : bool) :
  forall todo i front back,
    Forall (fun v => vert_relative_pos_bool plane v = Ok side) todo ->
    cut_loop plane verts_p (mkCut side front back) i todo =
    Ok (if side then mkCut true (front ++ todo) back
        else mkCut false front (back ++ todo)).
Proof.
  induction todo as [|vert rest IH]; intros i front back H.
  - cbn [cut_loop]. rewrite !app_nil_r. now destruct side.
  - inversion H as [|? ? Hv Hrest]; subst. cbn [cut_loop]. unfold cut_step.
    rewrite Hv. cbn [bind currently_in_front front_pol_verts back_pol_verts].
    destruct side; cbn [bind]; rewrite (IH _ _ _ Hrest); now rewrite <- app_assoc.
Qed.

Lemma set_verts_same (p : ViewPolygon) : set_verts p (verts p) = p.
Proof. now destruct p. Qed.

(** X14.  When the zero-tolerance side test puts every vertex of a polygon
    on the same side of the plane, [cut_conflicting] cuts nothing: unless
    the polygon is a fragment, it comes back on its side with its vertices
    in their order, every attribute but the recalculated bounding box as it
    was, and the other result is [None]; a fragment gives [None] twice. *)
Theorem cut_conflicting_one_side (plane p : ViewPolygon) (side : bool) :
  verts p <> [] ->
  Forall (fun v => vert_relative_pos_bool plane v = Ok side) (verts p) ->
  exists b,
    recalculate_bounds p = Ok (set_bounds p b) /\
    cut_conflicting plane p =
    Ok (if is_fragment p then (None, None)
        else if side then (Some (set_bounds p b), None)
             else (None, Some (set_bounds p b))).
Proof.
  intros Hne Hall.
  assert (Hb : exists b, recalculate_bounds p = Ok (set_bounds p b)).
  { unfold recalculate_bounds. destruct (verts p); [congruence|].
    eexists. reflexivity. }
  destruct Hb as [b Hb]. exists b. split; [exact Hb|].
  unfold cut_conflicting, cut_rings.
  destruct (list_index_last (verts p) Hne) as (last & -> & Hnth). cbn [bind].
  assert (Hl : vert_relative_pos_bool plane last = Ok side).
  { rewrite Forall_forall in Hall. apply Hall. eapply nth_error_In; eauto. }
  rewrite Hl. cbn [bind]. rewrite (cut_loop_one_side plane (verts p) side _ _ _ _ Hall).
  cbn [bind app]. unfold cull_fragment.
  assert (Hempty : forall q, is_fragment (set_verts q []) = true) by reflexivity.
  destruct side; cbn [front_pol_verts back_pol_verts].
  - rewrite set_verts_same, Hempty. destruct (is_fragment p); [reflexivity|].
    rewrite Hb. reflexivity.
  - rewrite Hempty.
    replace (set_verts (set_verts p []) (verts p)) with p by now destruct p.
    destruct (is_fragment p); [reflexivity|]. rewrite Hb. reflexivity.
Qed.

End CutOneSide.

Lemma cut_conflicting_one_side_witness :
  exists b,
    recalculate_bounds Examples.table = Ok (set_bounds Examples.table b) /\
    cut_conflicting (MU := exact_utils) Examples.ground Examples.table =
    Ok (Some (set_bounds Examples.table b), None).
Proof.
  destruct (cut_conflicting_one_side (MU := exact_utils) Examples.ground Examples.table
              true) as (b & H1 & H2).
  - discriminate.
  - repeat constructor.
  - exists b. split; [exact H1|exact H2].
Defined.

(** ** Octree: what [resolve_conflicts] leaves behind *)

Lemma fragment_of_refl (x : ViewPolygon) : fragment_of x x.
Proof. repeat split. Qed.

Lemma fragment_of_trans (x y z : ViewPolygon) :
  fragment_of x y -> fragment_of y z -> fragment_of x z.
Proof. unfold fragment_of. intuition congruence. Qed.

Lemma all_polys_update_in (x : ViewPolygon) (p : opath) (f : OctreeNode -> OctreeNode) :
  forall root,
    In x (all_polys (o_update root p f)) ->
    In x (all_polys root) \/
    exists n, o_lookup root p = Some n /\ In x (all_polys (f n)).
Proof.
  induction p as [|k p IH]; intros root H.
  - right. exists root. split; [reflexivity|exact H].
  - cbn [o_update] in H. rewrite all_polys_unfold in H.
    unfold set_children in H. cbn [unresolved resolved children] in H.
    rewrite (all_polys_unfold root). cbn [o_lookup].
    apply in_app_or in H. destruct H as [H|H]; [left; apply in_or_app; now left|].
    apply in_app_or in H. destruct H as [H|H];
      [left; apply in_or_app; right; apply in_or_app; now left|].
    destruct (nth_error (children root) k) as [[c|]|] eqn:E.
    + rewrite (update_nth_at _ k (Some c) _ E) in H. cbn [option_map] in H.
      rewrite children_polys_app, children_polys_cons in H.
      assert (Hsplit := nth_error_split_at _ k (Some c) E).
      apply in_app_or in H. destruct H as [H|H].
      * left. apply in_or_app. right. apply in_or_app. right.
        rewrite Hsplit, children_polys_app. apply in_or_app. now left.
      * apply in_app_or in H. destruct H as [H|H].
        -- destruct (IH c H) as [Hc|(n & Hn & Hx)].
           ++ left. apply in_or_app. right. apply in_or_app. right.
              rewrite Hsplit, children_polys_app, children_polys_cons.
              apply in_or_app. right. apply in_or_app. now left.
           ++ right. exists n. split; assumption.
        -- left. apply in_or_app. right. apply in_or_app. right.
           rewrite Hsplit, children_polys_app, children_polys_cons.
           apply in_or_app. right. apply in_or_app. now right.
    + rewrite (update_nth_at _ k None _ E) in H. cbn [option_map] in H.
      rewrite <- (nth_error_split_at _ k None E) in H.
      left. apply in_or_app. right. apply in_or_app. now right.
    + unfold update_nth in H. rewrite E, app_nil_r in H. apply nth_error_None in E.
      rewrite firstn_all2 in H by lia.
      left. apply in_or_app. right. apply in_or_app. now right.
Qed.

Section ResolvePost.
Context {MU : MathUtils}.

Lemma cut_conflicting_fragment_of (plane p : ViewPolygon)
      (f b : option ViewPolygon) (x : ViewPolygon) :
  cut_conflicting plane p = Ok (f, b) -> f = Some x \/ b = Some x -> fragment_of x p.
Proof.
  unfold cut_conflicting. destruct (cut_rings plane p) as [st|e]; [|discriminate].
  cbn [bind]. unfold cull_fragment.
  assert (Hrec : forall q q', recalculate_bounds q = Ok q' -> fragment_of q' q).
  { intros q q' H. unfold recalculate_bounds in H.
    destruct (list_index (verts q) 0); [|discriminate]. cbn [bind] in H.
    inversion H. repeat split. }
  assert (Hset : forall q vs, fragment_of (set_verts q vs) q) by (intros; repeat split).
  destruct (is_fragment (set_verts p (front_pol_verts st))); cbn [bind].
  - destruct (is_fragment _); cbn [bind].
    + intros H. injection H as <- <-. intros [Hx|Hx]; discriminate.
    + destruct (recalculate_bounds _) as [q'|e] eqn:Eq; [|discriminate]. cbn [bind].
      intros H. injection H as <- <-. intros [Hx|Hx]; [discriminate|].
      injection Hx as <-. apply Hrec in Eq.
      eapply fragment_of_trans; [exact Eq|].
      eapply fragment_of_trans; apply Hset.
  - destruct (recalculate_bounds _) as [p'|e] eqn:Ep; [|discriminate]. cbn [bind].
    apply Hrec in Ep.
    destruct (is_fragment _); cbn [bind].
    + intros H. injection H as <- <-. intros [Hx|Hx]; [|discriminate].
      injection Hx as <-. eapply fragment_of_trans; [exact Ep|apply Hset].
    + destruct (recalculate_bounds _) as [q'|e] eqn:Eq; [|discriminate]. cbn [bind].
      apply Hrec in Eq.
      intros H. injection H as <- <-. intros [Hx|Hx]; injection Hx as <-.
      * eapply fragment_of_trans; [exact Ep|apply Hset].
      * eapply fragment_of_trans; [exact Eq|].
        eapply fragment_of_trans; apply Hset.
Qed.

Section Provenance.
(** [P] holds of a polygon and of everything cut from it. *)
Variable P : ViewPolygon -> Prop.
Hypothesis P_cut : forall plane p f b x,
    P p -> cut_conflicting plane p = Ok (f, b) -> f = Some x \/ b = Some x -> P x.

Lemma option_list_P (plane p : ViewPolygon) (f b : option ViewPolygon) :
  P p -> cut_conflicting plane p = Ok (f, b) ->
  Forall P (option_list f ++ option_list b).
Proof.
  intros Hp Hc. apply Forall_app. split.
  - destruct f as [x|]; [|constructor]. constructor; [|constructor].
    eapply P_cut; eauto.
  - destruct b as [x|]; [|constructor]. constructor; [|constructor].
    eapply P_cut; eauto.
Qed.

Lemma resolve_step_post (ancestors : list (list ViewPolygon))
      (unres res unres' res' : list ViewPolygon) :
  resolve_step ancestors unres res = Ok (unres', res') ->
  Forall P unres -> Forall P res -> Forall P unres' /\ Forall P res'.
Proof.
  intros H Hu Hr. unfold resolve_step in H.
  destruct unres as [|polygon others]; [inversion H; subst; auto|].
  inversion Hu as [|? ? Hp Ho]; subst.
  destruct (find_conflict polygon others) as [[q|]|e]; [| |discriminate];
    cbn [bind] in H.
  - destruct (cut_conflicting q polygon) as [[pf pb]|e] eqn:Ec; [|discriminate].
    cbn [bind] in H. inversion H; subst. split; [|exact Hr].
    apply Forall_app. split; [exact Ho|]. eapply option_list_P; eauto.
  - destruct (find_conflict_up polygon ancestors) as [[q|]|e]; [| |discriminate];
      cbn [bind] in H.
    + destruct (cut_conflicting q polygon) as [[pf pb]|e] eqn:Ec; [|discriminate].
      cbn [bind] in H. inversion H; subst. split; [|exact Hr].
      apply Forall_app. split; [exact Ho|]. eapply option_list_P; eauto.
    + inversion H; subst. split; [exact Ho|].
      apply Forall_app. split; [exact Hr|]. constructor; [exact Hp|constructor].
Qed.

Lemma resolve_loop_post :
  forall fuel ancestors unres res unres' res',
    resolve_loop fuel ancestors unres res = Some (Ok (unres', res')) ->
    Forall P unres -> Forall P res ->
    unres' = [] /\ Forall P res'.
Proof.
  induction fuel as [|fuel IH]; intros ancestors unres res unres' res' H Hu Hr;
    [discriminate|].
  cbn [resolve_loop] in H. destruct unres as [|polygon others].
  - inversion H; subst. auto.
  - destruct (resolve_step ancestors (polygon :: others) res) as [[u1 r1]|e] eqn:Es;
      [|discriminate].
    destruct (resolve_step_post _ _ _ _ _ Es Hu Hr) as [Hu1 Hr1].
    exact (IH _ _ _ _ _ H Hu1 Hr1).
Qed.

Lemma all_polys_parts (n : OctreeNode) :
  Forall P (all_polys n) ->
  Forall P (unresolved n) /\ Forall P (resolved n) /\
  Forall P (children_polys (children n)).
Proof.
  rewrite all_polys_unfold. intros H. apply Forall_app in H. destruct H as [H1 H].
  apply Forall_app in H. tauto.
Qed.

Lemma Forall_all_polys_lookup (p : opath) :
  forall root n, Forall P (all_polys root) -> o_lookup root p = Some n ->
                 Forall P (all_polys n).
Proof.
  induction p as [|k p IH]; intros root n H Hn.
  - cbn [o_lookup] in Hn. now inversion Hn; subst.
  - cbn [o_lookup] in Hn.
    destruct (nth_error (children root) k) as [[c|]|] eqn:E; try discriminate.
    apply (IH c n); [|exact Hn].
    destruct (all_polys_parts root H) as (_ & _ & Hc).
    rewrite (nth_error_split_at _ k (Some c) E) in Hc.
    rewrite children_polys_app, children_polys_cons in Hc.
    apply Forall_app in Hc. destruct Hc as [_ Hc]. now apply Forall_app in Hc.
Qed.

(** The loop over the nodes, when it returns: every listed node has an empty
    [unresolved] list and the other lists of that kind are untouched; what
    holds of every polygon and its fragments still holds. *)
Lemma resolve_nodes_post (fuel : nat) :
  forall todo root root',
    resolve_nodes fuel root todo = Some (Ok root') ->
    Forall P (all_polys root) ->
    Forall P (all_polys root') /\
    forall q,
      match o_lookup root' q, o_lookup root q with
      | Some n1, Some n => In q todo \/ unresolved n = [] -> unresolved n1 = []
      | None, None => True
      | _, _ => False
      end.
Proof.
  induction todo as [|p todo IH]; intros root root' H HP.
  - inversion H; subst root'. split; [exact HP|].
    intros q. destruct (o_lookup root q); [|exact I]. intros [[]|Hq]; exact Hq.
  - cbn [resolve_nodes] in H.
    destruct (resolve_node fuel root p) as [[root1|e]|] eqn:E; try discriminate.
    unfold resolve_node in E. destruct (o_lookup root p) as [self|] eqn:Hself;
      [|discriminate].
    destruct (resolve_loop fuel (ancestors_unresolved root p) (unresolved self)
                           (resolved self)) as [[[unres res]|e]|] eqn:El;
      try discriminate.
    inversion E; subst root1. clear E.
    set (f := fun n : OctreeNode => set_lists n unres res) in *.
    assert (Hf : forall m, children (f m) = children m) by (intros m; reflexivity).
    pose proof (Forall_all_polys_lookup p root self HP Hself) as Hselfp.
    destruct (all_polys_parts self Hselfp) as (Hu & Hr & Hc).
    destruct (resolve_loop_post _ _ _ _ _ _ El Hu Hr) as [-> Hres].
    assert (HP1 : Forall P (all_polys (o_update root p f))).
    { rewrite Forall_forall. intros x Hx.
      destruct (all_polys_update_in x p f root Hx) as [Hin|(n & Hn & Hin)].
      - rewrite Forall_forall in HP. now apply HP.
      - rewrite Hself in Hn. inversion Hn; subst n.
        unfold f, set_lists in Hin. rewrite all_polys_unfold in Hin.
        cbn [unresolved resolved children app] in Hin.
        apply in_app_or in Hin. rewrite Forall_forall in Hres, Hc.
        destruct Hin; auto. }
    destruct (IH _ _ H HP1) as [HP' Hall]. split; [exact HP'|].
    intros q. specialize (Hall q).
    pose proof (lookup_after_update root p q f Hf) as Hq.
    destruct (o_lookup root' q) as [n'|];
      destruct (o_lookup (o_update root p f) q) as [n1|];
      destruct (o_lookup root q) as [m|]; try contradiction; try exact I.
    intros Hin. apply Hall.
    destruct Hq as [[-> ->]|[Hne Hun]]; [right; reflexivity|].
    rewrite Hun. destruct Hin as [[E|Hin]|Hin]; [congruence|now left|now right].
Qed.

End Provenance.

(** X15.  Whatever conflicts there are: when [resolve_conflicts] returns on
    an octree built by insertion (with fuel above the number of nodes for
    the walk over the tree), the [unresolved] list of every node is empty,
    the tree is marked as compressed, and every polygon on a [resolved] list
    carries the depth, the colours and opacities, the normal and the mark of
    one of the inserted polygons: cutting changes vertices and bounding
    boxes only. *)
Theorem resolve_conflicts_postcondition
        (xMin xMax yMin yMax zMin zMax : Q) (polys : list ViewPolygon)
        (fuel0 fuel : nat) (octree octree' : Octree) :
  insert_polygons fuel0 (new_octree xMin xMax yMin yMax zMin zMax) polys
  = Some (Ok octree) ->
  (tree_size (root octree) < fuel)%nat ->
  resolve_conflicts fuel octree = Some (Ok octree') ->
  all_unresolved_empty (root octree') /\
  compressed octree' = true /\
  forall x, In x (all_resolved (root octree')) ->
            exists y, In y polys /\ fragment_of x y.
Proof.
  intros Hins Hfuel Hrun.
  destruct (new_octree_node_wf xMin xMax yMin yMax zMin zMax 0) as [Hwf0 Hp0].
  destruct (insert_polygons_perm fuel0 polys _ octree Hins Hwf0) as [Hwf Hperm].
  cbn [root new_octree] in Hperm. rewrite Hp0, app_nil_r in Hperm.
  destruct (compress_loop_ok fuel (root octree) [[]] 0 (compress_inv_start _ Hwf))
    as (root1 & nodes & Hc & Hinv & Hperm1).
  { change (tree_size (root octree) + 0 < fuel)%nat. lia. }
  unfold resolve_conflicts, compress_tree in Hrun. rewrite Hc in Hrun.
  cbn [root compressed] in Hrun.
  set (nodes' := sort_reverse (depth_key root1) nodes) in *.
  assert (Hsorted : Permutation nodes nodes') by apply sort_reverse_perm.
  destruct (resolve_nodes fuel root1 nodes') as [[root'|e]|] eqn:Hres; try discriminate.
  inversion Hrun; subst octree'. clear Hrun. cbn [root compressed].
  set (P := fun x => exists y, In y polys /\ fragment_of x y).
  destruct (resolve_nodes_post P) with (fuel := fuel) (todo := nodes') (root := root1)
                                       (root' := root') as [HP Hall].
  - intros plane p f b x (y & Hy & Hxy) Hcut Hx. exists y. split; [exact Hy|].
    eapply fragment_of_trans; [|exact Hxy].
    eapply cut_conflicting_fragment_of; eauto.
  - exact Hres.
  - rewrite Forall_forall. intros x Hx. exists x. split; [|apply fragment_of_refl].
    eapply Permutation_in; [|exact Hx]. now rewrite Hperm1.
  - destruct Hinv as (_ & _ & _ & _ & HA & _).
    assert (Hempty : all_unresolved_empty root').
    { intros q n Hq. specialize (Hall q). rewrite Hq in Hall.
      destruct (o_lookup root1 q) as [m|] eqn:Em; [|contradiction].
      apply Hall. left. destruct (HA q m Em) as [Hin|(p0 & Hp0' & _)].
      - exact (Permutation_in _ Hsorted Hin).
      - rewrite skipn_all in Hp0'. destruct Hp0'. }
    split; [exact Hempty|]. split; [reflexivity|].
    intros x Hx. rewrite <- (all_polys_resolved root' Hempty) in Hx.
    rewrite Forall_forall in HP. now apply HP.
Qed.

End ResolvePost.

Lemma resolve_conflicts_postcondition_witness :
  exists octree octree',
    insert_polygons 10 (new_octree 0 8 0 8 0 8) [Examples.table; Examples.ramp]
    = Some (Ok octree) /\
    resolve_conflicts (MU := exact_utils) 60 octree = Some (Ok octree') /\
    all_unresolved_empty (root octree') /\
    forall x, In x (all_resolved (root octree')) ->
              exists y, In y [Examples.table; Examples.ramp] /\ fragment_of x y.
Proof.
  destruct (insert_polygons 10 (new_octree 0 8 0 8 0 8) [Examples.table; Examples.ramp])
    as [[octree|e]|] eqn:E; try (vm_compute in E; discriminate).
  destruct (resolve_conflicts (MU := exact_utils) 60 octree) as [[octree'|e]|] eqn:R;
    try (exfalso; vm_compute in E; injection E as <-; vm_compute in R; discriminate).
  exists octree, octree'. split; [reflexivity|]. split; [exact R|].
  destruct (resolve_conflicts_postcondition (MU := exact_utils) 0 8 0 8 0 8 _ 10 60
              octree octree' E) as (H1 & _ & H2).
  - vm_compute in E. injection E as <-. vm_compute. lia.
  - exact R.
  - split; assumption.
Defined.

(** ** BSP: what the traversal emits *)

Section BSPOutput.
Context {MU : MathUtils}.

Lemma tree_inv_polys (G : ViewPolygon -> Prop)
      (C : ViewPolygon -> Z -> ViewPolygon -> Prop) (root : BSPNode) :
  tree_inv G C root -> Forall G (tree_polys root).
Proof.
  induction root as [|f IHf b IHb leaf ps]; intros H; [constructor|].
  cbn [tree_inv] in H. destruct H as (_ & HG & _ & Hf & Hb). cbn [tree_polys].
  apply Forall_app. split; [exact HG|]. apply Forall_app. auto.
Qed.

Lemma painter_order_polys (G : ViewPolygon -> Prop)
      (C : ViewPolygon -> Z -> ViewPolygon -> Prop) (root : BSPNode) (viewpoint : vec) :
  tree_inv G C root -> single_polygons root ->
  Permutation (painter_order root viewpoint) (tree_polys root).
Proof.
  induction root as [|f IHf b IHb leaf ps]; intros H Hs; [constructor|].
  cbn [tree_inv] in H. destruct H as (_ & _ & Hl & Hf & Hb).
  cbn [single_polygons] in Hs. destruct Hs as (Hlen & Hsf & Hsb).
  destruct ps as [|polygon [|? ?]]; try discriminate.
  cbn [painter_order tree_polys]. destruct leaf.
  - destruct Hl as [-> ->]. reflexivity.
  - specialize (IHf Hf Hsf). specialize (IHb Hb Hsb).
    destruct (Qltb _ 0); rewrite IHf, IHb; perm_app.
Qed.

(** X16.  For a non-empty list of polygons with vertices, with fuel for the
    cycle limit, [depth_sort_bsp] either raises [RecursionError] or returns
    a tree that holds exactly one polygon in every node; on that tree, for
    every viewpoint, the traversal raises nothing and emits the polygons in
    the painter's order: at a leaf the polygon of the leaf, at any other
    node the back subtree, the polygon, the front subtree when the
    viewpoint is in front of the plane of the polygon, and the front
    subtree, the polygon, the back subtree otherwise. *)
Theorem bsp_built_tree_traversal (fuel : nat) (view_polygons : list ViewPolygon)
        (cycle_limit : Z) :
  Forall has_verts view_polygons -> view_polygons <> [] ->
  (Z.to_nat cycle_limit < fuel)%nat ->
  depth_sort_bsp fuel view_polygons cycle_limit = Some (Raise RecursionError) \/
  exists root,
    depth_sort_bsp fuel view_polygons cycle_limit = Some (Ok root) /\
    single_polygons root /\
    forall camera_pos,
      bsp_tree_to_view_polygons root [] camera_pos = Ok (painter_order root camera_pos).
Proof.
  intros Hv Hne Hfuel.
  destruct (depth_sort_bsp_basic fuel view_polygons cycle_limit Hv Hne Hfuel)
    as [H|(root & H & Hinv & Hsingle)]; [now left|].
  right. exists root. split; [exact H|]. split; [exact Hsingle|].
  intros camera_pos.
  apply (traversal_painter_order_inv has_verts (fun _ _ _ => True) root); auto.
Qed.

(** X17.  On the tree that [depth_sort_bsp] returns for a non-empty list of
    polygons with vertices, the traversal emits, for every viewpoint, every
    polygon of the tree exactly once; each emitted polygon has at least one
    vertex and carries the depth, the colours and opacities, the normal and
    the mark of one of the polygons of the list. *)
Theorem bsp_output_fragments (fuel : nat) (view_polygons : list ViewPolygon)
        (cycle_limit : Z) (root : BSPNode) (camera_pos : vec) :
  Forall has_verts view_polygons -> view_polygons <> [] ->
  (Z.to_nat cycle_limit < fuel)%nat ->
  depth_sort_bsp fuel view_polygons cycle_limit = Some (Ok root) ->
  exists out,
    bsp_tree_to_view_polygons root [] camera_pos = Ok out /\
    Permutation out (tree_polys root) /\
    Forall (fun x => has_verts x /\
                     exists y, In y view_polygons /\ fragment_of x y) out.
Proof.
  intros Hv Hne Hfuel Hrun.
  set (G := fun x => has_verts x /\ exists y, In y view_polygons /\ fragment_of x y).
  destruct (depth_sort_bsp_ok G (fun _ _ _ => True)) with
      (fuel := fuel) (view_polygons := view_polygons) (cycle_limit := cycle_limit)
    as [H|(root' & H & Hinv & Hsingle)]; auto.
  - intros q [Hq _]. exact Hq.
  - intros plane p f b q _ [_ (y & Hy & Hpy)] Hcut Hq. split.
    + eapply has_verts_cut; eauto.
    + exists y. split; [exact Hy|]. eapply fragment_of_trans; [|exact Hpy].
      eapply cut_conflicting_fragment_of; eauto.
  - rewrite Forall_forall in *. intros x Hx. split; [auto|].
    exists x. split; [exact Hx|apply fragment_of_refl].
  - congruence.
  - rewrite Hrun in H. inversion H; subst root'.
    exists (painter_order root camera_pos). split.
    + apply (traversal_painter_order_inv G (fun _ _ _ => True) root); auto.
      intros q [Hq _]. exact Hq.
    + pose proof (painter_order_polys G _ root camera_pos Hinv Hsingle) as Hperm.
      split; [exact Hperm|].
      apply (Permutation_Forall (Permutation_sym Hperm)).
      now apply (tree_inv_polys G (fun _ _ _ => True)).
Qed.

End BSPOutput.

Lemma bsp_built_tree_traversal_witness :
  exists root,
    depth_sort_bsp (MU := exact_utils) 501
      [Examples.divider; Examples.kite; Examples.floor_tri] 500 = Some (Ok root) /\
    single_polygons root /\
    bsp_tree_to_view_polygons root [] (0, 0, 0) = Ok (painter_order root (0, 0, 0)).
Proof.
  destruct (bsp_built_tree_traversal (MU := exact_utils) 501
              [Examples.divider; Examples.kite; Examples.floor_tri] 500)
    as [H|(root & H1 & H2 & H3)].
  - repeat constructor; discriminate.
  - discriminate.
  - simpl. lia.
  - vm_compute in H. discriminate.
  - exists root. split; [exact H1|]. split; [exact H2|apply H3].
Defined.

Lemma bsp_output_fragments_witness :
  exists root out,
    depth_sort_bsp (MU := exact_utils) 501
      [Examples.divider; Examples.kite; Examples.floor_tri] 500 = Some (Ok root) /\
    bsp_tree_to_view_polygons root [] (0, 0, 0) = Ok out /\
    Permutation out (tree_polys root).
Proof.
  destruct (depth_sort_bsp (MU := exact_utils) 501
              [Examples.divider; Examples.kite; Examples.floor_tri] 500)
    as [[root|e]|] eqn:E; try (vm_compute in E; discriminate).
  destruct (bsp_output_fragments (MU := exact_utils) 501
              [Examples.divider; Examples.kite; Examples.floor_tri] 500 root (0, 0, 0))
    as (out & H1 & H2 & _).
  - repeat constructor; discriminate.
  - discriminate.
  - simpl. lia.
  - exact E.
  - exists root, out. split; [reflexivity|]. split; assumption.
Defined.

(** ** Newell's algorithm: inserting fragments *)

Lemma insert_fragment_passed (f : ViewPolygon) (fb : Bounds) (l : list ViewPolygon) :
  bounds f = Some fb -> Forall (passed_over fb) l -> insert_fragment f l = Ok l.
Proof.
  intros Hf. induction 1 as [|q l Hq _ IH]; [reflexivity|].
  cbn [insert_fragment]. destruct Hq as [Hm|(pb & Hb & Hle)].
  - rewrite Hm, IH. reflexivity.
  - destruct (marked q); [now rewrite IH|].
    unfold get_bounds. rewrite Hf, Hb. cbn [bind].
    replace (Qltb (b5 pb) (b5 fb)) with false by (symmetry; now apply Qltb_ge).
    now rewrite IH.
Qed.

Lemma insert_fragment_placed (f : ViewPolygon) (fb qb : Bounds)
      (l1 l2 : list ViewPolygon) (q : ViewPolygon) :
  bounds f = Some fb -> marked q = false -> bounds q = Some qb -> b5 qb < b5 fb ->
  Forall (passed_over fb) l1 ->
  insert_fragment f (l1 ++ q :: l2) = Ok (l1 ++ f :: q :: l2).
Proof.
  intros Hf Hm Hq Hlt. induction 1 as [|x l1 Hx _ IH]; cbn [app insert_fragment].
  - rewrite Hm. unfold get_bounds. rewrite Hf, Hq. cbn [bind].
    now replace (Qltb (b5 qb) (b5 fb)) with true by (symmetry; now apply Qltb_lt).
  - destruct Hx as [Hmx|(pb & Hb & Hle)].
    + rewrite Hmx, IH. reflexivity.
    + destruct (marked x); [now rewrite IH|].
      unfold get_bounds. rewrite Hf, Hb. cbn [bind].
      replace (Qltb (b5 pb) (b5 fb)) with false by (symmetry; now apply Qltb_ge).
      now rewrite IH.
Qed.

(** X18.  [newell_insert_fragments] puts a fragment, with its mark cleared,
    in front of the first polygon of the list that is not marked and whose
    [bounds[5]] is smaller than that of the fragment.  When the list has no
    such polygon, in particular when it is empty, the fragment is not
    inserted at all: the list stays as it is. *)
Theorem newell_insert_fragments_place :
  (forall (f q : ViewPolygon) (fb qb : Bounds) (l1 l2 : list ViewPolygon),
      bounds f = Some fb -> marked q = false -> bounds q = Some qb ->
      b5 qb < b5 fb -> Forall (passed_over fb) l1 ->
      newell_insert_fragments (l1 ++ q :: l2) (Some (Some f, None)) =
      Ok (l1 ++ set_marked f false :: q :: l2)) /\
  (forall (fa fb : ViewPolygon) (ba bb : Bounds) (l : list ViewPolygon),
      bounds fa = Some ba -> bounds fb = Some bb ->
      Forall (passed_over ba) l -> Forall (passed_over bb) l ->
      newell_insert_fragments l (Some (Some fa, Some fb)) = Ok l).
Proof.
  split.
  - intros f q fb qb l1 l2 Hf Hm Hq Hlt Hl1.
    cbn [newell_insert_fragments insert_if_fragment].
    rewrite (insert_fragment_placed (set_marked f false) fb qb l1 l2 q); auto.
  - intros fa fb ba bb l Ha Hb Hla Hlb.
    cbn [newell_insert_fragments insert_if_fragment].
    rewrite (insert_fragment_passed (set_marked fa false) ba l); auto. cbn [bind].
    now apply (insert_fragment_passed (set_marked fb false) bb l).
Qed.

Lemma newell_insert_fragments_place_witness :
  newell_insert_fragments [Examples.square3; Examples.square1]
                          (Some (Some Examples.square2, None)) =
  Ok [Examples.square3; set_marked Examples.square2 false; Examples.square1] /\
  newell_insert_fragments [] (Some (Some Examples.square1, Some Examples.square2)) =
  Ok [].
Proof.
  destruct newell_insert_fragments_place as [H1 H2]. split.
  - eapply (H1 Examples.square2 Examples.square1 _ _ [Examples.square3] []).
    + reflexivity.
    + reflexivity.
    + reflexivity.
    + vm_compute. reflexivity.
    + constructor; [|constructor]. right. eexists. split; [reflexivity|].
      vm_compute. discriminate.
  - eapply (H2 Examples.square1 Examples.square2); try reflexivity; constructor.
Defined.

(** ** Newell's algorithm on polygons that do not overlap *)

Section NewellQuiet.
Context {MU : MathUtils}.

Lemma p_obscures_q_no_overlap (p q : ViewPolygon) :
  bounds_computed p -> bounds_computed q ->
  overlaps (proj_verts p) (proj_verts q) = false ->
  p_obscures_q p q = Ok false.
Proof.
  intros Hp Hq Hov.
  destruct (bounds_computed_inv p Hp) as [Hvp [bp Hbp]].
  destruct (bounds_computed_inv q Hq) as [Hvq [bq Hbq]].
  unfold p_obscures_q, get_bounds. rewrite Hbp, Hbq. cbn [bind].
  destruct (_ || _); [reflexivity|].
  destruct (_ || _); [reflexivity|].
  destruct (relative_pos_total q p Hvq) as (k & -> & _). cbn [bind].
  destruct (k =? -1)%Z; [reflexivity|].
  destruct (relative_pos_total p q Hvp) as (k' & -> & _). cbn [bind].
  destruct (k' =? 1)%Z; [reflexivity|].
  rewrite Hov. reflexivity.
Qed.

Lemma newell_scan_quiet (polygon_p : ViewPolygon) (view_polygons : list ViewPolygon) :
  bounds_computed polygon_p ->
  forall rest i,
    Forall bounds_computed rest ->
    Forall (projections_apart polygon_p) rest ->
    newell_scan polygon_p view_polygons i rest = Ok None.
Proof.
  intros Hp. destruct (bounds_computed_inv polygon_p Hp) as [_ [bp Hbp]].
  induction rest as [|q rest IH]; intros i Hb Ha; [reflexivity|].
  inversion Hb as [|? ? Hq Hb']; subst. inversion Ha as [|? ? Hpq Ha']; subst.
  destruct (bounds_computed_inv q Hq) as [_ [bq Hbq]].
  cbn [newell_scan]. unfold get_bounds at 1 2. rewrite Hbp, Hbq. cbn [bind].
  destruct (Qltb (b4 bp) (b5 bq)).
  - rewrite (p_obscures_q_no_overlap polygon_p q Hp Hq (proj1 Hpq)). cbn [bind negb].
    now apply IH.
  - destruct (marked q); [now apply IH|reflexivity].
Qed.

Lemma newell_loop_quiet :
  forall fuel view_polygons sorted_polygons,
    (List.length view_polygons < fuel)%nat ->
    Forall bounds_computed view_polygons ->
    no_two_overlap view_polygons ->
    newell_loop fuel view_polygons sorted_polygons =
    Some (Ok (sorted_polygons ++ view_polygons)).
Proof.
  induction fuel as [|fuel IH]; intros l sorted Hfuel Hb Ho; [lia|].
  cbn [newell_loop]. destruct l as [|p rest]; [now rewrite app_nil_r|].
  inversion Hb as [|? ? Hp Hb']; subst. cbn [no_two_overlap] in Ho.
  destruct Ho as [Ha Ho'].
  rewrite (newell_scan_quiet p (p :: rest) Hp rest 0 Hb' Ha).
  cbn [List.length] in Hfuel. rewrite (IH rest (sorted ++ [p])) by (auto; lia).
  now rewrite <- app_assoc.
Qed.

(** X19.  On polygons with computed bounding boxes of which no two have
    overlapping 2D projections, and with fuel above the number of polygons,
    [depth_sort_newell] cuts and marks nothing: it returns the list that
    [depth_sort_bb_depth] produces with the furthest-vertex heuristic, that
    is, the polygons in descending order of [bounds[5]], polygons with equal
    [bounds[5]] in their input order. *)
Theorem depth_sort_newell_no_overlap (fuel : nat) (view_polygons : list ViewPolygon) :
  Forall bounds_computed view_polygons ->
  no_two_overlap view_polygons ->
  (List.length view_polygons < fuel)%nat ->
  exists sorted_polygons,
    depth_sort_newell fuel view_polygons = Some (Ok sorted_polygons) /\
    depth_sort_bb_depth view_polygons "heuristic.bbmax" = Ok sorted_polygons /\
    Permutation view_polygons sorted_polygons /\
    StronglySorted (fun a b => heuristic_key "heuristic.bbmax" b <=
                               heuristic_key "heuristic.bbmax" a) sorted_polygons /\
    (forall k, filter (fun p => Qeq_bool (heuristic_key "heuristic.bbmax" p) k)
                      sorted_polygons =
               filter (fun p => Qeq_bool (heuristic_key "heuristic.bbmax" p) k)
                      view_polygons).
Proof.
  intros Hb Ho Hfuel.
  set (K := heuristic_key "heuristic.bbmax").
  assert (Hsort : sort_by_key key_bbmax view_polygons = Ok (sort_reverse K view_polygons)).
  { apply sort_by_key_total. eapply Forall_impl; [|exact Hb]. intros p Hp.
    destruct (bounds_computed_inv p Hp) as [_ [b Hbp]].
    unfold key_bbmax, get_bounds, K, heuristic_key. rewrite Hbp. reflexivity. }
  pose proof (sort_reverse_perm K view_polygons) as Hperm.
  exists (sort_reverse K view_polygons). split; [|split; [|split; [|split]]].
  - unfold depth_sort_newell. rewrite Hsort.
    rewrite newell_loop_quiet; [reflexivity| | |].
    + now rewrite <- (Permutation_length Hperm).
    + exact (Permutation_Forall Hperm Hb).
    + exact (no_two_overlap_perm _ _ Hperm Ho).
  - exact Hsort.
  - exact Hperm.
  - apply sort_reverse_sorted.
  - intros k. apply sort_reverse_stable.
Qed.

End NewellQuiet.

Lemma depth_sort_newell_no_overlap_witness :
  exists sorted_polygons,
    depth_sort_newell (MU := exact_utils) 4
      [Examples.square1; Examples.square2; Examples.square3] = Some (Ok sorted_polygons) /\
    depth_sort_bb_depth [Examples.square1; Examples.square2; Examples.square3]
                        "heuristic.bbmax" = Ok sorted_polygons.
Proof.
  destruct (depth_sort_newell_no_overlap (MU := exact_utils) 4
              [Examples.square1; Examples.square2; Examples.square3])
    as (sorted & H1 & H2 & _).
  - repeat constructor.
  - cbn [no_two_overlap]. repeat (split || constructor).
  - simpl. lia.
  - exists sorted. split; assumption.
Defined.

(** ** Newell's algorithm: halving a polygon *)

(** Every vertex is the [next_vert] of one iteration of a clipping loop. *)
Lemma next_vert_of (verts_2d : list vec) (v : vec) :
  In v verts_2d ->
  exists i, (i < List.length verts_2d)%nat /\
            list_index verts_2d ((Z.of_nat i + 1) mod Z.of_nat (List.length verts_2d))
            = Ok v.
Proof.
  intros Hin. apply In_nth_error in Hin. destruct Hin as [j Hj].
  assert (Hlt : (j < List.length verts_2d)%nat) by (apply nth_error_Some; congruence).
  destruct j as [|j].
  - exists (List.length verts_2d - 1)%nat. split; [lia|].
    replace (Z.of_nat (List.length verts_2d - 1) + 1)%Z
      with (Z.of_nat (List.length verts_2d)) by lia.
    rewrite Z.mod_same by lia. now apply (list_index_nth verts_2d 0).
  - exists j. split; [lia|].
    replace (Z.of_nat j + 1)%Z with (Z.of_nat (S j)) by lia.
    rewrite Z.mod_small by lia. now apply list_index_nth.
Qed.

Section ClipKeeps.
Variable inside : Q -> bool.
Variable coord : vec -> Q.
Variable intersect : vec -> vec -> result vec.

(** A clipping loop keeps what was appended before and appends every
    [next_vert] that passes the comparison of the loop. *)
Lemma clip_loop_keeps (verts_2d : list vec) :
  forall todo index clipped out,
    clip_loop inside coord intersect verts_2d index todo clipped = Ok out ->
    incl clipped out /\
    forall i v,
      (index <= i < index + List.length todo)%nat ->
      list_index verts_2d ((Z.of_nat i + 1) mod Z.of_nat (List.length verts_2d)) = Ok v ->
      inside (coord v) = true -> In v out.
Proof.
  induction todo as [|vert rest IH]; intros index clipped out H.
  - inversion H; subst. split; [apply incl_refl|]. cbn [List.length]. intros; lia.
  - cbn [clip_loop] in H.
    destruct (list_index verts_2d
                ((Z.of_nat index + 1) mod Z.of_nat (List.length verts_2d)))
      as [next_vert|e] eqn:En; [|discriminate]. cbn [bind] in H.
    assert (Hgen : forall clipped',
               clip_loop inside coord intersect verts_2d (S index) rest clipped' = Ok out ->
               incl clipped clipped' ->
               (inside (coord next_vert) = true -> In next_vert clipped') ->
               incl clipped out /\
               forall i v,
                 (index <= i < index + List.length (vert :: rest))%nat ->
                 list_index verts_2d
                   ((Z.of_nat i + 1) mod Z.of_nat (List.length verts_2d)) = Ok v ->
                 inside (coord v) = true -> In v out).
    { intros clipped' Hrun Hincl Hnext. destruct (IH _ _ _ Hrun) as [Hi Hall].
      split; [eapply incl_tran; eauto|].
      intros i v Hrange Hv Hins. cbn [List.length] in Hrange.
      destruct (Nat.eq_dec i index) as [->|Hne].
      - rewrite En in Hv. inversion Hv; subst v. apply Hi. now apply Hnext.
      - apply (Hall i v); [lia|exact Hv|exact Hins]. }
    destruct (inside (coord vert)) eqn:E0; destruct (inside (coord next_vert)) eqn:E1;
      cbn [andb negb] in H.
    + apply (Hgen _ H); [apply incl_appl, incl_refl|].
      intros _. apply in_or_app. right. now left.
    + destruct (intersect vert next_vert) as [cut|e]; [|discriminate]. cbn [bind] in H.
      apply (Hgen _ H); [apply incl_appl, incl_refl|discriminate].
    + destruct (intersect vert next_vert) as [cut|e]; [|discriminate]. cbn [bind] in H.
      apply (Hgen _ H); [apply incl_appl, incl_refl|].
      intros _. apply in_or_app. right. right. now left.
    + apply (Hgen _ H); [apply incl_refl|discriminate].
Qed.

Lemma clip_pass_keeps (verts_2d out : list vec) (v : vec) :
  clip_pass inside coord intersect verts_2d = Ok out ->
  In v verts_2d -> inside (coord v) = true -> In v out.
Proof.
  intros H Hin Hins. unfold clip_pass in H.
  destruct (clip_loop_keeps verts_2d _ _ _ _ H) as [_ Hall].
  destruct (next_vert_of verts_2d v Hin) as (i & Hi & Hv).
  apply (Hall i v); [lia|exact Hv|exact Hins].
Qed.

End ClipKeeps.

(** The two clipping loops of one branch of [newell_half]. *)
Lemma clip_halves (coord : vec -> Q) (intersect : Q -> vec -> vec -> result vec)
      (vs : list vec) (lo hi : Q) :
  (forall val v0 v1, ~ coord v1 - coord v0 == 0 ->
                     exists cut, intersect val v0 v1 = Ok cut /\ coord cut = val) ->
  (exists v, In v vs /\ coord v = lo) ->
  (exists v, In v vs /\ coord v = hi) ->
  lo <= hi ->
  exists new_a new_b,
    clip_pass (fun c => Qle_bool c (lo + (hi - lo) / 2)) coord
              (intersect (lo + (hi - lo) / 2)) vs = Ok new_a /\
    clip_pass (fun c => Qle_bool (lo + (hi - lo) / 2) c) coord
              (intersect (lo + (hi - lo) / 2)) vs = Ok new_b /\
    new_a <> [] /\ new_b <> [] /\
    Forall (fun v => coord v <= lo + (hi - lo) / 2) new_a /\
    Forall (fun v => lo + (hi - lo) / 2 <= coord v) new_b.
Proof.
  intros Hhit (vlo & Hinlo & Hlo) (vhi & Hinhi & Hhi) Hle.
  set (mid := lo + (hi - lo) / 2).
  assert (Hmid : lo <= mid /\ mid <= hi).
  { unfold mid. split.
    - assert (0 <= (hi - lo) / 2) by (apply Qle_shift_div_l; lra). lra.
    - assert ((hi - lo) / 2 <= hi - lo) by (apply Qle_shift_div_r; lra). lra. }
  destruct (clip_pass_inside (fun c => Qle_bool c mid) coord (intersect mid)
              (fun _ => True)) with (verts_2d := vs) as (new_a & Ha & HFa).
  { intros v0 v1 _ _ Hne. destruct (sides_of_max _ _ _ Hne) as (_ & Hd & _).
    destruct (Hhit mid v0 v1 Hd) as (cut & Hc & Hcoord).
    exists cut. split; [exact Hc|]. split; [exact I|]. rewrite Hcoord.
    apply Qle_bool_refl. }
  { rewrite Forall_forall. auto. }
  destruct (clip_pass_inside (fun c => Qle_bool mid c) coord (intersect mid)
              (fun _ => True)) with (verts_2d := vs) as (new_b & Hb & HFb).
  { intros v0 v1 _ _ Hne. destruct (sides_of_min _ _ _ Hne) as (_ & Hd).
    destruct (Hhit mid v0 v1 Hd) as (cut & Hc & Hcoord).
    exists cut. split; [exact Hc|]. split; [exact I|]. rewrite Hcoord.
    apply Qle_bool_refl. }
  { rewrite Forall_forall. auto. }
  exists new_a, new_b. split; [exact Ha|]. split; [exact Hb|].
  split; [|split; [|split]].
  - intros E. subst new_a.
    apply (clip_pass_keeps _ _ _ vs [] vlo Ha Hinlo).
    apply Qle_bool_iff. rewrite Hlo. tauto.
  - intros E. subst new_b.
    apply (clip_pass_keeps _ _ _ vs [] vhi Hb Hinhi).
    apply Qle_bool_iff. rewrite Hhi. tauto.
  - eapply Forall_impl; [|exact HFa]. cbn beta. intros v [_ H].
    now apply Qle_bool_iff in H.
  - eapply Forall_impl; [|exact HFb]. cbn beta. intros v [_ H].
    now apply Qle_bool_iff in H.
Qed.

Lemma bounds_computed_tight (p : ViewPolygon) (b : Bounds) :
  bounds_computed p -> bounds p = Some b -> tight_box b (verts p).
Proof.
  unfold bounds_computed. destruct (verts p) as [|v0 rest]; [contradiction|].
  intros H Hb. rewrite H in Hb. inversion Hb; subst b. apply fold_bounds_tight.
Qed.

Lemma recalculate_bounds_computed (p : ViewPolygon) (vs : list vec) :
  vs <> [] ->
  exists p', recalculate_bounds (set_verts p vs) = Ok p' /\
             verts p' = vs /\ fragment_of p' p /\ bounds_computed p'.
Proof.
  intros Hne. destruct vs as [|v0 rest]; [congruence|].
  unfold recalculate_bounds. cbn [set_verts verts].
  change (list_index (v0 :: rest) 0) with (Ok (A := vec) v0). cbn [bind].
  eexists. split; [reflexivity|]. split; [reflexivity|].
  split; [repeat split|]. unfold bounds_computed. reflexivity.
Qed.

Lemma intersect_on_x_hits (val : Q) (v0 v1 : vec) :
  ~ vx v1 - vx v0 == 0 -> exists cut, intersect_on_x val v0 v1 = Ok cut /\ vx cut = val.
Proof.
  intros Hd. unfold intersect_on_x. rewrite !py_div_ok by exact Hd. cbn [bind].
  eexists. split; reflexivity.
Qed.

Lemma intersect_on_y_hits (val : Q) (v0 v1 : vec) :
  ~ vy v1 - vy v0 == 0 -> exists cut, intersect_on_y val v0 v1 = Ok cut /\ vy cut = val.
Proof.
  intros Hd. unfold intersect_on_y. rewrite !py_div_ok by exact Hd. cbn [bind].
  eexists. split; reflexivity.
Qed.

Lemma intersect_on_z_hits (val : Q) (v0 v1 : vec) :
  ~ vz v1 - vz v0 == 0 -> exists cut, intersect_on_z val v0 v1 = Ok cut /\ vz cut = val.
Proof.
  intros Hd. unfold intersect_on_z. rewrite !py_div_ok by exact Hd. cbn [bind].
  eexists. split; reflexivity.
Qed.

(** X20.  On a polygon with a computed bounding box [newell_half] raises no
    error (no empty half, no division by zero).  It halves the polygon at
    the middle of the box along an axis on which the box is longest: the
    vertices of the first fragment lie at or below the middle on that axis,
    those of the second at or above it.  Both fragments have at least one
    vertex and a recalculated bounding box, and keep the depth, the colours
    and opacities, the normal and the mark of the polygon. *)
Theorem newell_half_splits (p : ViewPolygon) :
  bounds_computed p ->
  exists b fragment_a fragment_b coord lo hi,
    bounds p = Some b /\
    newell_half p = Ok (fragment_a, fragment_b) /\
    In (coord, lo, hi) [(vx, b0 b, b1 b); (vy, b2 b, b3 b); (vz, b4 b, b5 b)] /\
    (b1 b - b0 b <= hi - lo /\ b3 b - b2 b <= hi - lo /\ b5 b - b4 b <= hi - lo) /\
    Forall (fun v => coord v <= lo + (hi - lo) / 2) (verts fragment_a) /\
    Forall (fun v => lo + (hi - lo) / 2 <= coord v) (verts fragment_b) /\
    fragment_of fragment_a p /\ fragment_of fragment_b p /\
    bounds_computed fragment_a /\ bounds_computed fragment_b.
Proof.
  intros Hp. destruct (bounds_computed_inv p Hp) as [_ [b Hb]].
  destruct (bounds_computed_tight p b Hp Hb)
    as (_ & Hx0 & Hx1 & Hy0 & Hy1 & Hz0 & Hz1).
  destruct (bounds_computed_ordered p b Hp Hb) as (Hox & Hoy & Hoz).
  assert (Hfinish : forall coord lo hi new_a new_b,
             new_a <> [] -> new_b <> [] ->
             Forall (fun v => coord v <= lo + (hi - lo) / 2) new_a ->
             Forall (fun v => lo + (hi - lo) / 2 <= coord v) new_b ->
             exists fragment_a fragment_b,
               (fragment_a <- recalculate_bounds (set_verts p new_a) ;;
                fragment_b <- recalculate_bounds (set_verts p new_b) ;;
                Ok (fragment_a, fragment_b)) = Ok (fragment_a, fragment_b) /\
               Forall (fun v => coord v <= lo + (hi - lo) / 2) (verts fragment_a) /\
               Forall (fun v => lo + (hi - lo) / 2 <= coord v) (verts fragment_b) /\
               fragment_of fragment_a p /\ fragment_of fragment_b p /\
               bounds_computed fragment_a /\ bounds_computed fragment_b).
  { intros coord lo hi new_a new_b Ha Hb' HFa HFb.
    destruct (recalculate_bounds_computed p new_a Ha) as (fa & -> & Hva & Hfa & Hca).
    destruct (recalculate_bounds_computed p new_b Hb') as (fb & -> & Hvb & Hfb & Hcb).
    cbn [bind]. exists fa, fb. rewrite Hva, Hvb.
    split; [reflexivity|]. split; [exact HFa|]. split; [exact HFb|].
    split; [exact Hfa|]. split; [exact Hfb|]. split; assumption. }
  unfold newell_half, get_bounds. rewrite Hb. cbn [bind].
  destruct (Qltb (b1 b - b0 b) (b5 b - b4 b) && Qltb (b3 b - b2 b) (b5 b - b4 b)) eqn:Ez.
  - apply andb_true_iff in Ez. destruct Ez as [E1 E2].
    apply Qltb_lt in E1, E2.
    destruct (clip_halves vz intersect_on_z (verts p) (b4 b) (b5 b))
      as (new_a & new_b & -> & -> & Ha & Hb' & HFa & HFb); auto.
    { intros. now apply intersect_on_z_hits. }
    cbn [bind].
    destruct (Hfinish vz (b4 b) (b5 b) new_a new_b Ha Hb' HFa HFb)
      as (fa & fb & -> & H1 & H2 & H3 & H4 & H5 & H6).
    exists b, fa, fb, vz, (b4 b), (b5 b). split; [reflexivity|].
    split; [reflexivity|]. split; [cbn; tauto|].
    split; [repeat split; lra|]. tauto.
  - destruct (Qltb (b1 b - b0 b) (b3 b - b2 b)) eqn:Ey.
    + apply Qltb_lt in Ey.
      assert (Hzy : b5 b - b4 b <= b3 b - b2 b).
      { apply andb_false_iff in Ez. destruct Ez as [E|E]; apply Qltb_ge in E; lra. }
      destruct (clip_halves vy intersect_on_y (verts p) (b2 b) (b3 b))
        as (new_a & new_b & -> & -> & Ha & Hb' & HFa & HFb); auto.
      { intros. now apply intersect_on_y_hits. }
      cbn [bind].
      destruct (Hfinish vy (b2 b) (b3 b) new_a new_b Ha Hb' HFa HFb)
        as (fa & fb & -> & H1 & H2 & H3 & H4 & H5 & H6).
      exists b, fa, fb, vy, (b2 b), (b3 b). split; [reflexivity|].
      split; [reflexivity|]. split; [cbn; tauto|].
      split; [repeat split; lra|]. tauto.
    + apply Qltb_ge in Ey.
      assert (Hzx : b5 b - b4 b <= b1 b - b0 b).
      { apply andb_false_iff in Ez. destruct Ez as [E|E]; apply Qltb_ge in E; lra. }
      destruct (clip_halves vx intersect_on_x (verts p) (b0 b) (b1 b))
        as (new_a & new_b & -> & -> & Ha & Hb' & HFa & HFb); auto.
      { intros. now apply intersect_on_x_hits. }
      cbn [bind].
      destruct (Hfinish vx (b0 b) (b1 b) new_a new_b Ha Hb' HFa HFb)
        as (fa & fb & -> & H1 & H2 & H3 & H4 & H5 & H6).
      exists b, fa, fb, vx, (b0 b), (b1 b). split; [reflexivity|].
      split; [reflexivity|]. split; [cbn; tauto|].
      split; [repeat split; lra|]. tauto.
Qed.

Lemma newell_half_splits_witness :
  exists fragment_a fragment_b,
    newell_half Examples.ramp = Ok (fragment_a, fragment_b) /\
    bounds_computed fragment_a /\ bounds_computed fragment_b.
Proof.
  destruct (newell_half_splits Examples.ramp)
    as (b & fa & fb & coord & lo & hi & _ & H & _ & _ & _ & _ & _ & _ & Ha & Hb).
  - repeat constructor.
  - exists fa, fb. split; [exact H|]. split; assumption.
Defined.

(** ** Octree: the boxes of the nodes *)

Lemma octants_unfold (n : OctreeNode) :
  octants n <-> box_ordered (node_bounds n) /\ children_octants n (children n).
Proof.
  destruct n as [b d cs u r nd]. cbn [octants node_bounds children].
  unfold children_octants, octant_of. cbn [node_bounds node_depth].
  assert (H : forall l,
             (fix all (l : list (option OctreeNode)) : Prop :=
                match l with
                | [] => True
                | None :: l' => all l'
                | Some ch :: l' =>
                    ((node_depth ch = (d + 1)%Z /\
                      box_within (node_bounds ch) b /\
                      (b1 (node_bounds ch) - b0 (node_bounds ch)) * 2 == b1 b - b0 b /\
                      (b3 (node_bounds ch) - b2 (node_bounds ch)) * 2 == b3 b - b2 b /\
                      (b5 (node_bounds ch) - b4 (node_bounds ch)) * 2 == b5 b - b4 b) /\
                     octants ch) /\ all l'
                end) l <->
             Forall (fun c => match c with
                              | Some ch =>
                                  (node_depth ch = (d + 1)%Z /\
                                   box_within (node_bounds ch) b /\
                                   (b1 (node_bounds ch) - b0 (node_bounds ch)) * 2
                                   == b1 b - b0 b /\
                                   (b3 (node_bounds ch) - b2 (node_bounds ch)) * 2
                                   == b3 b - b2 b /\
                                   (b5 (node_bounds ch) - b4 (node_bounds ch)) * 2
                                   == b5 b - b4 b) /\
                                  octants ch
                              | None => True
                              end) l).
  { induction l as [|c l IH]; [split; auto|].
    destruct c as [ch|]; rewrite IH; split.
    - intros [H1 H2]. now constructor.
    - intros H. inversion H. auto.
    - intros H. now constructor.
    - intros H. now inversion H. }
  rewrite H. tauto.
Qed.

Lemma children_octants_same (n n' : OctreeNode) (cs : list (option OctreeNode)) :
  node_bounds n' = node_bounds n -> node_depth n' = node_depth n ->
  children_octants n cs -> children_octants n' cs.
Proof.
  intros Hb Hd H. unfold children_octants, octant_of in *. now rewrite Hb, Hd.
Qed.

Lemma children_octants_update (parent : OctreeNode) (cs : list (option OctreeNode))
      (k : nat) (c c' : OctreeNode) (f : option OctreeNode -> option OctreeNode) :
  children_octants parent cs -> nth_error cs k = Some (Some c) -> f (Some c) = Some c' ->
  node_bounds c' = node_bounds c -> node_depth c' = node_depth c -> octants c' ->
  children_octants parent (update_nth cs k f).
Proof.
  intros Hcs Hk Hf Hb Hd Ho. rewrite (update_nth_at cs k (Some c) f Hk), Hf.
  unfold children_octants in *.
  rewrite (nth_error_split_at cs k (Some c) Hk) in Hcs.
  destruct (proj1 (Forall_app _ _ _) Hcs) as [Ha Hrest].
  apply Forall_cons_iff in Hrest. destruct Hrest as [[Hoct _] Hafter].
  apply Forall_app. split; [exact Ha|]. constructor; [|exact Hafter].
  split; [|exact Ho]. unfold octant_of in *. now rewrite Hb, Hd.
Qed.

Lemma children_octants_nth (parent : OctreeNode) (cs : list (option OctreeNode))
      (k : nat) (c : OctreeNode) :
  children_octants parent cs -> nth_error cs k = Some (Some c) ->
  octant_of c parent /\ octants c.
Proof.
  intros Hcs Hk. unfold children_octants in Hcs. rewrite Forall_forall in Hcs.
  apply (Hcs (Some c)). eapply nth_error_In; eauto.
Qed.

Lemma octants_append (x : ViewPolygon) (n : OctreeNode) :
  octants n -> octants (append_unresolved x n).
Proof.
  rewrite !octants_unfold. destruct n as [b d cs u r nd].
  unfold append_unresolved, set_unresolved.
  cbn [node_bounds node_depth children unresolved resolved nondivided].
  intros [H1 H2]. split; [exact H1|]. eapply children_octants_same; eauto.
Qed.

Lemma subdivide_move_octants (parent : OctreeNode) (n : nat) :
  forall i unres cs unres' cs',
    subdivide_move n i unres cs = Ok (unres', cs') ->
    children_octants parent cs -> children_octants parent cs'.
Proof.
  induction n as [|n IH]; intros i unres cs unres' cs' H Hcs.
  - now inversion H; subst.
  - cbn [subdivide_move] in H.
    destruct (nth_error unres i) as [polygon|]; [|now inversion H; subst].
    destruct (first_containing cs polygon 0) as [[k|]|e] eqn:Ef; cbn [bind] in H;
      [| now apply IH in H | discriminate].
    destruct (first_containing_some cs polygon 0 k Ef) as (child & _ & Hk).
    rewrite Nat.sub_0_r in Hk.
    destruct (children_octants_nth parent cs k child Hcs Hk) as [_ Ho].
    apply IH in H; [exact H|].
    apply (children_octants_update parent cs k child (append_unresolved polygon child));
      auto; try (now destruct child); now apply octants_append.
Qed.

Lemma new_child_octant (parent : OctreeNode) (x0 x1 y0 y1 z0 z1 : Q) :
  box_within (mkBounds x0 x1 y0 y1 z0 z1) (node_bounds parent) ->
  (x1 - x0) * 2 == b1 (node_bounds parent) - b0 (node_bounds parent) ->
  (y1 - y0) * 2 == b3 (node_bounds parent) - b2 (node_bounds parent) ->
  (z1 - z0) * 2 == b5 (node_bounds parent) - b4 (node_bounds parent) ->
  box_ordered (node_bounds parent) ->
  octant_of (new_octree_node x0 x1 y0 y1 z0 z1 (node_depth parent + 1)) parent /\
  octants (new_octree_node x0 x1 y0 y1 z0 z1 (node_depth parent + 1)).
Proof.
  intros Hw Hx Hy Hz (Ox & Oy & Oz). split.
  - unfold octant_of, new_octree_node. cbn [node_depth node_bounds b0 b1 b2 b3 b4 b5].
    tauto.
  - apply octants_unfold. unfold new_octree_node.
    cbn [node_bounds children]. split.
    + unfold box_ordered. cbn [b0 b1 b2 b3 b4 b5]. repeat split; lra.
    + repeat constructor.
Qed.

Lemma subdivide_octants (self self' : OctreeNode) :
  subdivide self = Ok self' -> box_ordered (node_bounds self) ->
  node_bounds self' = node_bounds self /\ node_depth self' = node_depth self /\
  octants self'.
Proof.
  intros H Hord. unfold subdivide in H.
  match type of H with
  | context [subdivide_move ?n ?i ?u ?cs] =>
      destruct (subdivide_move n i u cs) as [[unres cs']|e] eqn:E;
      cbn [bind] in H; [|discriminate];
      apply (subdivide_move_octants self) in E
  end.
  - inversion H; subst self'. clear H. cbn [node_bounds node_depth].
    split; [reflexivity|]. split; [reflexivity|]. apply octants_unfold.
    cbn [node_bounds children]. split; [exact Hord|].
    eapply children_octants_same; [| |exact E]; reflexivity.
  - destruct Hord as (Ox & Oy & Oz).
    set (b := node_bounds self) in *.
    assert (Hxh : (b1 b + b0 b) / 2 * 2 == b1 b + b0 b) by field.
    assert (Hyh : (b3 b + b2 b) / 2 * 2 == b3 b + b2 b) by field.
    assert (Hzh : (b5 b + b4 b) / 2 * 2 == b5 b + b4 b) by field.
    unfold children_octants.
    repeat (apply Forall_cons;
            [apply new_child_octant; fold b;
             [unfold box_within; cbn [b0 b1 b2 b3 b4 b5]; repeat split; lra
             |lra|lra|lra|unfold box_ordered; tauto]|]).
    apply Forall_nil.
Qed.

Lemma add_polygon_octants (fuel : nat) :
  forall self vp self',
    add_polygon fuel self vp = Some (Ok self') -> octants self ->
    octants self' /\ node_bounds self' = node_bounds self /\
    node_depth self' = node_depth self.
Proof.
  induction fuel as [|fuel IH]; intros self vp self' H Ho; [discriminate|].
  assert (Happend : forall node,
             octants node ->
             octants (append_unresolved vp node) /\
             node_bounds (append_unresolved vp node) = node_bounds node /\
             node_depth (append_unresolved vp node) = node_depth node).
  { intros node Hn. split; [now apply octants_append|]. now destruct node. }
  assert (Hdescend : forall node,
             octants node ->
             match first_containing (children node) vp 0 with
             | Raise e => Some (Raise e)
             | Ok (Some k) =>
                 match nth_error (children node) k with
                 | Some (Some child) =>
                     match add_polygon fuel child vp with
                     | None => None
                     | Some (Raise e) => Some (Raise e)
                     | Some (Ok child') =>
                         Some (Ok (set_children node
                                     (update_nth (children node) k (fun _ => Some child'))))
                     end
                 | _ => Some (Raise AttributeError)
                 end
             | Ok None => Some (Ok (append_unresolved vp node))
             end = Some (Ok self') ->
             octants self' /\ node_bounds self' = node_bounds node /\
             node_depth self' = node_depth node).
  { intros node Hnode Hd.
    destruct (first_containing (children node) vp 0) as [[k|]|e] eqn:Ef; [| |discriminate].
    - destruct (first_containing_some _ _ _ _ Ef) as (child & _ & Hk).
      rewrite Nat.sub_0_r in Hk. rewrite Hk in Hd.
      destruct (add_polygon fuel child vp) as [[child'|e]|] eqn:Ea; try discriminate.
      inversion Hd; subst self'. clear Hd.
      apply octants_unfold in Hnode. destruct Hnode as [Hord Hcs].
      destruct (children_octants_nth node _ k child Hcs Hk) as [_ Hoc].
      destruct (IH child vp child' Ea Hoc) as (Ho' & Hb' & Hd').
      split; [|now destruct node]. apply octants_unfold.
      destruct node as [b d cs u r nd]. unfold set_children.
      cbn [node_bounds node_depth children unresolved resolved nondivided] in *.
      split; [exact Hord|].
      eapply children_octants_same;
        [| |apply (children_octants_update _ cs k child child'); eauto];
        reflexivity.
    - inversion Hd; subst self'. now apply Happend. }
  cbn [add_polygon] in H.
  destruct (nondivided self) eqn:End.
  - destruct (List.length (unresolved self) =? 0)%nat.
    + inversion H; subst self'. now apply Happend.
    + destruct (subdivide self) as [self1|e] eqn:Es; [|discriminate].
      destruct (subdivide_octants self self1 Es) as (Hb1 & Hd1 & Ho1).
      { now apply octants_unfold in Ho. }
      destruct (Hdescend self1 Ho1 H) as (Ho' & Hb' & Hd').
      split; [exact Ho'|]. split; congruence.
  - now apply Hdescend.
Qed.

Lemma insert_polygons_octants (fuel : nat) (polys : list ViewPolygon) :
  forall octree octree',
    insert_polygons fuel octree polys = Some (Ok octree') ->
    octants (root octree) ->
    octants (root octree') /\ node_bounds (root octree') = node_bounds (root octree) /\
    node_depth (root octree') = node_depth (root octree).
Proof.
  induction polys as [|vp polys IH]; intros octree octree' H Ho.
  - inversion H; subst. auto.
  - cbn [insert_polygons] in H. unfold insert_polygon in H.
    destruct (compressed octree); [discriminate|].
    destruct (add_polygon fuel (root octree) vp) as [[root1|e]|] eqn:Ea; try discriminate.
    destruct (add_polygon_octants fuel _ _ _ Ea Ho) as (Ho1 & Hb1 & Hd1).
    destruct (IH _ _ H Ho1) as (Ho' & Hb' & Hd'). cbn [root] in *.
    split; [exact Ho'|]. split; congruence.
Qed.


Lemma box_within_trans (a b c : Bounds) :
  box_within a b -> box_within b c -> box_within a c.
Proof. unfold box_within. intros. repeat split; lra. Qed.

Lemma octants_lookup (q : opath) :
  forall root n,
    octants root -> o_lookup root q = Some n ->
    octants n /\
    node_depth n = (node_depth root + Z.of_nat (List.length q))%Z /\
    box_within (node_bounds n) (node_bounds root).
Proof.
  induction q as [|k q IH]; intros root n Ho H.
  - cbn [o_lookup] in H. inversion H; subst n. split; [exact Ho|].
    cbn [List.length Z.of_nat]. split; [lia|].
    unfold box_within; repeat split; apply Qle_refl.
  - cbn [o_lookup] in H.
    destruct (nth_error (children root) k) as [[c|]|] eqn:Ek; try discriminate.
    pose proof (proj1 (octants_unfold root) Ho) as [_ Hcs].
    destruct (children_octants_nth root _ k c Hcs Ek) as [Hoct Hoc].
    destruct (IH c n Hoc H) as (Hn & Hd & Hw).
    destruct Hoct as (Hd1 & Hw1 & _).
    split; [exact Hn|]. split; [rewrite Hd, Hd1; cbn [List.length]; lia|].
    eapply box_within_trans; eauto.
Qed.

(** X21.  In an octree built by insertion into a new octree whose bounds
    have the minimum at or below the maximum on every axis, a node reached
    by [k] child steps from the root has depth [k] and a box with the
    minimum at or below the maximum on every axis; the box of a node lies
    within the box of every node above it, so within the box of the root. *)
Theorem octree_boxes_nested (xMin xMax yMin yMax zMin zMax : Q)
        (polys : list ViewPolygon) (fuel : nat) (octree : Octree)
        (q r : opath) (a n : OctreeNode) :
  xMin <= xMax -> yMin <= yMax -> zMin <= zMax ->
  insert_polygons fuel (new_octree xMin xMax yMin yMax zMin zMax) polys
  = Some (Ok octree) ->
  o_lookup (root octree) q = Some a ->
  o_lookup a r = Some n ->
  node_depth a = Z.of_nat (List.length q) /\
  node_depth n = Z.of_nat (List.length q + List.length r) /\
  box_ordered (node_bounds n) /\
  box_within (node_bounds n) (node_bounds a) /\
  box_within (node_bounds a) (mkBounds xMin xMax yMin yMax zMin zMax).
Proof.
  intros Hx Hy Hz Hins Ha Hn.
  assert (Ho0 : octants (root (new_octree xMin xMax yMin yMax zMin zMax))).
  { apply octants_unfold. cbn [root new_octree new_octree_node node_bounds children].
    split; [unfold box_ordered; cbn [b0 b1 b2 b3 b4 b5]; tauto|repeat constructor]. }
  destruct (insert_polygons_octants fuel polys _ _ Hins Ho0) as (Ho & Hb & Hd).
  destruct (octants_lookup q _ a Ho Ha) as (Hoa & Hda & Hwa).
  destruct (octants_lookup r _ n Hoa Hn) as (Hon & Hdn & Hwn).
  rewrite Hb in Hwa. rewrite Hd in Hda.
  cbn [root new_octree new_octree_node node_bounds node_depth] in Hwa, Hda.
  split; [lia|]. split; [lia|].
  split; [now apply octants_unfold in Hon|]. split; assumption.
Qed.

Lemma octree_boxes_nested_witness :
  exists octree a n,
    insert_polygons 10 (new_octree 0 8 0 8 0 4)
      [Examples.square1; Examples.square2; Examples.square3] = Some (Ok octree) /\
    o_lookup (root octree) [0]%nat = Some a /\
    o_lookup a [0]%nat = Some n /\
    node_depth n = 2%Z /\
    box_within (node_bounds n) (node_bounds a).
Proof.
  destruct (insert_polygons 10 (new_octree 0 8 0 8 0 4)
              [Examples.square1; Examples.square2; Examples.square3])
    as [[octree|e]|] eqn:E; try (vm_compute in E; discriminate).
  destruct (o_lookup (root octree) [0]%nat) as [a|] eqn:Ea.
  2:{ exfalso. vm_compute in E. injection E as <-. vm_compute in Ea. discriminate. }
  destruct (o_lookup a [0]%nat) as [n|] eqn:En.
  2:{ exfalso. vm_compute in E. injection E as <-. vm_compute in Ea.
      injection Ea as <-. vm_compute in En. discriminate. }
  exists octree, a, n. split; [reflexivity|]. split; [exact Ea|]. split; [exact En|].
  destruct (octree_boxes_nested 0 8 0 8 0 4
              [Examples.square1; Examples.square2; Examples.square3]
              10 octree [0]%nat [0]%nat a n) as (_ & H1 & _ & H2 & _);
    try exact E; try exact Ea; try exact En; try (unfold Qle; simpl; lia).
  split; [exact H1|exact H2].
Defined.

(** ** Octree: when insertion returns *)


















